(** * Chessie engine core: a shallow embedding of the C++ sources

    The development follows the layering of the engine: primitive types
    (types.hpp), bitboards (bitboard.hpp), pieces and the board (piece.hpp,
    board.hpp), Zobrist keys (zobrist.hpp), moves (move.hpp), positions
    (position.hpp, position.cpp), slider attacks (magic.cpp), move generation
    (movegen.cpp), the transposition table (tt.hpp, tt.cpp) and the root of
    the search (search.hpp, search.cpp).

    Conventions.  Unsigned machine integers are modelled by [Z] and every
    operation that can leave the range is followed by an explicit reduction
    ([u8], [u32], [u64]); [int] values are kept in range by [wrap_int].
    C arrays are lists read with [!!!] and written with [<[ i := x ]>];
    [std::vector::push_back] is [++ [x]] and [pop_back] is [removelast].
    A [MoveList] is the list of the moves pushed so far. *)

From Stdlib Require Import ZArith Lia List Bool Ascii String Sorted Permutation.
From stdpp Require Import base decidable list strings.

Local Open Scope Z_scope.

(** ** Machine integers *)

Definition u8 (z : Z) : Z := z mod 256.
Definition u32 (z : Z) : Z := z mod 2 ^ 32.
Definition u64 (z : Z) : Z := z mod 2 ^ 64.
Definition i16 (z : Z) : Z := (z + 2 ^ 15) mod 2 ^ 16 - 2 ^ 15.
Definition kIntMin : Z := - 2 ^ 31.
Definition kIntMax : Z := 2 ^ 31 - 1.
Definition wrap_int (z : Z) : Z := (z + 2 ^ 31) mod 2 ^ 32 - 2 ^ 31.
Definition in_int (z : Z) : Prop := kIntMin <= z <= kIntMax.

(** ** types.hpp *)

Definition Square := Z.

Definition kNoSquare : Square := 64.

Definition file_of (sq : Square) : Z := Z.land sq 7.
Definition rank_of (sq : Square) : Z := Z.shiftr sq 3.
Definition make_square (file rank : Z) : Square := u8 (rank * 8 + file).
Definition is_valid_square (sq : Z) : bool := (0 <=? sq) && (sq <? 64).

Definition A1 : Square := 0.
Definition B1 : Square := 1.
Definition C1 : Square := 2.
Definition D1 : Square := 3.
Definition E1 : Square := 4.
Definition F1 : Square := 5.
Definition G1 : Square := 6.
Definition H1 : Square := 7.
Definition A8 : Square := 56.
Definition B8 : Square := 57.
Definition C8 : Square := 58.
Definition D8 : Square := 59.
Definition E8 : Square := 60.
Definition F8 : Square := 61.
Definition G8 : Square := 62.
Definition H8 : Square := 63.

Inductive Color := White | Black.

Definition opposite (c : Color) : Color :=
  match c with White => Black | Black => White end.

Definition color_index (c : Color) : Z :=
  match c with White => 0 | Black => 1 end.

(** [PieceType::None] is spelled [PtNone]: [None] is the option constructor. *)
Inductive PieceType := PtNone | Pawn | Knight | Bishop | Rook | Queen | King.

Definition piece_type_code (pt : PieceType) : Z :=
  match pt with
  | PtNone => 0 | Pawn => 1 | Knight => 2 | Bishop => 3
  | Rook => 4 | Queen => 5 | King => 6
  end.

Definition kNumPieceTypes : Z := 6.

Definition piece_index (pt : PieceType) : Z := piece_type_code pt - 1.

Inductive MoveFlag :=
  Normal | DoublePawn | EnPassant | CastleKingside | CastleQueenside | Promotion.

(** [CastlingRights] is a four-bit mask. *)
Definition CastlingRights := Z.

Definition kCastlingNone : CastlingRights := 0.
Definition kWhiteKingside : CastlingRights := 1.
Definition kWhiteQueenside : CastlingRights := 2.
Definition kBlackKingside : CastlingRights := 4.
Definition kBlackQueenside : CastlingRights := 8.
Definition kWhiteBoth : CastlingRights := Z.lor kWhiteKingside kWhiteQueenside.
Definition kBlackBoth : CastlingRights := Z.lor kBlackKingside kBlackQueenside.
Definition kCastlingAll : CastlingRights := Z.lor kWhiteBoth kBlackBoth.

(** [operator~] on rights: complement within the four bits. *)
Definition cr_not (a : CastlingRights) : CastlingRights := Z.land (Z.lnot a) 15.

#[global] Instance Color_eq_dec : EqDecision Color.
Proof. solve_decision. Defined.
#[global] Instance PieceType_eq_dec : EqDecision PieceType.
Proof. solve_decision. Defined.
#[global] Instance MoveFlag_eq_dec : EqDecision MoveFlag.
Proof. solve_decision. Defined.

(** ** Characters and strings

    A [char] is an [ascii]; its integer value is [char_code]. *)

Definition char_code (c : ascii) : Z := Z.of_nat (nat_of_ascii c).
Definition char_of_code (z : Z) : ascii := ascii_of_nat (Z.to_nat z).

Definition square_name (sq : Square) : string :=
  String (char_of_code (char_code "a" + file_of sq))
    (String (char_of_code (char_code "1" + rank_of sq)) EmptyString).

Definition parse_square (name : string) : Square :=
  match name with
  | String c0 (String c1 EmptyString) =>
      let f := char_code c0 - char_code "a" in
      let r := char_code c1 - char_code "1" in
      if (f <? 0) || (7 <? f) || (r <? 0) || (7 <? r) then kNoSquare
      else make_square f r
  | _ => kNoSquare
  end.

(** ** bitboard.hpp *)

Definition Bitboard := Z.

Definition kEmptyBB : Bitboard := 0.
Definition kFullBB : Bitboard := Z.ones 64.

(** [~b] on a 64-bit word. *)
Definition bb_not (b : Bitboard) : Bitboard := Z.lxor b kFullBB.

Definition square_bb (sq : Square) : Bitboard := u64 (Z.shiftl 1 sq).

Fixpoint pos_popcount (p : positive) : Z :=
  match p with
  | xH => 1
  | xO q => pos_popcount q
  | xI q => 1 + pos_popcount q
  end.

Definition popcount (b : Bitboard) : Z :=
  match b with Zpos p => pos_popcount p | _ => 0 end.

(** [std::countr_zero]: the number of trailing zero bits, 64 on the zero word. *)
Fixpoint pos_countr_zero (p : positive) : Z :=
  match p with
  | xO q => 1 + pos_countr_zero q
  | _ => 0
  end.

Definition countr_zero (b : Bitboard) : Z :=
  match b with Zpos p => pos_countr_zero p | _ => 64 end.

Definition lsb (b : Bitboard) : Square := u8 (countr_zero b).

(** [pop_lsb] returns the square and the word with its lowest bit cleared. *)
Definition pop_lsb (b : Bitboard) : Square * Bitboard :=
  (lsb b, Z.land b (u64 (b - 1))).

Definition test_bit (b : Bitboard) (sq : Square) : bool :=
  negb (Z.land (Z.shiftr b sq) 1 =? 0).

Definition set_bit (b : Bitboard) (sq : Square) : Bitboard :=
  Z.lor b (square_bb sq).

Definition clear_bit (b : Bitboard) (sq : Square) : Bitboard :=
  Z.land b (bb_not (square_bb sq)).

Definition kFileA : Bitboard := 0x0101010101010101.
Definition kFileB : Bitboard := Z.shiftl kFileA 1.
Definition kFileG : Bitboard := Z.shiftl kFileA 6.
Definition kFileH : Bitboard := Z.shiftl kFileA 7.

Definition kRank1 : Bitboard := 0xFF.
Definition kRank3 : Bitboard := Z.shiftl kRank1 16.
Definition kRank6 : Bitboard := Z.shiftl kRank1 40.
Definition kRank8 : Bitboard := Z.shiftl kRank1 56.

Definition shl64 (b : Bitboard) (n : Z) : Bitboard := u64 (Z.shiftl b n).
Definition shr64 (b : Bitboard) (n : Z) : Bitboard := Z.shiftr b n.

Definition shift_north (b : Bitboard) : Bitboard := shl64 b 8.
Definition shift_south (b : Bitboard) : Bitboard := shr64 b 8.
Definition shift_east (b : Bitboard) : Bitboard := Z.land (shl64 b 1) (bb_not kFileA).
Definition shift_west (b : Bitboard) : Bitboard := Z.land (shr64 b 1) (bb_not kFileH).
Definition shift_ne (b : Bitboard) : Bitboard := Z.land (shl64 b 9) (bb_not kFileA).
Definition shift_nw (b : Bitboard) : Bitboard := Z.land (shl64 b 7) (bb_not kFileH).
Definition shift_se (b : Bitboard) : Bitboard := Z.land (shr64 b 7) (bb_not kFileA).
Definition shift_sw (b : Bitboard) : Bitboard := Z.land (shr64 b 9) (bb_not kFileH).

(** The [while (bb) { sq = pop_lsb(bb); ... }] loops of the generator visit
    the squares returned by successive [pop_lsb] calls.  A 64-bit word has at
    most 64 set bits, which bounds the number of iterations
    ([pop_squares_bits] shows that no square is lost). *)
Fixpoint pop_loop (fuel : nat) (b : Bitboard) : list Square :=
  match fuel with
  | O => []
  | S fuel' =>
      if b =? 0 then []
      else let '(sq, b') := pop_lsb b in sq :: pop_loop fuel' b'
  end.

Definition pop_squares (b : Bitboard) : list Square := pop_loop 64 b.

(** The attack tables of the non-sliding pieces are filled at compile time
    by the functions below, one entry per square; a table lookup is modelled
    by the function that computes the entry. *)
Definition knight_attacks (sq : Square) : Bitboard :=
  let bb := square_bb sq in
  let attacks := kEmptyBB in
  let attacks := Z.lor attacks (Z.land (shl64 bb 17) (bb_not kFileA)) in
  let attacks := Z.lor attacks (Z.land (shl64 bb 15) (bb_not kFileH)) in
  let attacks := Z.lor attacks (Z.land (shl64 bb 10) (bb_not (Z.lor kFileA kFileB))) in
  let attacks := Z.lor attacks (Z.land (shl64 bb 6) (bb_not (Z.lor kFileG kFileH))) in
  let attacks := Z.lor attacks (Z.land (shr64 bb 6) (bb_not (Z.lor kFileA kFileB))) in
  let attacks := Z.lor attacks (Z.land (shr64 bb 10) (bb_not (Z.lor kFileG kFileH))) in
  let attacks := Z.lor attacks (Z.land (shr64 bb 15) (bb_not kFileA)) in
  let attacks := Z.lor attacks (Z.land (shr64 bb 17) (bb_not kFileH)) in
  attacks.

Definition king_attacks (sq : Square) : Bitboard :=
  let bb := square_bb sq in
  let attacks := kEmptyBB in
  let attacks := Z.lor attacks (shift_north bb) in
  let attacks := Z.lor attacks (shift_south bb) in
  let attacks := Z.lor attacks (shift_east bb) in
  let attacks := Z.lor attacks (shift_west bb) in
  let attacks := Z.lor attacks (shift_ne bb) in
  let attacks := Z.lor attacks (shift_nw bb) in
  let attacks := Z.lor attacks (shift_se bb) in
  let attacks := Z.lor attacks (shift_sw bb) in
  attacks.

Definition pawn_attacks (c : Color) (sq : Square) : Bitboard :=
  let bb := square_bb sq in
  match c with
  | White => Z.lor (shift_ne bb) (shift_nw bb)
  | Black => Z.lor (shift_se bb) (shift_sw bb)
  end.

(** ** piece.hpp *)

Record Piece := mkPiece { color : Color; type : PieceType }.

#[global] Instance Piece_eq_dec : EqDecision Piece.
Proof. solve_decision. Defined.

Definition kNoPiece : Piece := mkPiece White PtNone.

#[global] Instance Piece_inhabited : Inhabited Piece := populate kNoPiece.

Definition from_fen_char (ch : ascii) : Piece :=
  if decide (ch = "P"%char) then mkPiece White Pawn
  else if decide (ch = "N"%char) then mkPiece White Knight
  else if decide (ch = "B"%char) then mkPiece White Bishop
  else if decide (ch = "R"%char) then mkPiece White Rook
  else if decide (ch = "Q"%char) then mkPiece White Queen
  else if decide (ch = "K"%char) then mkPiece White King
  else if decide (ch = "p"%char) then mkPiece Black Pawn
  else if decide (ch = "n"%char) then mkPiece Black Knight
  else if decide (ch = "b"%char) then mkPiece Black Bishop
  else if decide (ch = "r"%char) then mkPiece Black Rook
  else if decide (ch = "q"%char) then mkPiece Black Queen
  else if decide (ch = "k"%char) then mkPiece Black King
  else mkPiece White PtNone.

(** ** board.hpp

    [pieces_] is the array [Bitboard pieces_[2][6]] in row-major order,
    [occupied_] the array [Bitboard occupied_[2]] and [mailbox_] the array
    [Piece mailbox_[64]].  [piece_index] of [PtNone] is -1, which is outside
    the bounds of a row: the C++ operations are only defined on squares that
    hold a piece, and the statements below are restricted to those. *)

Record Board := mkBoard {
  pieces_ : list Bitboard;
  occupied_ : list Bitboard;
  occupied_all_ : Bitboard;
  mailbox_ : list Piece
}.

Definition pieces_slot (ci pi : Z) : nat := Z.to_nat (ci * 6 + pi).

Definition put_piece (sq : Square) (p : Piece) (b : Board) : Board :=
  let ci := color_index (color p) in
  let pi := piece_index (type p) in
  {| pieces_ := alter (fun bb => set_bit bb sq) (pieces_slot ci pi) (pieces_ b);
     occupied_ := alter (fun bb => set_bit bb sq) (Z.to_nat ci) (occupied_ b);
     occupied_all_ := set_bit (occupied_all_ b) sq;
     mailbox_ := <[Z.to_nat sq := p]> (mailbox_ b) |}.

Definition piece_at (b : Board) (sq : Square) : Piece :=
  mailbox_ b !!! Z.to_nat sq.

Definition remove_piece (sq : Square) (b : Board) : Board :=
  let p := piece_at b sq in
  let ci := color_index (color p) in
  let pi := piece_index (type p) in
  {| pieces_ := alter (fun bb => clear_bit bb sq) (pieces_slot ci pi) (pieces_ b);
     occupied_ := alter (fun bb => clear_bit bb sq) (Z.to_nat ci) (occupied_ b);
     occupied_all_ := clear_bit (occupied_all_ b) sq;
     mailbox_ := <[Z.to_nat sq := kNoPiece]> (mailbox_ b) |}.

Definition is_empty (b : Board) (sq : Square) : bool :=
  bool_decide (type (piece_at b sq) = PtNone).

Definition pieces (b : Board) (c : Color) (pt : PieceType) : Bitboard :=
  pieces_ b !!! pieces_slot (color_index c) (piece_index pt).

Definition occupied (b : Board) (c : Color) : Bitboard :=
  occupied_ b !!! Z.to_nat (color_index c).

Definition occupied_all (b : Board) : Bitboard := occupied_all_ b.

Definition king_square (b : Board) (c : Color) : Square :=
  lsb (pieces b c King).

(** [Board::clear], the state built by the default constructor. *)
Definition empty_board : Board :=
  {| pieces_ := replicate 12 kEmptyBB;
     occupied_ := replicate 2 kEmptyBB;
     occupied_all_ := kEmptyBB;
     mailbox_ := replicate 64 kNoPiece |}.

(** ** zobrist.hpp *)

Module zobrist.

Definition kSeed : Z := 0xA5B3C7D9E1F23412.
Definition kMask64 : Z := 0xFFFFFFFFFFFFFFFF.

Definition splitmix64 (state : Z) : Z :=
  let z := Z.land (u64 (state + 0x9E3779B97F4A7C15)) kMask64 in
  let z := Z.land (u64 (Z.lxor z (Z.shiftr z 30) * 0xBF58476D1CE4E5B9)) kMask64 in
  let z := Z.land (u64 (Z.lxor z (Z.shiftr z 27) * 0x94D049BB133111EB)) kMask64 in
  Z.lxor z (Z.shiftr z 31).

Definition nth_key (index : Z) : Z := splitmix64 (u64 (kSeed + u64 index)).

(** [kKeys] holds [nth_key] of the index written next to each table in
    [compute_keys]; a lookup is modelled by that computation. *)
Definition piece_key (c : Color) (pt : PieceType) (sq : Square) : Z :=
  nth_key (color_index c * 384 + piece_index pt * 64 + sq).

Definition side_to_move_key : Z := nth_key (2 * 6 * 64).

Definition castling_key (cr : CastlingRights) : Z :=
  nth_key (2 * 6 * 64 + 1 + Z.land cr 15).

Definition en_passant_key (sq : Square) : Z :=
  nth_key (2 * 6 * 64 + 1 + 16 + sq).

End zobrist.

(** ** move.hpp *)

Record Move := mkMove {
  from_sq : Square;
  to_sq : Square;
  flag : MoveFlag;
  promotion : PieceType
}.

#[global] Instance Move_eq_dec : EqDecision Move.
Proof. solve_decision. Defined.

Definition kNullMove : Move := mkMove 0 0 Normal PtNone.

#[global] Instance Move_inhabited : Inhabited Move := populate kNullMove.

Definition is_null (m : Move) : bool :=
  (from_sq m =? 0) && (to_sq m =? 0) && bool_decide (flag m = Normal)
  && bool_decide (promotion m = PtNone).

Definition kPromoChars : list ascii :=
  [" "; " "; "n"; "b"; "r"; "q"; " "]%char.

Definition uci (m : Move) : string :=
  let s := (square_name (from_sq m) ++ square_name (to_sq m))%string in
  if bool_decide (promotion m = PtNone) then s
  else (s ++ String (nth (Z.to_nat (piece_type_code (promotion m))) kPromoChars " "%char)
               EmptyString)%string.

Definition substr (s : string) (pos len : nat) : string := String.substring pos len s.

Definition from_uci (uci_str : string) : Move :=
  if (String.length uci_str <? 4)%nat then kNullMove
  else
    let from := parse_square (substr uci_str 0 2) in
    let to := parse_square (substr uci_str 2 2) in
    if (from =? kNoSquare) || (to =? kNoSquare) then kNullMove
    else
      let m := mkMove from to Normal PtNone in
      if (5 <=? String.length uci_str)%nat then
        let m := mkMove (from_sq m) (to_sq m) Promotion (promotion m) in
        match String.get 4 uci_str with
        | Some "n"%char => mkMove (from_sq m) (to_sq m) (flag m) Knight
        | Some "b"%char => mkMove (from_sq m) (to_sq m) (flag m) Bishop
        | Some "r"%char => mkMove (from_sq m) (to_sq m) (flag m) Rook
        | Some "q"%char => mkMove (from_sq m) (to_sq m) (flag m) Queen
        | _ => m
        end
      else m.

Definition MoveList := list Move.

(** ** position.hpp *)

Record UndoInfo := mkUndo {
  undo_castling : CastlingRights;
  undo_en_passant : Square;
  undo_halfmove_clock : Z;
  undo_captured : Piece;
  undo_key : Z
}.

#[global] Instance UndoInfo_inhabited : Inhabited UndoInfo :=
  populate (mkUndo kCastlingNone kNoSquare 0 kNoPiece 0).

Definition castling_mask_for (sq : Z) : CastlingRights :=
  if sq =? A1 then Z.land kCastlingAll (cr_not kWhiteQueenside)
  else if sq =? H1 then Z.land kCastlingAll (cr_not kWhiteKingside)
  else if sq =? E1 then Z.land kCastlingAll (cr_not kWhiteBoth)
  else if sq =? A8 then Z.land kCastlingAll (cr_not kBlackQueenside)
  else if sq =? H8 then Z.land kCastlingAll (cr_not kBlackKingside)
  else if sq =? E8 then Z.land kCastlingAll (cr_not kBlackBoth)
  else kCastlingAll.

(** [detail::kCastleMask[sq]], filled from [castling_mask_for]. *)
Definition kCastleMask (sq : Square) : CastlingRights := castling_mask_for sq.

Record Position := mkPosition {
  board_ : Board;
  side_to_move_ : Color;
  castling_ : CastlingRights;
  en_passant_ : Square;
  halfmove_clock_ : Z;
  fullmove_number_ : Z;
  key_ : Z;
  history_ : list UndoInfo;
  key_history_ : list Z
}.

Definition board (p : Position) : Board := board_ p.
Definition side_to_move (p : Position) : Color := side_to_move_ p.
Definition castling (p : Position) : CastlingRights := castling_ p.
Definition en_passant (p : Position) : Square := en_passant_ p.
Definition halfmove_clock (p : Position) : Z := halfmove_clock_ p.
Definition fullmove_number (p : Position) : Z := fullmove_number_ p.
Definition key (p : Position) : Z := key_ p.

(** Field updates, one per assignment form used in position.cpp. *)
Definition set_board (b : Board) (p : Position) : Position :=
  mkPosition b (side_to_move_ p) (castling_ p) (en_passant_ p) (halfmove_clock_ p)
    (fullmove_number_ p) (key_ p) (history_ p) (key_history_ p).
Definition set_side (c : Color) (p : Position) : Position :=
  mkPosition (board_ p) c (castling_ p) (en_passant_ p) (halfmove_clock_ p)
    (fullmove_number_ p) (key_ p) (history_ p) (key_history_ p).
Definition set_castling_field (cr : CastlingRights) (p : Position) : Position :=
  mkPosition (board_ p) (side_to_move_ p) cr (en_passant_ p) (halfmove_clock_ p)
    (fullmove_number_ p) (key_ p) (history_ p) (key_history_ p).
Definition set_en_passant_field (ep : Square) (p : Position) : Position :=
  mkPosition (board_ p) (side_to_move_ p) (castling_ p) ep (halfmove_clock_ p)
    (fullmove_number_ p) (key_ p) (history_ p) (key_history_ p).
Definition set_halfmove (h : Z) (p : Position) : Position :=
  mkPosition (board_ p) (side_to_move_ p) (castling_ p) (en_passant_ p) h
    (fullmove_number_ p) (key_ p) (history_ p) (key_history_ p).
Definition set_fullmove (f : Z) (p : Position) : Position :=
  mkPosition (board_ p) (side_to_move_ p) (castling_ p) (en_passant_ p) (halfmove_clock_ p)
    f (key_ p) (history_ p) (key_history_ p).
Definition set_key (k : Z) (p : Position) : Position :=
  mkPosition (board_ p) (side_to_move_ p) (castling_ p) (en_passant_ p) (halfmove_clock_ p)
    (fullmove_number_ p) k (history_ p) (key_history_ p).
Definition set_history (h : list UndoInfo) (p : Position) : Position :=
  mkPosition (board_ p) (side_to_move_ p) (castling_ p) (en_passant_ p) (halfmove_clock_ p)
    (fullmove_number_ p) (key_ p) h (key_history_ p).
Definition set_key_history (h : list Z) (p : Position) : Position :=
  mkPosition (board_ p) (side_to_move_ p) (castling_ p) (en_passant_ p) (halfmove_clock_ p)
    (fullmove_number_ p) (key_ p) (history_ p) h.

(** ** position.cpp: private helpers *)

Definition toggle_piece_hash (pc : Piece) (sq : Square) (p : Position) : Position :=
  set_key (Z.lxor (key_ p) (zobrist.piece_key (color pc) (type pc) sq)) p.

Definition toggle_side_hash (p : Position) : Position :=
  set_key (Z.lxor (key_ p) zobrist.side_to_move_key) p.

Definition set_castling (cr : CastlingRights) (p : Position) : Position :=
  if cr =? castling_ p then p
  else
    let p := set_key (Z.lxor (key_ p) (zobrist.castling_key (castling_ p))) p in
    let p := set_castling_field cr p in
    set_key (Z.lxor (key_ p) (zobrist.castling_key (castling_ p))) p.

Definition set_en_passant (ep : Square) (p : Position) : Position :=
  if ep =? en_passant_ p then p
  else
    let p := if negb (en_passant_ p =? kNoSquare)
             then set_key (Z.lxor (key_ p) (zobrist.en_passant_key (en_passant_ p))) p
             else p in
    let p := set_en_passant_field ep p in
    if negb (en_passant_ p =? kNoSquare)
    then set_key (Z.lxor (key_ p) (zobrist.en_passant_key (en_passant_ p))) p
    else p.

(** The loop of [compute_key] over the 64 mailbox slots, from square [sq]. *)
Fixpoint hash_squares (b : Board) (sq : Square) (n : nat) (k : Z) : Z :=
  match n with
  | O => k
  | S n' =>
      let pc := piece_at b sq in
      let k := if bool_decide (pc = kNoPiece) then k
               else Z.lxor k (zobrist.piece_key (color pc) (type pc) sq) in
      hash_squares b (sq + 1) n' k
  end.

Definition compute_key (p : Position) : Position :=
  let k := 0 in
  let k := Z.lxor k (zobrist.castling_key (castling_ p)) in
  let k := if bool_decide (side_to_move_ p = Black)
           then Z.lxor k zobrist.side_to_move_key else k in
  let k := if negb (en_passant_ p =? kNoSquare)
           then Z.lxor k (zobrist.en_passant_key (en_passant_ p)) else k in
  let k := hash_squares (board_ p) 0 64 k in
  set_key_history [k] (set_key k p).

(** ** position.cpp: constructors *)

Definition new_position (b : Board) (side : Color) (cr : CastlingRights) (ep : Square)
    (halfmove fullmove : Z) : Position :=
  compute_key (mkPosition b side cr ep halfmove fullmove 0 [] []).

Definition default_position : Position :=
  compute_key (mkPosition empty_board White kCastlingNone kNoSquare 0 1 0 [] []).

(** ** position.cpp: parsing a descriptor

    [std::invalid_argument] is modelled by the [Err] result, which carries
    the message of the exception. *)

Inductive result (A : Type) : Type :=
| Ok (a : A)
| Err (msg : string).
Arguments Ok {A} a.
Arguments Err {A} msg.

Definition bind {A B : Type} (r : result A) (k : A -> result B) : result B :=
  match r with
  | Ok a => k a
  | Err msg => Err msg
  end.

Notation "'attempt' x <- r ; k" := (bind r (fun x => k))
  (at level 10, x name, r at level 100, k at level 200).

Definition string_of_char (c : ascii) : string := String c EmptyString.

(** [split_spaces]: the two inner loops skip spaces and collect a part;
    [cur] is the part being collected and [in_part] tells whether one has
    started.  [max_parts] only sizes the reservation. *)
Fixpoint split_loop (sv : string) (cur : string) (in_part : bool) : list string :=
  match sv with
  | EmptyString => if in_part then [cur] else []
  | String c sv' =>
      if decide (c = " "%char) then
        if in_part then cur :: split_loop sv' EmptyString false
        else split_loop sv' EmptyString false
      else split_loop sv' (cur ++ string_of_char c)%string true
  end.

Definition split_spaces (sv : string) : list string := split_loop sv EmptyString false.

Definition is_digit (c : ascii) : bool :=
  (char_code "0" <=? char_code c) && (char_code c <=? char_code "9").

(** [std::from_chars] for [int] in base 10: an optional minus sign, then the
    longest run of digits.  It reports the value and the unread rest, or one
    of its two errors. *)
Inductive from_chars_result :=
| FcValue (val : Z) (rest : string)
| FcInvalidArgument
| FcOutOfRange.

Fixpoint digits_loop (sv : string) (acc : Z) (seen : bool) : Z * bool * string :=
  match sv with
  | String c sv' =>
      if is_digit c
      then digits_loop sv' (acc * 10 + (char_code c - char_code "0")) true
      else (acc, seen, sv)
  | EmptyString => (acc, seen, sv)
  end.

Definition from_chars (sv : string) : from_chars_result :=
  let '(negative, body) :=
    match sv with
    | String "-"%char sv' => (true, sv')
    | _ => (false, sv)
    end in
  let '(magnitude, seen, rest) := digits_loop body 0 false in
  if negb seen then FcInvalidArgument
  else
    let val := if negative then - magnitude else magnitude in
    if (val <? kIntMin) || (kIntMax <? val) then FcOutOfRange
    else FcValue val rest.

Definition parse_int (sv : string) (min_val : Z) : result Z :=
  match from_chars sv with
  | FcValue val EmptyString =>
      if val <? min_val then Err ("Integer out of range in FEN: " ++ sv)%string
      else Ok val
  | _ => Err ("Invalid integer in FEN: " ++ sv)%string
  end.

(** The loop of [from_fen] over the placement field, on the state
    [(board, rank, file)]. *)
Fixpoint placement_loop (fen : string) (placement : string) (b : Board) (rank file : Z)
    : result (Board * Z * Z) :=
  match placement with
  | EmptyString => Ok (b, rank, file)
  | String ch rest =>
      if decide (ch = "/"%char) then
        if negb (file =? 8) then Err ("Invalid FEN rank width: " ++ fen)%string
        else
          let rank := rank - 1 in
          let file := 0 in
          if rank <? 0 then Err ("Too many ranks in FEN: " ++ fen)%string
          else placement_loop fen rest b rank file
      else if (char_code "1" <=? char_code ch) && (char_code ch <=? char_code "8") then
        let file := file + (char_code ch - char_code "0") in
        if 8 <? file then Err ("Invalid FEN rank width: " ++ fen)%string
        else placement_loop fen rest b rank file
      else
        if 8 <=? file then Err ("Invalid FEN rank width: " ++ fen)%string
        else
          let p := from_fen_char ch in
          if bool_decide (type p = PtNone)
          then Err ("Invalid FEN piece char: " ++ string_of_char ch)%string
          else placement_loop fen rest (put_piece (make_square file rank) p b) rank (file + 1)
  end.

Fixpoint castling_loop (field : string) (cr : CastlingRights) : result CastlingRights :=
  match field with
  | EmptyString => Ok cr
  | String ch rest =>
      if decide (ch = "K"%char) then castling_loop rest (Z.lor cr kWhiteKingside)
      else if decide (ch = "Q"%char) then castling_loop rest (Z.lor cr kWhiteQueenside)
      else if decide (ch = "k"%char) then castling_loop rest (Z.lor cr kBlackKingside)
      else if decide (ch = "q"%char) then castling_loop rest (Z.lor cr kBlackQueenside)
      else Err ("Invalid castling char in FEN: " ++ string_of_char ch)%string
  end.

Definition part (parts : list string) (i : nat) : string := nth i parts EmptyString.

Definition from_fen (fen : string) : result Position :=
  let parts := split_spaces fen in
  if (length parts <? 4)%nat || (6 <? length parts)%nat
  then Err ("Invalid FEN (need 4-6 fields): " ++ fen)%string
  else
    (* 1. Piece placement *)
    attempt st <- placement_loop fen (part parts 0) empty_board 7 0 ;
    let '(b, rank, file) := st in
    if negb (rank =? 0) || negb (file =? 8)
    then Err ("Invalid FEN board placement: " ++ fen)%string
    else
      (* 2. Side to move *)
      attempt side <- (if String.eqb (part parts 1) "w" then Ok White
               else if String.eqb (part parts 1) "b" then Ok Black
               else Err ("Invalid FEN side-to-move: " ++ part parts 1)%string) ;
      (* 3. Castling rights *)
      attempt cr <- (if negb (String.eqb (part parts 2) "-")
             then castling_loop (part parts 2) kCastlingNone
             else Ok kCastlingNone) ;
      (* 4. En passant *)
      attempt ep <- (if negb (String.eqb (part parts 3) "-") then
               let ep := parse_square (part parts 3) in
               if ep =? kNoSquare
               then Err ("Invalid FEN en-passant square: " ++ part parts 3)%string
               else Ok ep
             else Ok kNoSquare) ;
      (* 5-6. Clocks (optional) *)
      attempt halfmove <- (if (4 <? length parts)%nat then parse_int (part parts 4) 0 else Ok 0) ;
      attempt fullmove <- (if (5 <? length parts)%nat then parse_int (part parts 5) 1 else Ok 1) ;
      Ok (new_position b side cr ep halfmove fullmove).

Definition kStartingFen : string :=
  "rnbqkbnr/pppppppp/8/8/8/8/PPPPPPPP/RNBQKBNR w KQkq - 0 1".

(** [Position::initial]; the starting descriptor parses ([initial_parses]). *)
Definition initial : Position :=
  match from_fen kStartingFen with
  | Ok p => p
  | Err _ => default_position
  end.

(** ** position.cpp: make_move and unmake_move

    Each block of the two functions is a step on the position; the values
    read at the top of [make_move] (moving piece, capture square, captured
    piece) are computed once and passed to the steps that use them. *)

(** A call [board_.f(...)]. *)
Definition on_board (f : Board -> Board) (p : Position) : Position :=
  set_board (f (board_ p)) p.

(** [history_.push_back({castling_, en_passant_, halfmove_clock_, captured, key_})] *)
Definition save_undo (captured : Piece) (p : Position) : Position :=
  set_history
    (history_ p ++
     [mkUndo (castling_ p) (en_passant_ p) (halfmove_clock_ p) captured (key_ p)]) p.

(** [toggle_piece_hash(pc, sq); board_.remove_piece(sq);] *)
Definition remove_hashed (pc : Piece) (sq : Square) (p : Position) : Position :=
  on_board (remove_piece sq) (toggle_piece_hash pc sq p).

(** [board_.put_piece(sq, pc); toggle_piece_hash(pc, sq);] *)
Definition place_hashed (pc : Piece) (sq : Square) (p : Position) : Position :=
  toggle_piece_hash pc sq (on_board (put_piece sq pc) p).

(** The rook slide of a castling move, with its two hash toggles. *)
Definition slide_rook (rook_from rook_to : Square) (p : Position) : Position :=
  let rook := piece_at (board_ p) rook_from in
  place_hashed rook rook_to (remove_hashed rook rook_from p).

Definition castle_rook (m : Move) (p : Position) : Position :=
  if bool_decide (flag m = CastleKingside) then
    let r := rank_of (from_sq m) in
    slide_rook (make_square 7 r) (make_square 5 r) p
  else if bool_decide (flag m = CastleQueenside) then
    let r := rank_of (from_sq m) in
    slide_rook (make_square 0 r) (make_square 3 r) p
  else p.

Definition update_en_passant (m : Move) (p : Position) : Position :=
  if bool_decide (flag m = DoublePawn) then
    set_en_passant
      (make_square (file_of (from_sq m))
         ((rank_of (from_sq m) + rank_of (to_sq m)) `quot` 2)) p
  else set_en_passant kNoSquare p.

Definition update_castling (m : Move) (p : Position) : Position :=
  set_castling
    (Z.land (Z.land (castling_ p) (kCastleMask (from_sq m))) (kCastleMask (to_sq m))) p.

Definition update_clocks (piece captured : Piece) (p : Position) : Position :=
  let p := if bool_decide (type piece = Pawn) || bool_decide (captured <> kNoPiece)
           then set_halfmove 0 p
           else set_halfmove (wrap_int (halfmove_clock_ p + 1)) p in
  if bool_decide (side_to_move_ p = Black)
  then set_fullmove (wrap_int (fullmove_number_ p + 1)) p
  else p.

Definition switch_side (p : Position) : Position :=
  toggle_side_hash (set_side (opposite (side_to_move_ p)) p).

Definition record_key (p : Position) : Position :=
  set_key_history (key_history_ p ++ [key_ p]) p.

Definition capture_square (m : Move) : Square :=
  if bool_decide (flag m = EnPassant)
  then make_square (file_of (to_sq m)) (rank_of (from_sq m))
  else to_sq m.

Definition captured_piece (m : Move) (p : Position) : Piece :=
  if bool_decide (flag m = EnPassant)
  then piece_at (board_ p) (capture_square m)
  else piece_at (board_ p) (to_sq m).

Definition placed_piece (m : Move) (piece : Piece) : Piece :=
  if bool_decide (flag m = Promotion) && bool_decide (promotion m <> PtNone)
  then mkPiece (color piece) (promotion m)
  else piece.

Definition make_move (m : Move) (p : Position) : Position :=
  let piece := piece_at (board_ p) (from_sq m) in
  (* Determine capture *)
  let capture_sq := capture_square m in
  let captured := captured_piece m p in
  (* Save undo state *)
  let p := save_undo captured p in
  (* Remove moving piece from origin *)
  let p := remove_hashed piece (from_sq m) p in
  (* Remove captured piece *)
  let p := if bool_decide (captured <> kNoPiece)
           then remove_hashed captured capture_sq p
           else p in
  (* Determine placed piece (handle promotion); place piece at destination *)
  let p := place_hashed (placed_piece m piece) (to_sq m) p in
  (* Slide the rook for castling *)
  let p := castle_rook m p in
  (* En passant target for next move *)
  let p := update_en_passant m p in
  (* Castling rights update via mask table *)
  let p := update_castling m p in
  (* Clocks *)
  let p := update_clocks piece captured p in
  (* Switch side *)
  let p := switch_side p in
  (* Record key for repetition detection *)
  record_key p.

(** [key_history_.pop_back(); undo = history_.back(); history_.pop_back();] *)
Definition pop_history (p : Position) : Position :=
  set_history (removelast (history_ p))
    (set_key_history (removelast (key_history_ p)) p).

Definition unswitch_side (p : Position) : Position :=
  let p := set_side (opposite (side_to_move_ p)) p in
  if bool_decide (side_to_move_ p = Black)
  then set_fullmove (wrap_int (fullmove_number_ p - 1)) p
  else p.

(** The piece on the destination goes back to the origin, as a pawn when the
    move was a promotion. *)
Definition restore_origin (m : Move) (b : Board) : Board :=
  let placed := piece_at b (to_sq m) in
  let original :=
    if bool_decide (flag m = Promotion) then mkPiece (color placed) Pawn else placed in
  put_piece (from_sq m) original (remove_piece (to_sq m) b).

Definition restore_captured (m : Move) (undo : UndoInfo) (b : Board) : Board :=
  if bool_decide (undo_captured undo <> kNoPiece) then
    if bool_decide (flag m = EnPassant) then
      let capture_sq := make_square (file_of (to_sq m)) (rank_of (from_sq m)) in
      put_piece capture_sq (undo_captured undo) b
    else put_piece (to_sq m) (undo_captured undo) b
  else b.

(** The reverse rook slide; no hashing on the way back. *)
Definition unslide_rook (rook_at rook_home : Square) (b : Board) : Board :=
  let rook := piece_at b rook_at in
  put_piece rook_home rook (remove_piece rook_at b).

Definition uncastle_rook (m : Move) (b : Board) : Board :=
  if bool_decide (flag m = CastleKingside) then
    let r := rank_of (from_sq m) in
    unslide_rook (make_square 5 r) (make_square 7 r) b
  else if bool_decide (flag m = CastleQueenside) then
    let r := rank_of (from_sq m) in
    unslide_rook (make_square 3 r) (make_square 0 r) b
  else b.

Definition restore_state (undo : UndoInfo) (p : Position) : Position :=
  set_key (undo_key undo)
    (set_halfmove (undo_halfmove_clock undo)
       (set_en_passant_field (undo_en_passant undo)
          (set_castling_field (undo_castling undo) p))).

Definition unmake_move (m : Move) (p : Position) : Position :=
  (* Restore undo info *)
  let undo := List.last (history_ p) inhabitant in
  (* Pop key history and undo stack *)
  let p := pop_history p in
  (* Unswitch side *)
  let p := unswitch_side p in
  (* Remove piece from destination, put piece back at origin *)
  let p := on_board (restore_origin m) p in
  (* Restore captured piece *)
  let p := on_board (restore_captured m undo) p in
  (* Undo castling rook slide *)
  let p := on_board (uncastle_rook m) p in
  (* Restore state from undo *)
  restore_state undo p.

(** ** magic.cpp

    [init_piece] enumerates every subset [occs[i]] of the relevant-occupancy
    mask of a square, computes [atks[i]] by ray tracing and stores it in the
    flat table at the magic index of [occs[i]]; [find_magic] only returns a
    multiplier under which subsets that share an index have equal attack
    sets.  A lookup with occupancy [o] therefore reads the ray-traced attack
    set of [o & mask].  The multipliers are produced by a pseudo-random search
    at start-up and are not part of the model: a lookup is modelled by the
    table entry it reads. *)

Module magic.

Fixpoint ray_loop (fuel : nat) (occupancy : Bitboard) (df dr f r : Z)
    (attacks : Bitboard) : Bitboard :=
  match fuel with
  | O => attacks
  | S fuel' =>
      if (0 <=? f) && (f <=? 7) && (0 <=? r) && (r <=? 7) then
        let s := make_square f r in
        let attacks := set_bit attacks s in
        if test_bit occupancy s then attacks
        else ray_loop fuel' occupancy df dr (f + df) (r + dr) attacks
      else attacks
  end.

(** A ray leaves the board after at most seven steps. *)
Definition ray_attacks (sq : Square) (occupancy : Bitboard) (df dr : Z) : Bitboard :=
  ray_loop 8 occupancy df dr (file_of sq + df) (rank_of sq + dr) kEmptyBB.

Definition bishop_attacks_slow (sq : Square) (occupancy : Bitboard) : Bitboard :=
  Z.lor (Z.lor (Z.lor (ray_attacks sq occupancy 1 1) (ray_attacks sq occupancy 1 (-1)))
           (ray_attacks sq occupancy (-1) 1))
    (ray_attacks sq occupancy (-1) (-1)).

Definition rook_attacks_slow (sq : Square) (occupancy : Bitboard) : Bitboard :=
  Z.lor (Z.lor (Z.lor (ray_attacks sq occupancy 1 0) (ray_attacks sq occupancy (-1) 0))
           (ray_attacks sq occupancy 0 1))
    (ray_attacks sq occupancy 0 (-1)).

Fixpoint mask_loop (fuel : nat) (df dr f r : Z) (mask : Bitboard) : Bitboard :=
  match fuel with
  | O => mask
  | S fuel' =>
      if (0 <? f) && (f <? 7) && (0 <? r) && (r <? 7) then
        mask_loop fuel' df dr (f + df) (r + dr) (set_bit mask (make_square f r))
      else mask
  end.

Definition bishop_mask (sq : Square) : Bitboard :=
  let f0 := file_of sq in
  let r0 := rank_of sq in
  fold_left
    (fun mask d => mask_loop 8 (fst d) (snd d) (f0 + fst d) (r0 + snd d) mask)
    [(1, 1); (1, -1); (-1, 1); (-1, -1)] kEmptyBB.

(** The four [for] loops of [rook_mask]; the loop test on the running
    coordinate is the only bound. *)
Fixpoint file_loop (fuel : nat) (step f r0 : Z) (mask : Bitboard) : Bitboard :=
  match fuel with
  | O => mask
  | S fuel' =>
      if (0 <? f) && (f <? 7)
      then file_loop fuel' step (f + step) r0 (set_bit mask (make_square f r0))
      else mask
  end.

Fixpoint rank_loop (fuel : nat) (step f0 r : Z) (mask : Bitboard) : Bitboard :=
  match fuel with
  | O => mask
  | S fuel' =>
      if (0 <? r) && (r <? 7)
      then rank_loop fuel' step f0 (r + step) (set_bit mask (make_square f0 r))
      else mask
  end.

Definition rook_mask (sq : Square) : Bitboard :=
  let f0 := file_of sq in
  let r0 := rank_of sq in
  let mask := kEmptyBB in
  let mask := file_loop 8 1 (f0 + 1) r0 mask in
  let mask := file_loop 8 (-1) (f0 - 1) r0 mask in
  let mask := rank_loop 8 1 f0 (r0 + 1) mask in
  let mask := rank_loop 8 (-1) f0 (r0 - 1) mask in
  mask.

Definition bishop_attacks (sq : Square) (occupancy : Bitboard) : Bitboard :=
  bishop_attacks_slow sq (Z.land occupancy (bishop_mask sq)).

Definition rook_attacks (sq : Square) (occupancy : Bitboard) : Bitboard :=
  rook_attacks_slow sq (Z.land occupancy (rook_mask sq)).

Definition queen_attacks (sq : Square) (occupancy : Bitboard) : Bitboard :=
  Z.lor (bishop_attacks sq occupancy) (rook_attacks sq occupancy).

End magic.

(** ** position.cpp: attack queries *)

Definition is_square_attacked (p : Position) (sq : Square) (by_c : Color) : bool :=
  let occ := occupied_all (board_ p) in
  if negb (Z.land (pawn_attacks (opposite by_c) sq) (pieces (board_ p) by_c Pawn) =? 0)
  then true
  else if negb (Z.land (knight_attacks sq) (pieces (board_ p) by_c Knight) =? 0)
  then true
  else if negb (Z.land (king_attacks sq) (pieces (board_ p) by_c King) =? 0)
  then true
  else
    let diag_sliders :=
      Z.lor (pieces (board_ p) by_c Bishop) (pieces (board_ p) by_c Queen) in
    if negb (Z.land (magic.bishop_attacks sq occ) diag_sliders =? 0) then true
    else
      let straight_sliders :=
        Z.lor (pieces (board_ p) by_c Rook) (pieces (board_ p) by_c Queen) in
      if negb (Z.land (magic.rook_attacks sq occ) straight_sliders =? 0) then true
      else false.

Definition is_in_check_of (p : Position) (c : Color) : bool :=
  is_square_attacked p (king_square (board_ p) c) (opposite c).

Definition is_in_check (p : Position) : bool := is_in_check_of p (side_to_move_ p).

(** ** position.cpp: repetition *)

Fixpoint count_keys (k : Z) (hist : list Z) (count : Z) : Z :=
  match hist with
  | [] => count
  | h :: hist' => count_keys k hist' (if h =? k then wrap_int (count + 1) else count)
  end.

Definition repetition_count (p : Position) : Z :=
  count_keys (key_ p) (key_history_ p) 0.

(** ** movegen.cpp *)

Module movegen.

Definition kPromotions : list PieceType := [Queen; Rook; Bishop; Knight].

Definition add_promotions (ml : MoveList) (from to : Square) : MoveList :=
  fold_left (fun ml pt => ml ++ [mkMove from to Promotion pt]) kPromotions ml.

(** A [while (bb) { to = pop_lsb(bb); body }] loop over the move list. *)
Definition for_squares (bb : Bitboard) (body : MoveList -> Square -> MoveList)
    (ml : MoveList) : MoveList :=
  fold_left body (pop_squares bb) ml.

Definition gen_pawn_moves (pos : Position) (ml : MoveList) : MoveList :=
  let us := side_to_move pos in
  let them := opposite us in
  let b := board pos in
  let pawns := pieces b us Pawn in
  let empty := bb_not (occupied_all b) in
  let enemy := occupied b them in
  let promo_rank := if bool_decide (us = White) then kRank8 else kRank1 in
  (* Single pushes *)
  let single :=
    if bool_decide (us = White) then Z.land (shift_north pawns) empty
    else Z.land (shift_south pawns) empty in
  (* Non-promotion pushes *)
  let ml := for_squares (Z.land single (bb_not promo_rank))
    (fun ml to =>
       let from := u8 (if bool_decide (us = White) then to - 8 else to + 8) in
       ml ++ [mkMove from to Normal PtNone]) ml in
  (* Promotion pushes *)
  let ml := for_squares (Z.land single promo_rank)
    (fun ml to =>
       let from := u8 (if bool_decide (us = White) then to - 8 else to + 8) in
       add_promotions ml from to) ml in
  (* Double pushes *)
  let mid_rank := if bool_decide (us = White) then kRank3 else kRank6 in
  let dbl :=
    if bool_decide (us = White) then Z.land (shift_north (Z.land single mid_rank)) empty
    else Z.land (shift_south (Z.land single mid_rank)) empty in
  let ml := for_squares dbl
    (fun ml to =>
       let from := u8 (if bool_decide (us = White) then to - 16 else to + 16) in
       ml ++ [mkMove from to DoublePawn PtNone]) ml in
  (* Left captures (NW for White, SW for Black) *)
  let cap_l :=
    Z.land (if bool_decide (us = White) then shift_nw pawns else shift_sw pawns) enemy in
  let ml := for_squares (Z.land cap_l (bb_not promo_rank))
    (fun ml to =>
       let from := u8 (if bool_decide (us = White) then to - 7 else to + 9) in
       ml ++ [mkMove from to Normal PtNone]) ml in
  let ml := for_squares (Z.land cap_l promo_rank)
    (fun ml to =>
       let from := u8 (if bool_decide (us = White) then to - 7 else to + 9) in
       add_promotions ml from to) ml in
  (* Right captures (NE for White, SE for Black) *)
  let cap_r :=
    Z.land (if bool_decide (us = White) then shift_ne pawns else shift_se pawns) enemy in
  let ml := for_squares (Z.land cap_r (bb_not promo_rank))
    (fun ml to =>
       let from := u8 (if bool_decide (us = White) then to - 9 else to + 7) in
       ml ++ [mkMove from to Normal PtNone]) ml in
  let ml := for_squares (Z.land cap_r promo_rank)
    (fun ml to =>
       let from := u8 (if bool_decide (us = White) then to - 9 else to + 7) in
       add_promotions ml from to) ml in
  (* En passant *)
  if negb (en_passant pos =? kNoSquare) then
    let ep := en_passant pos in
    let ep_attackers := Z.land (pawn_attacks them ep) pawns in
    for_squares ep_attackers (fun ml from => ml ++ [mkMove from ep EnPassant PtNone]) ml
  else ml.

Definition piece_attacks (pt : PieceType) (from : Square) (occ : Bitboard) : Bitboard :=
  match pt with
  | Knight => knight_attacks from
  | Bishop => magic.bishop_attacks from occ
  | Rook => magic.rook_attacks from occ
  | Queen => magic.queen_attacks from occ
  | King => king_attacks from
  | _ => kEmptyBB
  end.

Definition gen_piece_moves (pos : Position) (ml : MoveList) (pt : PieceType) : MoveList :=
  let us := side_to_move pos in
  let b := board pos in
  let friendly := occupied b us in
  let occ := occupied_all b in
  for_squares (pieces b us pt)
    (fun ml from =>
       let attacks := piece_attacks pt from occ in
       let attacks := Z.land attacks (bb_not friendly) in
       for_squares attacks (fun ml to => ml ++ [mkMove from to Normal PtNone]) ml) ml.

Definition gen_castling (pos : Position) (ml : MoveList) : MoveList :=
  let us := side_to_move pos in
  let them := opposite us in
  let b := board pos in
  let king_sq := king_square b us in
  let rank := if bool_decide (us = White) then 0 else 7 in
  (* Can't castle while in check *)
  if is_square_attacked pos king_sq them then ml
  else
    (* Kingside *)
    let ks := if bool_decide (us = White) then kWhiteKingside else kBlackKingside in
    let ml :=
      if negb (Z.land (castling pos) ks =? 0) then
        let f_sq := make_square 5 rank in
        let g_sq := make_square 6 rank in
        if is_empty b f_sq && is_empty b g_sq && negb (is_square_attacked pos f_sq them)
           && negb (is_square_attacked pos g_sq them)
        then ml ++ [mkMove king_sq g_sq CastleKingside PtNone]
        else ml
      else ml in
    (* Queenside *)
    let qs := if bool_decide (us = White) then kWhiteQueenside else kBlackQueenside in
    if negb (Z.land (castling pos) qs =? 0) then
      let b_sq := make_square 1 rank in
      let c_sq := make_square 2 rank in
      let d_sq := make_square 3 rank in
      if is_empty b b_sq && is_empty b c_sq && is_empty b d_sq
         && negb (is_square_attacked pos c_sq them)
         && negb (is_square_attacked pos d_sq them)
      then ml ++ [mkMove king_sq c_sq CastleQueenside PtNone]
      else ml
    else ml.

Definition pseudo_legal (pos : Position) : MoveList :=
  let ml := [] in
  let ml := gen_pawn_moves pos ml in
  let ml := gen_piece_moves pos ml Knight in
  let ml := gen_piece_moves pos ml Bishop in
  let ml := gen_piece_moves pos ml Rook in
  let ml := gen_piece_moves pos ml Queen in
  let ml := gen_piece_moves pos ml King in
  let ml := gen_castling pos ml in
  ml.

(** [legal] makes and unmakes every pseudo-legal move on the position it is
    given by reference: the position is threaded through the loop and
    returned with the list. *)
Definition legal (pos : Position) : MoveList * Position :=
  let pseudo := pseudo_legal pos in
  let us := side_to_move pos in
  fold_left
    (fun (st : MoveList * Position) m =>
       let '(result, pos) := st in
       let pos := make_move m pos in
       let result := if negb (is_in_check_of pos us) then result ++ [m] else result in
       let pos := unmake_move m pos in
       (result, pos))
    pseudo ([], pos).

End movegen.

(** ** tt.hpp, tt.cpp *)

(** [Bound::None] is spelled [BoundNone]. *)
Inductive Bound := BoundNone | Exact | Lower | Upper.

#[global] Instance Bound_eq_dec : EqDecision Bound.
Proof. solve_decision. Defined.

(** The padding byte of the 16-byte entry is never written and is left out. *)
Record TTEntry := mkTTEntry {
  key32 : Z;
  score : Z;
  static_eval : Z;
  best_move : Move;
  depth : Z;
  bound : Bound;
  age : Z
}.

Definition empty_entry : TTEntry := mkTTEntry 0 0 0 kNullMove 0 BoundNone 0.

#[global] Instance TTEntry_inhabited : Inhabited TTEntry := populate empty_entry.

Record TranspositionTable := mkTT {
  table_ : list TTEntry;
  mask_ : Z;
  age_ : Z
}.

Definition round_down_pow2 (v : Z) : Z :=
  if v =? 0 then 1
  else
    let v := Z.lor v (Z.shiftr v 1) in
    let v := Z.lor v (Z.shiftr v 2) in
    let v := Z.lor v (Z.shiftr v 4) in
    let v := Z.lor v (Z.shiftr v 8) in
    let v := Z.lor v (Z.shiftr v 16) in
    let v := Z.lor v (Z.shiftr v 32) in
    u64 (Z.shiftr v 1 + 1).

Definition kEntrySize : Z := 16.

Definition resize (mb : Z) : TranspositionTable :=
  let mb := if mb =? 0 then 1 else mb in
  let bytes := u64 (u64 (mb * 1024) * 1024) in
  let num_entries := bytes / kEntrySize in
  let num_entries := round_down_pow2 num_entries in
  let num_entries := Z.max num_entries 1024 in
  {| table_ := replicate (Z.to_nat num_entries) empty_entry;
     mask_ := num_entries - 1;
     age_ := 0 |}.

Definition clear (tt : TranspositionTable) : TranspositionTable :=
  {| table_ := replicate (length (table_ tt)) empty_entry;
     mask_ := mask_ tt;
     age_ := 0 |}.

Definition new_search (tt : TranspositionTable) : TranspositionTable :=
  {| table_ := table_ tt; mask_ := mask_ tt; age_ := u8 (age_ tt + 1) |}.

Definition entry_count (tt : TranspositionTable) : Z := Z.of_nat (length (table_ tt)).

Definition key_upper (key : Z) : Z := u32 (Z.shiftr key 32).

Definition index (tt : TranspositionTable) (key : Z) : Z := Z.land (u64 key) (mask_ tt).

Definition probe (tt : TranspositionTable) (key : Z) : option TTEntry :=
  let idx := index tt key in
  let slot := table_ tt !!! Z.to_nat idx in
  if bool_decide (bound slot <> BoundNone) && (key32 slot =? key_upper key)
  then Some slot
  else None.

(** The replacement policy of [store], as the boolean the code computes. *)
Definition should_replace (slot : TTEntry) (cur_age depth_new : Z) (bound_new : Bound) : bool :=
  bool_decide (bound slot = BoundNone)
  || negb (age slot =? cur_age)
  || (depth_new >=? depth slot)
  || (bool_decide (bound_new = Exact) && bool_decide (bound slot <> Exact)).

Definition store (tt : TranspositionTable) (key depth_new score_new : Z) (bound_new : Bound)
    (best_move_new : Move) (static_eval_new : Z) : TranspositionTable :=
  let idx := index tt key in
  let slot := table_ tt !!! Z.to_nat idx in
  let key32_new := key_upper key in
  if negb (should_replace slot (age_ tt) depth_new bound_new) then tt
  else
    let best_move_new :=
      if (key32 slot =? key32_new) && is_null best_move_new
         && negb (is_null (best_move slot))
      then best_move slot
      else best_move_new in
    {| table_ :=
         <[Z.to_nat idx :=
             {| key32 := key32_new;
                score := i16 score_new;
                static_eval := i16 static_eval_new;
                best_move := best_move_new;
                depth := u8 depth_new;
                bound := bound_new;
                age := age_ tt |}]> (table_ tt);
       mask_ := mask_ tt;
       age_ := age_ tt |}.

Definition hashfull (tt : TranspositionTable) : Z :=
  if bool_decide (table_ tt = []) then 0
  else
    let sample_size := Z.min (entry_count tt) 1000 in
    let used :=
      fold_left
        (fun used e =>
           if bool_decide (bound e <> BoundNone) && (age e =? age_ tt)
           then wrap_int (used + 1) else used)
        (take (Z.to_nat sample_size) (table_ tt)) 0 in
    used * 1000 / sample_size.

(** ** search.hpp, search.cpp

    [Search::search] and what it calls at the root.  [negamax] is passed to
    the root loop as a function: its body evaluates leaves with
    [eval::evaluate], whose source is not among the files, and nothing
    proved about the root loop depends on what [negamax] returns. *)

Module search_cpp.

Definition kMaxPly : Z := 128.
Definition kKillerPrimaryBonus : Z := 9000.
Definition kKillerSecondaryBonus : Z := 8000.
Definition kMvvValues : list Z := [100; 320; 330; 500; 900; 0].
Definition kLightSquares : Bitboard := 0x55AA55AA55AA55AA.



(** The data members of [Search] that belong to the searching thread.
    [killers_] has a pair of moves per ply and [history_] is the array
    [[2][64][64]] laid out row by row. *)
Record Search := mkSearch {
  tt_ : TranspositionTable;
  killers_ : list (Move * Move);
  history_ : list Z;
  deadline_ : Z;
  has_deadline_ : bool;
  nodes_ : Z
}.



(** [Search::Search(tt_mb)] *)
Definition new_Search (tt_mb : Z) : Search :=
  mkSearch (resize tt_mb) (replicate (Z.to_nat kMaxPly) (kNullMove, kNullMove))
    (replicate (2 * 64 * 64) 0) 0 false 0.



(** The material tests at the end of [is_draw]. *)
Definition insufficient_material (board : Board) : bool :=
  let all := occupied_all board in
  let total_pieces := popcount all in
  if total_pieces =? 2 then true
  else if (total_pieces =? 3)
          && existsb (fun color =>
               negb (pieces board color Knight =? 0) || negb (pieces board color Bishop =? 0))
             [White; Black]
  then true
  else if total_pieces =? 4 then
    let wb := pieces board White Bishop in
    let bb := pieces board Black Bishop in
    if negb (wb =? 0) && negb (bb =? 0) then
      let w_light := negb (Z.land wb kLightSquares =? 0) in
      let b_light := negb (Z.land bb kLightSquares =? 0) in
      Bool.eqb w_light b_light
    else false
  else false.

Definition is_draw (pos : Position) : bool :=
  (* 50-move rule *)
  if 100 <=? halfmove_clock pos then true
  (* Repetition *)
  else if 2 <=? repetition_count pos then true
  else insufficient_material (board pos).

Definition mvv (i : Z) : Z := nth (Z.to_nat i) kMvvValues 0.

Definition history_at (s : Search) (c : Color) (from to : Square) : Z :=
  nth (Z.to_nat (color_index c * 4096 + from * 64 + to)) (history_ s) 0.

Definition move_score (s : Search) (pos : Position) (m tt_move : Move) (ply : Z) : Z :=
  let score := 0 in
  if negb (is_null tt_move) && bool_decide (m = tt_move) then 100000
  else
    let board := board pos in
    let moving := piece_at board (from_sq m) in
    let target := piece_at board (to_sq m) in
    let score :=
      if bool_decide (flag m = Promotion) && bool_decide (promotion m <> PtNone)
      then wrap_int (score + wrap_int (20000 + mvv (piece_index (promotion m))))
      else score in
    let score :=
      if bool_decide (type target <> PtNone) then
        let score := wrap_int (score + 10000) in
        let score := wrap_int (score + wrap_int (10 * mvv (piece_index (type target)))) in
        if bool_decide (type moving <> PtNone)
        then wrap_int (score - mvv (piece_index (type moving)))
        else score
      else if bool_decide (flag m = EnPassant) then
        let score := wrap_int (score + 10000) in
        let score := wrap_int (score + wrap_int (10 * mvv 0)) in
        wrap_int (score - mvv 0)
      else
        let score :=
          if ply <? kMaxPly then
            if bool_decide (fst (killers_ s !!! Z.to_nat ply) = m)
            then wrap_int (score + kKillerPrimaryBonus)
            else if bool_decide (snd (killers_ s !!! Z.to_nat ply) = m)
            then wrap_int (score + kKillerSecondaryBonus)
            else score
          else score in
        if bool_decide (type moving <> PtNone)
        then wrap_int (score + history_at s (side_to_move pos) (from_sq m) (to_sq m))
        else score in
    if bool_decide (flag m = CastleKingside) || bool_decide (flag m = CastleQueenside)
    then wrap_int (score + 120)
    else score.

(** The inner loop of the selection sort: [j] runs over the [n] slots that
    follow. *)
Fixpoint select_best (score_of : Move -> Z) (ml : MoveList) (j n best_idx : nat)
    (best_score : Z) : nat :=
  match n with
  | O => best_idx
  | S n' =>
      let s := score_of (ml !!! j) in
      if best_score <? s then select_best score_of ml (S j) n' j s
      else select_best score_of ml (S j) n' best_idx best_score
  end.

Fixpoint order_loop (score_of : Move -> Z) (ml : MoveList) (i n : nat) : MoveList :=
  match n with
  | O => ml
  | S n' =>
      let best_idx :=
        select_best score_of ml (S i) (length ml - S i) i (score_of (ml !!! i)) in
      let ml :=
        if bool_decide (best_idx <> i)
        then <[i := ml !!! best_idx]> (<[best_idx := ml !!! i]> ml)
        else ml in
      order_loop score_of ml (S i) n'
  end.

Definition order_moves (s : Search) (pos : Position) (ml : MoveList) (tt_move : Move)
    (ply : Z) : MoveList :=
  order_loop (fun m => move_score s pos m tt_move ply) ml 0 (length ml).







End search_cpp.


(** * Specification vocabulary *)

(** ** Bitboards and squares *)

(** A bitboard is a 64-bit word. *)
Definition bb_range (b : Bitboard) : Prop := 0 <= b < 2 ^ 64.

Definition valid_sq (sq : Square) : Prop := 0 <= sq < 64.

(** ** Board invariants *)

(** The invariants of [Board]: the arrays have their declared sizes, an
    empty mailbox slot holds [kNoPiece], and each bitboard has bit [i] set
    exactly when the mailbox holds the corresponding piece on square [i]. *)
Record board_ok (b : Board) : Prop := mkBoardOk {
  ok_len_pieces : length (pieces_ b) = 12%nat;
  ok_len_occupied : length (occupied_ b) = 2%nat;
  ok_len_mailbox : length (mailbox_ b) = 64%nat;
  ok_empty : forall sq, valid_sq sq -> type (piece_at b sq) = PtNone ->
               piece_at b sq = kNoPiece;
  ok_pieces : forall c pt i, pt <> PtNone -> 0 <= i ->
               Z.testbit (pieces b c pt) i
               = (i <? 64) && bool_decide (piece_at b i = mkPiece c pt);
  ok_occupied : forall c i, 0 <= i ->
               Z.testbit (occupied b c) i
               = (i <? 64) && negb (is_empty b i)
                 && bool_decide (color (piece_at b i) = c);
  ok_occupied_all : forall i, 0 <= i ->
               Z.testbit (occupied_all b) i = (i <? 64) && negb (is_empty b i)
}.

(** A boolean test of [board_ok], for concrete boards. *)
Definition all_colors : list Color := [White; Black].
Definition all_types : list PieceType := [Pawn; Knight; Bishop; Rook; Queen; King].
Definition all_squares : list Z := map Z.of_nat (seq 0 64).

Definition in_range_b (x : Z) : bool := (0 <=? x) && (x <? 2 ^ 64).

Definition board_okb (b : Board) : bool :=
  (length (pieces_ b) =? 12)%nat && (length (occupied_ b) =? 2)%nat
  && (length (mailbox_ b) =? 64)%nat
  && forallb (fun sq =>
        implb (bool_decide (type (piece_at b sq) = PtNone))
              (bool_decide (piece_at b sq = kNoPiece))) all_squares
  && forallb (fun c => forallb (fun pt =>
        in_range_b (pieces b c pt)
        && forallb (fun i => Bool.eqb (Z.testbit (pieces b c pt) i)
                               (bool_decide (piece_at b i = mkPiece c pt))) all_squares)
        all_types) all_colors
  && forallb (fun c =>
        in_range_b (occupied b c)
        && forallb (fun i => Bool.eqb (Z.testbit (occupied b c) i)
                               (negb (is_empty b i)
                                && bool_decide (color (piece_at b i) = c))) all_squares)
        all_colors
  && in_range_b (occupied_all b)
  && forallb (fun i => Bool.eqb (Z.testbit (occupied_all b) i) (negb (is_empty b i)))
       all_squares.

(** ** Transposition table *)

(** The class invariant of [TranspositionTable]: [mask_] is the entry count
    minus one and the table is not empty.  [resize], [clear], [new_search]
    and [store] all keep it. *)
Definition tt_ok (tt : TranspositionTable) : Prop :=
  (0 < length (table_ tt))%nat /\ mask_ tt = entry_count tt - 1.

Definition tt_slot (tt : TranspositionTable) (key : Z) : TTEntry :=
  table_ tt !!! Z.to_nat (index tt key).

(** The entry [store] writes when the replacement rule accepts the write. *)
Definition written_move (slot : TTEntry) (key : Z) (best_move_new : Move) : Move :=
  if (key32 slot =? key_upper key) && is_null best_move_new && negb (is_null (best_move slot))
  then best_move slot else best_move_new.

(** A table with one stored entry, used to exercise [store]. *)
Definition tt_sample : TranspositionTable :=
  store (resize 1) 5 3 10 Lower (mkMove 12 28 Normal PtNone) 7.


(** ** Position invariants *)

Definition has_right (cr r : CastlingRights) : bool := negb (Z.land cr r =? 0).

(** A castling right is backed by the king and the rook on their home
    squares. *)
Record castling_ok (p : Position) : Prop := mkCastlingOk {
  cr_wk : has_right (castling_ p) kWhiteKingside = true ->
          piece_at (board_ p) E1 = mkPiece White King
          /\ piece_at (board_ p) H1 = mkPiece White Rook;
  cr_wq : has_right (castling_ p) kWhiteQueenside = true ->
          piece_at (board_ p) E1 = mkPiece White King
          /\ piece_at (board_ p) A1 = mkPiece White Rook;
  cr_bk : has_right (castling_ p) kBlackKingside = true ->
          piece_at (board_ p) E8 = mkPiece Black King
          /\ piece_at (board_ p) H8 = mkPiece Black Rook;
  cr_bq : has_right (castling_ p) kBlackQueenside = true ->
          piece_at (board_ p) E8 = mkPiece Black King
          /\ piece_at (board_ p) A8 = mkPiece Black Rook
}.

(** The square of the pawn an en-passant capture removes, seen from the
    side to move. *)
Definition ep_capture_sq (side : Color) (ep : Square) : Square :=
  match side with White => ep - 8 | Black => ep + 8 end.

(** An en-passant square is empty and lies behind an enemy pawn. *)
Definition ep_ok (p : Position) : Prop :=
  en_passant_ p = kNoSquare \/
  (valid_sq (en_passant_ p)
   /\ valid_sq (ep_capture_sq (side_to_move_ p) (en_passant_ p))
   /\ piece_at (board_ p) (en_passant_ p) = kNoPiece
   /\ piece_at (board_ p) (ep_capture_sq (side_to_move_ p) (en_passant_ p))
      = mkPiece (opposite (side_to_move_ p)) Pawn).

(** No colour has two kings. *)
Definition kings_unique (b : Board) : Prop :=
  forall c sq1 sq2, valid_sq sq1 -> valid_sq sq2 ->
    piece_at b sq1 = mkPiece c King -> piece_at b sq2 = mkPiece c King -> sq1 = sq2.

(** The invariant of the positions of a game: it holds of a position built
    from a descriptor of a chess position and is kept by every pseudo-legal
    move. *)
Record position_ok (p : Position) : Prop := mkPositionOk {
  pos_board : board_ok (board_ p);
  pos_kings : kings_unique (board_ p);
  pos_castling : castling_ok p;
  pos_ep : ep_ok p;
  pos_halfmove : in_int (halfmove_clock_ p);
  pos_fullmove : in_int (fullmove_number_ p)
}.

Definition in_int_b (z : Z) : bool := (kIntMin <=? z) && (z <=? kIntMax).

Definition right_okb (p : Position) (r : CastlingRights) (ksq rsq : Square) (c : Color) : bool :=
  implb (has_right (castling_ p) r)
    (bool_decide (piece_at (board_ p) ksq = mkPiece c King)
     && bool_decide (piece_at (board_ p) rsq = mkPiece c Rook)).

Definition position_okb (p : Position) : bool :=
  board_okb (board_ p)
  && forallb (fun sq1 => forallb (fun sq2 =>
       implb (bool_decide (type (piece_at (board_ p) sq1) = King)
              && bool_decide (piece_at (board_ p) sq2 = piece_at (board_ p) sq1))
             (sq1 =? sq2)) all_squares) all_squares
  && right_okb p kWhiteKingside E1 H1 White
  && right_okb p kWhiteQueenside E1 A1 White
  && right_okb p kBlackKingside E8 H8 Black
  && right_okb p kBlackQueenside E8 A8 Black
  && ((en_passant_ p =? kNoSquare)
      || (is_valid_square (en_passant_ p)
          && is_valid_square (ep_capture_sq (side_to_move_ p) (en_passant_ p))
          && bool_decide (piece_at (board_ p) (en_passant_ p) = kNoPiece)
          && bool_decide (piece_at (board_ p)
                            (ep_capture_sq (side_to_move_ p) (en_passant_ p))
                          = mkPiece (opposite (side_to_move_ p)) Pawn)))
  && in_int_b (halfmove_clock_ p)
  && in_int_b (fullmove_number_ p).

(** ** Moves that [make_move] accepts

    [move_ok p m] collects what [make_move] relies on when it is handed a
    move of the generator: the origin holds the piece that moves, and the
    squares the flag of the move involves are as the flag promises. *)

Definition home_rank_sq (c : Color) (file : Z) : Square :=
  match c with White => file | Black => 56 + file end.

Definition forward (c : Color) (sq : Square) (n : Z) : Square :=
  match c with White => sq + 8 * n | Black => sq - 8 * n end.

Definition flag_ok (p : Position) (m : Move) : Prop :=
  let b := board_ p in
  let us := side_to_move_ p in
  match flag m with
  | Normal => promotion m = PtNone
  | DoublePawn =>
      promotion m = PtNone
      /\ piece_at b (from_sq m) = mkPiece us Pawn
      /\ to_sq m = forward us (from_sq m) 2
      /\ piece_at b (forward us (from_sq m) 1) = kNoPiece
      /\ piece_at b (to_sq m) = kNoPiece
  | EnPassant =>
      promotion m = PtNone
      /\ piece_at b (from_sq m) = mkPiece us Pawn
      /\ to_sq m = en_passant_ p
      /\ make_square (file_of (to_sq m)) (rank_of (from_sq m))
         = ep_capture_sq us (to_sq m)
      /\ from_sq m <> ep_capture_sq us (to_sq m)
  | CastleKingside =>
      promotion m = PtNone
      /\ from_sq m = home_rank_sq us 4 /\ to_sq m = home_rank_sq us 6
      /\ piece_at b (home_rank_sq us 4) = mkPiece us King
      /\ piece_at b (home_rank_sq us 5) = kNoPiece
      /\ piece_at b (home_rank_sq us 6) = kNoPiece
      /\ piece_at b (home_rank_sq us 7) = mkPiece us Rook
  | CastleQueenside =>
      promotion m = PtNone
      /\ from_sq m = home_rank_sq us 4 /\ to_sq m = home_rank_sq us 2
      /\ piece_at b (home_rank_sq us 4) = mkPiece us King
      /\ piece_at b (home_rank_sq us 3) = kNoPiece
      /\ piece_at b (home_rank_sq us 2) = kNoPiece
      /\ piece_at b (home_rank_sq us 1) = kNoPiece
      /\ piece_at b (home_rank_sq us 0) = mkPiece us Rook
  | Promotion =>
      piece_at b (from_sq m) = mkPiece us Pawn
      /\ In (promotion m) [Queen; Rook; Bishop; Knight]
  end.

Record move_ok (p : Position) (m : Move) : Prop := mkMoveOk {
  mv_from : valid_sq (from_sq m);
  mv_to : valid_sq (to_sq m);
  mv_distinct : from_sq m <> to_sq m;
  mv_piece : type (piece_at (board_ p) (from_sq m)) <> PtNone;
  mv_flag : flag_ok p m
}.

(** ** Sequences of moves *)

Fixpoint play (p : Position) (ms : list Move) : Position :=
  match ms with
  | [] => p
  | m :: ms' => play (make_move m p) ms'
  end.

(** Each move of the sequence is pseudo-legal in the position where it is
    applied. *)
Fixpoint pseudo_legal_sequence (p : Position) (ms : list Move) : Prop :=
  match ms with
  | [] => True
  | m :: ms' => In m (movegen.pseudo_legal p) /\ pseudo_legal_sequence (make_move m p) ms'
  end.

(** The key computed from scratch over a position. *)
Definition full_key (p : Position) : Z := key_ (compute_key p).


(** ** The board and the undo record after [make_move] *)

Definition slide_board (rook_from rook_to : Square) (b : Board) : Board :=
  put_piece rook_to (piece_at b rook_from) (remove_piece rook_from b).

Definition castle_board (m : Move) (b : Board) : Board :=
  if bool_decide (flag m = CastleKingside) then
    slide_board (make_square 7 (rank_of (from_sq m))) (make_square 5 (rank_of (from_sq m))) b
  else if bool_decide (flag m = CastleQueenside) then
    slide_board (make_square 0 (rank_of (from_sq m))) (make_square 3 (rank_of (from_sq m))) b
  else b.

Definition capture_board (m : Move) (captured : Piece) (b : Board) : Board :=
  if bool_decide (captured <> kNoPiece) then remove_piece (capture_square m) b else b.

Definition make_board (m : Move) (p : Position) : Board :=
  castle_board m
    (put_piece (to_sq m) (placed_piece m (piece_at (board_ p) (from_sq m)))
       (capture_board m (captured_piece m p)
          (remove_piece (from_sq m) (board_ p)))).

Definition make_undo (m : Move) (p : Position) : UndoInfo :=
  mkUndo (castling_ p) (en_passant_ p) (halfmove_clock_ p) (captured_piece m p) (key_ p).



(** ** The key as a sum of parts *)

(** The contribution of a mailbox slot to the key. *)
Definition slot_hash (pc : Piece) (sq : Square) : Z :=
  if bool_decide (pc = kNoPiece) then 0
  else zobrist.piece_key (color pc) (type pc) sq.

Definition board_hash (b : Board) : Z := hash_squares b 0 64 0.

Definition ep_hash (ep : Square) : Z :=
  if ep =? kNoSquare then 0 else zobrist.en_passant_key ep.

Definition side_hash (c : Color) : Z :=
  match c with White => 0 | Black => zobrist.side_to_move_key end.

Definition scalar_hash (p : Position) : Z :=
  Z.lxor (Z.lxor (zobrist.castling_key (castling_ p)) (side_hash (side_to_move_ p)))
    (ep_hash (en_passant_ p)).

(** What the maintained key still owes to the scalar fields. *)
Definition residual (p : Position) : Z := Z.lxor (key_ p) (board_hash (board_ p)).

(** ** The position after the piece-moving steps of [make_move] *)

Definition moved_pieces (m : Move) (p : Position) : Position :=
  let piece := piece_at (board_ p) (from_sq m) in
  let captured := captured_piece m p in
  let p := save_undo captured p in
  let p := remove_hashed piece (from_sq m) p in
  let p := if bool_decide (captured <> kNoPiece)
           then remove_hashed captured (capture_square m) p
           else p in
  let p := place_hashed (placed_piece m piece) (to_sq m) p in
  castle_rook m p.

Definition rook_slide (m : Move) : option (Square * Square) :=
  match flag m with
  | CastleKingside =>
      Some (make_square 7 (rank_of (from_sq m)), make_square 5 (rank_of (from_sq m)))
  | CastleQueenside =>
      Some (make_square 0 (rank_of (from_sq m)), make_square 3 (rank_of (from_sq m)))
  | _ => None
  end.

(** The mailbox after [make_move], square by square. *)
Definition make_at (m : Move) (p : Position) (i : Square) : Piece :=
  let b := board_ p in
  let base :=
    if i =? to_sq m then placed_piece m (piece_at b (from_sq m))
    else if i =? capture_square m then kNoPiece
    else if i =? from_sq m then kNoPiece
    else piece_at b i in
  match rook_slide m with
  | Some (rook_from, rook_to) =>
      if i =? rook_to then piece_at b rook_from
      else if i =? rook_from then kNoPiece
      else base
  | None => base
  end.

(** ** Move text *)

(** Two characters that name a square: a file letter and a rank digit. *)
Definition square_chars (f r : ascii) : Prop :=
  (char_code "a" <= char_code f <= char_code "h")
  /\ (char_code "1" <= char_code r <= char_code "8").

Definition square_of_chars (f r : ascii) : Square :=
  make_square (char_code f - char_code "a") (char_code r - char_code "1").

(** The first four characters name two squares. *)
Definition names_two_squares (s : string) : Prop :=
  match s with
  | String a (String b (String c (String d _))) => square_chars a b /\ square_chars c d
  | _ => False
  end.

(** What is left of a move once it has gone through its text: the squares
    and the promotion piece, with a flag that only tells promotions apart. *)
Definition text_flag (m : Move) : MoveFlag :=
  if bool_decide (promotion m = PtNone) then Normal else Promotion.

Definition through_text (m : Move) : Move :=
  mkMove (from_sq m) (to_sq m) (text_flag m) (promotion m).

(** ** The root of the search *)




(** ** Repetition *)

(** How often a key occurs in a list of keys. *)
Definition occurrences (k : Z) (hist : list Z) : nat :=
  length (List.filter (fun h => h =? k) hist).

(** The starting position after the knights went out and came back:
    Ng1-f3, Ng8-f6, Nf3-g1, Nf6-g8. *)
Definition knights_returned : Position :=
  play initial [mkMove 6 21 Normal PtNone; mkMove 62 45 Normal PtNone;
                mkMove 21 6 Normal PtNone; mkMove 45 62 Normal PtNone].

(** ** Castling *)

Definition back_rank (us : Color) : Z := match us with White => 0 | Black => 7 end.

Definition kingside_right (us : Color) : CastlingRights :=
  match us with White => kWhiteKingside | Black => kBlackKingside end.

Definition queenside_right (us : Color) : CastlingRights :=
  match us with White => kWhiteQueenside | Black => kBlackQueenside end.

(** The moves [gen_castling] can push. *)
Definition kingside_castle (pos : Position) : Move :=
  mkMove (king_square (board_ pos) (side_to_move_ pos))
    (make_square 6 (back_rank (side_to_move_ pos))) CastleKingside PtNone.

Definition queenside_castle (pos : Position) : Move :=
  mkMove (king_square (board_ pos) (side_to_move_ pos))
    (make_square 2 (back_rank (side_to_move_ pos))) CastleQueenside PtNone.

(** The tests [gen_castling] makes before it pushes each of them. *)
Definition kingside_tests (pos : Position) : bool :=
  let us := side_to_move_ pos in
  let them := opposite us in
  negb (is_square_attacked pos (king_square (board_ pos) us) them)
  && negb (Z.land (castling_ pos) (kingside_right us) =? 0)
  && is_empty (board_ pos) (make_square 5 (back_rank us))
  && is_empty (board_ pos) (make_square 6 (back_rank us))
  && negb (is_square_attacked pos (make_square 5 (back_rank us)) them)
  && negb (is_square_attacked pos (make_square 6 (back_rank us)) them).

Definition queenside_tests (pos : Position) : bool :=
  let us := side_to_move_ pos in
  let them := opposite us in
  negb (is_square_attacked pos (king_square (board_ pos) us) them)
  && negb (Z.land (castling_ pos) (queenside_right us) =? 0)
  && is_empty (board_ pos) (make_square 1 (back_rank us))
  && is_empty (board_ pos) (make_square 2 (back_rank us))
  && is_empty (board_ pos) (make_square 3 (back_rank us))
  && negb (is_square_attacked pos (make_square 2 (back_rank us)) them)
  && negb (is_square_attacked pos (make_square 3 (back_rank us)) them).

Definition is_castle (m : Move) : bool :=
  bool_decide (flag m = CastleKingside) || bool_decide (flag m = CastleQueenside).

(** White to move with the kingside right, f1 and g1 empty, and a black
    rook on g2 that attacks g1 but neither e1 nor f1. *)
Definition rook_on_g2_fen : string := "4k3/8/8/8/8/8/6r1/4K2R w K - 0 1".

Definition rook_on_g2 : Position :=
  match from_fen rook_on_g2_fen with
  | Ok p => p
  | Err _ => default_position
  end.

(** ** Descriptors *)










(** The value of a run of decimal digits. *)
Fixpoint decimal (ds : string) (acc : Z) : Z :=
  match ds with
  | EmptyString => acc
  | String c ds' => decimal ds' (acc * 10 + (char_code c - char_code "0"))
  end.

Definition all_digits (ds : string) : Prop :=
  ds <> EmptyString /\ Forall (fun c => is_digit c = true) (list_ascii_of_string ds).

(** A text that writes the integer [v]: digits, with an optional minus sign
    in front. *)
Definition int_text (s : string) (v : Z) : Prop :=
  (all_digits s /\ v = decimal s 0)
  \/ (exists ds : string, s = String "-"%char ds /\ all_digits ds /\ v = - decimal ds 0).

(** A clock field: an integer that fits [int] and is at least [min_val]. *)
Definition clock_wf (min_val : Z) (s : string) : Prop :=
  exists v : Z, int_text s v /\ in_int v /\ min_val <= v.


(** ** Bounded loops of magic.cpp *)

(** How many values [x], [x + d], ... stay within [lo .. hi], for a step
    [d] of 1 or -1. *)
Definition steps_left (lo hi d x : Z) : Z :=
  if 0 <? d then hi - x + 1 else x - lo + 1.

(** The same for a ray on the board, which moves along files, ranks or
    both. *)
Definition ray_steps (lo hi df dr f r : Z) : Z :=
  if df =? 0 then steps_left lo hi dr r else steps_left lo hi df f.


(** * Further functions of the engine *)

(** ** bitboard.hpp *)

(** [std::countl_zero]: the number of leading zero bits of a 64-bit word,
    64 on the zero word. *)
Definition countl_zero (b : Bitboard) : Z :=
  match b with Zpos p => 64 - Zpos (Pos.size p) | _ => 64 end.

Definition msb (b : Bitboard) : Square := u8 (63 - countl_zero b).

Definition more_than_one (b : Bitboard) : bool :=
  negb (Z.land b (u64 (b - 1)) =? 0).

Definition file_bb (f : Z) : Bitboard := shl64 kFileA f.
Definition rank_bb (r : Z) : Bitboard := shl64 kRank1 (r * 8).

(** ** piece.hpp *)

Definition kChars : list (list ascii) :=
  [ [" "; "P"; "N"; "B"; "R"; "Q"; "K"];
    [" "; "p"; "n"; "b"; "r"; "q"; "k"] ]%char.

Definition fen_char (p : Piece) : ascii :=
  nth (Z.to_nat (piece_type_code (type p)))
    (nth (Z.to_nat (color_index (color p))) kChars []) " "%char.

(** ** board.hpp *)

(** [move_piece] toggles the two squares in the three bitboards of the piece
    that stands on [from] and rewrites the two mailbox slots, [to] first. *)
Definition move_piece (from to : Square) (b : Board) : Board :=
  let p := mailbox_ b !!! Z.to_nat from in
  let ci := color_index (color p) in
  let pi := piece_index (type p) in
  let mask := Z.lor (square_bb from) (square_bb to) in
  {| pieces_ := alter (fun bb => Z.lxor bb mask) (pieces_slot ci pi) (pieces_ b);
     occupied_ := alter (fun bb => Z.lxor bb mask) (Z.to_nat ci) (occupied_ b);
     occupied_all_ := Z.lxor (occupied_all_ b) mask;
     mailbox_ := <[Z.to_nat from := kNoPiece]> (<[Z.to_nat to := p]> (mailbox_ b)) |}.

(** [operator==] compares the twelve piece bitboards and nothing else. *)
Fixpoint same_pieces (slots : list nat) (a b : Board) : bool :=
  match slots with
  | [] => true
  | i :: slots' =>
      if negb (pieces_ a !!! i =? pieces_ b !!! i) then false
      else same_pieces slots' a b
  end.

Definition board_eq (a b : Board) : bool := same_pieces (seq 0 12) a b.

(** ** movegen.cpp: captures and perft *)

Module movegen2.

Import movegen.




End movegen2.

(** ** position.cpp: writing a descriptor *)

(** [fen += c]. *)
Definition push_char (fen : string) (c : ascii) : string :=
  (fen ++ String c EmptyString)%string.

(** [std::to_string] for [int]: a minus sign for a negative value, then
    the decimal digits.  An [int] has at most ten of them. *)
Fixpoint digits_of (fuel : nat) (n : Z) (acc : string) : string :=
  match fuel with
  | O => acc
  | S fuel' =>
      let acc := String (char_of_code (char_code "0" + n mod 10)) acc in
      if n <? 10 then acc else digits_of fuel' (n / 10) acc
  end.

Definition to_string (v : Z) : string :=
  if v <? 0 then String "-"%char (digits_of 10 (- v) EmptyString)
  else digits_of 10 v EmptyString.

(** The loop of [to_fen] over the files of a rank, on the state
    [(fen, empty)]. *)
Fixpoint fen_files (b : Board) (rank : Z) (n : nat) (file : Z) (empty : Z) (fen : string)
    : string * Z :=
  match n with
  | O => (fen, empty)
  | S n' =>
      let p := piece_at b (make_square file rank) in
      if bool_decide (p = kNoPiece) then fen_files b rank n' (file + 1) (empty + 1) fen
      else
        let '(fen, empty) :=
          if 0 <? empty
          then (push_char fen (char_of_code (char_code "0" + empty)), 0)
          else (fen, empty) in
        fen_files b rank n' (file + 1) empty (push_char fen (fen_char p))
  end.

(** The loop over the ranks, from rank 8 down. *)
Fixpoint fen_ranks (b : Board) (n : nat) (rank : Z) (fen : string) : string :=
  match n with
  | O => fen
  | S n' =>
      let fen := if rank <? 7 then push_char fen "/" else fen in
      let '(fen, empty) := fen_files b rank 8 0 0 fen in
      let fen :=
        if 0 <? empty then push_char fen (char_of_code (char_code "0" + empty)) else fen in
      fen_ranks b n' (rank - 1) fen
  end.

Definition to_fen (p : Position) : string :=
  let fen := EmptyString in
  (* 1. Piece placement *)
  let fen := fen_ranks (board_ p) 8 7 fen in
  (* 2. Side to move *)
  let fen := push_char fen " " in
  let fen := push_char fen (if bool_decide (side_to_move_ p = White) then "w" else "b") in
  (* 3. Castling *)
  let fen := push_char fen " " in
  let fen :=
    if castling_ p =? kCastlingNone then push_char fen "-"
    else
      let fen := if negb (Z.land (castling_ p) kWhiteKingside =? 0)
                 then push_char fen "K" else fen in
      let fen := if negb (Z.land (castling_ p) kWhiteQueenside =? 0)
                 then push_char fen "Q" else fen in
      let fen := if negb (Z.land (castling_ p) kBlackKingside =? 0)
                 then push_char fen "k" else fen in
      let fen := if negb (Z.land (castling_ p) kBlackQueenside =? 0)
                 then push_char fen "q" else fen in
      fen in
  (* 4. En passant *)
  let fen := push_char fen " " in
  let fen :=
    if en_passant_ p =? kNoSquare then push_char fen "-"
    else (fen ++ square_name (en_passant_ p))%string in
  (* 5-6. Clocks *)
  let fen := push_char fen " " in
  let fen := (fen ++ to_string (halfmove_clock_ p))%string in
  let fen := push_char fen " " in
  let fen := (fen ++ to_string (fullmove_number_ p))%string in
  fen.


(** * Further notions used in the statements *)

(** ** Steps on the board *)

(** [t] lies [df] files and [dr] ranks away from [s]. *)
Definition step_from (df dr : Z) (s t : Square) : Prop :=
  file_of t = file_of s + df /\ rank_of t = rank_of s + dr.

#[global] Instance step_from_dec df dr s t : Decision (step_from df dr s t).
Proof. unfold step_from. apply _. Defined.

(** A knight's jump: one file and two ranks, or two files and one rank. *)
Definition knight_step (s t : Square) : Prop :=
  (Z.abs (file_of t - file_of s) = 1 /\ Z.abs (rank_of t - rank_of s) = 2)
  \/ (Z.abs (file_of t - file_of s) = 2 /\ Z.abs (rank_of t - rank_of s) = 1).

#[global] Instance knight_step_dec s t : Decision (knight_step s t).
Proof. unfold knight_step. apply _. Defined.

(** A king's step: a different square at most one file and one rank away. *)
Definition king_step (s t : Square) : Prop :=
  s <> t /\ Z.abs (file_of t - file_of s) <= 1 /\ Z.abs (rank_of t - rank_of s) <= 1.

#[global] Instance king_step_dec s t : Decision (king_step s t).
Proof. unfold king_step. apply _. Defined.

(** The capture step of a pawn of colour [c]: one rank forward, one file
    to either side. *)
Definition pawn_step (c : Color) (s t : Square) : Prop :=
  Z.abs (file_of t - file_of s) = 1
  /\ rank_of t = rank_of s + (match c with White => 1 | Black => -1 end).

#[global] Instance pawn_step_dec c s t : Decision (pawn_step c s t).
Proof. unfold pawn_step. apply _. Defined.

(** The eight shift helpers with the step each of them makes. *)
Definition shift_table : list ((Bitboard -> Bitboard) * Z * Z) :=
  [ (shift_north, 0, 1); (shift_south, 0, -1); (shift_east, 1, 0); (shift_west, -1, 0);
    (shift_ne, 1, 1); (shift_nw, -1, 1); (shift_se, 1, -1); (shift_sw, -1, -1) ].

(** ** Move text *)

(** What [uci] writes after the two squares for a text that went through
    [from_uci]: the fifth character when it is a promotion letter. *)
Definition promo_suffix (s : string) : string :=
  match String.get 4 s with
  | Some e =>
      if existsb (Ascii.eqb e) ["n"; "b"; "r"; "q"]%char then String e EmptyString
      else EmptyString
  | None => EmptyString
  end.

(** ** Sliding pieces *)

Definition in_bounds (f r : Z) : bool :=
  (0 <=? f) && (f <=? 7) && (0 <=? r) && (r <=? 7).


(** The square [j] steps from [s] in the direction [(df, dr)]. *)
Definition ray_square (s : Square) (df dr j : Z) : Square :=
  make_square (file_of s + j * df) (rank_of s + j * dr).


(** [t] is reached from [s] by sliding in one of the directions [dirs]
    over squares that are empty in [occ]: [k] steps lead from [s] to [t],
    and the squares passed on the way are not occupied. *)
Definition slides (occ : Bitboard) (dirs : list (Z * Z)) (s t : Square) : Prop :=
  exists df dr k,
    In (df, dr) dirs /\ 1 <= k
    /\ file_of t = file_of s + k * df /\ rank_of t = rank_of s + k * dr
    /\ forall j, 1 <= j < k -> test_bit occ (ray_square s df dr j) = false.

(** ** Descriptors *)

(** The squares the placement loop of [from_fen] has not reached yet when
    it stands at [file] of [rank]: the rest of that rank and the ranks
    below. *)
Definition unvisited (rank file : Z) (sq : Square) : Prop :=
  rank_of sq < rank \/ (rank_of sq = rank /\ file <= file_of sq).

(** ** Move generation *)






(** The bitboards the pawn generators work on. *)
Definition promo_rank (us : Color) : Bitboard :=
  if bool_decide (us = White) then kRank8 else kRank1.





Definition ep_attackers (p : Position) : Bitboard :=
  Z.land (pawn_attacks (opposite (side_to_move_ p)) (en_passant_ p))
    (pieces (board_ p) (side_to_move_ p) Pawn).







(** ** Attacks *)


(** ** Move ordering *)

(** The moves below index [i] are in their final order: none of them
    scores less than a move behind it in the list. *)
Definition placed (score_of : Move -> Z) (ml : list Move) (i : nat) : Prop :=
  forall a b, (a < b)%nat -> (b < length ml)%nat -> (a < i)%nat ->
  score_of (ml !!! b) <= score_of (ml !!! a).

(** ** The text of a descriptor, field by field *)

(** The digit written for a run of [empty] empty squares, if there is one. *)
Definition run_text (empty : Z) : string :=
  if 0 <? empty then String (char_of_code (char_code "0" + empty)) EmptyString
  else EmptyString.

(** The text of the files from [file] on of a rank, after a run of
    [empty] empty squares. *)
Fixpoint rank_text (b : Board) (rank : Z) (n : nat) (file : Z) (empty : Z) : string :=
  match n with
  | O => run_text empty
  | S n' =>
      let p := piece_at b (make_square file rank) in
      if bool_decide (p = kNoPiece) then rank_text b rank n' (file + 1) (empty + 1)
      else (run_text empty ++ String (fen_char p) (rank_text b rank n' (file + 1) 0))%string
  end.

(** The text of the ranks from [rank] down, each but the eighth led by a
    slash. *)
Fixpoint placement_text (b : Board) (n : nat) (rank : Z) : string :=
  match n with
  | O => EmptyString
  | S n' =>
      ((if (rank <? 7)%Z then "/" else EmptyString) ++ rank_text b rank 8 0 0
       ++ placement_text b n' (rank - 1))%string
  end.

Definition side_text (c : Color) : string :=
  match c with White => "w" | Black => "b" end.

Definition castling_text (cr : CastlingRights) : string :=
  if cr =? kCastlingNone then "-"
  else ((if negb (Z.land cr kWhiteKingside =? 0)%Z then "K" else EmptyString)
        ++ (if negb (Z.land cr kWhiteQueenside =? 0)%Z then "Q" else EmptyString)
        ++ (if negb (Z.land cr kBlackKingside =? 0)%Z then "k" else EmptyString)
        ++ (if negb (Z.land cr kBlackQueenside =? 0)%Z then "q" else EmptyString))%string.

Definition ep_text (ep : Square) : string :=
  if ep =? kNoSquare then "-" else square_name ep.

(** A text that [split_spaces] keeps as one field. *)
Definition is_field (s : string) : Prop :=
  s <> EmptyString /\ Forall (fun c => c <> " "%char) (list_ascii_of_string s).

#[global] Instance is_field_dec (s : string) : Decision (is_field s).
Proof. unfold is_field. apply _. Defined.

(** The board the placement loop of [from_fen] has built when it stands
    at [file] of [rank] while reading the text of [b]: coherent, with the
    pieces of [b] on the squares passed and nothing on the others. *)
Definition agrees (b b0 : Board) (rank file : Z) : Prop :=
  board_ok b0
  /\ forall sq, valid_sq sq ->
       (unvisited rank file sq -> piece_at b0 sq = kNoPiece)
       /\ (~ unvisited rank file sq -> piece_at b0 sq = piece_at b sq).

(** What a descriptor can say of a position: a coherent board, a set of
    the four castling rights, an en-passant square of the board or none,
    and clocks that fit [int]. *)
Record describable (p : Position) : Prop := mkDescribable {
  d_board : board_ok (board_ p);
  d_castling : 0 <= castling_ p <= 15;
  d_ep : en_passant_ p = kNoSquare \/ valid_sq (en_passant_ p);
  d_halfmove : 0 <= halfmove_clock_ p <= kIntMax;
  d_fullmove : 1 <= fullmove_number_ p <= kIntMax
}.

(** Fields joined by single spaces. *)
Fixpoint join_fields (toks : list string) : string :=
  match toks with
  | [] => EmptyString
  | [t] => t
  | t :: ts => (t ++ String " "%char (join_fields ts))%string
  end.

(** The six fields [to_fen] writes. *)
Definition fen_fields (p : Position) : list string :=
  [ placement_text (board_ p) 8 7; side_text (side_to_move_ p);
    castling_text (castling_ p); ep_text (en_passant_ p);
    to_string (halfmove_clock_ p); to_string (fullmove_number_ p) ].


(** * Bitboards *)



Lemma testbit_u64 (x i : Z) : Z.testbit (u64 x) i = (i <? 64) && Z.testbit x i.
Proof. unfold u64. apply Z.testbit_mod_pow2. lia. Qed.

Lemma u64_id (x : Z) : bb_range x -> u64 x = x.
Proof. intros H. unfold u64. apply Z.mod_small. exact H. Qed.

Lemma u8_id (x : Z) : 0 <= x < 256 -> u8 x = x.
Proof. intros H. unfold u8. apply Z.mod_small. exact H. Qed.

Lemma bb_range_u64 (x : Z) : bb_range (u64 x).
Proof. unfold bb_range, u64. apply Z.mod_pos_bound. lia. Qed.

Lemma testbit_high (b i : Z) : bb_range b -> 64 <= i -> Z.testbit b i = false.
Proof.
  intros [H0 H1] Hi. destruct (Z.eq_dec b 0) as [->|Hne]; [apply Z.bits_0|].
  apply Z.bits_above_log2; [lia|].
  assert (Z.log2 b < 64) by (apply Z.log2_lt_pow2; lia). lia.
Qed.

Lemma bb_range_bits (b : Z) :
  (forall i, 0 <= i -> Z.testbit b i = true -> i < 64) -> bb_range b.
Proof.
  intros H. unfold bb_range.
  assert (Hn : 0 <= b).
  { destruct (Z.neg_nonneg_cases b) as [Hneg|]; [|assumption].
    exfalso. apply Z.bits_iff_neg_ex in Hneg. destruct Hneg as [k Hk].
    specialize (Hk (Z.max (k + 1) 64) ltac:(lia)).
    specialize (H (Z.max (k + 1) 64) ltac:(lia) Hk). lia. }
  split; [exact Hn|].
  destruct (Z.eq_dec b 0) as [->|Hne]; [lia|].
  apply Z.log2_lt_pow2; [lia|].
  assert (Hb : Z.testbit b (Z.log2 b) = true) by (apply Z.bit_log2; lia).
  apply H in Hb; [exact Hb | apply Z.log2_nonneg].
Qed.

Lemma testbit_square_bb (sq i : Z) :
  valid_sq sq -> 0 <= i -> Z.testbit (square_bb sq) i = (i =? sq).
Proof.
  intros Hsq Hi. unfold square_bb. rewrite testbit_u64, Z.shiftl_spec by lia.
  destruct (Z.eqb_spec i sq) as [->|Hne].
  - rewrite Z.sub_diag. unfold valid_sq in Hsq.
    replace (sq <? 64) with true by (symmetry; apply Z.ltb_lt; lia). reflexivity.
  - destruct (Z.lt_ge_cases i sq).
    + rewrite (Z.testbit_neg_r 1) by lia. apply andb_false_r.
    + replace (i - sq) with (Z.succ (i - sq - 1)) by lia.
      rewrite (Z.bits_above_log2 1) by (cbn; lia). apply andb_false_r.
Qed.

Lemma testbit_bb_not (b i : Z) :
  0 <= i -> Z.testbit (bb_not b) i = xorb (Z.testbit b i) (i <? 64).
Proof.
  intros Hi. unfold bb_not, kFullBB. rewrite Z.lxor_spec, Z.testbit_ones by lia.
  replace (0 <=? i) with true by (symmetry; apply Z.leb_le; lia). reflexivity.
Qed.

Lemma testbit_set_bit (b sq i : Z) :
  valid_sq sq -> 0 <= i ->
  Z.testbit (set_bit b sq) i = Z.testbit b i || (i =? sq).
Proof.
  intros Hsq Hi. unfold set_bit. rewrite Z.lor_spec, testbit_square_bb by assumption.
  reflexivity.
Qed.

Lemma testbit_clear_bit (b sq i : Z) :
  valid_sq sq -> bb_range b -> 0 <= i ->
  Z.testbit (clear_bit b sq) i = Z.testbit b i && negb (i =? sq).
Proof.
  intros Hsq Hb Hi. unfold clear_bit.
  rewrite Z.land_spec, testbit_bb_not, testbit_square_bb by assumption.
  destruct (Z.ltb_spec i 64).
  - rewrite xorb_true_r. reflexivity.
  - rewrite (testbit_high b i) by assumption. reflexivity.
Qed.

Lemma bb_range_set_bit (b sq : Z) : valid_sq sq -> bb_range b -> bb_range (set_bit b sq).
Proof.
  intros Hsq Hb. apply bb_range_bits. intros i Hi.
  rewrite testbit_set_bit by assumption. intros H.
  apply orb_true_iff in H. destruct H as [H|H].
  - destruct (Z.lt_ge_cases i 64); [assumption|].
    rewrite testbit_high in H by assumption. discriminate.
  - apply Z.eqb_eq in H. unfold valid_sq in Hsq. lia.
Qed.

Lemma bb_range_land_l (a b : Z) : bb_range a -> bb_range (Z.land a b).
Proof.
  intros Ha. apply bb_range_bits. intros i Hi. rewrite Z.land_spec. intros H.
  apply andb_true_iff in H. destruct H as [H _].
  destruct (Z.lt_ge_cases i 64); [assumption|].
  rewrite testbit_high in H by assumption. discriminate.
Qed.

Lemma bb_range_land_r (a b : Z) : bb_range b -> bb_range (Z.land a b).
Proof. intros Hb. rewrite Z.land_comm. apply bb_range_land_l. exact Hb. Qed.

Lemma bb_range_clear_bit (b sq : Z) : bb_range b -> bb_range (clear_bit b sq).
Proof. intros Hb. apply bb_range_land_l. exact Hb. Qed.

Lemma testbit_shl64 (b n i : Z) :
  0 <= i -> Z.testbit (shl64 b n) i = (i <? 64) && Z.testbit b (i - n).
Proof. intros Hi. unfold shl64. rewrite testbit_u64, Z.shiftl_spec by lia. reflexivity. Qed.

Lemma testbit_shr64 (b n i : Z) :
  0 <= i -> Z.testbit (shr64 b n) i = Z.testbit b (i + n).
Proof. intros Hi. unfold shr64. apply Z.shiftr_spec. exact Hi. Qed.

(** ** Trailing zeros and [pop_lsb] *)

Lemma pos_countr_zero_nonneg (p : positive) : 0 <= pos_countr_zero p.
Proof. induction p; cbn [pos_countr_zero]; lia. Qed.

Lemma pos_countr_zero_set (p : positive) : Z.testbit (Zpos p) (pos_countr_zero p) = true.
Proof.
  induction p as [q IH|q IH|]; cbn [pos_countr_zero].
  - rewrite Pos2Z.inj_xI. apply Z.testbit_odd_0.
  - rewrite Pos2Z.inj_xO, Z.add_1_l.
    rewrite Z.testbit_even_succ by apply pos_countr_zero_nonneg. exact IH.
  - reflexivity.
Qed.

Lemma pos_countr_zero_low (p : positive) (i : Z) :
  0 <= i < pos_countr_zero p -> Z.testbit (Zpos p) i = false.
Proof.
  revert i. induction p as [q IH|q IH|]; cbn [pos_countr_zero]; intros i Hi; try lia.
  rewrite Pos2Z.inj_xO.
  destruct (Z.eq_dec i 0) as [->|Hne]; [apply Z.testbit_even_0|].
  replace i with (Z.succ (i - 1)) by lia.
  rewrite Z.testbit_even_succ by lia. apply IH. lia.
Qed.

Lemma pos_pop_spec (p : positive) (i : Z) :
  0 <= i ->
  Z.testbit (Z.land (Zpos p) (Zpos p - 1)) i
  = Z.testbit (Zpos p) i && negb (i =? pos_countr_zero p).
Proof.
  revert i. induction p as [q IH|q IH|]; cbn [pos_countr_zero]; intros i Hi.
  - replace (Zpos q~1 - 1) with (2 * Zpos q) by lia.
    rewrite Z.land_spec, Pos2Z.inj_xI.
    destruct (Z.eq_dec i 0) as [->|Hne].
    + rewrite Z.testbit_odd_0, Z.testbit_even_0. reflexivity.
    + replace i with (Z.succ (i - 1)) by lia.
      rewrite Z.testbit_odd_succ, Z.testbit_even_succ by lia.
      replace (Z.succ (i - 1) =? 0) with false by (symmetry; apply Z.eqb_neq; lia).
      destruct (Z.testbit (Zpos q) (i - 1)); reflexivity.
  - replace (Zpos q~0 - 1) with (2 * (Zpos q - 1) + 1) by lia.
    rewrite Z.land_spec, Pos2Z.inj_xO.
    destruct (Z.eq_dec i 0) as [->|Hne].
    + rewrite Z.testbit_even_0. reflexivity.
    + replace i with (Z.succ (i - 1)) by lia.
      rewrite Z.testbit_odd_succ, Z.testbit_even_succ by lia.
      rewrite <- Z.land_spec, IH by lia.
      replace (Z.succ (i - 1) =? 1 + pos_countr_zero q)
        with (i - 1 =? pos_countr_zero q); [reflexivity|].
      destruct (Z.eqb_spec (i - 1) (pos_countr_zero q));
        symmetry; [apply Z.eqb_eq | apply Z.eqb_neq]; lia.
  - change (Z.land 1 (1 - 1)) with 0. rewrite Z.bits_0.
    destruct (Z.eq_dec i 0) as [->|Hne]; [reflexivity|].
    replace i with (Z.succ (i - 1)) by lia.
    rewrite (Z.bits_above_log2 1) by (cbn; lia). reflexivity.
Qed.

Lemma countr_zero_range (b : Z) : bb_range b -> b <> 0 -> 0 <= countr_zero b < 64.
Proof.
  intros Hb Hne. destruct b as [|p|p]; [congruence| |unfold bb_range in Hb; lia].
  cbn [countr_zero]. split; [apply pos_countr_zero_nonneg|].
  destruct (Z.lt_ge_cases (pos_countr_zero p) 64) as [|Hge]; [assumption|].
  pose proof (pos_countr_zero_set p) as Hset.
  rewrite testbit_high in Hset by assumption. discriminate.
Qed.

Lemma lsb_eq (b : Z) : bb_range b -> b <> 0 -> lsb b = countr_zero b.
Proof.
  intros Hb Hne. unfold lsb. apply u8_id.
  pose proof (countr_zero_range b Hb Hne). lia.
Qed.

Lemma lsb_valid (b : Z) : bb_range b -> b <> 0 -> valid_sq (lsb b).
Proof. intros Hb Hne. rewrite lsb_eq by assumption. apply countr_zero_range; assumption. Qed.

Lemma lsb_set (b : Z) : bb_range b -> b <> 0 -> Z.testbit b (lsb b) = true.
Proof.
  intros Hb Hne. rewrite lsb_eq by assumption.
  destruct b as [|p|p]; [congruence| |unfold bb_range in Hb; lia].
  apply pos_countr_zero_set.
Qed.

Lemma lsb_low (b i : Z) : bb_range b -> b <> 0 -> 0 <= i < lsb b -> Z.testbit b i = false.
Proof.
  intros Hb Hne. rewrite lsb_eq by assumption.
  destruct b as [|p|p]; [congruence| |unfold bb_range in Hb; lia].
  apply pos_countr_zero_low.
Qed.

Lemma testbit_pop (b i : Z) :
  bb_range b -> b <> 0 -> 0 <= i ->
  Z.testbit (snd (pop_lsb b)) i = Z.testbit b i && negb (i =? lsb b).
Proof.
  intros Hb Hne Hi. rewrite lsb_eq by assumption. unfold pop_lsb. cbn [snd].
  rewrite u64_id by (unfold bb_range in *; lia).
  destruct b as [|p|p]; [congruence| |unfold bb_range in Hb; lia].
  apply pos_pop_spec. exact Hi.
Qed.

Lemma bb_range_pop (b : Z) : bb_range b -> bb_range (snd (pop_lsb b)).
Proof. intros Hb. unfold pop_lsb. cbn [snd]. apply bb_range_land_l. exact Hb. Qed.

Lemma bits_zero (b : Z) :
  bb_range b -> (forall i, 0 <= i < 64 -> Z.testbit b i = false) -> b = 0.
Proof.
  intros Hb H. apply Z.bits_inj'. intros i Hi. rewrite Z.bits_0.
  destruct (Z.lt_ge_cases i 64); [apply H; lia | apply testbit_high; assumption].
Qed.

Lemma pop_loop_spec (n : nat) (b : Z) :
  bb_range b ->
  (forall i, 0 <= i < 64 - Z.of_nat n -> Z.testbit b i = false) ->
  forall sq, In sq (pop_loop n b) <-> (valid_sq sq /\ Z.testbit b sq = true).
Proof.
  revert b. induction n as [|n IH]; intros b Hb Hlow sq.
  - assert (b = 0) as -> by (apply bits_zero; [assumption | intros; apply Hlow; lia]).
    cbn. rewrite Z.bits_0. intuition discriminate.
  - cbn [pop_loop]. destruct (Z.eqb_spec b 0) as [->|Hne].
    + cbn. rewrite Z.bits_0. intuition discriminate.
    + pose proof (lsb_valid b Hb Hne) as Hv.
      pose proof (lsb_set b Hb Hne) as Hs.
      change (In sq (lsb b :: pop_loop n (snd (pop_lsb b)))
              <-> valid_sq sq /\ Z.testbit b sq = true).
      cbn [In]. rewrite IH.
      * split.
        -- intros [<-|[Hsq Hbit]]; [split; assumption|].
           rewrite testbit_pop in Hbit by (unfold valid_sq in Hsq; first [assumption | lia]).
           apply andb_true_iff in Hbit. tauto.
        -- intros [Hsq Hbit]. destruct (Z.eq_dec (lsb b) sq) as [|Hd]; [left; assumption|].
           right. split; [assumption|].
           rewrite testbit_pop by (unfold valid_sq in Hsq; first [assumption | lia]).
           rewrite Hbit. replace (sq =? lsb b) with false; [reflexivity|].
           symmetry. apply Z.eqb_neq. congruence.
      * apply bb_range_pop. exact Hb.
      * intros i Hi. rewrite testbit_pop by first [assumption | lia].
        destruct (Z.eqb_spec i (lsb b)) as [->|Hd]; [apply andb_false_r|].
        rewrite andb_true_r.
        destruct (Z.lt_ge_cases i (lsb b)); [apply lsb_low; first [assumption | lia]|].
        destruct (Z.lt_ge_cases i (64 - Z.of_nat (S n))); [apply Hlow; lia|].
        (* lsb b < i, and every bit below 64 - S n is clear *)
        assert (64 - Z.of_nat (S n) <= lsb b).
        { destruct (Z.lt_ge_cases (lsb b) (64 - Z.of_nat (S n))) as [Hc|]; [|assumption].
          rewrite Hlow in Hs by (unfold valid_sq in Hv; lia). discriminate. }
        lia.
Qed.

(** The loop over [pop_lsb] visits exactly the set bits of the word: 64
    iterations are enough. *)
Lemma pop_squares_bits (b : Bitboard) (sq : Square) :
  bb_range b -> (In sq (pop_squares b) <-> valid_sq sq /\ Z.testbit b sq = true).
Proof.
  intros Hb. apply pop_loop_spec; [assumption|]. intros i Hi. cbn in Hi. lia.
Qed.


(** * Board invariants *)





Lemma in_all_squares (sq : Z) : valid_sq sq -> In sq all_squares.
Proof.
  intros H. unfold all_squares. apply in_map_iff. exists (Z.to_nat sq).
  split; [unfold valid_sq in H; lia|]. apply in_seq. unfold valid_sq in H. lia.
Qed.

Lemma in_all_colors (c : Color) : In c all_colors.
Proof. destruct c; cbn; auto. Qed.

Lemma in_all_types (pt : PieceType) : pt <> PtNone -> In pt all_types.
Proof. destruct pt; cbn; intros H; auto 10; congruence. Qed.

Lemma in_range_b_spec (x : Z) : in_range_b x = true -> bb_range x.
Proof. unfold in_range_b, bb_range. intros H. apply andb_true_iff in H. lia. Qed.

Lemma testbit_by_squares (x : Z) (f : Z -> bool) :
  bb_range x ->
  forallb (fun i => Bool.eqb (Z.testbit x i) (f i)) all_squares = true ->
  forall i, 0 <= i -> Z.testbit x i = (i <? 64) && f i.
Proof.
  intros Hx Hall i Hi. destruct (Z.ltb_spec i 64) as [Hlt|Hge].
  - rewrite forallb_forall in Hall. apply eqb_prop, Hall, in_all_squares.
    unfold valid_sq. lia.
  - apply testbit_high; assumption.
Qed.

Lemma board_okb_sound (b : Board) : board_okb b = true -> board_ok b.
Proof.
  unfold board_okb. rewrite !andb_true_iff.
  intros [[[[[[[H1 H2] H3] H4] H5] H6] H7] H8].
  apply Nat.eqb_eq in H1, H2, H3.
  rewrite forallb_forall in H4, H5, H6.
  constructor; try assumption.
  - intros sq Hsq Hty. specialize (H4 sq (in_all_squares sq Hsq)).
    rewrite (bool_decide_eq_true_2 _ Hty) in H4. cbn in H4.
    apply bool_decide_eq_true in H4. exact H4.
  - intros c pt i Hpt Hi. specialize (H5 c (in_all_colors c)).
    rewrite forallb_forall in H5. specialize (H5 pt (in_all_types pt Hpt)).
    apply andb_true_iff in H5. destruct H5 as [Hr Hbits].
    exact (testbit_by_squares (pieces b c pt)
             (fun j => bool_decide (piece_at b j = mkPiece c pt))
             (in_range_b_spec _ Hr) Hbits i Hi).
  - intros c i Hi. specialize (H6 c (in_all_colors c)).
    apply andb_true_iff in H6. destruct H6 as [Hr Hbits].
    rewrite <- andb_assoc.
    exact (testbit_by_squares (occupied b c)
             (fun j => negb (is_empty b j) && bool_decide (color (piece_at b j) = c))
             (in_range_b_spec _ Hr) Hbits i Hi).
  - intros i Hi.
    exact (testbit_by_squares (occupied_all b) (fun j => negb (is_empty b j))
             (in_range_b_spec _ H7) H8 i Hi).
Qed.

(** ** Reading the arrays after an update *)

Lemma color_index_range (c : Color) : 0 <= color_index c <= 1.
Proof. destruct c; cbn; lia. Qed.

Lemma piece_index_range (pt : PieceType) : pt <> PtNone -> 0 <= piece_index pt <= 5.
Proof. destruct pt; cbv [piece_index piece_type_code]; intros; try lia; congruence. Qed.

Lemma pieces_slot_inj (c1 c2 : Color) (t1 t2 : PieceType) :
  t1 <> PtNone -> t2 <> PtNone ->
  pieces_slot (color_index c1) (piece_index t1) = pieces_slot (color_index c2) (piece_index t2) ->
  c1 = c2 /\ t1 = t2.
Proof.
  intros H1 H2.
  destruct c1, c2, t1, t2; try congruence; vm_compute; intros H;
    first [discriminate H | split; reflexivity].
Qed.

Lemma pieces_slot_lt (c : Color) (pt : PieceType) :
  pt <> PtNone -> (pieces_slot (color_index c) (piece_index pt) < 12)%nat.
Proof. intros H. destruct c, pt; try congruence; vm_compute; lia. Qed.

Lemma color_slot_inj (c1 c2 : Color) :
  Z.to_nat (color_index c1) = Z.to_nat (color_index c2) -> c1 = c2.
Proof. destruct c1, c2; cbn; intros; try reflexivity; lia. Qed.

Section Updates.
Variable b : Board.
Hypothesis Hok : board_ok b.
Variable sq : Square.
Hypothesis Hsq : valid_sq sq.

Lemma sq_lt_len : (Z.to_nat sq < length (mailbox_ b))%nat.
Proof. rewrite (ok_len_mailbox b Hok). unfold valid_sq in Hsq. lia. Qed.

Lemma piece_at_put (p : Piece) (i : Square) :
  0 <= i -> piece_at (put_piece sq p b) i = if i =? sq then p else piece_at b i.
Proof.
  intros Hi. unfold piece_at, put_piece. cbn [mailbox_].
  rewrite list_lookup_total_insert. pose proof sq_lt_len.
  destruct (Z.eqb_spec i sq) as [->|Hne]; destruct (decide _) as [[? ?]|Hn];
    try reflexivity.
  - exfalso. apply Hn. split; [reflexivity|assumption].
  - exfalso. unfold valid_sq in Hsq. lia.
Qed.

Lemma piece_at_remove (i : Square) :
  0 <= i -> piece_at (remove_piece sq b) i = if i =? sq then kNoPiece else piece_at b i.
Proof.
  intros Hi. unfold piece_at, remove_piece. cbn [mailbox_].
  rewrite list_lookup_total_insert. pose proof sq_lt_len.
  destruct (Z.eqb_spec i sq) as [->|Hne]; destruct (decide _) as [[? ?]|Hn];
    try reflexivity.
  - exfalso. apply Hn. split; [reflexivity|assumption].
  - exfalso. unfold valid_sq in Hsq. lia.
Qed.

Lemma pieces_put (p : Piece) (c : Color) (pt : PieceType) :
  type p <> PtNone -> pt <> PtNone ->
  pieces (put_piece sq p b) c pt
  = if bool_decide (p = mkPiece c pt) then set_bit (pieces b c pt) sq else pieces b c pt.
Proof.
  intros Hp Hpt. unfold pieces, put_piece. cbn [pieces_].
  rewrite list_lookup_total_alter.
  pose proof (pieces_slot_lt (color p) (type p) Hp) as Hlt.
  rewrite <- (ok_len_pieces b Hok) in Hlt.
  destruct (decide _) as [[He _]|Hn]; case_bool_decide as Hd.
  - subst p. reflexivity.
  - apply pieces_slot_inj in He; [|assumption..]. destruct He as [<- <-].
    destruct p. cbn in Hd. congruence.
  - subst p. cbn in Hn. exfalso. apply Hn. split; [reflexivity|exact Hlt].
  - reflexivity.
Qed.

Lemma occupied_put (p : Piece) (c : Color) :
  occupied (put_piece sq p b) c
  = if bool_decide (color p = c) then set_bit (occupied b c) sq else occupied b c.
Proof.
  unfold occupied, put_piece. cbn [occupied_].
  rewrite list_lookup_total_alter.
  assert (Hlt : (Z.to_nat (color_index (color p)) < length (occupied_ b))%nat).
  { rewrite (ok_len_occupied b Hok). pose proof (color_index_range (color p)). lia. }
  destruct (decide _) as [[He _]|Hn]; case_bool_decide as Hd.
  - subst c. reflexivity.
  - apply color_slot_inj in He. congruence.
  - subst c. exfalso. apply Hn. split; [reflexivity|exact Hlt].
  - reflexivity.
Qed.

Lemma pieces_remove (c : Color) (pt : PieceType) :
  type (piece_at b sq) <> PtNone -> pt <> PtNone ->
  pieces (remove_piece sq b) c pt
  = if bool_decide (piece_at b sq = mkPiece c pt)
    then clear_bit (pieces b c pt) sq else pieces b c pt.
Proof.
  intros Hp Hpt. unfold pieces, remove_piece. cbn [pieces_].
  rewrite list_lookup_total_alter.
  pose proof (pieces_slot_lt (color (piece_at b sq)) (type (piece_at b sq)) Hp) as Hlt.
  rewrite <- (ok_len_pieces b Hok) in Hlt.
  destruct (decide _) as [[He _]|Hn]; case_bool_decide as Hd.
  - rewrite Hd. reflexivity.
  - apply pieces_slot_inj in He; [|assumption..]. destruct He as [He1 He2].
    destruct (piece_at b sq). cbn in *. congruence.
  - rewrite Hd in Hn. cbn in Hn. rewrite Hd in Hlt. cbn in Hlt.
    exfalso. apply Hn. split; [reflexivity|exact Hlt].
  - reflexivity.
Qed.

Lemma occupied_remove (c : Color) :
  occupied (remove_piece sq b) c
  = if bool_decide (color (piece_at b sq) = c)
    then clear_bit (occupied b c) sq else occupied b c.
Proof.
  unfold occupied, remove_piece. cbn [occupied_].
  rewrite list_lookup_total_alter.
  assert (Hlt : (Z.to_nat (color_index (color (piece_at b sq))) < length (occupied_ b))%nat).
  { rewrite (ok_len_occupied b Hok).
    pose proof (color_index_range (color (piece_at b sq))). lia. }
  destruct (decide _) as [[He _]|Hn]; case_bool_decide as Hd.
  - subst c. reflexivity.
  - apply color_slot_inj in He. congruence.
  - subst c. exfalso. apply Hn. split; [reflexivity|exact Hlt].
  - reflexivity.
Qed.

End Updates.

Lemma bb_range_pieces (b : Board) (c : Color) (pt : PieceType) :
  board_ok b -> pt <> PtNone -> bb_range (pieces b c pt).
Proof.
  intros Hok Hpt. apply bb_range_bits. intros i Hi.
  rewrite (ok_pieces b Hok) by assumption. intros H.
  apply andb_true_iff in H. lia.
Qed.

Lemma bb_range_occupied (b : Board) (c : Color) : board_ok b -> bb_range (occupied b c).
Proof.
  intros Hok. apply bb_range_bits. intros i Hi.
  rewrite (ok_occupied b Hok) by assumption. intros H.
  rewrite !andb_true_iff in H. lia.
Qed.

Lemma bb_range_occupied_all (b : Board) : board_ok b -> bb_range (occupied_all b).
Proof.
  intros Hok. apply bb_range_bits. intros i Hi.
  rewrite (ok_occupied_all b Hok) by assumption. intros H.
  rewrite !andb_true_iff in H. lia.
Qed.

Lemma is_empty_put (b : Board) (sq : Square) (p : Piece) (i : Z) :
  board_ok b -> valid_sq sq -> 0 <= i ->
  is_empty (put_piece sq p b) i
  = if i =? sq then bool_decide (type p = PtNone) else is_empty b i.
Proof.
  intros Hok Hsq Hi. unfold is_empty. rewrite piece_at_put by assumption.
  destruct (i =? sq); reflexivity.
Qed.

Lemma is_empty_remove (b : Board) (sq : Square) (i : Z) :
  board_ok b -> valid_sq sq -> 0 <= i ->
  is_empty (remove_piece sq b) i = if i =? sq then true else is_empty b i.
Proof.
  intros Hok Hsq Hi. unfold is_empty. rewrite piece_at_remove by assumption.
  destruct (i =? sq); reflexivity.
Qed.

(** Placing a piece on an empty square keeps the invariants. *)
Lemma put_piece_ok (b : Board) (sq : Square) (p : Piece) :
  board_ok b -> valid_sq sq -> piece_at b sq = kNoPiece -> type p <> PtNone ->
  board_ok (put_piece sq p b).
Proof.
  intros Hok Hsq Hempty Hp. constructor.
  - cbn. rewrite length_alter. apply Hok.
  - cbn. rewrite length_alter. apply Hok.
  - cbn. rewrite length_insert. apply Hok.
  - intros i [Hi0 Hi1]. rewrite piece_at_put by assumption.
    destruct (Z.eqb_spec i sq); [congruence|]. apply Hok. split; assumption.
  - intros c pt i Hpt Hi. rewrite pieces_put, piece_at_put by assumption.
    case_bool_decide as Hd.
    + rewrite testbit_set_bit, (ok_pieces b Hok) by assumption.
      destruct (Z.eqb_spec i sq) as [->|Hne].
      * rewrite orb_true_r. unfold valid_sq in Hsq.
        replace (sq <? 64) with true by (symmetry; apply Z.ltb_lt; lia).
        rewrite bool_decide_eq_true_2 by assumption. reflexivity.
      * apply orb_false_r.
    + rewrite (ok_pieces b Hok) by assumption.
      destruct (Z.eqb_spec i sq) as [->|Hne]; [|reflexivity].
      rewrite Hempty. rewrite !bool_decide_eq_false_2; [reflexivity|assumption|].
      unfold kNoPiece. intros [=]. congruence.
  - intros c i Hi. rewrite occupied_put, is_empty_put, piece_at_put by assumption.
    case_bool_decide as Hd.
    + rewrite testbit_set_bit, (ok_occupied b Hok) by assumption.
      destruct (Z.eqb_spec i sq) as [->|Hne].
      * rewrite orb_true_r. unfold valid_sq in Hsq.
        replace (sq <? 64) with true by (symmetry; apply Z.ltb_lt; lia).
        rewrite bool_decide_eq_false_2 by assumption.
        rewrite bool_decide_eq_true_2 by assumption. reflexivity.
      * apply orb_false_r.
    + rewrite (ok_occupied b Hok) by assumption.
      destruct (Z.eqb_spec i sq) as [->|Hne]; [|reflexivity].
      unfold is_empty. rewrite Hempty. cbn.
      rewrite (bool_decide_eq_false_2 (color p = c)) by assumption.
      rewrite !andb_false_r. reflexivity.
  - intros i Hi. unfold occupied_all at 1. cbn [put_piece occupied_all_].
    rewrite testbit_set_bit, is_empty_put by assumption.
    fold (occupied_all b). rewrite (ok_occupied_all b Hok) by assumption.
    destruct (Z.eqb_spec i sq) as [->|Hne].
    + rewrite orb_true_r. unfold valid_sq in Hsq.
      replace (sq <? 64) with true by (symmetry; apply Z.ltb_lt; lia).
      rewrite bool_decide_eq_false_2 by assumption. reflexivity.
    + apply orb_false_r.
Qed.

(** Removing the piece of an occupied square keeps the invariants. *)
Lemma remove_piece_ok (b : Board) (sq : Square) :
  board_ok b -> valid_sq sq -> type (piece_at b sq) <> PtNone ->
  board_ok (remove_piece sq b).
Proof.
  intros Hok Hsq Hp. constructor.
  - cbn. rewrite length_alter. apply Hok.
  - cbn. rewrite length_alter. apply Hok.
  - cbn. rewrite length_insert. apply Hok.
  - intros i [Hi0 Hi1]. rewrite piece_at_remove by assumption.
    destruct (Z.eqb_spec i sq); [reflexivity|]. apply Hok. split; assumption.
  - intros c pt i Hpt Hi. rewrite pieces_remove, piece_at_remove by assumption.
    pose proof (bb_range_pieces b c pt Hok Hpt) as Hr.
    case_bool_decide as Hd.
    + rewrite testbit_clear_bit, (ok_pieces b Hok) by assumption.
      destruct (Z.eqb_spec i sq) as [->|Hne].
      * rewrite !andb_false_r.
        rewrite bool_decide_eq_false_2; [rewrite ?andb_false_r; reflexivity|].
        unfold kNoPiece. intros [=]. congruence.
      * apply andb_true_r.
    + rewrite (ok_pieces b Hok) by assumption.
      destruct (Z.eqb_spec i sq) as [->|Hne]; [|reflexivity].
      rewrite !bool_decide_eq_false_2; [reflexivity| |assumption].
      unfold kNoPiece. intros [=]. congruence.
  - intros c i Hi. rewrite occupied_remove, is_empty_remove, piece_at_remove by assumption.
    pose proof (bb_range_occupied b c Hok) as Hr.
    case_bool_decide as Hd.
    + rewrite testbit_clear_bit, (ok_occupied b Hok) by assumption.
      destruct (Z.eqb_spec i sq) as [->|Hne].
      * cbn. rewrite !andb_false_r. reflexivity.
      * apply andb_true_r.
    + rewrite (ok_occupied b Hok) by assumption.
      destruct (Z.eqb_spec i sq) as [->|Hne]; [|reflexivity].
      rewrite (bool_decide_eq_false_2 _ Hd). cbn. rewrite !andb_false_r. reflexivity.
  - intros i Hi. unfold occupied_all at 1. cbn [remove_piece occupied_all_].
    pose proof (bb_range_occupied_all b Hok) as Hr.
    rewrite testbit_clear_bit, is_empty_remove by assumption.
    fold (occupied_all b). rewrite (ok_occupied_all b Hok) by assumption.
    destruct (Z.eqb_spec i sq) as [->|Hne].
    + cbn. rewrite !andb_false_r. reflexivity.
    + apply andb_true_r.
Qed.

(** ** Extensionality: the mailbox determines a coherent board *)

Lemma list_eq_total {A} `{Inhabited A} (l1 l2 : list A) (n : nat) :
  length l1 = n -> length l2 = n ->
  (forall i, (i < n)%nat -> l1 !!! i = l2 !!! i) -> l1 = l2.
Proof.
  intros H1 H2 Heq. apply list_eq. intros i.
  destruct (Nat.lt_ge_cases i n) as [Hlt|Hge].
  - rewrite !list_lookup_lookup_total_lt by lia. f_equal. apply Heq. exact Hlt.
  - rewrite !lookup_ge_None_2 by lia. reflexivity.
Qed.

Lemma slot_decode (i : nat) :
  (i < 12)%nat ->
  exists c pt, pt <> PtNone /\ i = pieces_slot (color_index c) (piece_index pt).
Proof.
  intros Hi.
  do 12 (destruct i as [|i];
    [first [ exists White, Pawn; split; [discriminate|reflexivity]
           | exists White, Knight; split; [discriminate|reflexivity]
           | exists White, Bishop; split; [discriminate|reflexivity]
           | exists White, Rook; split; [discriminate|reflexivity]
           | exists White, Queen; split; [discriminate|reflexivity]
           | exists White, King; split; [discriminate|reflexivity]
           | exists Black, Pawn; split; [discriminate|reflexivity]
           | exists Black, Knight; split; [discriminate|reflexivity]
           | exists Black, Bishop; split; [discriminate|reflexivity]
           | exists Black, Rook; split; [discriminate|reflexivity]
           | exists Black, Queen; split; [discriminate|reflexivity]
           | exists Black, King; split; [discriminate|reflexivity] ]|]).
  lia.
Qed.

Lemma piece_at_mailbox (b1 b2 : Board) (i : Z) :
  mailbox_ b1 = mailbox_ b2 -> piece_at b1 i = piece_at b2 i.
Proof. unfold piece_at. intros ->. reflexivity. Qed.

Lemma board_ext (b1 b2 : Board) :
  board_ok b1 -> board_ok b2 -> mailbox_ b1 = mailbox_ b2 -> b1 = b2.
Proof.
  intros H1 H2 Hmb.
  assert (Hp : pieces_ b1 = pieces_ b2).
  { apply (list_eq_total _ _ 12); [apply H1 | apply H2 |].
    intros i Hi. destruct (slot_decode i Hi) as (c & pt & Hpt & ->).
    fold (pieces b1 c pt). fold (pieces b2 c pt).
    apply Z.bits_inj'. intros n Hn.
    rewrite (ok_pieces b1 H1), (ok_pieces b2 H2) by assumption.
    rewrite (piece_at_mailbox b1 b2 n Hmb). reflexivity. }
  assert (Ho : occupied_ b1 = occupied_ b2).
  { apply (list_eq_total _ _ 2); [apply H1 | apply H2 |].
    intros i Hi.
    assert (Hc : exists c, i = Z.to_nat (color_index c)).
    { destruct i as [|[|i]]; [exists White|exists Black|lia]; reflexivity. }
    destruct Hc as [c ->]. fold (occupied b1 c). fold (occupied b2 c).
    apply Z.bits_inj'. intros n Hn.
    rewrite (ok_occupied b1 H1), (ok_occupied b2 H2) by assumption.
    unfold is_empty. rewrite (piece_at_mailbox b1 b2 n Hmb). reflexivity. }
  assert (Ha : occupied_all_ b1 = occupied_all_ b2).
  { fold (occupied_all b1). fold (occupied_all b2).
    apply Z.bits_inj'. intros n Hn.
    rewrite (ok_occupied_all b1 H1), (ok_occupied_all b2 H2) by assumption.
    unfold is_empty. rewrite (piece_at_mailbox b1 b2 n Hmb). reflexivity. }
  destruct b1, b2. cbn in *. congruence.
Qed.


(** * Positions: the fields after [make_move] and [unmake_move] *)

Lemma proj_if {A B} (f : A -> B) (c : bool) (x y : A) :
  f (if c then x else y) = if c then f x else f y.
Proof. destruct c; reflexivity. Qed.

Lemma if_same {A} (c : bool) (x : A) : (if c then x else x) = x.
Proof. destruct c; reflexivity. Qed.

(** Projections of the steps of [make_move]; the key is treated apart. *)
Ltac step_proj :=
  repeat first
    [ progress cbn [board_ side_to_move_ castling_ en_passant_ halfmove_clock_
                    fullmove_number_ key_ history_ key_history_
                    set_board set_side set_castling_field set_en_passant_field
                    set_halfmove set_fullmove set_key set_history set_key_history
                    on_board toggle_piece_hash toggle_side_hash]
    | rewrite proj_if
    | rewrite if_same ].

(** The eight fields other than the key, as a tuple. *)
Ltac split_all := repeat match goal with |- _ /\ _ => split end.

Lemma set_en_passant_fields (ep : Square) (q : Position) :
  board_ (set_en_passant ep q) = board_ q
  /\ side_to_move_ (set_en_passant ep q) = side_to_move_ q
  /\ castling_ (set_en_passant ep q) = castling_ q
  /\ en_passant_ (set_en_passant ep q) = ep
  /\ halfmove_clock_ (set_en_passant ep q) = halfmove_clock_ q
  /\ fullmove_number_ (set_en_passant ep q) = fullmove_number_ q
  /\ history_ (set_en_passant ep q) = history_ q
  /\ key_history_ (set_en_passant ep q) = key_history_ q.
Proof.
  unfold set_en_passant. destruct (Z.eqb_spec ep (en_passant_ q)) as [->|Hne].
  - split_all; reflexivity.
  - step_proj. split_all; reflexivity.
Qed.

Lemma set_castling_fields (cr : CastlingRights) (q : Position) :
  board_ (set_castling cr q) = board_ q
  /\ side_to_move_ (set_castling cr q) = side_to_move_ q
  /\ castling_ (set_castling cr q) = cr
  /\ en_passant_ (set_castling cr q) = en_passant_ q
  /\ halfmove_clock_ (set_castling cr q) = halfmove_clock_ q
  /\ fullmove_number_ (set_castling cr q) = fullmove_number_ q
  /\ history_ (set_castling cr q) = history_ q
  /\ key_history_ (set_castling cr q) = key_history_ q.
Proof.
  unfold set_castling. destruct (Z.eqb_spec cr (castling_ q)) as [->|Hne].
  - split_all; reflexivity.
  - step_proj. split_all; reflexivity.
Qed.

Lemma castle_rook_fields (m : Move) (q : Position) :
  board_ (castle_rook m q) = castle_board m (board_ q)
  /\ side_to_move_ (castle_rook m q) = side_to_move_ q
  /\ castling_ (castle_rook m q) = castling_ q
  /\ en_passant_ (castle_rook m q) = en_passant_ q
  /\ halfmove_clock_ (castle_rook m q) = halfmove_clock_ q
  /\ fullmove_number_ (castle_rook m q) = fullmove_number_ q
  /\ history_ (castle_rook m q) = history_ q
  /\ key_history_ (castle_rook m q) = key_history_ q.
Proof.
  unfold castle_rook, castle_board, slide_rook, slide_board, place_hashed, remove_hashed.
  destruct (bool_decide (flag m = CastleKingside));
    [|destruct (bool_decide (flag m = CastleQueenside))];
    step_proj; split_all; reflexivity.
Qed.

Lemma update_clocks_fields (piece captured : Piece) (q : Position) :
  board_ (update_clocks piece captured q) = board_ q
  /\ side_to_move_ (update_clocks piece captured q) = side_to_move_ q
  /\ castling_ (update_clocks piece captured q) = castling_ q
  /\ en_passant_ (update_clocks piece captured q) = en_passant_ q
  /\ halfmove_clock_ (update_clocks piece captured q)
     = (if bool_decide (type piece = Pawn) || bool_decide (captured <> kNoPiece)
        then 0 else wrap_int (halfmove_clock_ q + 1))
  /\ fullmove_number_ (update_clocks piece captured q)
     = (if bool_decide (side_to_move_ q = Black)
        then wrap_int (fullmove_number_ q + 1) else fullmove_number_ q)
  /\ history_ (update_clocks piece captured q) = history_ q
  /\ key_history_ (update_clocks piece captured q) = key_history_ q.
Proof.
  unfold update_clocks.
  destruct (bool_decide (type piece = Pawn) || bool_decide (captured <> kNoPiece));
    step_proj; destruct (bool_decide (side_to_move_ q = Black));
    step_proj; split_all; reflexivity.
Qed.

(** The fields of the position [make_move] returns. *)
Lemma make_move_fields (m : Move) (p : Position) :
  board_ (make_move m p) = make_board m p
  /\ side_to_move_ (make_move m p) = opposite (side_to_move_ p)
  /\ castling_ (make_move m p)
     = Z.land (Z.land (castling_ p) (kCastleMask (from_sq m))) (kCastleMask (to_sq m))
  /\ en_passant_ (make_move m p)
     = (if bool_decide (flag m = DoublePawn)
        then make_square (file_of (from_sq m))
               ((rank_of (from_sq m) + rank_of (to_sq m)) `quot` 2)
        else kNoSquare)
  /\ halfmove_clock_ (make_move m p)
     = (if bool_decide (type (piece_at (board_ p) (from_sq m)) = Pawn)
           || bool_decide (captured_piece m p <> kNoPiece)
        then 0 else wrap_int (halfmove_clock_ p + 1))
  /\ fullmove_number_ (make_move m p)
     = (if bool_decide (side_to_move_ p = Black)
        then wrap_int (fullmove_number_ p + 1) else fullmove_number_ p)
  /\ history_ (make_move m p) = history_ p ++ [make_undo m p]
  /\ key_history_ (make_move m p) = key_history_ p ++ [key_ (make_move m p)].
Proof.
  set (piece := piece_at (board_ p) (from_sq m)).
  set (captured := captured_piece m p).
  set (q1 := save_undo captured p).
  set (q2 := remove_hashed piece (from_sq m) q1).
  set (q3 := if bool_decide (captured <> kNoPiece)
             then remove_hashed captured (capture_square m) q2 else q2).
  set (q4 := place_hashed (placed_piece m piece) (to_sq m) q3).
  set (q5 := castle_rook m q4).
  set (q6 := update_en_passant m q5).
  set (q7 := update_castling m q6).
  set (q8 := update_clocks piece captured q7).
  set (q9 := switch_side q8).
  change (make_move m p) with (record_key q9).
  pose proof (castle_rook_fields m q4) as F5. fold q5 in F5.
  pose proof (update_clocks_fields piece captured q7) as F8. fold q8 in F8.
  assert (E6 : board_ q6 = board_ q5 /\ side_to_move_ q6 = side_to_move_ q5
               /\ castling_ q6 = castling_ q5
               /\ en_passant_ q6
                  = (if bool_decide (flag m = DoublePawn)
                     then make_square (file_of (from_sq m))
                            ((rank_of (from_sq m) + rank_of (to_sq m)) `quot` 2)
                     else kNoSquare)
               /\ halfmove_clock_ q6 = halfmove_clock_ q5
               /\ fullmove_number_ q6 = fullmove_number_ q5
               /\ history_ q6 = history_ q5 /\ key_history_ q6 = key_history_ q5).
  { unfold q6, update_en_passant. destruct (bool_decide (flag m = DoublePawn));
      apply set_en_passant_fields. }
  assert (E7 : board_ q7 = board_ q6 /\ side_to_move_ q7 = side_to_move_ q6
               /\ castling_ q7
                  = Z.land (Z.land (castling_ q6) (kCastleMask (from_sq m)))
                      (kCastleMask (to_sq m))
               /\ en_passant_ q7 = en_passant_ q6
               /\ halfmove_clock_ q7 = halfmove_clock_ q6
               /\ fullmove_number_ q7 = fullmove_number_ q6
               /\ history_ q7 = history_ q6 /\ key_history_ q7 = key_history_ q6).
  { unfold q7, update_castling. apply set_castling_fields. }
  assert (E3 : board_ q3 = capture_board m captured (board_ q2)
               /\ side_to_move_ q3 = side_to_move_ q2 /\ castling_ q3 = castling_ q2
               /\ en_passant_ q3 = en_passant_ q2
               /\ halfmove_clock_ q3 = halfmove_clock_ q2
               /\ fullmove_number_ q3 = fullmove_number_ q2
               /\ history_ q3 = history_ q2 /\ key_history_ q3 = key_history_ q2).
  { unfold q3, capture_board. destruct (bool_decide (captured <> kNoPiece));
      split_all; reflexivity. }
  destruct F5 as (B5 & S5 & C5 & P5 & H5 & N5 & U5 & K5).
  destruct E6 as (B6 & S6 & C6 & P6 & H6 & N6 & U6 & K6).
  destruct E7 as (B7 & S7 & C7 & P7 & H7 & N7 & U7 & K7).
  destruct F8 as (B8 & S8 & C8 & P8 & H8 & N8 & U8 & K8).
  destruct E3 as (B3 & S3 & C3 & P3 & H3 & N3 & U3 & K3).
  split_all.
  - change (board_ (record_key q9)) with (board_ q8).
    rewrite B8, B7, B6, B5. change (board_ q4) with (put_piece (to_sq m) (placed_piece m piece) (board_ q3)).
    rewrite B3. reflexivity.
  - change (side_to_move_ (record_key q9)) with (opposite (side_to_move_ q8)).
    rewrite S8, S7, S6, S5. change (side_to_move_ q4) with (side_to_move_ q3).
    rewrite S3. reflexivity.
  - change (castling_ (record_key q9)) with (castling_ q8).
    rewrite C8, C7, C6, C5. change (castling_ q4) with (castling_ q3).
    rewrite C3. reflexivity.
  - change (en_passant_ (record_key q9)) with (en_passant_ q8).
    rewrite P8, P7, P6. reflexivity.
  - change (halfmove_clock_ (record_key q9)) with (halfmove_clock_ q8).
    rewrite H8, H7, H6, H5. change (halfmove_clock_ q4) with (halfmove_clock_ q3).
    rewrite H3. reflexivity.
  - change (fullmove_number_ (record_key q9)) with (fullmove_number_ q8).
    rewrite N8, S7, S6, S5, N7, N6, N5.
    change (side_to_move_ q4) with (side_to_move_ q3).
    change (fullmove_number_ q4) with (fullmove_number_ q3).
    rewrite S3, N3. reflexivity.
  - change (history_ (record_key q9)) with (history_ q8).
    rewrite U8, U7, U6, U5. change (history_ q4) with (history_ q3).
    rewrite U3. reflexivity.
  - change (key_history_ (record_key q9)) with (key_history_ q8 ++ [key_ (record_key q9)]).
    rewrite K8, K7, K6, K5. change (key_history_ q4) with (key_history_ q3).
    rewrite K3. reflexivity.
Qed.


Lemma opposite_involutive (c : Color) : opposite (opposite c) = c.
Proof. destruct c; reflexivity. Qed.

Lemma wrap_int_id (z : Z) : in_int z -> wrap_int z = z.
Proof.
  unfold in_int, wrap_int, kIntMin, kIntMax. intros H.
  rewrite Z.mod_small by lia. lia.
Qed.

Lemma in_int_wrap (z : Z) : in_int (wrap_int z).
Proof.
  unfold in_int, wrap_int, kIntMin, kIntMax.
  pose proof (Z.mod_pos_bound (z + 2 ^ 31) (2 ^ 32) ltac:(lia)). lia.
Qed.


(** ** Boards with a known mailbox

    A chain of [put_piece] and [remove_piece] calls is followed on the
    mailbox: each step keeps [board_ok] when the mailbox says the square is
    free (for a put) or occupied (for a remove). *)

Lemma mb_put (b : Board) (mb : list Piece) (sq : Square) (pc : Piece) :
  board_ok b /\ mailbox_ b = mb ->
  valid_sq sq -> mb !!! Z.to_nat sq = kNoPiece -> type pc <> PtNone ->
  board_ok (put_piece sq pc b) /\ mailbox_ (put_piece sq pc b) = <[Z.to_nat sq := pc]> mb.
Proof.
  intros [Hok <-] Hsq He Hpc. split; [|reflexivity].
  apply put_piece_ok; assumption.
Qed.

Lemma mb_remove (b : Board) (mb : list Piece) (sq : Square) :
  board_ok b /\ mailbox_ b = mb ->
  valid_sq sq -> type (mb !!! Z.to_nat sq) <> PtNone ->
  board_ok (remove_piece sq b)
  /\ mailbox_ (remove_piece sq b) = <[Z.to_nat sq := kNoPiece]> mb.
Proof.
  intros [Hok <-] Hsq He. split; [|reflexivity].
  apply remove_piece_ok; assumption.
Qed.

Lemma mb_piece_at (b : Board) (mb : list Piece) (sq : Square) :
  board_ok b /\ mailbox_ b = mb -> piece_at b sq = mb !!! Z.to_nat sq.
Proof. intros [_ <-]. reflexivity. Qed.

Lemma mb_length (b : Board) (mb : list Piece) :
  board_ok b /\ mailbox_ b = mb -> length mb = 64%nat.
Proof. intros [Hok <-]. apply Hok. Qed.

Lemma type_proper (b : Board) (sq : Square) :
  board_ok b -> valid_sq sq -> piece_at b sq <> kNoPiece -> type (piece_at b sq) <> PtNone.
Proof. intros Hok Hsq Hne Hty. apply Hne, (ok_empty b Hok); assumption. Qed.

(** Lookups in a mailbox after some updates. *)
Ltac mb_lookup :=
  unfold valid_sq in *;
  repeat match goal with
  | H : context [length (<[_ := _]> _)] |- _ => rewrite length_insert in H
  | |- context [length (<[_ := _]> _)] => rewrite length_insert
  | H : context [(<[_ := _]> _) !!! _] |- _ => rewrite list_lookup_total_insert in H
  | |- context [(<[_ := _]> _) !!! _] => rewrite list_lookup_total_insert
  end;
  repeat match goal with
  | H : context [decide (?P)] |- _ =>
      destruct (decide P) as [[? ?]|?]; try (exfalso; lia)
  | |- context [decide (?P)] =>
      destruct (decide P) as [[? ?]|?]; try (exfalso; lia)
  end.

Ltac mb_known :=
  repeat match goal with
  | H : ?l !!! ?i = _ |- context [?l !!! ?i] => rewrite H
  end;
  cbn [type color].

Ltac mb_side :=
  first [ assumption
        | progress (unfold valid_sq in *); lia
        | mb_lookup;
          first [ assumption | congruence | discriminate
                | (unfold valid_sq in *; lia)
                | mb_known; first [assumption | congruence | discriminate] ] ].

(** One step along a chain: from the mailbox of [X], the mailbox of the
    [put_piece] or [remove_piece] applied to [X] in the goal. *)
Ltac mb_next H :=
  lazymatch type of H with
  | board_ok ?X /\ mailbox_ ?X = ?MB =>
      unfold piece_at;
      try (progress (rewrite (proj2 H)));
      try (progress mb_lookup);
      lazymatch goal with
      | |- context [put_piece ?sq ?pc X] =>
          let H' := fresh "HB" in
          assert (H' : board_ok (put_piece sq pc X)
                       /\ mailbox_ (put_piece sq pc X) = <[Z.to_nat sq := pc]> MB)
            by (apply (mb_put X MB sq pc H); mb_side)
      | |- context [remove_piece ?sq X] =>
          let H' := fresh "HB" in
          assert (H' : board_ok (remove_piece sq X)
                       /\ mailbox_ (remove_piece sq X) = <[Z.to_nat sq := kNoPiece]> MB)
            by (apply (mb_remove X MB sq H); mb_side)
      end
  end.



(** [bool_decide] of an equation between constructors. *)
Ltac flag_simpl :=
  repeat match goal with
  | |- context [bool_decide (?a = ?b)] =>
      first [ rewrite (bool_decide_eq_true_2 (a = b)) by reflexivity
            | rewrite (bool_decide_eq_false_2 (a = b)) by discriminate ]
  | |- context [bool_decide (?a <> ?b)] =>
      first [ rewrite (bool_decide_eq_true_2 (a <> b))
                by (first [assumption | discriminate | congruence])
            | rewrite (bool_decide_eq_false_2 (a <> b)) by (first [tauto | congruence]) ]
  end.

Ltac eval_squares :=
  repeat match goal with
  | |- context [make_square ?a (rank_of ?b)] =>
      let v := eval vm_compute in (make_square a (rank_of b)) in
      change (make_square a (rank_of b)) with v
  end.

(** Home-rank squares of Black, as numerals. *)
Ltac eval_home :=
  repeat match goal with
  | H : context [56 + ?k] |- _ =>
      let v := eval vm_compute in (56 + k) in change (56 + k) with v in H
  | |- context [56 + ?k] =>
      let v := eval vm_compute in (56 + k) in change (56 + k) with v
  end.

Lemma promotion_type (pt : PieceType) :
  In pt [Queen; Rook; Bishop; Knight] -> pt <> PtNone.
Proof. cbn. intros [<-|[<-|[<-|[<-|[]]]]]; discriminate. Qed.

Lemma pawn_not_empty (c : Color) : mkPiece c Pawn <> kNoPiece.
Proof. discriminate. Qed.

Lemma ep_capture_sq_neq (c : Color) (sq : Square) : ep_capture_sq c sq <> sq.
Proof. destruct c; cbn; lia. Qed.




(** * The pseudo-legal generator only emits moves [make_move] accepts *)

(** ** Squares, files and ranks *)

Lemma file_of_mod (sq : Square) : file_of sq = sq mod 8.
Proof. unfold file_of. change 7 with (Z.ones 3). rewrite Z.land_ones by lia. reflexivity. Qed.

Lemma rank_of_div (sq : Square) : rank_of sq = sq / 8.
Proof. unfold rank_of. rewrite Z.shiftr_div_pow2 by lia. reflexivity. Qed.

Lemma make_square_eq (f r : Z) : 0 <= r * 8 + f < 256 -> make_square f r = r * 8 + f.
Proof. intros H. unfold make_square. apply u8_id. exact H. Qed.

Lemma make_square_file_rank (sq d : Z) :
  valid_sq sq -> valid_sq (sq + 8 * d) ->
  make_square (file_of sq) (rank_of sq + d) = sq + 8 * d.
Proof.
  unfold valid_sq. intros H1 H2. rewrite file_of_mod, rank_of_div.
  rewrite make_square_eq; pose proof (Z.div_mod sq 8 ltac:(lia)); lia.
Qed.

Lemma rank_of_shift (sq d : Z) : rank_of (sq + 8 * d) = rank_of sq + d.
Proof.
  rewrite !rank_of_div. replace (sq + 8 * d) with (sq + d * 8) by lia.
  apply Z.div_add. lia.
Qed.

Lemma file_of_shift (sq d : Z) : file_of (sq + 8 * d) = file_of sq.
Proof.
  rewrite !file_of_mod. replace (sq + 8 * d) with (sq + d * 8) by lia.
  apply Z.mod_add. lia.
Qed.

(** ** Bits of the boards the generator loops over *)

Lemma bb_range_bb_not (b : Bitboard) : bb_range b -> bb_range (bb_not b).
Proof.
  intros Hb. apply bb_range_bits. intros i Hi. rewrite testbit_bb_not by assumption.
  destruct (Z.ltb_spec i 64); [intros; assumption|].
  rewrite testbit_high by assumption. discriminate.
Qed.

Lemma bb_range_shr64 (b n : Z) : 0 <= n -> bb_range b -> bb_range (shr64 b n).
Proof.
  intros Hn Hb. apply bb_range_bits. intros i Hi. rewrite testbit_shr64 by assumption.
  destruct (Z.lt_ge_cases i 64); [intros; assumption|].
  rewrite testbit_high by (first [assumption | lia]). discriminate.
Qed.

Lemma bb_range_shl64 (b n : Z) : bb_range (shl64 b n).
Proof. apply bb_range_u64. Qed.

Lemma piece_of_bit (b : Board) (c : Color) (pt : PieceType) (i : Z) :
  board_ok b -> pt <> PtNone -> Z.testbit (pieces b c pt) i = true ->
  valid_sq i /\ piece_at b i = mkPiece c pt.
Proof.
  intros Hok Hpt Hbit.
  destruct (Z.lt_ge_cases i 0) as [Hneg|Hi].
  { rewrite Z.testbit_neg_r in Hbit by assumption. discriminate. }
  rewrite (ok_pieces b Hok) in Hbit by assumption.
  apply andb_true_iff in Hbit. destruct Hbit as [H1 H2].
  apply bool_decide_eq_true in H2. unfold valid_sq. split; [lia | assumption].
Qed.

Lemma empty_of_bit (b : Board) (i : Z) :
  board_ok b -> 0 <= i < 64 -> Z.testbit (bb_not (occupied_all b)) i = true ->
  piece_at b i = kNoPiece.
Proof.
  intros Hok Hi Hbit. rewrite testbit_bb_not in Hbit by lia.
  rewrite (ok_occupied_all b Hok) in Hbit by lia.
  replace (i <? 64) with true in Hbit by (symmetry; apply Z.ltb_lt; lia).
  cbn in Hbit. rewrite xorb_true_r, negb_involutive in Hbit.
  unfold is_empty in Hbit. apply bool_decide_eq_true in Hbit.
  apply (ok_empty b Hok); [unfold valid_sq; lia | assumption].
Qed.

Lemma occupied_of_piece (b : Board) (c : Color) (pt : PieceType) (i : Z) :
  board_ok b -> valid_sq i -> pt <> PtNone -> piece_at b i = mkPiece c pt ->
  Z.testbit (occupied b c) i = true.
Proof.
  intros Hok Hi Hpt Hpc. unfold valid_sq in Hi.
  rewrite (ok_occupied b Hok) by lia. unfold is_empty. rewrite Hpc. cbn [type color].
  replace (i <? 64) with true by (symmetry; apply Z.ltb_lt; lia).
  rewrite bool_decide_eq_false_2 by assumption.
  rewrite bool_decide_eq_true_2 by reflexivity. reflexivity.
Qed.

(** ** Loops over the squares of a bitboard *)

Lemma fold_left_Forall {A B} (Q : A -> Prop) (R : B -> Prop) (f : A -> B -> A)
    (l : list B) (a : A) :
  Q a -> Forall R l -> (forall a x, Q a -> R x -> Q (f a x)) -> Q (fold_left f l a).
Proof.
  intros Ha Hl Hf. revert a Ha. induction Hl as [|x l Hx Hl IH]; intros a Ha; cbn.
  - exact Ha.
  - apply IH, Hf; assumption.
Qed.

Lemma for_squares_Forall (Q : Move -> Prop) (bb : Bitboard)
    (body : MoveList -> Square -> MoveList) (ml : MoveList) :
  bb_range bb -> Forall Q ml ->
  (forall ml sq, valid_sq sq -> Z.testbit bb sq = true -> Forall Q ml ->
                 Forall Q (body ml sq)) ->
  Forall Q (movegen.for_squares bb body ml).
Proof.
  intros Hbb Hml Hbody. unfold movegen.for_squares.
  apply (fold_left_Forall (Forall Q) (fun sq => valid_sq sq /\ Z.testbit bb sq = true)).
  - exact Hml.
  - apply Forall_forall. intros sq Hin. apply pop_squares_bits; [assumption|].
    apply list_elem_of_In. exact Hin.
  - intros a sq Ha [Hv Hb]. apply Hbody; assumption.
Qed.

Lemma Forall_snoc {A} (Q : A -> Prop) (l : list A) (x : A) :
  Forall Q l -> Q x -> Forall Q (l ++ [x]).
Proof. intros Hl Hx. apply Forall_app. split; [assumption|]. constructor; [assumption|constructor]. Qed.

Lemma land_bit (a b i : Z) :
  Z.testbit (Z.land a b) i = true -> Z.testbit a i = true /\ Z.testbit b i = true.
Proof. rewrite Z.land_spec. apply andb_true_iff. Qed.

Lemma testbit_true_nonneg (b i : Z) : Z.testbit b i = true -> 0 <= i.
Proof.
  intros H. destruct (Z.lt_ge_cases i 0) as [Hneg|]; [|assumption].
  rewrite Z.testbit_neg_r in H by assumption. discriminate.
Qed.

Lemma shl64_bit (b n i : Z) :
  Z.testbit (shl64 b n) i = true -> Z.testbit b (i - n) = true.
Proof.
  intros H. pose proof (testbit_true_nonneg _ _ H) as Hi.
  rewrite testbit_shl64 in H by assumption. apply andb_true_iff in H. tauto.
Qed.

Lemma shr64_bit (b n i : Z) :
  Z.testbit (shr64 b n) i = true -> Z.testbit b (i + n) = true.
Proof.
  intros H. pose proof (testbit_true_nonneg _ _ H) as Hi.
  rewrite testbit_shr64 in H by assumption. exact H.
Qed.

(** ** Building [move_ok] *)

Lemma move_ok_normal (p : Position) (from to : Square) :
  valid_sq from -> valid_sq to -> from <> to ->
  type (piece_at (board_ p) from) <> PtNone ->
  move_ok p (mkMove from to Normal PtNone).
Proof. intros. constructor; cbn; try assumption. reflexivity. Qed.

Lemma move_ok_promotions (p : Position) (from to : Square) (ml : MoveList) :
  valid_sq from -> valid_sq to -> from <> to ->
  piece_at (board_ p) from = mkPiece (side_to_move_ p) Pawn ->
  Forall (move_ok p) ml ->
  Forall (move_ok p) (movegen.add_promotions ml from to).
Proof.
  intros Hf Ht Hne Hpc Hml. unfold movegen.add_promotions, movegen.kPromotions.
  cbn [fold_left].
  repeat apply Forall_snoc; try assumption;
    (constructor; cbn [from_sq to_sq flag promotion]; try assumption;
     [ rewrite Hpc; discriminate
     | unfold flag_ok; cbn [flag promotion]; split; [assumption | cbn; tauto] ]).
Qed.

Lemma u8_valid (x : Z) : valid_sq x -> u8 x = x.
Proof. unfold valid_sq. intros H. apply u8_id. lia. Qed.

Section PawnMoves.
Variable p : Position.
Hypothesis Hpos : position_ok p.

Let b := board_ p.
Let us := side_to_move_ p.

Lemma position_board_ok : board_ok b.
Proof. apply Hpos. Qed.

Lemma pawn_of_bit (i : Z) :
  Z.testbit (pieces b us Pawn) i = true ->
  valid_sq i /\ piece_at b i = mkPiece us Pawn.
Proof. apply piece_of_bit; [apply position_board_ok | discriminate]. Qed.

Lemma bb_range_pawns : bb_range (pieces b us Pawn).
Proof. apply bb_range_pieces; [apply position_board_ok | discriminate]. Qed.

(** A push, a double push or a capture by the pawn on [from]. *)
Lemma pawn_step_ok (from to : Square) (ml : MoveList) :
  valid_sq to -> from <> to -> Z.testbit (pieces b us Pawn) from = true ->
  Forall (move_ok p) ml ->
  Forall (move_ok p) (ml ++ [mkMove (u8 from) to Normal PtNone])
  /\ Forall (move_ok p) (movegen.add_promotions ml (u8 from) to).
Proof.
  intros Ht Hne Hbit Hml. destruct (pawn_of_bit from Hbit) as [Hf Hpc].
  rewrite (u8_valid from Hf). split.
  - apply Forall_snoc; [assumption|]. apply move_ok_normal; try assumption.
    fold b. rewrite Hpc. discriminate.
  - apply move_ok_promotions; assumption.
Qed.

Lemma double_push_ok (from to : Square) (ml : MoveList) :
  valid_sq to -> to = forward us from 2 ->
  Z.testbit (pieces b us Pawn) from = true ->
  piece_at b (forward us from 1) = kNoPiece -> piece_at b to = kNoPiece ->
  Forall (move_ok p) ml ->
  Forall (move_ok p) (ml ++ [mkMove (u8 from) to DoublePawn PtNone]).
Proof.
  intros Ht Hto Hbit Hmid Hempty Hml. destruct (pawn_of_bit from Hbit) as [Hf Hpc].
  rewrite (u8_valid from Hf). apply Forall_snoc; [assumption|].
  constructor; cbn [from_sq to_sq flag promotion]; try assumption.
  - rewrite Hto. unfold forward. destruct us; lia.
  - fold b. rewrite Hpc. discriminate.
  - unfold flag_ok. cbn [from_sq to_sq flag promotion]. fold b us. tauto.
Qed.



Lemma empty_bit (i : Z) :
  valid_sq i -> Z.testbit (bb_not (occupied_all b)) i = true -> piece_at b i = kNoPiece.
Proof. intros Hi. apply empty_of_bit; [apply position_board_ok | exact Hi]. Qed.

End PawnMoves.

(** Set bits of the words the pawn generator intersects. *)
Ltac bit_steps :=
  repeat match goal with
  | H : Z.testbit (Z.land _ _) _ = true |- _ =>
      apply land_bit in H; let H' := fresh "Hbit" in destruct H as [H H']
  | H : Z.testbit (shift_north _) _ = true |- _ => unfold shift_north in H
  | H : Z.testbit (shift_south _) _ = true |- _ => unfold shift_south in H
  | H : Z.testbit (shift_ne _) _ = true |- _ => unfold shift_ne in H
  | H : Z.testbit (shift_nw _) _ = true |- _ => unfold shift_nw in H
  | H : Z.testbit (shift_se _) _ = true |- _ => unfold shift_se in H
  | H : Z.testbit (shift_sw _) _ = true |- _ => unfold shift_sw in H
  | H : Z.testbit (shl64 _ _) _ = true |- _ => apply shl64_bit in H
  | H : Z.testbit (shr64 _ _) _ = true |- _ => apply shr64_bit in H
  end.

Ltac range_steps :=
  repeat first
    [ apply bb_range_shl64
    | apply bb_range_u64
    | apply bb_range_land_r; assumption
    | apply bb_range_land_l
    | apply bb_range_shr64; [lia|]
    | assumption
    | unfold shift_north, shift_south, shift_ne, shift_nw, shift_se, shift_sw ].

(** The table of pawn attacks, read backwards from an en-passant square: an
    attacker stands beside the pawn to capture. *)
Lemma ep_geometry_table :
  forallb (fun c => forallb (fun ep => forallb (fun from =>
      implb (is_valid_square (ep_capture_sq c ep)
             && Z.testbit (pawn_attacks (opposite c) ep) from)
            (negb (from =? ep)
             && (make_square (file_of ep) (rank_of from) =? ep_capture_sq c ep)
             && negb (from =? ep_capture_sq c ep)))
    all_squares) all_squares) all_colors = true.
Proof. vm_compute. reflexivity. Qed.

Lemma ep_geometry (c : Color) (ep from : Square) :
  valid_sq ep -> valid_sq from -> valid_sq (ep_capture_sq c ep) ->
  Z.testbit (pawn_attacks (opposite c) ep) from = true ->
  from <> ep
  /\ make_square (file_of ep) (rank_of from) = ep_capture_sq c ep
  /\ from <> ep_capture_sq c ep.
Proof.
  intros Hep Hfrom Hcap Hbit. pose proof ep_geometry_table as T.
  rewrite forallb_forall in T. specialize (T c (in_all_colors c)).
  rewrite forallb_forall in T. specialize (T ep (in_all_squares ep Hep)).
  rewrite forallb_forall in T. specialize (T from (in_all_squares from Hfrom)).
  rewrite Hbit in T. unfold is_valid_square in T.
  replace ((0 <=? ep_capture_sq c ep) && (ep_capture_sq c ep <? 64)) with true in T
    by (symmetry; unfold valid_sq in Hcap; apply andb_true_iff; split;
        [apply Z.leb_le | apply Z.ltb_lt]; lia).
  cbn [andb implb] in T. rewrite !andb_true_iff, !negb_true_iff in T.
  destruct T as [[T1 T2] T3]. apply Z.eqb_neq in T1, T3. apply Z.eqb_eq in T2.
  auto.
Qed.

Lemma ep_move_ok (p : Position) (from : Square) (ml : MoveList) :
  position_ok p -> en_passant_ p <> kNoSquare ->
  Z.testbit (pawn_attacks (opposite (side_to_move_ p)) (en_passant_ p)) from = true ->
  Z.testbit (pieces (board_ p) (side_to_move_ p) Pawn) from = true ->
  Forall (move_ok p) ml ->
  Forall (move_ok p) (ml ++ [mkMove from (en_passant_ p) EnPassant PtNone]).
Proof.
  intros Hpos Hep Hatt Hpawn Hml.
  destruct (pawn_of_bit p Hpos from Hpawn) as [Hf Hpc].
  destruct (pos_ep p Hpos) as [Hno|(Hv & Hcv & Hempty & Hcap)]; [contradiction|].
  destruct (ep_geometry _ _ _ Hv Hf Hcv Hatt) as (G1 & G2 & G3).
  apply Forall_snoc; [assumption|].
  constructor; cbn [from_sq to_sq flag promotion]; try assumption.
  - rewrite Hpc. discriminate.
  - unfold flag_ok. cbn [from_sq to_sq flag promotion]. tauto.
Qed.

Ltac pawn_body p Hpos Hus :=
  let ml0 := fresh "ml0" in let to := fresh "to" in
  let Hv := fresh "Hv" in let Hbit := fresh "Hbit" in let Hml := fresh "Hml" in
  intros ml0 to Hv Hbit Hml; bit_steps;
  rewrite <- ?Hus in *;
  lazymatch goal with
  | H : Z.testbit (pieces _ _ Pawn) ?x = true
    |- Forall _ (_ ++ [mkMove _ _ Normal _]) =>
      apply (proj1 (pawn_step_ok p Hpos x to ml0 Hv ltac:(lia) H Hml))
  | H : Z.testbit (pieces _ _ Pawn) ?x = true
    |- Forall _ (movegen.add_promotions _ _ _) =>
      apply (proj2 (pawn_step_ok p Hpos x to ml0 Hv ltac:(lia) H Hml))
  | H : Z.testbit (pieces _ _ Pawn) ?x = true
    |- Forall _ (_ ++ [mkMove (u8 ?y) _ DoublePawn _]) =>
      replace y with x by lia;
      pose proof (proj1 (pawn_of_bit p Hpos x H));
      apply (double_push_ok p Hpos x to ml0 Hv);
      [ rewrite Hus; cbn [forward]; lia
      | exact H
      | rewrite Hus; cbn [forward];
        match goal with
        | E : Z.testbit (bb_not _) ?z = true |- piece_at _ ?w = _ =>
            replace w with z by lia;
            apply (empty_bit p Hpos); [unfold valid_sq in *; lia | exact E]
        end
      | apply (empty_bit p Hpos); assumption
      | exact Hml ]
  | H : Z.testbit (pieces _ _ Pawn) ?x = true
    |- Forall _ (_ ++ [mkMove _ _ EnPassant _]) =>
      apply (ep_move_ok p); assumption
  end.

Lemma gen_pawn_moves_ok (p : Position) (ml : MoveList) :
  position_ok p -> Forall (move_ok p) ml ->
  Forall (move_ok p) (movegen.gen_pawn_moves p ml).
Proof.
  intros Hpos Hml. unfold movegen.gen_pawn_moves. cbv zeta.
  unfold side_to_move, board, en_passant.
  pose proof (bb_range_pawns p Hpos) as Hrp. cbv zeta in Hrp.
  destruct (Z.eqb_spec (en_passant_ p) kNoSquare) as [Hep|Hep]; cbn [negb];
    destruct (side_to_move_ p) eqn:Hus; flag_simpl;
    repeat (apply for_squares_Forall; [range_steps | | pawn_body p Hpos Hus]);
    exact Hml.
Qed.

(** ** Knights, bishops, rooks, queens and kings *)

Lemma gen_piece_moves_ok (p : Position) (ml : MoveList) (pt : PieceType) :
  position_ok p -> pt <> PtNone -> Forall (move_ok p) ml ->
  Forall (move_ok p) (movegen.gen_piece_moves p ml pt).
Proof.
  intros Hpos Hpt Hml. pose proof (pos_board p Hpos) as Hok.
  unfold movegen.gen_piece_moves. cbv zeta. unfold side_to_move, board.
  apply for_squares_Forall; [apply bb_range_pieces; assumption | exact Hml |].
  intros ml0 from Hvf Hbf Hml0.
  destruct (piece_of_bit _ _ _ _ Hok Hpt Hbf) as [_ Hpc].
  pose proof (occupied_of_piece _ _ _ _ Hok Hvf Hpt Hpc) as Hocc.
  apply for_squares_Forall;
    [apply bb_range_land_r, bb_range_bb_not, bb_range_occupied; assumption
    | exact Hml0 |].
  intros ml1 to Hvt Hbt Hml1. apply land_bit in Hbt. destruct Hbt as [_ Hfree].
  rewrite testbit_bb_not in Hfree by (unfold valid_sq in Hvt; lia).
  apply Forall_snoc; [assumption|]. apply move_ok_normal; try assumption.
  - intros ->. rewrite Hocc in Hfree. unfold valid_sq in Hvt.
    replace (to <? 64) with true in Hfree by (symmetry; apply Z.ltb_lt; lia).
    discriminate.
  - rewrite Hpc. exact Hpt.
Qed.

(** ** Castling *)

Lemma lsb_square_table : forallb (fun sq => lsb (square_bb sq) =? sq) all_squares = true.
Proof. vm_compute. reflexivity. Qed.

Lemma lsb_square_bb (sq : Square) : valid_sq sq -> lsb (square_bb sq) = sq.
Proof.
  intros H. pose proof lsb_square_table as T. rewrite forallb_forall in T.
  apply Z.eqb_eq, T, in_all_squares, H.
Qed.

Lemma king_square_unique (b : Board) (c : Color) (sq : Square) :
  board_ok b -> kings_unique b -> valid_sq sq -> piece_at b sq = mkPiece c King ->
  king_square b c = sq.
Proof.
  intros Hok Hun Hsq Hk. unfold king_square.
  replace (pieces b c King) with (square_bb sq); [apply lsb_square_bb; exact Hsq|].
  apply Z.bits_inj'. intros i Hi.
  rewrite testbit_square_bb, (ok_pieces b Hok) by (first [assumption | discriminate]).
  destruct (Z.eqb_spec i sq) as [->|Hne].
  - unfold valid_sq in Hsq.
    replace (sq <? 64) with true by (symmetry; apply Z.ltb_lt; lia).
    rewrite bool_decide_eq_true_2 by assumption. reflexivity.
  - destruct (Z.ltb_spec i 64); [|reflexivity].
    rewrite bool_decide_eq_false_2; [reflexivity|].
    intros Hk'. apply Hne. apply (Hun c); try assumption. unfold valid_sq. lia.
Qed.

Lemma is_empty_true (b : Board) (sq : Square) :
  board_ok b -> valid_sq sq -> is_empty b sq = true -> piece_at b sq = kNoPiece.
Proof.
  intros Hok Hsq H. unfold is_empty in H. apply bool_decide_eq_true in H.
  apply (ok_empty b Hok); assumption.
Qed.

Lemma castle_kingside_ok (p : Position) :
  position_ok p ->
  has_right (castling_ p)
    (if bool_decide (side_to_move_ p = White) then kWhiteKingside else kBlackKingside)
  = true ->
  let rank := if bool_decide (side_to_move_ p = White) then 0 else 7 in
  is_empty (board_ p) (make_square 5 rank) = true ->
  is_empty (board_ p) (make_square 6 rank) = true ->
  move_ok p (mkMove (king_square (board_ p) (side_to_move_ p)) (make_square 6 rank)
               CastleKingside PtNone).
Proof.
  intros Hpos Hright rank Hf Hg. pose proof (pos_board p Hpos) as Hok.
  pose proof (pos_kings p Hpos) as Hun. pose proof (pos_castling p Hpos) as Hcr.
  subst rank. destruct (side_to_move_ p) eqn:Hus; revert Hright Hf Hg; flag_simpl;
    intros Hright Hf Hg.
  - destruct (cr_wk p Hcr Hright) as [Hk Hr].
    rewrite (king_square_unique _ White E1 Hok Hun ltac:(unfold valid_sq, E1; lia) Hk).
    change (make_square 5 0) with 5 in *. change (make_square 6 0) with 6 in *.
    apply is_empty_true in Hf, Hg; try assumption; try (unfold valid_sq; lia).
    constructor; cbn [from_sq to_sq flag promotion];
      try (unfold valid_sq, E1; lia); try (unfold E1; lia).
    + rewrite Hk. discriminate.
    + unfold flag_ok. cbn [from_sq to_sq flag promotion]. rewrite Hus.
      cbn [home_rank_sq]. unfold E1, H1 in *. tauto.
  - destruct (cr_bk p Hcr Hright) as [Hk Hr].
    rewrite (king_square_unique _ Black E8 Hok Hun ltac:(unfold valid_sq, E8; lia) Hk).
    change (make_square 5 7) with 61 in *. change (make_square 6 7) with 62 in *.
    apply is_empty_true in Hf, Hg; try assumption; try (unfold valid_sq; lia).
    constructor; cbn [from_sq to_sq flag promotion];
      try (unfold valid_sq, E8; lia); try (unfold E8; lia).
    + rewrite Hk. discriminate.
    + unfold flag_ok. cbn [from_sq to_sq flag promotion]. rewrite Hus.
      cbn [home_rank_sq]. unfold E8, H8 in *. tauto.
Qed.

Lemma castle_queenside_ok (p : Position) :
  position_ok p ->
  has_right (castling_ p)
    (if bool_decide (side_to_move_ p = White) then kWhiteQueenside else kBlackQueenside)
  = true ->
  let rank := if bool_decide (side_to_move_ p = White) then 0 else 7 in
  is_empty (board_ p) (make_square 1 rank) = true ->
  is_empty (board_ p) (make_square 2 rank) = true ->
  is_empty (board_ p) (make_square 3 rank) = true ->
  move_ok p (mkMove (king_square (board_ p) (side_to_move_ p)) (make_square 2 rank)
               CastleQueenside PtNone).
Proof.
  intros Hpos Hright rank Hb Hc Hd. pose proof (pos_board p Hpos) as Hok.
  pose proof (pos_kings p Hpos) as Hun. pose proof (pos_castling p Hpos) as Hcr.
  subst rank. destruct (side_to_move_ p) eqn:Hus; revert Hright Hb Hc Hd; flag_simpl;
    intros Hright Hb Hc Hd.
  - destruct (cr_wq p Hcr Hright) as [Hk Hr].
    rewrite (king_square_unique _ White E1 Hok Hun ltac:(unfold valid_sq, E1; lia) Hk).
    change (make_square 1 0) with 1 in *. change (make_square 2 0) with 2 in *.
    change (make_square 3 0) with 3 in *.
    apply is_empty_true in Hb, Hc, Hd; try assumption; try (unfold valid_sq; lia).
    constructor; cbn [from_sq to_sq flag promotion];
      try (unfold valid_sq, E1; lia); try (unfold E1; lia).
    + rewrite Hk. discriminate.
    + unfold flag_ok. cbn [from_sq to_sq flag promotion]. rewrite Hus.
      cbn [home_rank_sq]. unfold E1, A1 in *. tauto.
  - destruct (cr_bq p Hcr Hright) as [Hk Hr].
    rewrite (king_square_unique _ Black E8 Hok Hun ltac:(unfold valid_sq, E8; lia) Hk).
    change (make_square 1 7) with 57 in *. change (make_square 2 7) with 58 in *.
    change (make_square 3 7) with 59 in *.
    apply is_empty_true in Hb, Hc, Hd; try assumption; try (unfold valid_sq; lia).
    constructor; cbn [from_sq to_sq flag promotion];
      try (unfold valid_sq, E8; lia); try (unfold E8; lia).
    + rewrite Hk. discriminate.
    + unfold flag_ok. cbn [from_sq to_sq flag promotion]. rewrite Hus.
      cbn [home_rank_sq]. unfold E8, A8 in *. tauto.
Qed.

Lemma gen_castling_ok (p : Position) (ml : MoveList) :
  position_ok p -> Forall (move_ok p) ml ->
  Forall (move_ok p) (movegen.gen_castling p ml).
Proof.
  intros Hpos Hml. unfold movegen.gen_castling. cbv zeta.
  unfold side_to_move, board, castling.
  destruct (is_square_attacked p _ _); [exact Hml|].
  match goal with
  | |- Forall _ (if ?c then (if ?d then ?l1 ++ [?mv] else ?l1') else _) =>
      assert (Hq : Forall (move_ok p) l1)
  end.
  { destruct (negb (Z.land (castling_ p) _ =? 0)) eqn:Hks; [|exact Hml].
    match goal with |- Forall _ (if ?c then _ else _) => destruct c eqn:Hc end;
      [|exact Hml].
    rewrite !andb_true_iff in Hc. destruct Hc as [[[Hf Hg] _] _].
    apply Forall_snoc; [exact Hml|]. apply castle_kingside_ok; assumption. }
  destruct (negb (Z.land (castling_ p) _ =? 0)) eqn:Hqs in |- *; [|exact Hq].
  match goal with |- Forall _ (if ?c then _ else _) => destruct c eqn:Hc end;
    [|exact Hq].
  rewrite !andb_true_iff in Hc. destruct Hc as [[[[Hb Hc] Hd] _] _].
  apply Forall_snoc; [exact Hq|]. apply castle_queenside_ok; assumption.
Qed.

(** Every move of the pseudo-legal generator is one [make_move] accepts. *)
Lemma pseudo_legal_ok (p : Position) :
  position_ok p -> Forall (move_ok p) (movegen.pseudo_legal p).
Proof.
  intros Hpos. unfold movegen.pseudo_legal. cbv zeta.
  apply gen_castling_ok; [assumption|].
  repeat (apply gen_piece_moves_ok; [assumption | discriminate |]).
  apply gen_pawn_moves_ok; [assumption | constructor].
Qed.


(** * The loops of magic.cpp end within their bounds

    The C++ loops run until the ray leaves the board.  The model gives them
    eight rounds; the lemmas below show that any number of rounds from
    eight on gives the same result. *)

Section Rays.
Variables (occupancy : Bitboard) (df dr : Z).
Hypothesis Hdf : -1 <= df <= 1.
Hypothesis Hdr : -1 <= dr <= 1.
Hypothesis Hmove : df <> 0 \/ dr <> 0.

Lemma ray_loop_fuel (n : nat) :
  forall (m : nat) (f r : Z) (attacks : Bitboard),
  ray_steps 0 7 df dr f r <= Z.of_nat n -> ray_steps 0 7 df dr f r <= Z.of_nat m ->
  magic.ray_loop n occupancy df dr f r attacks = magic.ray_loop m occupancy df dr f r attacks.
Proof.
  induction n as [|n IH]; intros m f r attacks Hn Hm.
  - destruct m as [|m]; [reflexivity|]. cbn [magic.ray_loop].
    replace ((0 <=? f) && (f <=? 7) && (0 <=? r) && (r <=? 7)) with false; [reflexivity|].
    symmetry. unfold ray_steps, steps_left in Hn.
    destruct (Z.eqb_spec df 0); destruct (Z.ltb_spec 0 df); destruct (Z.ltb_spec 0 dr);
      destruct (Z.leb_spec 0 f); destruct (Z.leb_spec f 7);
      destruct (Z.leb_spec 0 r); destruct (Z.leb_spec r 7); cbn; try reflexivity; lia.
  - destruct m as [|m]; cbn [magic.ray_loop].
    + replace ((0 <=? f) && (f <=? 7) && (0 <=? r) && (r <=? 7)) with false; [reflexivity|].
      symmetry. unfold ray_steps, steps_left in Hm.
      destruct (Z.eqb_spec df 0); destruct (Z.ltb_spec 0 df); destruct (Z.ltb_spec 0 dr);
        destruct (Z.leb_spec 0 f); destruct (Z.leb_spec f 7);
        destruct (Z.leb_spec 0 r); destruct (Z.leb_spec r 7); cbn; try reflexivity; lia.
    + destruct ((0 <=? f) && (f <=? 7) && (0 <=? r) && (r <=? 7)); [|reflexivity].
      cbv zeta. destruct (test_bit occupancy (make_square f r)); [reflexivity|].
      apply IH; unfold ray_steps, steps_left in *;
        destruct (Z.eqb_spec df 0); destruct (Z.ltb_spec 0 df); destruct (Z.ltb_spec 0 dr); lia.
Qed.

Lemma ray_attacks_fuel (sq : Square) (n : nat) :
  valid_sq sq -> (8 <= n)%nat ->
  magic.ray_loop n occupancy df dr (file_of sq + df) (rank_of sq + dr) kEmptyBB
  = magic.ray_attacks sq occupancy df dr.
Proof.
  intros Hsq Hn. unfold magic.ray_attacks. unfold valid_sq in Hsq.
  assert (Hf : 0 <= file_of sq <= 7).
  { rewrite file_of_mod. pose proof (Z.mod_pos_bound sq 8 ltac:(lia)). lia. }
  assert (Hr : 0 <= rank_of sq <= 7).
  { rewrite rank_of_div. split; [apply Z.div_pos; lia|].
    apply Z.lt_succ_r. apply Z.div_lt_upper_bound; lia. }
  apply ray_loop_fuel; unfold ray_steps, steps_left;
    destruct (Z.eqb_spec df 0); destruct (Z.ltb_spec 0 df); destruct (Z.ltb_spec 0 dr); lia.
Qed.

Lemma mask_loop_fuel (n : nat) :
  forall (m : nat) (f r : Z) (mask : Bitboard),
  ray_steps 1 6 df dr f r <= Z.of_nat n -> ray_steps 1 6 df dr f r <= Z.of_nat m ->
  magic.mask_loop n df dr f r mask = magic.mask_loop m df dr f r mask.
Proof.
  induction n as [|n IH]; intros m f r mask Hn Hm.
  - destruct m as [|m]; [reflexivity|]. cbn [magic.mask_loop].
    replace ((0 <? f) && (f <? 7) && (0 <? r) && (r <? 7)) with false; [reflexivity|].
    symmetry. unfold ray_steps, steps_left in Hn.
    destruct (Z.eqb_spec df 0); destruct (Z.ltb_spec 0 df); destruct (Z.ltb_spec 0 dr);
      destruct (Z.ltb_spec 0 f); destruct (Z.ltb_spec f 7);
      destruct (Z.ltb_spec 0 r); destruct (Z.ltb_spec r 7); cbn; try reflexivity; lia.
  - destruct m as [|m]; cbn [magic.mask_loop].
    + replace ((0 <? f) && (f <? 7) && (0 <? r) && (r <? 7)) with false; [reflexivity|].
      symmetry. unfold ray_steps, steps_left in Hm.
      destruct (Z.eqb_spec df 0); destruct (Z.ltb_spec 0 df); destruct (Z.ltb_spec 0 dr);
        destruct (Z.ltb_spec 0 f); destruct (Z.ltb_spec f 7);
        destruct (Z.ltb_spec 0 r); destruct (Z.ltb_spec r 7); cbn; try reflexivity; lia.
    + destruct ((0 <? f) && (f <? 7) && (0 <? r) && (r <? 7)); [|reflexivity].
      apply IH; unfold ray_steps, steps_left in *;
        destruct (Z.eqb_spec df 0); destruct (Z.ltb_spec 0 df); destruct (Z.ltb_spec 0 dr); lia.
Qed.

End Rays.

Lemma file_loop_fuel (step : Z) (n : nat) :
  step = 1 \/ step = -1 ->
  forall (m : nat) (f r0 : Z) (mask : Bitboard),
  steps_left 1 6 step f <= Z.of_nat n -> steps_left 1 6 step f <= Z.of_nat m ->
  magic.file_loop n step f r0 mask = magic.file_loop m step f r0 mask.
Proof.
  intros Hs. induction n as [|n IH]; intros m f r0 mask Hn Hm.
  - destruct m as [|m]; [reflexivity|]. cbn [magic.file_loop].
    replace ((0 <? f) && (f <? 7)) with false; [reflexivity|].
    symmetry. unfold steps_left in Hn.
    destruct (Z.ltb_spec 0 step); destruct (Z.ltb_spec 0 f); destruct (Z.ltb_spec f 7);
      cbn; try reflexivity; lia.
  - destruct m as [|m]; cbn [magic.file_loop].
    + replace ((0 <? f) && (f <? 7)) with false; [reflexivity|].
      symmetry. unfold steps_left in Hm.
      destruct (Z.ltb_spec 0 step); destruct (Z.ltb_spec 0 f); destruct (Z.ltb_spec f 7);
        cbn; try reflexivity; lia.
    + destruct ((0 <? f) && (f <? 7)); [|reflexivity].
      apply IH; unfold steps_left in *; destruct (Z.ltb_spec 0 step); lia.
Qed.

Lemma rank_loop_fuel (step : Z) (n : nat) :
  step = 1 \/ step = -1 ->
  forall (m : nat) (f0 r : Z) (mask : Bitboard),
  steps_left 1 6 step r <= Z.of_nat n -> steps_left 1 6 step r <= Z.of_nat m ->
  magic.rank_loop n step f0 r mask = magic.rank_loop m step f0 r mask.
Proof.
  intros Hs. induction n as [|n IH]; intros m f0 r mask Hn Hm.
  - destruct m as [|m]; [reflexivity|]. cbn [magic.rank_loop].
    replace ((0 <? r) && (r <? 7)) with false; [reflexivity|].
    symmetry. unfold steps_left in Hn.
    destruct (Z.ltb_spec 0 step); destruct (Z.ltb_spec 0 r); destruct (Z.ltb_spec r 7);
      cbn; try reflexivity; lia.
  - destruct m as [|m]; cbn [magic.rank_loop].
    + replace ((0 <? r) && (r <? 7)) with false; [reflexivity|].
      symmetry. unfold steps_left in Hm.
      destruct (Z.ltb_spec 0 step); destruct (Z.ltb_spec 0 r); destruct (Z.ltb_spec r 7);
        cbn; try reflexivity; lia.
    + destruct ((0 <? r) && (r <? 7)); [|reflexivity].
      apply IH; unfold steps_left in *; destruct (Z.ltb_spec 0 step); lia.
Qed.


(** * Positions that satisfy the invariant *)

Lemma has_right_okb_sound (p : Position) (r : CastlingRights) (ksq rsq : Square) (c : Color) :
  right_okb p r ksq rsq c = true -> has_right (castling_ p) r = true ->
  piece_at (board_ p) ksq = mkPiece c King /\ piece_at (board_ p) rsq = mkPiece c Rook.
Proof.
  unfold right_okb. intros H Hr. rewrite Hr in H. cbn [implb] in H.
  apply andb_true_iff in H. destruct H as [H1 H2].
  apply bool_decide_eq_true in H1, H2. auto.
Qed.

Lemma in_int_b_sound (z : Z) : in_int_b z = true -> in_int z.
Proof. unfold in_int_b, in_int. intros H. apply andb_true_iff in H. lia. Qed.

Lemma position_okb_sound (p : Position) : position_okb p = true -> position_ok p.
Proof.
  unfold position_okb. rewrite !andb_true_iff.
  intros [[[[[[[[Hb Hk] Hwk] Hwq] Hbk] Hbq] Hep] Hh] Hf].
  constructor.
  - apply board_okb_sound, Hb.
  - intros c sq1 sq2 H1 H2 P1 P2. rewrite forallb_forall in Hk.
    specialize (Hk sq1 (in_all_squares sq1 H1)). rewrite forallb_forall in Hk.
    specialize (Hk sq2 (in_all_squares sq2 H2)).
    rewrite P1, P2 in Hk. cbn [type] in Hk.
    rewrite !bool_decide_eq_true_2 in Hk by reflexivity. cbn in Hk.
    apply Z.eqb_eq, Hk.
  - constructor; apply has_right_okb_sound; assumption.
  - apply orb_true_iff in Hep. destruct Hep as [Hep|Hep].
    + left. apply Z.eqb_eq, Hep.
    + right. rewrite !andb_true_iff in Hep. destruct Hep as [[[H1 H2] H3] H4].
      apply bool_decide_eq_true in H3, H4. unfold is_valid_square in H1, H2.
      apply andb_true_iff in H1, H2. unfold valid_sq. repeat split; try lia; assumption.
  - apply in_int_b_sound, Hh.
  - apply in_int_b_sound, Hf.
Qed.

Lemma initial_parses : from_fen kStartingFen = Ok initial.
Proof. vm_compute. reflexivity. Qed.

Lemma initial_ok : position_ok initial.
Proof. apply position_okb_sound. vm_compute. reflexivity. Qed.

(** * Make followed by unmake *)




(** * The incremental key *)

(** Equations between xors of keys, bit by bit. *)
Ltac xor_solve :=
  apply Z.bits_inj'; let n := fresh "n" in let Hn := fresh "Hn" in
  intros n Hn; rewrite ?Z.lxor_spec, ?Z.bits_0;
  repeat match goal with
  | |- context [Z.testbit ?a n] => destruct (Z.testbit a n)
  end; reflexivity.

Lemma hash_squares_acc (b : Board) (sq : Square) (n : nat) (k : Z) :
  hash_squares b sq n k = Z.lxor k (hash_squares b sq n 0).
Proof.
  revert sq k. induction n as [|n IH]; intros sq k; cbn [hash_squares].
  - rewrite Z.lxor_0_r. reflexivity.
  - rewrite (IH (sq + 1) (if bool_decide _ then 0 else _)).
    rewrite (IH (sq + 1) (if bool_decide _ then k else _)).
    destruct (bool_decide (piece_at b sq = kNoPiece)); xor_solve.
Qed.

Lemma hash_squares_step (b : Board) (sq : Square) (n : nat) :
  hash_squares b sq (S n) 0
  = Z.lxor (slot_hash (piece_at b sq) sq) (hash_squares b (sq + 1) n 0).
Proof.
  cbn [hash_squares]. rewrite hash_squares_acc. unfold slot_hash.
  destruct (bool_decide (piece_at b sq = kNoPiece)); [|rewrite Z.lxor_0_l]; reflexivity.
Qed.

(** The key computed from scratch is the xor of the scalar part and the
    board part. *)
Lemma full_key_eq (p : Position) :
  full_key p = Z.lxor (scalar_hash p) (board_hash (board_ p)).
Proof.
  unfold full_key, compute_key, scalar_hash, board_hash, side_hash, ep_hash.
  cbn [key_ set_key set_key_history]. rewrite hash_squares_acc.
  destruct (side_to_move_ p); cbn [bool_decide decide_rel];
    [rewrite (bool_decide_eq_false_2 (White = Black)) by discriminate
    |rewrite (bool_decide_eq_true_2 (Black = Black)) by reflexivity];
    destruct (en_passant_ p =? kNoSquare); cbn [negb]; xor_solve.
Qed.

(** One mailbox slot changes: the board part changes by the two slot
    hashes. *)
Lemma hash_squares_update (b b' : Board) (j : Square) (x : Piece) (sq : Square) (n : nat) :
  0 <= sq -> 0 <= j ->
  mailbox_ b' = <[Z.to_nat j := x]> (mailbox_ b) ->
  (Z.to_nat j < length (mailbox_ b))%nat ->
  hash_squares b' sq n 0
  = if (sq <=? j) && (j <? sq + Z.of_nat n)
    then Z.lxor (hash_squares b sq n 0)
           (Z.lxor (slot_hash (piece_at b j) j) (slot_hash x j))
    else hash_squares b sq n 0.
Proof.
  intros Hsq Hj Hmb Hlen. revert sq Hsq. induction n as [|n IH]; intros sq Hsq.
  - cbn [hash_squares]. replace ((sq <=? j) && (j <? sq + Z.of_nat 0)) with false;
      [reflexivity|]. symmetry. apply andb_false_iff.
    destruct (Z.leb_spec sq j); [right; apply Z.ltb_ge; lia | left; reflexivity].
  - rewrite !hash_squares_step, IH by lia.
    assert (Hat : piece_at b' sq = if sq =? j then x else piece_at b sq).
    { unfold piece_at. rewrite Hmb, list_lookup_total_insert.
      destruct (Z.eqb_spec sq j) as [->|Hne]; destruct (decide _) as [[? ?]|Hn];
        try reflexivity; [exfalso; apply Hn; split; [reflexivity|assumption] | lia]. }
    rewrite Hat.
    destruct (Z.eqb_spec sq j) as [->|Hne].
    + replace ((j + 1 <=? j) && (j <? j + 1 + Z.of_nat n)) with false
        by (symmetry; apply andb_false_iff; left; apply Z.leb_gt; lia).
      replace ((j <=? j) && (j <? j + Z.of_nat (S n))) with true
        by (symmetry; apply andb_true_iff; split; [apply Z.leb_le | apply Z.ltb_lt]; lia).
      xor_solve.
    + replace ((sq + 1 <=? j) && (j <? sq + 1 + Z.of_nat n))
        with ((sq <=? j) && (j <? sq + Z.of_nat (S n))).
      * destruct ((sq <=? j) && (j <? sq + Z.of_nat (S n))); [xor_solve|reflexivity].
      * destruct (Z.leb_spec sq j), (Z.leb_spec (sq + 1) j),
          (Z.ltb_spec j (sq + Z.of_nat (S n))), (Z.ltb_spec j (sq + 1 + Z.of_nat n));
          try reflexivity; lia.
Qed.

Lemma board_hash_update (b b' : Board) (j : Square) (x : Piece) :
  valid_sq j -> length (mailbox_ b) = 64%nat ->
  mailbox_ b' = <[Z.to_nat j := x]> (mailbox_ b) ->
  board_hash b' = Z.lxor (board_hash b) (Z.lxor (slot_hash (piece_at b j) j) (slot_hash x j)).
Proof.
  intros Hj Hlen Hmb. unfold board_hash, valid_sq in *.
  rewrite (hash_squares_update b b' j x 0 64) by (first [assumption | lia]).
  replace ((0 <=? j) && (j <? 0 + Z.of_nat 64)) with true; [reflexivity|].
  symmetry. apply andb_true_iff. split; [apply Z.leb_le | apply Z.ltb_lt]; lia.
Qed.

(** ** The piece-moving steps keep the residual *)

Lemma slot_hash_piece (pc : Piece) (sq : Square) :
  type pc <> PtNone -> slot_hash pc sq = zobrist.piece_key (color pc) (type pc) sq.
Proof.
  intros H. unfold slot_hash. rewrite bool_decide_eq_false_2; [reflexivity|].
  intros ->. apply H. reflexivity.
Qed.

Lemma slot_hash_empty (sq : Square) : slot_hash kNoPiece sq = 0.
Proof. reflexivity. Qed.

Lemma remove_hashed_step (q : Position) (mb : list Piece) (pc : Piece) (sq : Square) (r : Z) :
  (board_ok (board_ q) /\ mailbox_ (board_ q) = mb) /\ residual q = r ->
  valid_sq sq -> mb !!! Z.to_nat sq = pc -> type pc <> PtNone ->
  (board_ok (board_ (remove_hashed pc sq q))
   /\ mailbox_ (board_ (remove_hashed pc sq q)) = <[Z.to_nat sq := kNoPiece]> mb)
  /\ residual (remove_hashed pc sq q) = r.
Proof.
  intros [[Hok Hmb] Hr] Hsq Hpc Hty. subst mb r.
  change (board_ (remove_hashed pc sq q)) with (remove_piece sq (board_ q)).
  split.
  - apply mb_remove; [split; [assumption|reflexivity] | assumption |].
    rewrite Hpc. exact Hty.
  - unfold residual.
    change (key_ (remove_hashed pc sq q))
      with (Z.lxor (key_ q) (zobrist.piece_key (color pc) (type pc) sq)).
    change (board_ (remove_hashed pc sq q)) with (remove_piece sq (board_ q)).
    rewrite (board_hash_update (board_ q) (remove_piece sq (board_ q)) sq kNoPiece)
      by (first [assumption | apply Hok | reflexivity]).
    unfold piece_at. rewrite Hpc, slot_hash_empty, slot_hash_piece by assumption.
    xor_solve.
Qed.

Lemma place_hashed_step (q : Position) (mb : list Piece) (pc : Piece) (sq : Square) (r : Z) :
  (board_ok (board_ q) /\ mailbox_ (board_ q) = mb) /\ residual q = r ->
  valid_sq sq -> mb !!! Z.to_nat sq = kNoPiece -> type pc <> PtNone ->
  (board_ok (board_ (place_hashed pc sq q))
   /\ mailbox_ (board_ (place_hashed pc sq q)) = <[Z.to_nat sq := pc]> mb)
  /\ residual (place_hashed pc sq q) = r.
Proof.
  intros [[Hok Hmb] Hr] Hsq Hpc Hty. subst mb r.
  change (board_ (place_hashed pc sq q)) with (put_piece sq pc (board_ q)).
  split.
  - apply mb_put; [split; [assumption|reflexivity] | assumption..].
  - unfold residual.
    change (key_ (place_hashed pc sq q))
      with (Z.lxor (key_ q) (zobrist.piece_key (color pc) (type pc) sq)).
    change (board_ (place_hashed pc sq q)) with (put_piece sq pc (board_ q)).
    rewrite (board_hash_update (board_ q) (put_piece sq pc (board_ q)) sq pc)
      by (first [assumption | apply Hok | reflexivity]).
    unfold piece_at. rewrite Hpc, slot_hash_empty, slot_hash_piece by assumption.
    xor_solve.
Qed.

(** One step along the hashed chain of [make_move]. *)
Ltac hs_run H k :=
  lazymatch type of H with
  | (board_ok (board_ ?Q) /\ mailbox_ (board_ ?Q) = ?MB) /\ residual ?Q = ?R =>
      unfold piece_at;
      try (progress (rewrite (proj2 (proj1 H))));
      try (progress mb_lookup);
      cbn [color type];
      lazymatch goal with
      | |- context [place_hashed ?pc ?sq Q] =>
          let H' := fresh "HQ" in
          assert (H' : (board_ok (board_ (place_hashed pc sq Q))
                        /\ mailbox_ (board_ (place_hashed pc sq Q))
                           = <[Z.to_nat sq := pc]> MB)
                       /\ residual (place_hashed pc sq Q) = R)
            by (apply (place_hashed_step Q MB pc sq R H); mb_side);
          hs_run H' k
      | |- context [remove_hashed ?pc ?sq Q] =>
          let H' := fresh "HQ" in
          assert (H' : (board_ok (board_ (remove_hashed pc sq Q))
                        /\ mailbox_ (board_ (remove_hashed pc sq Q))
                           = <[Z.to_nat sq := kNoPiece]> MB)
                       /\ residual (remove_hashed pc sq Q) = R)
            by (apply (remove_hashed_step Q MB pc sq R H); mb_side);
          hs_run H' k
      | |- _ => k H
      end
  end.

(** At the end of the chain: the three facts about [moved_pieces]. *)
Ltac hs_finish H :=
  let Hboard := fresh "Hboard" in
  let Hmail := fresh "Hmail" in
  let Hres := fresh "Hres" in
  destruct H as [[Hboard Hmail] Hres];
  split; [exact Hboard | split; [|exact Hres]];
  let i := fresh "i" in let Hi := fresh "Hi" in
  intros i Hi; unfold piece_at; rewrite ?Hmail.

(** The lookup left by [hs_finish], against [make_at]. *)
Ltac at_solve Hflag :=
  unfold make_at, rook_slide, capture_square, placed_piece, piece_at;
  rewrite ?Hflag; flag_simpl; cbn [andb color type];
  eval_home; eval_squares;
  mb_lookup;
  repeat match goal with
  | |- context [?a =? ?b] => destruct (Z.eqb_spec a b); try (exfalso; lia)
  end;
  try subst; first [reflexivity | congruence | (exfalso; lia)].

Ltac chain_all H0 Hflag := hs_run H0 ltac:(fun H => hs_finish H; at_solve Hflag).

(** After the piece-moving steps of [make_move] the board is coherent, its
    mailbox is the one [make_at] describes and the residual is unchanged. *)
Lemma moved_pieces_spec (m : Move) (p : Position) :
  position_ok p -> move_ok p m ->
  board_ok (board_ (moved_pieces m p))
  /\ (forall i, valid_sq i -> piece_at (board_ (moved_pieces m p)) i = make_at m p i)
  /\ residual (moved_pieces m p) = residual p.
Proof.
  intros Hpos [Hf Ht Hne Hty Hfl].
  pose proof (pos_board p Hpos) as Hok.
  pose proof (ok_len_mailbox _ Hok) as Hlen.
  unfold moved_pieces, castle_rook, slide_rook, captured_piece, capture_square, placed_piece.
  cbv zeta.
  assert (H0 : forall c, (board_ok (board_ (save_undo c p))
                /\ mailbox_ (board_ (save_undo c p)) = mailbox_ (board_ p))
               /\ residual (save_undo c p) = residual p)
    by (intros c; split; [split; [assumption|reflexivity] | reflexivity]).
  unfold flag_ok in Hfl.
  destruct (flag m) eqn:Hflag.
  - (* Normal *)
    flag_simpl. cbn [andb].
    destruct (decide (piece_at (board_ p) (to_sq m) = kNoPiece)) as [Hc|Hc].
    + rewrite Hc. flag_simpl. specialize (H0 kNoPiece). unfold piece_at in *.
      chain_all H0 Hflag.
    + pose proof (type_proper _ _ Hok Ht Hc) as Hcty.
      flag_simpl. specialize (H0 (piece_at (board_ p) (to_sq m))). unfold piece_at in *.
      chain_all H0 Hflag.
  - (* DoublePawn *)
    destruct Hfl as (_ & Hpc & _ & _ & Hc).
    flag_simpl. cbn [andb]. rewrite ?Hc. flag_simpl.
    specialize (H0 kNoPiece). unfold piece_at in *. chain_all H0 Hflag.
  - (* EnPassant *)
    destruct Hfl as (_ & Hpc & Hto & Hcsq & Hfc).
    destruct (pos_ep p Hpos) as [Hno | (Hv & Hcv & Hempty & Hcap)].
    { exfalso. unfold valid_sq, kNoSquare in *. lia. }
    rewrite <- Hto in Hcv, Hempty, Hcap.
    pose proof (ep_capture_sq_neq (side_to_move_ p) (to_sq m)) as Hct.
    flag_simpl. cbn [andb]. rewrite Hcsq, Hcap.
    rewrite (bool_decide_eq_true_2 _ (pawn_not_empty _)).
    specialize (H0 (mkPiece (opposite (side_to_move_ p)) Pawn)).
    set (csq := ep_capture_sq (side_to_move_ p) (to_sq m)) in *.
    unfold piece_at in *.
    hs_run H0 ltac:(fun H => hs_finish H).
    unfold make_at, rook_slide, capture_square, placed_piece, piece_at.
    rewrite Hflag. flag_simpl. cbn [andb]. rewrite Hcsq. fold csq.
    mb_lookup;
      repeat match goal with
      | |- context [?a =? ?b] => destruct (Z.eqb_spec a b); try (exfalso; lia)
      end; try subst; first [reflexivity | congruence | (exfalso; lia)].
  - (* CastleKingside *)
    destruct Hfl as (_ & Hfrom & Hto & Hk & Hf1 & Hg1 & Hr).
    rewrite Hfrom, Hto. flag_simpl. cbn [andb].
    destruct (side_to_move_ p); cbn [home_rank_sq] in *;
      eval_home; eval_squares;
      rewrite ?Hg1; flag_simpl; specialize (H0 kNoPiece); unfold piece_at in *;
      hs_run H0 ltac:(fun H => hs_finish H);
      unfold make_at, rook_slide, capture_square, placed_piece, piece_at;
      rewrite Hflag, Hfrom, Hto; flag_simpl; cbn [andb]; eval_squares;
      mb_lookup;
      repeat match goal with
      | |- context [?a =? ?b] => destruct (Z.eqb_spec a b); try (exfalso; lia)
      end; try subst; first [reflexivity | congruence | (exfalso; lia)].
  - (* CastleQueenside *)
    destruct Hfl as (_ & Hfrom & Hto & Hk & Hd1 & Hc1 & Hb1 & Hr).
    rewrite Hfrom, Hto. flag_simpl. cbn [andb].
    destruct (side_to_move_ p); cbn [home_rank_sq] in *;
      eval_home; eval_squares;
      rewrite ?Hc1; flag_simpl; specialize (H0 kNoPiece); unfold piece_at in *;
      hs_run H0 ltac:(fun H => hs_finish H);
      unfold make_at, rook_slide, capture_square, placed_piece, piece_at;
      rewrite Hflag, Hfrom, Hto; flag_simpl; cbn [andb]; eval_squares;
      mb_lookup;
      repeat match goal with
      | |- context [?a =? ?b] => destruct (Z.eqb_spec a b); try (exfalso; lia)
      end; try subst; first [reflexivity | congruence | (exfalso; lia)].
  - (* Promotion *)
    destruct Hfl as (Hpc & Hpromo).
    pose proof (promotion_type _ Hpromo) as Hpt.
    flag_simpl. cbn [andb]. rewrite Hpc. cbn [color].
    destruct (decide (piece_at (board_ p) (to_sq m) = kNoPiece)) as [Hc|Hc].
    + rewrite Hc. flag_simpl. specialize (H0 kNoPiece). unfold piece_at in *.
      hs_run H0 ltac:(fun H => hs_finish H).
      unfold make_at, rook_slide, capture_square, placed_piece, piece_at.
      rewrite Hflag, Hpc. flag_simpl. cbn [andb color].
      mb_lookup;
        repeat match goal with
        | |- context [?a =? ?b] => destruct (Z.eqb_spec a b); try (exfalso; lia)
        end; try subst; first [reflexivity | congruence | (exfalso; lia)].
    + pose proof (type_proper _ _ Hok Ht Hc) as Hcty.
      flag_simpl. specialize (H0 (piece_at (board_ p) (to_sq m))). unfold piece_at in *.
      hs_run H0 ltac:(fun H => hs_finish H).
      unfold make_at, rook_slide, capture_square, placed_piece, piece_at.
      rewrite Hflag, Hpc. flag_simpl. cbn [andb color].
      mb_lookup;
        repeat match goal with
        | |- context [?a =? ?b] => destruct (Z.eqb_spec a b); try (exfalso; lia)
        end; try subst; first [reflexivity | congruence | (exfalso; lia)].
Qed.


(** * [make_move] keeps the position invariant and the key *)

Lemma make_move_steps (m : Move) (p : Position) :
  make_move m p
  = record_key
      (switch_side
         (update_clocks (piece_at (board_ p) (from_sq m)) (captured_piece m p)
            (update_castling m (update_en_passant m (moved_pieces m p))))).
Proof. reflexivity. Qed.

Lemma moved_pieces_fields (m : Move) (p : Position) :
  board_ (moved_pieces m p) = make_board m p
  /\ side_to_move_ (moved_pieces m p) = side_to_move_ p
  /\ castling_ (moved_pieces m p) = castling_ p
  /\ en_passant_ (moved_pieces m p) = en_passant_ p.
Proof.
  unfold moved_pieces. cbv zeta.
  destruct (castle_rook_fields m
              (place_hashed (placed_piece m (piece_at (board_ p) (from_sq m))) (to_sq m)
                 (if bool_decide (captured_piece m p <> kNoPiece)
                  then remove_hashed (captured_piece m p) (capture_square m)
                         (remove_hashed (piece_at (board_ p) (from_sq m)) (from_sq m)
                            (save_undo (captured_piece m p) p))
                  else remove_hashed (piece_at (board_ p) (from_sq m)) (from_sq m)
                         (save_undo (captured_piece m p) p))))
    as (HB & HS & HC & HE & _).
  rewrite HB, HS, HC, HE. unfold make_board, capture_board.
  destruct (bool_decide (captured_piece m p <> kNoPiece)); split_all; reflexivity.
Qed.

(** ** Castling rights after the mask update *)

Lemma has_right_bit (cr k : Z) : 0 <= k -> has_right cr (2 ^ k) = Z.testbit cr k.
Proof.
  intros Hk. unfold has_right.
  assert (H : Z.land cr (2 ^ k) = if Z.testbit cr k then 2 ^ k else 0).
  { apply Z.bits_inj'. intros i Hi. rewrite Z.land_spec, Z.pow2_bits_eqb by assumption.
    destruct (Z.eqb_spec k i) as [->|Hne].
    - destruct (Z.testbit cr i) eqn:E; [rewrite Z.pow2_bits_true by assumption|rewrite Z.bits_0];
        reflexivity.
    - rewrite andb_false_r. destruct (Z.testbit cr k);
        [rewrite Z.pow2_bits_false by assumption | rewrite Z.bits_0]; reflexivity. }
  rewrite H. destruct (Z.testbit cr k); [|reflexivity].
  assert (0 < 2 ^ k) by (apply Z.pow_pos_nonneg; lia).
  replace (2 ^ k =? 0) with false by (symmetry; apply Z.eqb_neq; lia). reflexivity.
Qed.

Lemma has_right_masked (cr : CastlingRights) (from to : Square) (k : Z) :
  0 <= k ->
  has_right (Z.land (Z.land cr (kCastleMask from)) (kCastleMask to)) (2 ^ k) = true ->
  has_right cr (2 ^ k) = true
  /\ Z.testbit (kCastleMask from) k = true /\ Z.testbit (kCastleMask to) k = true.
Proof.
  intros Hk. rewrite !has_right_bit, !Z.land_spec, !andb_true_iff by assumption. tauto.
Qed.

Lemma castle_mask_wk (sq : Square) :
  Z.testbit (kCastleMask sq) 0 = true -> sq <> E1 /\ sq <> H1.
Proof.
  unfold kCastleMask, castling_mask_for.
  repeat match goal with |- context [?a =? ?b] => destruct (Z.eqb_spec a b) end;
    subst; vm_compute; intros H; first [discriminate H | split; discriminate | idtac];
    split; unfold E1, H1, A1, A8, E8, H8 in *; lia.
Qed.

Lemma castle_mask_wq (sq : Square) :
  Z.testbit (kCastleMask sq) 1 = true -> sq <> E1 /\ sq <> A1.
Proof.
  unfold kCastleMask, castling_mask_for.
  repeat match goal with |- context [?a =? ?b] => destruct (Z.eqb_spec a b) end;
    subst; vm_compute; intros H; first [discriminate H | split; discriminate | idtac];
    split; unfold E1, H1, A1, A8, E8, H8 in *; lia.
Qed.

Lemma castle_mask_bk (sq : Square) :
  Z.testbit (kCastleMask sq) 2 = true -> sq <> E8 /\ sq <> H8.
Proof.
  unfold kCastleMask, castling_mask_for.
  repeat match goal with |- context [?a =? ?b] => destruct (Z.eqb_spec a b) end;
    subst; vm_compute; intros H; first [discriminate H | split; discriminate | idtac];
    split; unfold E1, H1, A1, A8, E8, H8 in *; lia.
Qed.

Lemma castle_mask_bq (sq : Square) :
  Z.testbit (kCastleMask sq) 3 = true -> sq <> E8 /\ sq <> A8.
Proof.
  unfold kCastleMask, castling_mask_for.
  repeat match goal with |- context [?a =? ?b] => destruct (Z.eqb_spec a b) end;
    subst; vm_compute; intros H; first [discriminate H | split; discriminate | idtac];
    split; unfold E1, H1, A1, A8, E8, H8 in *; lia.
Qed.

(** ** The mailbox after the move *)

Ltac eqb_cases :=
  repeat match goal with
  | |- context [?a =? ?b] => destruct (Z.eqb_spec a b); try (exfalso; lia)
  | H : context [?a =? ?b] |- _ => destruct (Z.eqb_spec a b); try (exfalso; lia)
  end.

Section MailboxAfter.
Variable m : Move.
Variable p : Position.
Hypothesis Hpos : position_ok p.
Hypothesis Hmv : move_ok p m.

Let b := board_ p.
Let us := side_to_move_ p.

(** A king or rook away from the origin and the destination stays where it
    is, unless it is the rook of a castling move. *)
Lemma make_at_home (i : Square) (pc : Piece) :
  valid_sq i -> i <> from_sq m -> i <> to_sq m ->
  piece_at b i = pc -> type pc = King \/ type pc = Rook ->
  from_sq m <> home_rank_sq (color pc) 4 ->
  make_at m p i = pc.
Proof.
  intros Hi Hif Hit Hpc Hty Hhome. destruct Hmv as [Hf Ht Hne Hpty Hfl].
  unfold make_at, rook_slide, capture_square. fold b. unfold flag_ok in Hfl. fold b us in Hfl.
  destruct (flag m) eqn:Hflag; flag_simpl.
  - eqb_cases. exact Hpc.
  - eqb_cases. exact Hpc.
  - destruct Hfl as (_ & _ & Hto & Hcsq & _).
    destruct (pos_ep p Hpos) as [Hno | (_ & _ & _ & Hcap)].
    { exfalso. unfold valid_sq, kNoSquare in *. lia. }
    rewrite <- Hto in Hcap. fold b us in Hcap. rewrite Hcsq.
    eqb_cases; [|exact Hpc].
    exfalso. subst i. rewrite Hcap in Hpc. subst pc. cbn in Hty. destruct Hty; discriminate.
  - destruct Hfl as (_ & Hfrom & Hto & Hk & Hf1 & Hg1 & Hr).
    rewrite Hfrom in *. rewrite Hto in *.
    destruct us eqn:Hus; cbn [home_rank_sq] in *; eval_home; eval_squares; eqb_cases;
      try exact Hpc; exfalso; subst;
      first [ rewrite Hr in Hhome; cbn in Hhome; lia
            | rewrite Hf1 in Hty; cbn in Hty; destruct Hty; discriminate ].
  - destruct Hfl as (_ & Hfrom & Hto & Hk & Hd1 & Hc1 & Hb1 & Hr).
    rewrite Hfrom in *. rewrite Hto in *.
    destruct us eqn:Hus; cbn [home_rank_sq] in *; eval_home; eval_squares; eqb_cases;
      try exact Hpc; exfalso; subst;
      first [ rewrite Hr in Hhome; cbn in Hhome; lia
            | rewrite Hd1 in Hty; cbn in Hty; destruct Hty; discriminate ].
  - eqb_cases. exact Hpc.
Qed.

(** Where a king can stand after the move. *)
Lemma make_at_king (i : Square) (c : Color) :
  valid_sq i -> make_at m p i = mkPiece c King ->
  (i = to_sq m /\ piece_at b (from_sq m) = mkPiece c King)
  \/ (i <> to_sq m /\ i <> from_sq m /\ piece_at b i = mkPiece c King).
Proof.
  intros Hi. destruct Hmv as [Hf Ht Hne Hpty Hfl].
  unfold make_at, rook_slide, capture_square, placed_piece. fold b.
  unfold flag_ok in Hfl. fold b us in Hfl.
  destruct (flag m) eqn:Hflag; flag_simpl; cbn [andb].
  - eqb_cases; intros H; try discriminate H; auto.
  - eqb_cases; intros H; try discriminate H; auto.
  - eqb_cases; intros H; try discriminate H; auto.
  - destruct Hfl as (_ & Hfrom & Hto & Hk & Hf1 & Hg1 & Hr).
    rewrite Hfrom in *. rewrite Hto in *.
    destruct us eqn:Hus; cbn [home_rank_sq] in *; eval_home; eval_squares; eqb_cases;
      intros H; try discriminate H; auto;
      exfalso; rewrite Hr in H; discriminate H.
  - destruct Hfl as (_ & Hfrom & Hto & Hk & Hd1 & Hc1 & Hb1 & Hr).
    rewrite Hfrom in *. rewrite Hto in *.
    destruct us eqn:Hus; cbn [home_rank_sq] in *; eval_home; eval_squares; eqb_cases;
      intros H; try discriminate H; auto;
      exfalso; rewrite Hr in H; discriminate H.
  - destruct Hfl as (Hpc & Hpromo).
    rewrite (bool_decide_eq_true_2 _ (promotion_type _ Hpromo)).
    eqb_cases; intros H; try discriminate H; auto.
    exfalso. injection H as _ Hk. rewrite Hk in Hpromo. cbn in Hpromo.
    repeat destruct Hpromo as [Hpromo|Hpromo]; try discriminate Hpromo. exact Hpromo.
Qed.

End MailboxAfter.

(** ** [make_move] keeps [position_ok] *)

Lemma make_board_at (m : Move) (p : Position) :
  position_ok p -> move_ok p m ->
  board_ok (make_board m p)
  /\ forall i, valid_sq i -> piece_at (make_board m p) i = make_at m p i.
Proof.
  intros Hpos Hmv. destruct (moved_pieces_spec m p Hpos Hmv) as (Hok & Hat & _).
  destruct (moved_pieces_fields m p) as (HB & _). rewrite HB in *. split; assumption.
Qed.

Lemma double_push_square (c : Color) (from : Square) :
  valid_sq from -> valid_sq (forward c from 2) ->
  make_square (file_of from) ((rank_of from + rank_of (forward c from 2)) `quot` 2)
  = forward c from 1.
Proof.
  intros Hf Ht.
  assert (Hr : 0 <= rank_of from).
  { rewrite rank_of_div. apply Z.div_pos; unfold valid_sq in Hf; lia. }
  assert (Hr2 : 0 <= rank_of (forward c from 2)).
  { rewrite rank_of_div. apply Z.div_pos; unfold valid_sq in Ht; lia. }
  assert (Hv : valid_sq (forward c from 1)).
  { unfold valid_sq, forward in *. destruct c; lia. }
  rewrite Z.quot_div_nonneg by lia.
  destruct c; unfold forward in *.
  - rewrite rank_of_shift in *.
    replace (rank_of from + (rank_of from + 2)) with ((rank_of from + 1) * 2) by lia.
    rewrite Z.div_mul by lia. apply make_square_file_rank; assumption.
  - replace (from - 8 * 2) with (from + 8 * (-2)) in * by lia.
    replace (from - 8 * 1) with (from + 8 * (-1)) in * by lia.
    rewrite rank_of_shift in *.
    replace (rank_of from + (rank_of from + -2)) with ((rank_of from + -1) * 2) by lia.
    rewrite Z.div_mul by lia. apply make_square_file_rank; assumption.
Qed.

Lemma make_move_ok (m : Move) (p : Position) :
  position_ok p -> move_ok p m -> position_ok (make_move m p).
Proof.
  intros Hpos Hmv.
  destruct (make_move_fields m p) as (HB & HS & HC & HE & HH & HF & _).
  destruct (make_board_at m p Hpos Hmv) as (Hok & Hat).
  pose proof Hmv as [Hf Ht Hne Hpty Hfl].
  constructor.
  - rewrite HB. exact Hok.
  - rewrite HB. intros c sq1 sq2 H1 H2. rewrite !Hat by assumption. intros K1 K2.
    destruct (make_at_king m p Hmv sq1 c H1 K1) as [(E1 & F1) | (N1 & M1 & F1)];
      destruct (make_at_king m p Hmv sq2 c H2 K2) as [(E2 & F2) | (N2 & M2 & F2)].
    + congruence.
    + exfalso. apply M2. exact (pos_kings p Hpos c _ _ H2 Hf F2 F1).
    + exfalso. apply M1. exact (pos_kings p Hpos c _ _ H1 Hf F1 F2).
    + exact (pos_kings p Hpos c _ _ H1 H2 F1 F2).
  - destruct (pos_castling p Hpos) as [Kwk Kwq Kbk Kbq].
    constructor; rewrite HB, HC; intros Hr.
    + apply (has_right_masked _ _ _ 0 ltac:(lia)) in Hr. destruct Hr as (Hr & Mf & Mt).
      apply castle_mask_wk in Mf, Mt. destruct (Kwk Hr) as (Hk & Hrk).
      rewrite !Hat by (unfold valid_sq, E1, H1; lia).
      split; apply (make_at_home m p Hpos Hmv); unfold valid_sq, E1, H1 in *;
        cbn [type color home_rank_sq]; auto; try lia; tauto.
    + apply (has_right_masked _ _ _ 1 ltac:(lia)) in Hr. destruct Hr as (Hr & Mf & Mt).
      apply castle_mask_wq in Mf, Mt. destruct (Kwq Hr) as (Hk & Hrk).
      rewrite !Hat by (unfold valid_sq, E1, A1; lia).
      split; apply (make_at_home m p Hpos Hmv); unfold valid_sq, E1, A1 in *;
        cbn [type color home_rank_sq]; auto; try lia; tauto.
    + apply (has_right_masked _ _ _ 2 ltac:(lia)) in Hr. destruct Hr as (Hr & Mf & Mt).
      apply castle_mask_bk in Mf, Mt. destruct (Kbk Hr) as (Hk & Hrk).
      rewrite !Hat by (unfold valid_sq, E8, H8; lia).
      split; apply (make_at_home m p Hpos Hmv); unfold valid_sq, E8, H8 in *;
        cbn [type color home_rank_sq]; auto; try lia; tauto.
    + apply (has_right_masked _ _ _ 3 ltac:(lia)) in Hr. destruct Hr as (Hr & Mf & Mt).
      apply castle_mask_bq in Mf, Mt. destruct (Kbq Hr) as (Hk & Hrk).
      rewrite !Hat by (unfold valid_sq, E8, A8; lia).
      split; apply (make_at_home m p Hpos Hmv); unfold valid_sq, E8, A8 in *;
        cbn [type color home_rank_sq]; auto; try lia; tauto.
  - unfold ep_ok. rewrite HB, HS, HE.
    destruct (flag m) eqn:Hflag; flag_simpl; try (left; reflexivity).
    right. unfold flag_ok in Hfl. rewrite Hflag in Hfl.
    destruct Hfl as (Hpromo & Hpc & Hto & Hmid & Hdst).
    rewrite Hto. rewrite Hto in Ht. rewrite double_push_square by assumption.
    set (us := side_to_move_ p) in *.
    assert (Hv : valid_sq (forward us (from_sq m) 1)).
    { unfold valid_sq, forward in *. destruct us; lia. }
    assert (Hcap : ep_capture_sq (opposite us) (forward us (from_sq m) 1) = to_sq m).
    { rewrite Hto. unfold ep_capture_sq, forward. destruct us; cbn; lia. }
    rewrite Hcap. rewrite Hto in Hne. rewrite <- Hto in Ht.
    rewrite !Hat by assumption. split_all; try assumption.
    + unfold make_at, rook_slide, capture_square. rewrite Hflag. flag_simpl.
      rewrite Hto. unfold forward. destruct us; eqb_cases; exact Hmid.
    + unfold make_at, rook_slide, capture_square, placed_piece. rewrite Hflag. flag_simpl.
      rewrite Z.eqb_refl. cbn [andb]. rewrite opposite_involutive. exact Hpc.
  - rewrite HH. match goal with |- in_int (if ?c then _ else _) => destruct c end;
      [unfold in_int, kIntMin, kIntMax; lia | apply in_int_wrap].
  - rewrite HF. match goal with |- in_int (if ?c then _ else _) => destruct c end;
      [apply in_int_wrap | exact (pos_fullmove p Hpos)].
Qed.

(** ** [make_move] keeps the key equal to the key computed from scratch *)

Lemma set_en_passant_key (ep : Square) (q : Position) :
  key_ (set_en_passant ep q)
  = Z.lxor (Z.lxor (key_ q) (ep_hash (en_passant_ q))) (ep_hash ep).
Proof.
  unfold set_en_passant, ep_hash. destruct (Z.eqb_spec ep (en_passant_ q)) as [->|Hne].
  - xor_solve.
  - destruct (en_passant_ q =? kNoSquare); cbn [negb]; step_proj;
      cbn [en_passant_ set_en_passant_field set_key];
      destruct (ep =? kNoSquare); cbn [negb]; step_proj; cbn [key_ set_en_passant_field set_key];
      xor_solve.
Qed.

Lemma set_castling_key (cr : CastlingRights) (q : Position) :
  key_ (set_castling cr q)
  = Z.lxor (Z.lxor (key_ q) (zobrist.castling_key (castling_ q))) (zobrist.castling_key cr).
Proof.
  unfold set_castling. destruct (Z.eqb_spec cr (castling_ q)) as [->|Hne].
  - xor_solve.
  - reflexivity.
Qed.

Lemma update_clocks_key (piece captured : Piece) (q : Position) :
  key_ (update_clocks piece captured q) = key_ q.
Proof.
  unfold update_clocks.
  destruct (bool_decide (type piece = Pawn) || bool_decide (captured <> kNoPiece));
    step_proj; destruct (bool_decide (side_to_move_ q = Black)); reflexivity.
Qed.

Lemma side_hash_opposite (c : Color) :
  side_hash (opposite c) = Z.lxor (side_hash c) zobrist.side_to_move_key.
Proof. destruct c; cbn [side_hash opposite]; xor_solve. Qed.

Lemma make_move_key (m : Move) (p : Position) :
  key_ (make_move m p)
  = Z.lxor
      (Z.lxor
         (Z.lxor (Z.lxor (Z.lxor (key_ (moved_pieces m p)) (ep_hash (en_passant_ p)))
                    (ep_hash (en_passant_ (make_move m p))))
            (zobrist.castling_key (castling_ p)))
         (zobrist.castling_key (castling_ (make_move m p))))
      zobrist.side_to_move_key.
Proof.
  destruct (make_move_fields m p) as (_ & _ & HC & HE & _). rewrite HC, HE.
  rewrite make_move_steps.
  destruct (moved_pieces_fields m p) as (_ & _ & HC0 & HE0).
  set (q := moved_pieces m p) in *.
  change (key_ (record_key ?x)) with (key_ x).
  change (key_ (switch_side ?x)) with (Z.lxor (key_ x) zobrist.side_to_move_key).
  rewrite update_clocks_key. unfold update_castling. rewrite set_castling_key.
  unfold update_en_passant.
  destruct (bool_decide (flag m = DoublePawn)).
  - destruct (set_en_passant_fields
                (make_square (file_of (from_sq m))
                   ((rank_of (from_sq m) + rank_of (to_sq m)) `quot` 2)) q)
      as (_ & _ & HC1 & _).
    rewrite HC1, set_en_passant_key, HC0, HE0. reflexivity.
  - destruct (set_en_passant_fields kNoSquare q) as (_ & _ & HC1 & _).
    rewrite HC1, set_en_passant_key, HC0, HE0. reflexivity.
Qed.

Lemma make_move_keeps_key (m : Move) (p : Position) :
  position_ok p -> move_ok p m -> key_ p = full_key p ->
  key_ (make_move m p) = full_key (make_move m p).
Proof.
  intros Hpos Hmv Hkey.
  destruct (moved_pieces_spec m p Hpos Hmv) as (_ & _ & Hres).
  destruct (moved_pieces_fields m p) as (HB0 & _).
  destruct (make_move_fields m p) as (HB & HS & _).
  rewrite make_move_key, (full_key_eq (make_move m p)).
  unfold scalar_hash. rewrite HB, HS, side_hash_opposite.
  unfold residual in Hres. rewrite HB0 in Hres.
  assert (Hk : key_ (moved_pieces m p)
               = Z.lxor (scalar_hash p) (board_hash (make_board m p))).
  { rewrite Hkey, full_key_eq in Hres. rewrite <- (Z.lxor_0_r (key_ _)).
    rewrite <- (Z.lxor_nilpotent (board_hash (make_board m p))), <- Z.lxor_assoc, Hres.
    xor_solve. }
  rewrite Hk. unfold scalar_hash. xor_solve.
Qed.

(** The invariant of a game: the position is coherent and its maintained
    key is the key computed from scratch. *)
Lemma play_keeps_key (ms : list Move) (p : Position) :
  position_ok p -> key_ p = full_key p -> pseudo_legal_sequence p ms ->
  position_ok (play p ms) /\ key_ (play p ms) = full_key (play p ms).
Proof.
  revert p. induction ms as [|m ms IH]; intros p Hpos Hkey Hseq; cbn [play].
  - split; assumption.
  - destruct Hseq as [Hin Hseq].
    assert (Hmv : move_ok p m).
    { pose proof (pseudo_legal_ok p Hpos) as Hall. rewrite Forall_forall in Hall.
      apply Hall. apply list_elem_of_In. exact Hin. }
    apply IH; [apply make_move_ok | apply make_move_keeps_key | ]; assumption.
Qed.

(** ** The key of a parsed position *)

Lemma compute_key_fixed (q : Position) : key_ (compute_key q) = full_key (compute_key q).
Proof.
  unfold full_key, compute_key.
  cbn [board_ side_to_move_ castling_ en_passant_ key_ set_key set_key_history].
  reflexivity.
Qed.

Ltac ok_cases H :=
  repeat first
    [ discriminate H
    | match type of H with
      | (if ?c then _ else _) = Ok _ => destruct c
      | bind ?r _ = Ok _ => let E := fresh "E" in destruct r eqn:E; cbn [bind] in H
      | (let '(_, _) := ?x in _) = Ok _ => destruct x
      end ].

Lemma from_fen_shape (fen : string) (p : Position) :
  from_fen fen = Ok p ->
  exists b side cr ep halfmove fullmove, p = new_position b side cr ep halfmove fullmove.
Proof.
  unfold from_fen. intros H. ok_cases H.
  injection H as <-. eauto 10.
Qed.

Lemma from_fen_key (fen : string) (p : Position) :
  from_fen fen = Ok p -> key_ p = full_key p.
Proof.
  intros H. destruct (from_fen_shape fen p H) as (b & side & cr & ep & hm & fm & ->).
  apply compute_key_fixed.
Qed.

Lemma full_key_unfold (p : Position) : full_key p = key_ (compute_key p).
Proof. unfold full_key. reflexivity. Qed.


(** * The incremental key along a game *)

(** C2.  Take a descriptor that [from_fen] accepts and whose position
    satisfies the position invariant, and play from it any sequence of
    moves, each produced by the pseudo-legal generator in the position where
    it is applied.  The key that [make_move] maintained incrementally is the
    key [compute_key] gives on the resulting position: the xor of the piece
    keys of the occupied squares, the castling key of the current rights,
    the en-passant key when an en-passant square is set and the side key
    when Black is to move. *)
Theorem incremental_key_matches (fen : string) (p : Position) (ms : list Move) :
  from_fen fen = Ok p -> position_ok p -> pseudo_legal_sequence p ms ->
  key_ (play p ms) = key_ (compute_key (play p ms)).
Proof.
  intros Hfen Hpos Hseq. rewrite <- full_key_unfold.
  exact (proj2 (play_keeps_key ms p Hpos (from_fen_key fen p Hfen) Hseq)).
Qed.

Lemma incremental_key_matches_witness :
  key_ (play initial [mkMove 12 28 DoublePawn PtNone; mkMove 51 35 DoublePawn PtNone;
                      mkMove 28 35 Normal PtNone])
  = key_ (compute_key
            (play initial [mkMove 12 28 DoublePawn PtNone; mkMove 51 35 DoublePawn PtNone;
                           mkMove 28 35 Normal PtNone])).
Proof.
  refine (incremental_key_matches kStartingFen initial
            [mkMove 12 28 DoublePawn PtNone; mkMove 51 35 DoublePawn PtNone;
             mkMove 28 35 Normal PtNone] initial_parses initial_ok _).
  vm_compute. tauto.
Defined.


(** * Move text: [uci] and [from_uci] *)

Lemma parse_square_name (sq : Square) : valid_sq sq -> parse_square (square_name sq) = sq.
Proof.
  intros H.
  assert (Hall : forallb (fun i => parse_square (square_name i) =? i) all_squares = true)
    by (vm_compute; reflexivity).
  rewrite forallb_forall in Hall. apply Z.eqb_eq, Hall, in_all_squares, H.
Qed.

Lemma char_code_range (c : ascii) : 0 <= char_code c < 256.
Proof.
  unfold char_code. pose proof (nat_ascii_bounded c). lia.
Qed.

Lemma parse_square_chars (f r : ascii) :
  square_chars f r ->
  parse_square (String f (String r EmptyString)) = square_of_chars f r
  /\ valid_sq (square_of_chars f r).
Proof.
  unfold square_chars, parse_square, square_of_chars, valid_sq.
  change (char_code "a") with 97. change (char_code "h") with 104.
  change (char_code "1") with 49. change (char_code "8") with 56.
  intros [Hf Hr].
  rewrite make_square_eq by lia.
  repeat match goal with |- context [?a <? ?b] => destruct (Z.ltb_spec a b); try lia end.
  cbn [orb]. split; [reflexivity | lia].
Qed.

Lemma parse_square_not_chars (f r : ascii) :
  ~ square_chars f r -> parse_square (String f (String r EmptyString)) = kNoSquare.
Proof.
  unfold square_chars, parse_square.
  change (char_code "a") with 97. change (char_code "h") with 104.
  change (char_code "1") with 49. change (char_code "8") with 56.
  intros Hn.
  repeat match goal with |- context [?a <? ?b] => destruct (Z.ltb_spec a b) end;
    cbn [orb]; try reflexivity.
  exfalso. apply Hn. lia.
Qed.

Lemma square_chars_dec (f r : ascii) : square_chars f r \/ ~ square_chars f r.
Proof. unfold square_chars. lia. Qed.

Lemma valid_not_no_square (sq : Square) : valid_sq sq -> (sq =? kNoSquare) = false.
Proof. unfold valid_sq, kNoSquare. intros H. apply Z.eqb_neq. lia. Qed.

(** [from_uci] on a text of at least five characters that starts with two
    square names. *)
Lemma from_uci_long (a b c d e : ascii) (rest : string) :
  square_chars a b -> square_chars c d ->
  from_uci (String a (String b (String c (String d (String e rest)))))
  = mkMove (square_of_chars a b) (square_of_chars c d) Promotion
      (if decide (e = "n"%char) then Knight
       else if decide (e = "b"%char) then Bishop
       else if decide (e = "r"%char) then Rook
       else if decide (e = "q"%char) then Queen
       else PtNone).
Proof.
  intros Hab Hcd.
  destruct (parse_square_chars a b Hab) as [Pab Vab].
  destruct (parse_square_chars c d Hcd) as [Pcd Vcd].
  unfold from_uci, substr.
  cbn [String.length Nat.ltb Nat.leb substring String.get].
  rewrite Pab, Pcd, (valid_not_no_square _ Vab), (valid_not_no_square _ Vcd).
  cbn [orb from_sq to_sq flag promotion].
  repeat case_decide; subst; try reflexivity.
  destruct e as [[] [] [] [] [] [] [] []]; try reflexivity; congruence.
Qed.

Lemma from_uci_short (s : string) : (String.length s < 4)%nat -> from_uci s = kNullMove.
Proof.
  intros H. unfold from_uci. apply Nat.ltb_lt in H. rewrite H. reflexivity.
Qed.

Lemma from_uci_no_squares (s : string) : ~ names_two_squares s -> from_uci s = kNullMove.
Proof.
  intros Hn. destruct s as [|a [|b [|c [|d rest]]]]; try reflexivity.
  cbn [names_two_squares] in Hn. unfold from_uci, substr.
  cbn [String.length Nat.ltb Nat.leb substring String.get].
  replace (substring 0 0 rest) with EmptyString by (destruct rest; reflexivity).
  destruct (square_chars_dec a b) as [Hab|Hab].
  - destruct (square_chars_dec c d) as [Hcd|Hcd]; [tauto|].
    rewrite (parse_square_not_chars c d Hcd). rewrite Z.eqb_refl, orb_true_r. reflexivity.
  - rewrite (parse_square_not_chars a b Hab). rewrite Z.eqb_refl. reflexivity.
Qed.

(** ** Text of a generated move *)

Lemma uci_from_uci (m : Move) :
  valid_sq (from_sq m) -> valid_sq (to_sq m) ->
  In (promotion m) [PtNone; Queen; Rook; Bishop; Knight] ->
  from_uci (uci m) = through_text m.
Proof.
  intros Hf Ht Hp. unfold from_uci, uci, through_text, text_flag, substr.
  pose proof (parse_square_name _ Hf) as Pf. pose proof (parse_square_name _ Ht) as Pt.
  unfold square_name in *.
  destruct Hp as [Hp|Hp]; [rewrite <- Hp; rewrite bool_decide_eq_true_2 by reflexivity|
    rewrite bool_decide_eq_false_2
      by (intros E; rewrite E in Hp; repeat destruct Hp as [Hp|Hp]; try discriminate Hp; exact Hp)];
    cbv [String.append]; cbn [String.length Nat.ltb Nat.leb substring String.get];
    rewrite Pf, Pt, (valid_not_no_square _ Hf), (valid_not_no_square _ Ht);
    cbn [orb from_sq to_sq flag promotion]; [reflexivity|].
  repeat destruct Hp as [Hp|Hp]; try (exfalso; exact Hp); rewrite <- Hp; reflexivity.
Qed.

Lemma through_text_fixed (m : Move) :
  (flag m = Normal -> promotion m = PtNone) ->
  (flag m = Promotion -> promotion m <> PtNone) ->
  (flag m <> Normal -> flag m <> Promotion -> promotion m = PtNone) ->
  (through_text m = m <-> flag m = Normal \/ flag m = Promotion).
Proof.
  intros Hn Hp Ho. unfold through_text, text_flag. destruct m as [f t fl pr].
  cbn [from_sq to_sq flag promotion] in *. split.
  - intros E. injection E as E. destruct fl; auto; exfalso;
      case_bool_decide; discriminate E.
  - intros [E|E]; subst fl.
    + rewrite bool_decide_eq_true_2 by auto. reflexivity.
    + rewrite bool_decide_eq_false_2 by auto. reflexivity.
Qed.

(** The legal moves are pseudo-legal moves. *)
Lemma legal_pseudo_legal (p : Position) (m : Move) :
  In m (fst (movegen.legal p)) -> In m (movegen.pseudo_legal p).
Proof.
  unfold movegen.legal.
  assert (G : forall l acc q,
             In m (fst (fold_left
               (fun (st : MoveList * Position) m0 =>
                  let '(result, pos) := st in
                  let pos := make_move m0 pos in
                  let result := if negb (is_in_check_of pos (side_to_move p))
                                then result ++ [m0] else result in
                  let pos := unmake_move m0 pos in
                  (result, pos)) l (acc, q))) -> In m acc \/ In m l).
  { induction l as [|x l IH]; intros acc q H; cbn [fold_left fst] in H.
    - left. exact H.
    - apply IH in H. destruct H as [H|H]; [|right; right; exact H].
      destruct (negb _); [|left; exact H].
      apply in_app_or in H. destruct H as [H|[H|[]]]; [left; exact H|right; left; exact H]. }
  intros H. apply G in H. destruct H as [[]|H]. exact H.
Qed.

Lemma legal_move_ok (p : Position) (m : Move) :
  position_ok p -> In m (fst (movegen.legal p)) -> move_ok p m.
Proof.
  intros Hpos Hin. pose proof (pseudo_legal_ok p Hpos) as Hall.
  rewrite Forall_forall in Hall. apply Hall, list_elem_of_In, legal_pseudo_legal, Hin.
Qed.

Lemma move_ok_promotion (p : Position) (m : Move) :
  move_ok p m ->
  (flag m = Promotion -> In (promotion m) [Queen; Rook; Bishop; Knight])
  /\ (flag m <> Promotion -> promotion m = PtNone).
Proof.
  intros [_ _ _ _ Hfl]. unfold flag_ok in Hfl.
  destruct (flag m); split; intros H; try discriminate H; try congruence; tauto.
Qed.


(** * Moves through their text *)

(** C6, as the claim states it, fails: the double pawn push e2e4 is legal in
    the starting position, and its text parses to a move with the flag
    [Normal]. *)
Lemma uci_round_trip_loses_flag :
  In (mkMove 12 28 DoublePawn PtNone) (fst (movegen.legal initial))
  /\ uci (mkMove 12 28 DoublePawn PtNone) = "e2e4"%string
  /\ from_uci (uci (mkMove 12 28 DoublePawn PtNone)) = mkMove 12 28 Normal PtNone
  /\ from_uci (uci (mkMove 12 28 DoublePawn PtNone)) <> mkMove 12 28 DoublePawn PtNone.
Proof.
  split; [vm_compute; tauto|]. split; [vm_compute; reflexivity|].
  split; [vm_compute; reflexivity|]. vm_compute. discriminate.
Qed.

(** C6, amended.  For every position that satisfies the position invariant
    and every move [m] the generator lists as legal in it, parsing the text
    of [m] gives back the from-square, the to-square and the promotion type
    of [m]; the flag of the parsed move is [Promotion] when [m] promotes and
    [Normal] otherwise.  So the parsed move is [m] itself exactly when the
    flag of [m] is [Normal] or [Promotion]. *)
Theorem uci_round_trip (p : Position) (m : Move) :
  position_ok p -> In m (fst (movegen.legal p)) ->
  from_sq (from_uci (uci m)) = from_sq m
  /\ to_sq (from_uci (uci m)) = to_sq m
  /\ promotion (from_uci (uci m)) = promotion m
  /\ flag (from_uci (uci m))
     = (if bool_decide (promotion m = PtNone) then Normal else Promotion)
  /\ (from_uci (uci m) = m <-> flag m = Normal \/ flag m = Promotion).
Proof.
  intros Hpos Hin. pose proof (legal_move_ok p m Hpos Hin) as Hmv.
  destruct (move_ok_promotion p m Hmv) as [Hpr Hnp].
  assert (Hp : In (promotion m) [PtNone; Queen; Rook; Bishop; Knight]).
  { destruct (decide (flag m = Promotion)) as [E|E].
    - right. exact (Hpr E).
    - left. symmetry. exact (Hnp E). }
  rewrite (uci_from_uci m (mv_from p m Hmv) (mv_to p m Hmv) Hp).
  split_all; try reflexivity.
  apply through_text_fixed.
  - intros E. apply Hnp. congruence.
  - intros E. specialize (Hpr E). intros K. rewrite K in Hpr.
    repeat destruct Hpr as [Hpr|Hpr]; try discriminate Hpr. exact Hpr.
  - intros _ E. exact (Hnp E).
Qed.

Lemma uci_round_trip_witness :
  from_sq (from_uci (uci (mkMove 6 21 Normal PtNone))) = 6
  /\ to_sq (from_uci (uci (mkMove 6 21 Normal PtNone))) = 21
  /\ promotion (from_uci (uci (mkMove 6 21 Normal PtNone))) = PtNone
  /\ flag (from_uci (uci (mkMove 6 21 Normal PtNone))) = Normal
  /\ (from_uci (uci (mkMove 6 21 Normal PtNone)) = mkMove 6 21 Normal PtNone
      <-> Normal = Normal \/ Normal = Promotion).
Proof.
  refine (uci_round_trip initial (mkMove 6 21 Normal PtNone) initial_ok _).
  vm_compute. tauto.
Defined.


(** * What [from_uci] makes of any text *)

(** C9.  On a text of at least five characters whose first four name two
    squares, [from_uci] returns the move between these squares with the flag
    [Promotion]; its promotion type is the piece the fifth character names,
    and stays [PtNone] when that character is none of n, b, r, q.  On a text
    shorter than four characters, or whose first four characters do not name
    two squares, it returns the null move: [from_uci] is a total function and
    has no error result. *)
Theorem from_uci_flags :
  (forall (a b c d e : ascii) (rest : string),
     square_chars a b -> square_chars c d ->
     let m := from_uci (String a (String b (String c (String d (String e rest))))) in
     from_sq m = square_of_chars a b /\ to_sq m = square_of_chars c d
     /\ flag m = Promotion
     /\ (~ In e ["n"; "b"; "r"; "q"]%char -> promotion m = PtNone))
  /\ (forall s : string,
        (String.length s < 4)%nat \/ ~ names_two_squares s -> from_uci s = kNullMove).
Proof.
  split.
  - intros a b c d e rest Hab Hcd. cbv zeta. rewrite (from_uci_long a b c d e rest Hab Hcd).
    cbn [from_sq to_sq flag promotion]. split_all; try reflexivity.
    intros Hn. repeat case_decide; try reflexivity; exfalso; apply Hn; subst e; cbn; tauto.
  - intros s [H|H]; [apply from_uci_short | apply from_uci_no_squares]; exact H.
Qed.

Lemma from_uci_flags_witness :
  (let m := from_uci "e7e8x" in
   from_sq m = 52 /\ to_sq m = 60 /\ flag m = Promotion /\ promotion m = PtNone)
  /\ from_uci "e2" = kNullMove /\ from_uci "e2e9" = kNullMove.
Proof.
  destruct from_uci_flags as [Hlong Hnull]. split; [|split].
  - destruct (Hlong "e" "7" "e" "8" "x" EmptyString)%char as (Hf & Ht & Hfl & Hp).
    + unfold square_chars. vm_compute. intuition discriminate.
    + unfold square_chars. vm_compute. intuition discriminate.
    + cbv zeta. split_all; [exact Hf | exact Ht | exact Hfl |].
      apply Hp. cbn. intros K. repeat destruct K as [K|K]; try discriminate K. exact K.
  - apply Hnull. left. cbn. lia.
  - apply Hnull. right. cbn. unfold square_chars. vm_compute. intuition congruence.
Defined.


(** * The root of the search *)

Section RootMoves.
Import search_cpp.
Variable P : Move -> Prop.







End RootMoves.




(** * A search that stops before its first iteration completes *)







(** * Repetition in the draw test *)

Lemma occurrences_cons (k h : Z) (hist : list Z) :
  occurrences k (h :: hist) = ((if (h =? k)%Z then 1 else 0) + occurrences k hist)%nat.
Proof. unfold occurrences. cbn [List.filter]. destruct (h =? k); reflexivity. Qed.

Lemma occurrences_app (k : Z) (l1 l2 : list Z) :
  occurrences k (l1 ++ l2) = (occurrences k l1 + occurrences k l2)%nat.
Proof. unfold occurrences. rewrite List.filter_app, length_app. reflexivity. Qed.

Lemma occurrences_le (k : Z) (hist : list Z) : (occurrences k hist <= length hist)%nat.
Proof.
  induction hist as [|h hist IH]; [cbn; lia|].
  rewrite occurrences_cons. cbn [length]. destruct (h =? k); lia.
Qed.

(** The counting loop of [repetition_count] does not overflow on a history
    whose length fits [int]. *)
Lemma count_keys_spec (k : Z) (hist : list Z) (count : Z) :
  0 <= count -> count + Z.of_nat (length hist) <= kIntMax ->
  count_keys k hist count = count + Z.of_nat (occurrences k hist).
Proof.
  revert count. induction hist as [|h hist IH]; intros count H0 Hmax; cbn [count_keys].
  - cbn. lia.
  - cbn [length] in Hmax. rewrite occurrences_cons. destruct (h =? k).
    + rewrite wrap_int_id by (unfold in_int, kIntMin, kIntMax in *; lia).
      rewrite IH by lia. lia.
    + rewrite IH by lia. lia.
Qed.

Lemma repetition_count_spec (p : Position) (prev : list Z) :
  key_history_ p = prev ++ [key_ p] ->
  Z.of_nat (length (key_history_ p)) <= kIntMax ->
  repetition_count p = 1 + Z.of_nat (occurrences (key_ p) prev).
Proof.
  intros Hh Hlen. unfold repetition_count. rewrite count_keys_spec by lia.
  rewrite Hh, occurrences_app, occurrences_cons, Z.eqb_refl. cbn. lia.
Qed.

(** The key history of a position of a game ends with its key. *)
Lemma from_fen_history (fen : string) (p : Position) :
  from_fen fen = Ok p -> key_history_ p = [] ++ [key_ p].
Proof.
  intros H. destruct (from_fen_shape fen p H) as (b & side & cr & ep & hm & fm & ->).
  unfold new_position, compute_key. cbv zeta.
  cbn [key_history_ set_key_history key_ set_key app]. reflexivity.
Qed.

Lemma make_move_history (m : Move) (p : Position) :
  key_history_ (make_move m p) = key_history_ p ++ [key_ (make_move m p)].
Proof. exact (proj2 (proj2 (proj2 (proj2 (proj2 (proj2 (proj2 (make_move_fields m p)))))))). Qed.

(** C3, as the claim states it, fails: after the knights went out and came
    back the draw test answers true on account of the repetition test (the
    halfmove clock is 4 and the material tests say no), although the key of
    the position occurs only once among the keys recorded before it. *)
Lemma one_earlier_occurrence_draws :
  search_cpp.is_draw knights_returned = true
  /\ halfmove_clock_ knights_returned = 4
  /\ search_cpp.insufficient_material (board_ knights_returned) = false
  /\ key_history_ knights_returned
     = removelast (key_history_ knights_returned) ++ [key_ knights_returned]
  /\ occurrences (key_ knights_returned) (removelast (key_history_ knights_returned)) = 1%nat.
Proof. vm_compute. split_all; reflexivity. Qed.

(** C3, amended.  For every position whose key history ends with the
    current key, preceded by the keys [prev] recorded before it, and is short
    enough for an [int] counter, the draw test of the search answers true
    exactly when the halfmove clock has reached 100, or the current key has
    appeared at least once in [prev], or the material tests fire.  So the
    test reports a repetition exactly when the key has appeared at least
    once previously. *)
Theorem is_draw_repetition (p : Position) (prev : list Z) :
  key_history_ p = prev ++ [key_ p] ->
  Z.of_nat (length (key_history_ p)) <= kIntMax ->
  (search_cpp.is_draw p = true
   <-> 100 <= halfmove_clock_ p
       \/ (1 <= occurrences (key_ p) prev)%nat
       \/ search_cpp.insufficient_material (board_ p) = true).
Proof.
  intros Hh Hlen. unfold search_cpp.is_draw, halfmove_clock, board.
  rewrite (repetition_count_spec p prev Hh Hlen).
  destruct (Z.leb_spec 100 (halfmove_clock_ p)) as [H1|H1]; [tauto|].
  destruct (Z.leb_spec 2 (1 + Z.of_nat (occurrences (key_ p) prev))) as [H2|H2].
  - split; [intros _; right; left; lia | reflexivity].
  - split; [tauto|]. intros [H|[H|H]]; [lia | lia | exact H].
Qed.

Lemma is_draw_repetition_witness :
  search_cpp.is_draw knights_returned = true
  <-> 100 <= halfmove_clock_ knights_returned
      \/ (1 <= occurrences (key_ knights_returned)
                 (removelast (key_history_ knights_returned)))%nat
      \/ search_cpp.insufficient_material (board_ knights_returned) = true.
Proof.
  refine (is_draw_repetition knights_returned (removelast (key_history_ knights_returned)) _ _).
  - vm_compute. reflexivity.
  - vm_compute. discriminate.
Defined.


(** * When castling moves are generated *)

Section Flags.
Variable Q : Move -> Prop.

Lemma for_squares_keeps (bb : Bitboard) (body : MoveList -> Square -> MoveList)
    (ml : MoveList) :
  Forall Q ml -> (forall ml sq, Forall Q ml -> Forall Q (body ml sq)) ->
  Forall Q (movegen.for_squares bb body ml).
Proof.
  intros Hml Hbody. unfold movegen.for_squares.
  apply (fold_left_Forall (Forall Q) (fun _ => True)); [exact Hml | | auto].
  apply Forall_forall. auto.
Qed.

Lemma add_promotions_keeps (ml : MoveList) (from to : Square) :
  (forall pt, Q (mkMove from to Promotion pt)) -> Forall Q ml ->
  Forall Q (movegen.add_promotions ml from to).
Proof.
  intros Hq Hml. unfold movegen.add_promotions, movegen.kPromotions. cbn [fold_left].
  repeat apply Forall_snoc; auto.
Qed.

End Flags.

(** Pawn and piece moves never carry a castling flag. *)
Lemma gen_pawn_moves_plain (pos : Position) (ml : MoveList) :
  Forall (fun m => is_castle m = false) ml ->
  Forall (fun m => is_castle m = false) (movegen.gen_pawn_moves pos ml).
Proof.
  intros Hml. unfold movegen.gen_pawn_moves. cbv zeta.
  destruct (negb (en_passant pos =? kNoSquare));
    repeat (apply for_squares_keeps;
            [| intros ml0 sq Hml0;
               first [ apply Forall_snoc; [exact Hml0 | reflexivity]
                     | apply add_promotions_keeps; [intros pt; reflexivity | exact Hml0] ]]);
    exact Hml.
Qed.

Lemma gen_piece_moves_plain (pos : Position) (ml : MoveList) (pt : PieceType) :
  Forall (fun m => is_castle m = false) ml ->
  Forall (fun m => is_castle m = false) (movegen.gen_piece_moves pos ml pt).
Proof.
  intros Hml. unfold movegen.gen_piece_moves. cbv zeta.
  apply for_squares_keeps; [exact Hml|]. intros ml0 from Hml0.
  apply for_squares_keeps; [exact Hml0|]. intros ml1 to Hml1.
  apply Forall_snoc; [exact Hml1 | reflexivity].
Qed.

(** [gen_castling] appends the moves whose tests pass. *)
Lemma gen_castling_app (pos : Position) (ml : MoveList) :
  movegen.gen_castling pos ml
  = ml ++ (if kingside_tests pos then [kingside_castle pos] else [])
       ++ (if queenside_tests pos then [queenside_castle pos] else []).
Proof.
  unfold movegen.gen_castling, kingside_tests, queenside_tests, kingside_castle,
    queenside_castle, side_to_move, board, castling.
  cbv zeta.
  destruct (side_to_move_ pos); cbn [back_rank kingside_right queenside_right];
    first [ rewrite !(bool_decide_eq_true_2 (White = White)) by reflexivity
          | rewrite !(bool_decide_eq_false_2 (Black = White)) by discriminate ];
    destruct (is_square_attacked pos (king_square (board_ pos) _) _); cbn [negb andb];
      rewrite ?app_nil_r; try reflexivity;
    repeat match goal with
    | |- context [if ?c then _ else _] =>
        lazymatch c with
        | context [if _ then _ else _] => fail
        | _ => destruct c eqn:?
        end; cbn [negb andb]
    end;
    rewrite ?app_nil_r, <- ?app_assoc; try reflexivity; congruence.
Qed.

Lemma pseudo_legal_app (pos : Position) :
  exists ml0 : MoveList,
    Forall (fun m => is_castle m = false) ml0
    /\ movegen.pseudo_legal pos
       = ml0 ++ (if kingside_tests pos then [kingside_castle pos] else [])
             ++ (if queenside_tests pos then [queenside_castle pos] else []).
Proof.
  unfold movegen.pseudo_legal. cbv zeta. eexists. split; [|apply gen_castling_app].
  repeat apply gen_piece_moves_plain. apply gen_pawn_moves_plain. constructor.
Qed.

Lemma kingside_tests_true (pos : Position) :
  kingside_tests pos = true
  <-> has_right (castling_ pos) (kingside_right (side_to_move_ pos)) = true
      /\ is_empty (board_ pos) (make_square 5 (back_rank (side_to_move_ pos))) = true
      /\ is_empty (board_ pos) (make_square 6 (back_rank (side_to_move_ pos))) = true
      /\ is_in_check pos = false
      /\ is_square_attacked pos (make_square 5 (back_rank (side_to_move_ pos)))
           (opposite (side_to_move_ pos)) = false
      /\ is_square_attacked pos (make_square 6 (back_rank (side_to_move_ pos)))
           (opposite (side_to_move_ pos)) = false.
Proof.
  unfold kingside_tests, has_right, is_in_check, is_in_check_of. cbv zeta.
  rewrite !andb_true_iff, !negb_true_iff. tauto.
Qed.

Lemma queenside_tests_true (pos : Position) :
  queenside_tests pos = true
  <-> has_right (castling_ pos) (queenside_right (side_to_move_ pos)) = true
      /\ is_empty (board_ pos) (make_square 1 (back_rank (side_to_move_ pos))) = true
      /\ is_empty (board_ pos) (make_square 2 (back_rank (side_to_move_ pos))) = true
      /\ is_empty (board_ pos) (make_square 3 (back_rank (side_to_move_ pos))) = true
      /\ is_in_check pos = false
      /\ is_square_attacked pos (make_square 2 (back_rank (side_to_move_ pos)))
           (opposite (side_to_move_ pos)) = false
      /\ is_square_attacked pos (make_square 3 (back_rank (side_to_move_ pos)))
           (opposite (side_to_move_ pos)) = false.
Proof.
  unfold queenside_tests, has_right, is_in_check, is_in_check_of. cbv zeta.
  rewrite !andb_true_iff, !negb_true_iff. tauto.
Qed.

(** The castling moves of the generated list. *)
Lemma pseudo_legal_castles (pos : Position) (m : Move) :
  In m (movegen.pseudo_legal pos) ->
  (flag m = CastleKingside -> kingside_tests pos = true /\ m = kingside_castle pos)
  /\ (flag m = CastleQueenside -> queenside_tests pos = true /\ m = queenside_castle pos).
Proof.
  destruct (pseudo_legal_app pos) as (ml0 & Hplain & ->). intros Hin.
  apply in_app_or in Hin. destruct Hin as [Hin|Hin].
  { rewrite Forall_forall in Hplain. apply list_elem_of_In, Hplain in Hin.
    unfold is_castle in Hin. apply orb_false_iff in Hin. destruct Hin as [H1 H2].
    apply bool_decide_eq_false in H1, H2. split; intros E; contradiction. }
  apply in_app_or in Hin. destruct Hin as [Hin|Hin].
  - destruct (kingside_tests pos); [|destruct Hin]. destruct Hin as [<-|[]].
    split; [auto | intros E; discriminate E].
  - destruct (queenside_tests pos); [|destruct Hin]. destruct Hin as [<-|[]].
    split; [intros E; discriminate E | auto].
Qed.

(** C4, as the claim states it, fails: White has the kingside right, f1 and
    g1 are empty, the king is not in check and f1 is not attacked, yet no
    kingside castling move is generated, because the black rook on g2
    attacks g1. *)
Lemma no_castle_onto_attacked_g1 :
  position_okb rook_on_g2 = true
  /\ side_to_move_ rook_on_g2 = White
  /\ has_right (castling_ rook_on_g2) kWhiteKingside = true
  /\ is_empty (board_ rook_on_g2) 5 = true
  /\ is_empty (board_ rook_on_g2) 6 = true
  /\ is_in_check rook_on_g2 = false
  /\ is_square_attacked rook_on_g2 5 Black = false
  /\ is_square_attacked rook_on_g2 6 Black = true
  /\ ~ (exists m, In m (movegen.pseudo_legal rook_on_g2) /\ flag m = CastleKingside).
Proof.
  split_all; try (vm_compute; reflexivity).
  intros (m & Hin & Hflag). apply pseudo_legal_castles in Hin.
  destruct (proj1 Hin Hflag) as [Ht _]. vm_compute in Ht. discriminate Ht.
Qed.

(** C4, amended.  For every position, the pseudo-legal generator emits a
    kingside castling move exactly when the side's kingside right is
    present, the back-rank squares f and g are empty, the king is not in
    check, and neither f nor g is attacked by the opponent; it emits a
    queenside castling move exactly when the queenside right is present, b,
    c and d are empty, the king is not in check, and neither c nor d is
    attacked.  The moves emitted take the king from its square to g, and to
    c. *)
Theorem castling_generated_iff (pos : Position) :
  let us := side_to_move_ pos in
  let them := opposite us in
  let b := board_ pos in
  let rank := back_rank us in
  ((exists m, In m (movegen.pseudo_legal pos) /\ flag m = CastleKingside)
   <-> has_right (castling_ pos) (kingside_right us) = true
       /\ is_empty b (make_square 5 rank) = true
       /\ is_empty b (make_square 6 rank) = true
       /\ is_in_check pos = false
       /\ is_square_attacked pos (make_square 5 rank) them = false
       /\ is_square_attacked pos (make_square 6 rank) them = false)
  /\ ((exists m, In m (movegen.pseudo_legal pos) /\ flag m = CastleQueenside)
      <-> has_right (castling_ pos) (queenside_right us) = true
          /\ is_empty b (make_square 1 rank) = true
          /\ is_empty b (make_square 2 rank) = true
          /\ is_empty b (make_square 3 rank) = true
          /\ is_in_check pos = false
          /\ is_square_attacked pos (make_square 2 rank) them = false
          /\ is_square_attacked pos (make_square 3 rank) them = false)
  /\ (forall m, In m (movegen.pseudo_legal pos) ->
        (flag m = CastleKingside -> m = kingside_castle pos)
        /\ (flag m = CastleQueenside -> m = queenside_castle pos)).
Proof.
  cbv zeta. split; [|split].
  - rewrite <- kingside_tests_true. split.
    + intros (m & Hin & Hflag). exact (proj1 (proj1 (pseudo_legal_castles pos m Hin) Hflag)).
    + intros Ht. exists (kingside_castle pos). split; [|reflexivity].
      destruct (pseudo_legal_app pos) as (ml0 & _ & ->). rewrite Ht.
      apply in_or_app. right. left. reflexivity.
  - rewrite <- queenside_tests_true. split.
    + intros (m & Hin & Hflag). exact (proj1 (proj2 (pseudo_legal_castles pos m Hin) Hflag)).
    + intros Ht. exists (queenside_castle pos). split; [|reflexivity].
      destruct (pseudo_legal_app pos) as (ml0 & _ & ->). rewrite Ht.
      apply in_or_app. right. apply in_or_app. right. left. reflexivity.
  - intros m Hin. destruct (pseudo_legal_castles pos m Hin) as [Hk Hq].
    split; intros E; [exact (proj2 (Hk E)) | exact (proj2 (Hq E))].
Qed.


(** * Descriptors: what [from_fen] accepts *)

(** ** The placement field *)








(** ** The side, castling and en-passant fields *)




Lemma parse_square_valid (s : string) :
  (parse_square s =? kNoSquare) = false
  <-> exists f r : ascii, s = String f (String r EmptyString) /\ square_chars f r.
Proof.
  split.
  - intros H. destruct s as [|f [|r [|x s]]]; try (cbn in H; discriminate H).
    exists f, r. split; [reflexivity|].
    destruct (square_chars_dec f r) as [Hc|Hc]; [exact Hc|].
    rewrite (parse_square_not_chars f r Hc) in H. cbn in H. discriminate H.
  - intros (f & r & -> & Hc). destruct (parse_square_chars f r Hc) as [-> Hv].
    apply valid_not_no_square, Hv.
Qed.


(** ** The clock fields *)

Lemma digits_loop_spec (s : string) :
  forall (acc : Z) (seen : bool) (v : Z) (sn : bool) (rest : string),
  digits_loop s acc seen = (v, sn, rest) ->
  (rest = EmptyString ->
     Forall (fun c => is_digit c = true) (list_ascii_of_string s) /\ v = decimal s acc)
  /\ (rest <> EmptyString ->
        ~ Forall (fun c => is_digit c = true) (list_ascii_of_string s))
  /\ (sn = false -> seen = false /\ ~ all_digits s)
  /\ (sn = true -> seen = true \/ s <> EmptyString).
Proof.
  induction s as [|c s IH]; intros acc seen v sn rest H;
    cbn [digits_loop list_ascii_of_string decimal] in *.
  - injection H as <- <- <-. split_all.
    + intros _. split; [constructor | reflexivity].
    + intros Hn. congruence.
    + intros ->. split; [reflexivity|]. intros [Hne _]. congruence.
    + intros ->. left. reflexivity.
  - destruct (is_digit c) eqn:Hd.
    + destruct (IH _ _ _ _ _ H) as (H1 & H2 & H3 & H4). split_all.
      * intros Hr. destruct (H1 Hr) as [Hall ->]. split; [constructor; assumption | reflexivity].
      * intros Hr Hall. apply Forall_cons in Hall. destruct Hall as [_ Hall].
        exact (H2 Hr Hall).
      * intros Hs. destruct (H3 Hs) as [E _]. discriminate E.
      * intros _. right. discriminate.
    + injection H as <- <- <-. split_all.
      * intros Hr. discriminate Hr.
      * intros _ Hall. apply Forall_cons in Hall. destruct Hall as [Hc _]. congruence.
      * intros ->. split; [reflexivity|]. intros [_ Hall]. cbn in Hall.
        apply Forall_cons in Hall. destruct Hall as [Hc _]. congruence.
      * intros ->. left. reflexivity.
Qed.

Lemma from_chars_minus (body : string) :
  from_chars (String "-"%char body)
  = (let '(magnitude, seen, rest) := digits_loop body 0 false in
     if negb seen then FcInvalidArgument
     else
       let val := - magnitude in
       if (val <? kIntMin) || (kIntMax <? val) then FcOutOfRange
       else FcValue val rest).
Proof. reflexivity. Qed.

Lemma from_chars_plain (s : string) :
  (forall body, s <> String "-"%char body) ->
  from_chars s
  = (let '(magnitude, seen, rest) := digits_loop s 0 false in
     if negb seen then FcInvalidArgument
     else
       let val := magnitude in
       if (val <? kIntMin) || (kIntMax <? val) then FcOutOfRange
       else FcValue val rest).
Proof.
  intros Hn. destruct s as [|a s]; [reflexivity|].
  destruct a as [[] [] [] [] [] [] [] []]; try reflexivity.
  exfalso. apply (Hn s). reflexivity.
Qed.

Lemma parse_int_core (negative : bool) (body sv : string) (min_val : Z) :
  from_chars sv
  = (let '(magnitude, seen, rest) := digits_loop body 0 false in
     if negb seen then FcInvalidArgument
     else
       let val := if negative then - magnitude else magnitude in
       if (val <? kIntMin) || (kIntMax <? val) then FcOutOfRange
       else FcValue val rest) ->
  match parse_int sv min_val with
  | Ok v =>
      all_digits body
      /\ v = (if negative then - decimal body 0 else decimal body 0)
      /\ in_int v /\ min_val <= v
  | Err msg =>
      ~ (all_digits body
         /\ in_int (if negative then - decimal body 0 else decimal body 0)
         /\ min_val <= (if negative then - decimal body 0 else decimal body 0))
      /\ exists pre, msg = (pre ++ sv)%string
  end.
Proof.
  intros E. unfold parse_int. rewrite E. clear E.
  destruct (digits_loop body 0 false) as [[m seen] rest] eqn:Hd.
  destruct (digits_loop_spec body 0 false m seen rest Hd) as (H1 & H2 & H3 & H4).
  destruct seen; cbn [negb].
  2:{ split; [|eauto]. intros (Hall & _). exact (proj2 (H3 eq_refl) Hall). }
  destruct (H4 eq_refl) as [Hs|Hne]; [discriminate Hs|].
  cbv zeta.
  destruct ((if negative then - m else m) <? kIntMin) eqn:Hlo;
    [|destruct (kIntMax <? (if negative then - m else m)) eqn:Hhi]; cbn [orb].
  - split; [|eauto]. intros (Hall & Hin & _).
    destruct rest as [|x rest]; [|exact (H2 ltac:(discriminate) (proj2 Hall))].
    destruct (H1 eq_refl) as [_ ->]. apply Z.ltb_lt in Hlo. unfold in_int in Hin. lia.
  - split; [|eauto]. intros (Hall & Hin & _).
    destruct rest as [|x rest]; [|exact (H2 ltac:(discriminate) (proj2 Hall))].
    destruct (H1 eq_refl) as [_ ->]. apply Z.ltb_lt in Hhi. unfold in_int in Hin. lia.
  - apply Z.ltb_ge in Hlo, Hhi. destruct rest as [|x rest].
    + destruct (H1 eq_refl) as [Hall ->].
      destruct (Z.ltb_spec (if negative then - decimal body 0 else decimal body 0) min_val)
        as [Hlt|Hge].
      * split; [|eauto]. intros (_ & _ & Hmin). lia.
      * split; [split; assumption|]. split; [reflexivity|]. split; [|exact Hge].
        unfold in_int. lia.
    + split; [|eauto]. intros (Hall & _). exact (H2 ltac:(discriminate) (proj2 Hall)).
Qed.

Lemma parse_int_spec (sv : string) (min_val : Z) :
  match parse_int sv min_val with
  | Ok v => int_text sv v /\ in_int v /\ min_val <= v
  | Err msg => ~ clock_wf min_val sv /\ exists pre, msg = (pre ++ sv)%string
  end.
Proof.
  assert (Hsign : (exists body, sv = String "-"%char body)
                  \/ (forall body, sv <> String "-"%char body)).
  { destruct sv as [|a s]; [right; discriminate|].
    destruct (decide (a = "-"%char)) as [->|Hne]; [left; eauto|].
    right. intros body E. injection E as E _. contradiction. }
  destruct Hsign as [(body & ->)|Hn].
  - pose proof (parse_int_core true body (String "-"%char body) min_val
                  (from_chars_minus body)) as H.
    destruct (parse_int (String "-"%char body) min_val) as [v|msg].
    + destruct H as (Hall & -> & Hin & Hmin). split_all; try assumption.
      right. exists body. split_all; [reflexivity | exact Hall | reflexivity].
    + destruct H as [Hn Hmsg]. split; [|exact Hmsg].
      intros (v & [[[_ Hd] _]|(ds & E & Hall & ->)] & Hin & Hmin).
      * cbn in Hd. apply Forall_cons in Hd. destruct Hd as [Hd _]. vm_compute in Hd.
        discriminate Hd.
      * injection E as <-. apply Hn. split_all; assumption.
  - pose proof (parse_int_core false sv sv min_val (from_chars_plain sv Hn)) as H.
    destruct (parse_int sv min_val) as [v|msg].
    + destruct H as (Hall & -> & Hin & Hmin). split_all; try assumption.
      left. split; [exact Hall | reflexivity].
    + destruct H as [Hno Hmsg]. split; [|exact Hmsg].
      intros (v & [[Hall ->]|(ds & E & _)] & Hin & Hmin).
      * apply Hno. split_all; assumption.
      * exact (Hn ds E).
Qed.


(** ** The whole descriptor *)





(** * What [from_fen] accepts and what it refuses *)




(** * Transposition table *)



Lemma land_range (a m : Z) : 0 <= m -> 0 <= Z.land a m <= m.
Proof.
  intros Hm. split.
  - apply Z.land_nonneg. right. exact Hm.
  - destruct (Z.eq_dec m 0) as [->|Hne].
    + rewrite Z.land_0_r. lia.
    + assert (Hlt : Z.land a m < 2 ^ (Z.succ (Z.log2 m))).
      { destruct (Z.eq_dec (Z.land a m) 0) as [->|Hz]; [apply Z.pow_pos_nonneg; [lia|] |].
        - apply Z.le_le_succ_r, Z.log2_nonneg.
        - apply Z.log2_lt_pow2; [ assert (0 <= Z.land a m) by (apply Z.land_nonneg; lia); lia |].
          apply Z.lt_succ_r. 
          assert (0 <= Z.land a m) by (apply Z.land_nonneg; lia).
          destruct (Z.le_gt_cases (Z.log2 (Z.land a m)) (Z.log2 m)) as [Hle|Hgt]; [exact Hle|].
          exfalso.
          assert (Hb : Z.testbit (Z.land a m) (Z.log2 (Z.land a m)) = true)
            by (apply Z.bit_log2; lia).
          rewrite Z.land_spec, (Z.bits_above_log2 m) in Hb by lia.
          rewrite andb_false_r in Hb. discriminate. }
      (* a bitwise argument: m - land a m = ldiff m a >= 0 *)
      assert (Hd : m - Z.land a m = Z.ldiff m (Z.land a m)).
      { apply Z.sub_nocarry_ldiff. apply Z.bits_inj'. intros i Hi.
        rewrite Z.ldiff_spec, Z.land_spec, Z.bits_0.
        destruct (Z.testbit a i), (Z.testbit m i); reflexivity. }
      assert (0 <= Z.ldiff m (Z.land a m)) by (apply Z.ldiff_nonneg; lia).
      lia.
Qed.

Lemma index_in_range (tt : TranspositionTable) (key : Z) :
  tt_ok tt -> (Z.to_nat (index tt key) < length (table_ tt))%nat.
Proof.
  intros [Hlen Hmask]. unfold index. unfold entry_count in Hmask.
  pose proof (land_range (u64 key) (mask_ tt)) as H. lia.
Qed.

Lemma should_replace_spec (slot : TTEntry) (cur_age depth_new : Z) (bound_new : Bound) :
  should_replace slot cur_age depth_new bound_new = true <->
  (bound slot = BoundNone \/ age slot <> cur_age \/ depth_new >= depth slot
   \/ (bound_new = Exact /\ bound slot <> Exact)).
Proof.
  unfold should_replace.
  rewrite !orb_true_iff, andb_true_iff, negb_true_iff, !bool_decide_eq_true,
    Z.eqb_neq, Z.geb_le.
  intuition lia.
Qed.

Lemma tt_ok_resize (mb : Z) : tt_ok (resize mb).
Proof.
  unfold tt_ok, resize, entry_count. cbn [table_ mask_].
  rewrite length_replicate. split; lia.
Qed.

Lemma tt_ok_store tt key d s b m e : tt_ok tt -> tt_ok (store tt key d s b m e).
Proof.
  unfold tt_ok, store, entry_count. intros [H1 H2].
  destruct (should_replace _ _ _ _); cbn [negb table_ mask_]; [|auto].
  rewrite length_insert. auto.
Qed.

(** C7.  [store] writes the slot at [index key] exactly when the slot is
    empty, or its age differs from the current age, or the new depth is at
    least the stored depth, or the new bound is [Exact] and the stored one is
    not.  The written entry carries the new tag, the narrowed score, static
    evaluation and depth, the new bound and the current age; its best move is
    the stored one when the tags agree, the new move is null and the stored
    move is not, and the new one otherwise.  When the rule rejects the write
    the table is returned as it was. *)
Theorem store_replacement_rule (tt : TranspositionTable) (key depth_new score_new : Z)
    (bound_new : Bound) (best_move_new : Move) (static_eval_new : Z) :
  tt_ok tt ->
  let slot := tt_slot tt key in
  let tt' := store tt key depth_new score_new bound_new best_move_new static_eval_new in
  let rule :=
    bound slot = BoundNone \/ age slot <> age_ tt \/ depth_new >= depth slot
    \/ (bound_new = Exact /\ bound slot <> Exact) in
  (rule ->
     tt_slot tt' key =
       mkTTEntry (key_upper key) (i16 score_new) (i16 static_eval_new)
         (written_move slot key best_move_new) (u8 depth_new) bound_new (age_ tt)
     /\ (key32 slot = key_upper key -> is_null best_move_new = true ->
         is_null (best_move slot) = false ->
         best_move (tt_slot tt' key) = best_move slot))
  /\ (~ rule -> tt' = tt).
Proof.
  intros Hok slot tt' rule.
  pose proof (should_replace_spec slot (age_ tt) depth_new bound_new) as Hspec.
  fold rule in Hspec.
  pose proof (index_in_range tt key Hok) as Hidx.
  assert (Hsame : index tt' key = index tt key).
  { unfold tt', store, index.
    destruct (negb _); reflexivity. }
  split.
  - intros Hr. apply Hspec in Hr.
    assert (Hslot : tt_slot tt' key =
       mkTTEntry (key_upper key) (i16 score_new) (i16 static_eval_new)
         (written_move slot key best_move_new) (u8 depth_new) bound_new (age_ tt)).
    { unfold tt_slot. rewrite Hsame. unfold tt', store.
      fold (tt_slot tt key). fold slot. rewrite Hr. cbn [negb table_].
      rewrite list_lookup_total_insert. 
      destruct (decide _) as [_|Hn]; [reflexivity|].
      exfalso. apply Hn. split; [reflexivity | exact Hidx]. }
    split; [exact Hslot|].
    intros Htag Hnull Hold. rewrite Hslot. cbn [best_move].
    unfold written_move. rewrite Htag, Z.eqb_refl, Hnull, Hold. reflexivity.
  - intros Hr. unfold tt', store. fold (tt_slot tt key). fold slot.
    destruct (should_replace slot (age_ tt) depth_new bound_new) eqn:E; [|reflexivity].
    exfalso. apply Hr, Hspec. reflexivity.
Qed.



Lemma tt_sample_ok : tt_ok tt_sample.
Proof. apply tt_ok_store, tt_ok_resize. Qed.

Lemma store_replacement_rule_witness :
  best_move (tt_slot (store tt_sample 5 4 20 Exact kNullMove 0) 5)
  = mkMove 12 28 Normal PtNone.
Proof.
  pose proof (store_replacement_rule tt_sample 5 4 20 Exact kNullMove 0 tt_sample_ok) as [H _].
  destruct H as [_ H].
  - right. right. left. vm_compute. discriminate.
  - rewrite H; reflexivity.
Defined.

(** C10.  [store] changes at most the entry at [index key]: every other
    entry, the entry count, the mask and the age counter are unchanged, and a
    write the replacement rule rejects leaves the whole table unchanged. *)
Theorem store_frame (tt : TranspositionTable) (key depth_new score_new : Z)
    (bound_new : Bound) (best_move_new : Move) (static_eval_new : Z) :
  tt_ok tt ->
  let tt' := store tt key depth_new score_new bound_new best_move_new static_eval_new in
  (forall j : nat, j <> Z.to_nat (index tt key) -> table_ tt' !! j = table_ tt !! j)
  /\ entry_count tt' = entry_count tt
  /\ mask_ tt' = mask_ tt
  /\ age_ tt' = age_ tt
  /\ (should_replace (tt_slot tt key) (age_ tt) depth_new bound_new = false -> tt' = tt).
Proof.
  intros Hok tt'. unfold tt', store, entry_count. fold (tt_slot tt key).
  destruct (should_replace (tt_slot tt key) (age_ tt) depth_new bound_new);
    cbn [negb table_ mask_ age_].
  - repeat split; try discriminate.
    + intros j Hj. apply list_lookup_insert_ne. congruence.
    + rewrite length_insert. reflexivity.
  - repeat split; reflexivity.
Qed.

Lemma store_frame_witness :
  table_ (store tt_sample 5 4 20 Exact kNullMove 0) !! 6%nat = table_ tt_sample !! 6%nat
  /\ store tt_sample 5 2 20 Upper kNullMove 0 = tt_sample.
Proof.
  pose proof (store_frame tt_sample 5 4 20 Exact kNullMove 0 tt_sample_ok) as [H1 _].
  pose proof (store_frame tt_sample 5 2 20 Upper kNullMove 0 tt_sample_ok) as (_ & _ & _ & _ & H2).
  split.
  - apply H1. vm_compute. discriminate.
  - apply H2. vm_compute. reflexivity.
Defined.


(** * Transposition table: lookups, sizes and fill rate *)

Lemma i16_id (z : Z) : - 2 ^ 15 <= z < 2 ^ 15 -> i16 z = z.
Proof. intros H. unfold i16. rewrite Z.mod_small by lia. lia. Qed.

(** X1.  A store that the replacement rule accepts is found by the next
    probe of the same key, unless it was stored with the bound [None]: then
    the slot counts as empty and the probe misses.  The entry found carries
    the tag of the key, the new bound and the current age; its score, static
    evaluation and depth are the stored values whenever these fit 16 signed
    bits and 8 unsigned bits. *)
Theorem probe_after_store (tt : TranspositionTable) (key depth_new score_new : Z)
    (bound_new : Bound) (best_move_new : Move) (static_eval_new : Z) :
  tt_ok tt ->
  (bound (tt_slot tt key) = BoundNone \/ age (tt_slot tt key) <> age_ tt
   \/ depth_new >= depth (tt_slot tt key)
   \/ (bound_new = Exact /\ bound (tt_slot tt key) <> Exact)) ->
  let tt' := store tt key depth_new score_new bound_new best_move_new static_eval_new in
  (bound_new = BoundNone -> probe tt' key = None)
  /\ (bound_new <> BoundNone ->
      exists e : TTEntry,
        probe tt' key = Some e
        /\ key32 e = key_upper key /\ bound e = bound_new /\ age e = age_ tt
        /\ (- 2 ^ 15 <= score_new < 2 ^ 15 -> score e = score_new)
        /\ (- 2 ^ 15 <= static_eval_new < 2 ^ 15 -> static_eval e = static_eval_new)
        /\ (0 <= depth_new < 256 -> depth e = depth_new)
        /\ (is_null best_move_new = false -> best_move e = best_move_new)).
Proof.
  intros Hok Hrule tt'.
  pose proof (index_in_range tt key Hok) as Hidx.
  apply should_replace_spec in Hrule.
  assert (Hslot : table_ tt' !!! Z.to_nat (index tt' key)
                  = mkTTEntry (key_upper key) (i16 score_new) (i16 static_eval_new)
                      (written_move (tt_slot tt key) key best_move_new) (u8 depth_new)
                      bound_new (age_ tt)).
  { unfold tt', store, index. fold (index tt key). fold (tt_slot tt key).
    rewrite Hrule. cbn [negb table_ mask_]. fold (index tt key).
    rewrite list_lookup_total_insert.
    destruct (decide _) as [_|Hn]; [reflexivity|].
    exfalso. apply Hn. split; [reflexivity | exact Hidx]. }
  unfold probe. rewrite Hslot. cbn [bound key32]. split.
  - intros ->. reflexivity.
  - intros Hb. rewrite (bool_decide_eq_true_2 _ Hb), Z.eqb_refl. cbn [andb].
    eexists. split; [reflexivity|]. cbn [key32 bound age score static_eval depth best_move].
    split_all; try reflexivity.
    + apply i16_id.
    + apply i16_id.
    + intros Hd. unfold u8. apply Z.mod_small. lia.
    + intros Hn. unfold written_move. rewrite Hn, andb_false_r. reflexivity.
Qed.

Lemma probe_after_store_witness :
  exists e : TTEntry,
    probe (store (resize 1) 5 3 10 Lower (mkMove 12 28 Normal PtNone) 7) 5 = Some e
    /\ key32 e = key_upper 5 /\ bound e = Lower /\ age e = age_ (resize 1)
    /\ (- 2 ^ 15 <= 10 < 2 ^ 15 -> score e = 10)
    /\ (- 2 ^ 15 <= 7 < 2 ^ 15 -> static_eval e = 7)
    /\ (0 <= 3 < 256 -> depth e = 3)
    /\ (is_null (mkMove 12 28 Normal PtNone) = false
        -> best_move e = mkMove 12 28 Normal PtNone).
Proof.
  refine (proj2 (probe_after_store (resize 1) 5 3 10 Lower (mkMove 12 28 Normal PtNone) 7
                   (tt_ok_resize 1) _) _).
  - left. vm_compute. reflexivity.
  - discriminate.
Defined.

(** X2.  Every probe of a table that was just sized or cleared misses;
    [clear] keeps the number of entries and the mask and sets the age back
    to 0. *)
Theorem probe_fresh_table_misses (tt : TranspositionTable) (mb key : Z) :
  probe (resize mb) key = None
  /\ probe (clear tt) key = None
  /\ entry_count (clear tt) = entry_count tt
  /\ mask_ (clear tt) = mask_ tt
  /\ age_ (clear tt) = 0.
Proof.
  assert (Hrep : forall (n i : nat), replicate n empty_entry !!! i = empty_entry).
  { intros n i. destruct (decide (i < n)%nat) as [H|H].
    - apply lookup_total_replicate_2. exact H.
    - rewrite list_lookup_total_alt, lookup_ge_None_2 by (rewrite length_replicate; lia).
      reflexivity. }
  split_all.
  - unfold probe, resize. cbn [table_]. rewrite Hrep. reflexivity.
  - unfold probe, clear. cbn [table_]. rewrite Hrep. reflexivity.
  - unfold entry_count, clear. cbn [table_]. rewrite length_replicate. reflexivity.
  - reflexivity.
  - reflexivity.
Qed.

(** X3.  [new_search] advances the age modulo 256 and touches no entry, so
    every probe answers as before; an entry written under the age before is
    replaced by the next store to its slot, whatever its depth. *)
Theorem new_search_ages_entries (tt : TranspositionTable) (key depth_new score_new : Z)
    (bound_new : Bound) (best_move_new : Move) (static_eval_new : Z) :
  tt_ok tt -> 0 <= age_ tt < 256 -> age (tt_slot tt key) = age_ tt ->
  age_ (new_search tt) = (age_ tt + 1) mod 256
  /\ (forall k, probe (new_search tt) k = probe tt k)
  /\ tt_slot (store (new_search tt) key depth_new score_new bound_new best_move_new
                static_eval_new) key
     = mkTTEntry (key_upper key) (i16 score_new) (i16 static_eval_new)
         (written_move (tt_slot tt key) key best_move_new) (u8 depth_new) bound_new
         ((age_ tt + 1) mod 256).
Proof.
  intros Hok Hage Hslot. split; [reflexivity|]. split; [reflexivity|].
  pose proof (index_in_range tt key Hok) as Hidx.
  assert (Hnew : u8 (age_ tt + 1) = (age_ tt + 1) mod 256) by reflexivity.
  assert (Hrule : should_replace (tt_slot tt key) (u8 (age_ tt + 1)) depth_new bound_new = true).
  { apply should_replace_spec. right. left. rewrite Hslot, Hnew.
    destruct (Z.eq_dec (age_ tt) 255) as [->|Hne]; [vm_compute; discriminate|].
    rewrite Z.mod_small by lia. lia. }
  unfold tt_slot at 1. unfold store, index, new_search. cbn [table_ mask_ age_].
  fold (index tt key). fold (tt_slot tt key). rewrite Hrule. cbn [negb table_ mask_].
  fold (index tt key). rewrite list_lookup_total_insert.
  destruct (decide _) as [_|Hn]; [reflexivity|].
  exfalso. apply Hn. split; [reflexivity | exact Hidx].
Qed.

Lemma new_search_ages_entries_witness :
  age_ (new_search tt_sample) = (age_ tt_sample + 1) mod 256
  /\ (forall k, probe (new_search tt_sample) k = probe tt_sample k)
  /\ tt_slot (store (new_search tt_sample) 5 1 0 Upper kNullMove 0) 5
     = mkTTEntry (key_upper 5) (i16 0) (i16 0)
         (written_move (tt_slot tt_sample 5) 5 kNullMove) (u8 1) Upper
         ((age_ tt_sample + 1) mod 256).
Proof.
  refine (new_search_ages_entries tt_sample 5 1 0 Upper kNullMove 0 tt_sample_ok _ _).
  - vm_compute. split; [discriminate | reflexivity].
  - vm_compute. reflexivity.
Defined.

(** ** Fill rate *)

Lemma used_count_bounds (cur_age : Z) (l : list TTEntry) (used : Z) :
  0 <= used -> used + Z.of_nat (length l) <= kIntMax ->
  used
  <= fold_left (fun used e =>
                  if bool_decide (bound e <> BoundNone) && (age e =? cur_age)
                  then wrap_int (used + 1) else used) l used
  <= used + Z.of_nat (length l).
Proof.
  revert used. induction l as [|e l IH]; intros used H0 Hmax; cbn [fold_left length] in *.
  - lia.
  - destruct (bool_decide (bound e <> BoundNone) && (age e =? cur_age)).
    + rewrite wrap_int_id by (unfold in_int, kIntMin, kIntMax in *; lia).
      specialize (IH (used + 1) ltac:(lia) ltac:(lia)). lia.
    + specialize (IH used H0 ltac:(lia)). lia.
Qed.

Lemma used_count_empty (cur_age : Z) (n : nat) :
  fold_left (fun used e =>
               if bool_decide (bound e <> BoundNone) && (age e =? cur_age)
               then wrap_int (used + 1) else used) (replicate n empty_entry) 0 = 0.
Proof. induction n as [|n IH]; [reflexivity | exact IH]. Qed.

(** X4.  [hashfull] is a per-mille value: it lies between 0 and 1000 for
    every table, and it is 0 on a table that was just sized or cleared. *)
Theorem hashfull_per_mille (tt : TranspositionTable) (mb : Z) :
  0 <= hashfull tt <= 1000
  /\ hashfull (clear tt) = 0
  /\ hashfull (resize mb) = 0.
Proof.
  split; [|split].
  - unfold hashfull. case_bool_decide as Hnil; [lia|]. cbv zeta.
    assert (Hlen : (0 < length (table_ tt))%nat).
    { destruct (table_ tt); [congruence | cbn; lia]. }
    set (n := Z.min (entry_count tt) 1000).
    assert (Hn : 1 <= n <= 1000) by (unfold n, entry_count; lia).
    assert (Htake : Z.of_nat (length (take (Z.to_nat n) (table_ tt))) = n).
    { rewrite length_take. unfold n, entry_count in *. lia. }
    pose proof (used_count_bounds (age_ tt) (take (Z.to_nat n) (table_ tt)) 0 ltac:(lia)
                  ltac:(rewrite Htake; unfold kIntMax; lia)) as Hu.
    rewrite Htake in Hu.
    split.
    + apply Z.div_pos; lia.
    + apply Z.div_le_upper_bound; nia.
  - unfold hashfull, clear. cbn [table_ age_]. case_bool_decide; [reflexivity|]. cbv zeta.
    rewrite take_replicate, used_count_empty. apply Z.div_0_l.
    unfold entry_count. cbn [table_]. rewrite length_replicate.
    destruct (table_ tt); [exfalso; auto | cbn [length]]. lia.
  - unfold hashfull, resize. cbn [table_ age_]. case_bool_decide; [reflexivity|]. cbv zeta.
    rewrite take_replicate, used_count_empty. apply Z.div_0_l.
    unfold entry_count. cbn [table_]. rewrite length_replicate. lia.
Qed.

(** ** The size of the table *)

Lemma smear_step (L w x : Z) :
  0 < w ->
  (forall i, L < i -> Z.testbit x i = false) ->
  (forall i, 0 <= i -> L - w < i <= L -> Z.testbit x i = true) ->
  (forall i, L < i -> Z.testbit (Z.lor x (Z.shiftr x w)) i = false)
  /\ (forall i, 0 <= i -> L - 2 * w < i <= L -> Z.testbit (Z.lor x (Z.shiftr x w)) i = true).
Proof.
  intros Hw Hhi Hrun. split.
  - intros i Hi. destruct (Z.lt_ge_cases i 0) as [Hneg|Hpos].
    + apply Z.testbit_neg_r. exact Hneg.
    + rewrite Z.lor_spec, Z.shiftr_spec by lia. rewrite !Hhi by lia. reflexivity.
  - intros i Hi Hr. rewrite Z.lor_spec, Z.shiftr_spec by lia.
    destruct (Z.lt_ge_cases (L - w) i) as [Hnear|Hfar].
    + rewrite (Hrun i) by lia. reflexivity.
    + rewrite (Hrun (i + w)) by lia. apply orb_true_r.
Qed.

Lemma round_down_pow2_spec (v : Z) :
  0 < v < 2 ^ 64 -> round_down_pow2 v = 2 ^ Z.log2 v.
Proof.
  intros Hv. unfold round_down_pow2.
  replace (v =? 0) with false by (symmetry; apply Z.eqb_neq; lia). cbv zeta.
  set (L := Z.log2 v).
  assert (HL : 0 <= L < 64).
  { split; [apply Z.log2_nonneg|]. apply Z.log2_lt_pow2; lia. }
  assert (H1 : (forall i, L < i -> Z.testbit v i = false)
               /\ (forall i, 0 <= i -> L - 1 < i <= L -> Z.testbit v i = true)).
  { split.
    - intros i Hi. apply Z.bits_above_log2; lia.
    - intros i Hi Hr. replace i with L by lia. apply Z.bit_log2. lia. }
  destruct H1 as [A1 B1].
  destruct (smear_step L 1 _ ltac:(lia) A1 B1) as [A2 B2].
  destruct (smear_step L 2 _ ltac:(lia) A2 B2) as [A3 B3].
  destruct (smear_step L 4 _ ltac:(lia) A3 B3) as [A4 B4].
  destruct (smear_step L 8 _ ltac:(lia) A4 B4) as [A5 B5].
  destruct (smear_step L 16 _ ltac:(lia) A5 B5) as [A6 B6].
  destruct (smear_step L 32 _ ltac:(lia) A6 B6) as [A7 B7].
  match goal with |- u64 (Z.shiftr ?x 1 + 1) = _ => set (s := x) in * end.
  assert (Hs : s = Z.ones (L + 1)).
  { apply Z.bits_inj'. intros i Hi. rewrite Z.testbit_ones_nonneg by lia.
    destruct (Z.ltb_spec i (L + 1)) as [Hlt|Hge].
    - apply B7; lia.
    - apply A7; lia. }
  rewrite Hs, Z.ones_equiv, Z.shiftr_div_pow2 by lia.
  replace (Z.pred (2 ^ (L + 1))) with (1 + (2 ^ L - 1) * 2 ^ 1)
    by (rewrite Z.pow_add_r by lia; lia).
  rewrite Z.div_add by lia. change (1 / 2 ^ 1) with 0.
  assert (0 < 2 ^ L) by (apply Z.pow_pos_nonneg; lia).
  assert (2 ^ L < 2 ^ 64) by (apply Z.pow_lt_mono_r; lia).
  unfold u64. rewrite Z.mod_small by lia. lia.
Qed.

(** X5.  [round_down_pow2] gives the largest power of two that does not
    exceed its argument (and 1 for 0).  So [resize] always builds a table
    whose number of entries is a power of two, at least 1024, with the mask
    one less than it and the age 0; for a size of 1 MB up to 2^44 MB the
    number of entries is [2 ^ (log2 mb + 16)], and a size of 0 MB is taken
    as 1 MB. *)
Theorem resize_power_of_two (mb : Z) :
  0 <= mb < 2 ^ 64 ->
  (forall v, 0 < v < 2 ^ 64 ->
     round_down_pow2 v = 2 ^ Z.log2 v /\ round_down_pow2 v <= v < 2 * round_down_pow2 v)
  /\ (exists k, 10 <= k < 64 /\ entry_count (resize mb) = 2 ^ k
                /\ mask_ (resize mb) = 2 ^ k - 1)
  /\ age_ (resize mb) = 0
  /\ (1 <= mb < 2 ^ 44 -> entry_count (resize mb) = 2 ^ (Z.log2 mb + 16))
  /\ resize 0 = resize 1.
Proof.
  intros Hmb. split; [|split; [|split; [|split]]].
  - intros v Hv. rewrite (round_down_pow2_spec v Hv). split; [reflexivity|].
    pose proof (Z.log2_spec v ltac:(lia)) as Hl. rewrite Z.pow_succ_r in Hl by apply Z.log2_nonneg.
    lia.
  - unfold resize, entry_count. cbv zeta. cbn [table_ mask_]. rewrite length_replicate.
    set (bytes := u64 (u64 ((if mb =? 0 then 1 else mb) * 1024) * 1024)).
    assert (Hb : 0 <= bytes < 2 ^ 64) by (apply Z.mod_pos_bound; lia).
    assert (Hn : 0 <= bytes / kEntrySize < 2 ^ 64).
    { unfold kEntrySize. split; [apply Z.div_pos; lia|].
      apply Z.div_lt_upper_bound; lia. }
    destruct (Z.eq_dec (bytes / kEntrySize) 0) as [E|E].
    + rewrite E. exists 10. change (Z.max (round_down_pow2 0) 1024) with (2 ^ 10).
      split; [lia|]. split; [lia | reflexivity].
    + rewrite round_down_pow2_spec by lia.
      set (L := Z.log2 (bytes / kEntrySize)).
      assert (HL : 0 <= L < 64).
      { split; [apply Z.log2_nonneg|]. apply Z.log2_lt_pow2; lia. }
      exists (Z.max L 10).
      assert (Hmax : Z.max (2 ^ L) 1024 = 2 ^ Z.max L 10).
      { destruct (Z.le_gt_cases L 10) as [Hle|Hgt].
        - rewrite (Z.max_r L 10) by lia. apply Z.max_r.
          change 1024 with (2 ^ 10). apply Z.pow_le_mono_r; lia.
        - rewrite (Z.max_l L 10) by lia. apply Z.max_l.
          change 1024 with (2 ^ 10). apply Z.pow_le_mono_r; lia. }
      rewrite Hmax.
      assert (0 < 2 ^ Z.max L 10) by (apply Z.pow_pos_nonneg; lia).
      split; [lia|]. split; [lia | reflexivity].
  - reflexivity.
  - intros Hr. unfold resize, entry_count. cbv zeta. cbn [table_]. rewrite length_replicate.
    replace (mb =? 0) with false by (symmetry; apply Z.eqb_neq; lia).
    assert (Hp : 2 ^ 44 * 1024 * 1024 = 2 ^ 64) by reflexivity.
    unfold u64. rewrite (Z.mod_small (mb * 1024)) by lia.
    rewrite (Z.mod_small (mb * 1024 * 1024)) by lia.
    unfold kEntrySize. replace (mb * 1024 * 1024 / 16) with (mb * 2 ^ 16).
    2:{ apply Z.div_unique_exact; lia. }
    assert (Hpos : 0 < mb * 2 ^ 16 < 2 ^ 64) by lia.
    pose proof (round_down_pow2_spec (mb * 2 ^ 16) Hpos) as Hrd. unfold u64 in Hrd.
    rewrite Hrd, Z.log2_mul_pow2 by lia.
    assert (0 <= Z.log2 mb) by apply Z.log2_nonneg.
    assert (2 ^ 10 <= 2 ^ (16 + Z.log2 mb)) by (apply Z.pow_le_mono_r; lia).
    rewrite Z.max_l by (change 1024 with (2 ^ 10); exact H0).
    rewrite Z.add_comm. assert (0 < 2 ^ (16 + Z.log2 mb)) by (apply Z.pow_pos_nonneg; lia).
    rewrite (Z.add_comm (Z.log2 mb)). lia.
  - reflexivity.
Qed.

Lemma resize_power_of_two_witness :
  (forall v, 0 < v < 2 ^ 64 ->
     round_down_pow2 v = 2 ^ Z.log2 v /\ round_down_pow2 v <= v < 2 * round_down_pow2 v)
  /\ (exists k, 10 <= k < 64 /\ entry_count (resize 3) = 2 ^ k
                /\ mask_ (resize 3) = 2 ^ k - 1)
  /\ age_ (resize 3) = 0
  /\ (1 <= 3 < 2 ^ 44 -> entry_count (resize 3) = 2 ^ (Z.log2 3 + 16))
  /\ resize 0 = resize 1.
Proof. refine (resize_power_of_two 3 _). lia. Defined.


(** * Bitboards *)

Lemma test_bit_spec (b sq : Z) : 0 <= sq -> test_bit b sq = Z.testbit b sq.
Proof.
  intros Hsq. unfold test_bit.
  replace (Z.testbit b sq) with (Z.testbit (Z.shiftr b sq) 0)
    by (rewrite Z.shiftr_spec by lia; f_equal; lia).
  set (x := Z.shiftr b sq). rewrite Z.bit0_odd.
  change 1 with (Z.ones 1). rewrite Z.land_ones by lia. change (2 ^ 1) with 2.
  rewrite Zmod_odd. destruct (Z.odd x); reflexivity.
Qed.

Lemma all_squares_forallb (f : Z -> bool) (sq : Z) :
  forallb f all_squares = true -> valid_sq sq -> f sq = true.
Proof.
  intros H Hsq. rewrite forallb_forall in H. apply H, in_all_squares, Hsq.
Qed.

Lemma knight_table :
  forallb (fun sq => forallb (fun t =>
      Bool.eqb (test_bit (knight_attacks sq) t) (bool_decide (knight_step sq t)))
    all_squares && in_range_b (knight_attacks sq)) all_squares = true.
Proof. vm_compute. reflexivity. Qed.

Lemma king_table :
  forallb (fun sq => forallb (fun t =>
      Bool.eqb (test_bit (king_attacks sq) t) (bool_decide (king_step sq t)))
    all_squares && in_range_b (king_attacks sq)) all_squares = true.
Proof. vm_compute. reflexivity. Qed.

Lemma pawn_table (c : Color) :
  forallb (fun sq => forallb (fun t =>
      Bool.eqb (test_bit (pawn_attacks c sq) t) (bool_decide (pawn_step c sq t))
      && Bool.eqb (test_bit (pawn_attacks c sq) t) (test_bit (pawn_attacks (opposite c) t) sq))
    all_squares && in_range_b (pawn_attacks c sq)) all_squares = true.
Proof. destruct c; vm_compute; reflexivity. Qed.

(** X6.  The attack sets of the knight and the king are those of the
    board's geometry: from a square of the board, the knight's set holds
    exactly the squares one file and two ranks, or two files and one rank,
    away, and the king's set exactly the other squares at most one file and
    one rank away.  Nothing wraps around an edge and no bit lies outside the
    64 squares. *)
Theorem leaper_attack_sets (sq t : Square) :
  valid_sq sq -> valid_sq t ->
  (test_bit (knight_attacks sq) t = true <-> knight_step sq t)
  /\ (test_bit (king_attacks sq) t = true <-> king_step sq t)
  /\ bb_range (knight_attacks sq) /\ bb_range (king_attacks sq).
Proof.
  intros Hsq Ht.
  pose proof (all_squares_forallb _ sq knight_table Hsq) as Hn.
  pose proof (all_squares_forallb _ sq king_table Hsq) as Hk.
  cbv beta in Hn, Hk.
  apply andb_true_iff in Hn as [Hn Hnr]. apply andb_true_iff in Hk as [Hk Hkr].
  pose proof (all_squares_forallb _ t Hn Ht) as Hn'.
  pose proof (all_squares_forallb _ t Hk Ht) as Hk'.
  cbv beta in Hn', Hk'. apply eqb_prop in Hn', Hk'.
  rewrite Hn', Hk', !bool_decide_eq_true.
  split; [reflexivity|]. split; [reflexivity|].
  split; apply in_range_b_spec; assumption.
Qed.

Lemma leaper_attack_sets_witness :
  (test_bit (knight_attacks 0) 17 = true <-> knight_step 0 17)
  /\ (test_bit (king_attacks 0) 17 = true <-> king_step 0 17)
  /\ bb_range (knight_attacks 0) /\ bb_range (king_attacks 0).
Proof. apply (leaper_attack_sets 0 17); unfold valid_sq; lia. Defined.

(** X7.  A pawn of colour [c] attacks exactly the squares one rank forward
    and one file to either side, never across an edge; and a square [t] is
    attacked by a pawn of colour [c] on [sq] exactly when [sq] is in the
    attack set of a pawn of the other colour on [t], which is how
    [is_square_attacked] and the en-passant generator look for attacking
    pawns. *)
Theorem pawn_attack_sets (c : Color) (sq t : Square) :
  valid_sq sq -> valid_sq t ->
  (test_bit (pawn_attacks c sq) t = true <-> pawn_step c sq t)
  /\ test_bit (pawn_attacks c sq) t = test_bit (pawn_attacks (opposite c) t) sq
  /\ bb_range (pawn_attacks c sq).
Proof.
  intros Hsq Ht.
  pose proof (all_squares_forallb _ sq (pawn_table c) Hsq) as Hp. cbv beta in Hp.
  apply andb_true_iff in Hp as [Hp Hr].
  pose proof (all_squares_forallb _ t Hp Ht) as Hp'. cbv beta in Hp'.
  apply andb_true_iff in Hp' as [H1 H2]. apply eqb_prop in H1, H2.
  split; [rewrite H1; apply bool_decide_eq_true|].
  split; [exact H2 | apply in_range_b_spec; exact Hr].
Qed.

Lemma pawn_attack_sets_witness :
  (test_bit (pawn_attacks White 8) 17 = true <-> pawn_step White 8 17)
  /\ test_bit (pawn_attacks White 8) 17 = test_bit (pawn_attacks (opposite White) 17) 8
  /\ bb_range (pawn_attacks White 8).
Proof. apply (pawn_attack_sets White 8 17); unfold valid_sq; lia. Defined.

(** ** Shifts *)

Lemma file_rank_bounds (t : Z) :
  t = 8 * rank_of t + file_of t /\ 0 <= file_of t <= 7.
Proof.
  rewrite file_of_mod, rank_of_div.
  pose proof (Z.div_mod t 8 ltac:(lia)). pose proof (Z.mod_pos_bound t 8 ltac:(lia)). lia.
Qed.

Lemma file_mask_table :
  forallb (fun t =>
      Bool.eqb (Z.testbit (bb_not kFileA) t) (negb (file_of t =? 0))
      && Bool.eqb (Z.testbit (bb_not kFileH) t) (negb (file_of t =? 7))) all_squares = true.
Proof. vm_compute. reflexivity. Qed.

Lemma file_mask_bits (t : Z) :
  valid_sq t ->
  Z.testbit (bb_not kFileA) t = negb (file_of t =? 0)
  /\ Z.testbit (bb_not kFileH) t = negb (file_of t =? 7).
Proof.
  intros Ht. pose proof (all_squares_forallb _ t file_mask_table Ht) as H. cbv beta in H.
  apply andb_true_iff in H as [H1 H2]. apply eqb_prop in H1, H2. auto.
Qed.

Lemma shift_bits (b t d df dr : Z) (m : bool) :
  bb_range b -> valid_sq t -> d = 8 * dr + df ->
  (m = true <-> 0 <= file_of t - df <= 7) ->
  (Z.testbit b (t - d) && m = true
   <-> exists s, valid_sq s /\ test_bit b s = true /\ step_from df dr s t).
Proof.
  intros Hb Ht Hd Hm. rewrite andb_true_iff, Hm. unfold step_from. split.
  - intros [Hbit Hf]. exists (t - d).
    assert (Hs : valid_sq (t - d)).
    { split; [apply (testbit_true_nonneg b), Hbit|].
      destruct (Z.lt_ge_cases (t - d) 64) as [|Hge]; [assumption|].
      rewrite (testbit_high b) in Hbit by assumption. discriminate. }
    split; [exact Hs|]. unfold valid_sq in Hs.
    rewrite test_bit_spec by lia. split; [exact Hbit|].
    pose proof (file_rank_bounds t). pose proof (file_rank_bounds (t - d)). lia.
  - intros (s & Hs & Hbit & Hfile & Hrank). unfold valid_sq in Hs.
    rewrite test_bit_spec in Hbit by lia.
    pose proof (file_rank_bounds t). pose proof (file_rank_bounds s).
    replace (t - d) with s by lia. split; [exact Hbit | lia].
Qed.

(** X8.  Each of the eight shift helpers moves every bit of a board one
    step in its direction and drops the bits that would leave the board: a
    square [t] is set in the result exactly when the square one step back
    from [t] is on the board and set in the argument.  No bit wraps around
    from file h to file a or back, and none leaves the 64 squares. *)
Theorem shift_moves_one_step (sh : Bitboard -> Bitboard) (df dr : Z) (b : Bitboard)
    (t : Square) :
  In (sh, df, dr) shift_table -> bb_range b -> valid_sq t ->
  bb_range (sh b)
  /\ (test_bit (sh b) t = true
      <-> exists s, valid_sq s /\ test_bit b s = true /\ step_from df dr s t).
Proof.
  intros Hin Hb Ht.
  destruct (file_mask_bits t Ht) as [HA HH].
  pose proof (file_rank_bounds t) as [_ Hf].
  assert (Ht64 : (t <? 64) = true) by (apply Z.ltb_lt; apply Ht).
  assert (Ht0 : 0 <= t) by apply Ht.
  rewrite test_bit_spec by exact Ht0.
  cbn [In shift_table] in Hin.
  repeat (destruct Hin as [Hin|Hin]; [injection Hin as <- <- <-|]); [..|contradiction].
  - split; [apply bb_range_shl64|]. unfold shift_north.
    rewrite testbit_shl64, Ht64, andb_true_l, <- (andb_true_r (Z.testbit b (t - 8))) by lia.
    apply shift_bits; [assumption..|lia|]. split; [lia | reflexivity].
  - split; [apply bb_range_shr64; [lia | assumption]|]. unfold shift_south.
    rewrite testbit_shr64, <- (andb_true_r (Z.testbit b (t + 8))) by lia.
    replace (t + 8) with (t - (-8)) by lia.
    apply shift_bits; [assumption..|lia|]. split; [lia | reflexivity].
  - split; [apply bb_range_land_l, bb_range_shl64|]. unfold shift_east.
    rewrite Z.land_spec, testbit_shl64, Ht64, andb_true_l, HA by lia.
    apply shift_bits; [assumption..|lia|].
    rewrite negb_true_iff, Z.eqb_neq. lia.
  - split; [apply bb_range_land_l, bb_range_shr64; [lia | assumption]|]. unfold shift_west.
    rewrite Z.land_spec, testbit_shr64, HH by lia.
    replace (t + 1) with (t - (-1)) by lia.
    apply shift_bits; [assumption..|lia|].
    rewrite negb_true_iff, Z.eqb_neq. lia.
  - split; [apply bb_range_land_l, bb_range_shl64|]. unfold shift_ne.
    rewrite Z.land_spec, testbit_shl64, Ht64, andb_true_l, HA by lia.
    apply shift_bits; [assumption..|lia|].
    rewrite negb_true_iff, Z.eqb_neq. lia.
  - split; [apply bb_range_land_l, bb_range_shl64|]. unfold shift_nw.
    rewrite Z.land_spec, testbit_shl64, Ht64, andb_true_l, HH by lia.
    apply shift_bits; [assumption..|lia|].
    rewrite negb_true_iff, Z.eqb_neq. lia.
  - split; [apply bb_range_land_l, bb_range_shr64; [lia | assumption]|]. unfold shift_se.
    rewrite Z.land_spec, testbit_shr64, HA by lia.
    replace (t + 7) with (t - (-7)) by lia.
    apply shift_bits; [assumption..|lia|].
    rewrite negb_true_iff, Z.eqb_neq. lia.
  - split; [apply bb_range_land_l, bb_range_shr64; [lia | assumption]|]. unfold shift_sw.
    rewrite Z.land_spec, testbit_shr64, HH by lia.
    replace (t + 9) with (t - (-9)) by lia.
    apply shift_bits; [assumption..|lia|].
    rewrite negb_true_iff, Z.eqb_neq. lia.
Qed.

Lemma shift_moves_one_step_witness :
  bb_range (shift_east kFileH)
  /\ (test_bit (shift_east kFileH) 0 = true
      <-> exists s, valid_sq s /\ test_bit kFileH s = true /\ step_from 1 0 s 0).
Proof.
  apply (shift_moves_one_step shift_east 1 0 kFileH 0).
  - cbn. tauto.
  - vm_compute. split; [discriminate | reflexivity].
  - unfold valid_sq. lia.
Defined.

(** ** Counting and scanning bits *)

Lemma popcount_nonneg (b : Z) : 0 <= popcount b.
Proof.
  destruct b as [|p|p]; cbn; try lia.
  induction p; cbn [pos_popcount]; lia.
Qed.

Lemma popcount_pos (p : positive) : 1 <= pos_popcount p.
Proof. induction p; cbn [pos_popcount]; lia. Qed.

Lemma popcount_double (x : Z) : 0 <= x -> popcount (2 * x) = popcount x.
Proof. intros Hx. destruct x as [|p|p]; [reflexivity | reflexivity | lia]. Qed.

Lemma land_even_odd (a b : Z) : Z.land (2 * a) (2 * b + 1) = 2 * Z.land a b.
Proof.
  apply Z.bits_inj'. intros i Hi. rewrite Z.land_spec.
  destruct (Z.eq_dec i 0) as [->|Hne].
  - rewrite !Z.testbit_even_0. reflexivity.
  - replace i with (Z.succ (i - 1)) by lia.
    rewrite Z.testbit_odd_succ, !Z.testbit_even_succ, Z.land_spec by lia. reflexivity.
Qed.

Lemma land_odd_even (a : Z) : Z.land (2 * a + 1) (2 * a) = 2 * a.
Proof.
  apply Z.bits_inj'. intros i Hi. rewrite Z.land_spec.
  destruct (Z.eq_dec i 0) as [->|Hne].
  - rewrite Z.testbit_odd_0, Z.testbit_even_0. reflexivity.
  - replace i with (Z.succ (i - 1)) by lia.
    rewrite Z.testbit_odd_succ, !Z.testbit_even_succ by lia. apply andb_diag.
Qed.

Lemma pos_popcount_pop (p : positive) :
  popcount (Z.land (Zpos p) (Zpos p - 1)) = pos_popcount p - 1.
Proof.
  induction p as [q IH|q IH|]; cbn [pos_popcount].
  - replace (Zpos q~1 - 1) with (2 * Zpos q) by lia.
    rewrite Pos2Z.inj_xI, land_odd_even. rewrite popcount_double by lia. cbn. lia.
  - replace (Zpos q~0 - 1) with (2 * (Zpos q - 1) + 1) by lia.
    rewrite Pos2Z.inj_xO, land_even_odd, popcount_double, IH; [reflexivity|].
    apply Z.land_nonneg. left. lia.
  - reflexivity.
Qed.

Lemma popcount_pop (b : Z) :
  bb_range b -> b <> 0 -> popcount (snd (pop_lsb b)) = popcount b - 1.
Proof.
  intros Hb Hne. unfold pop_lsb. cbn [snd].
  rewrite u64_id by (unfold bb_range in *; lia).
  destruct b as [|p|p]; [congruence| |unfold bb_range in Hb; lia].
  apply pos_popcount_pop.
Qed.

Lemma pop_loop_sorted (n : nat) :
  forall (b lo : Z),
  bb_range b -> (forall i, 0 <= i < lo -> Z.testbit b i = false) ->
  Forall (fun s => lo <= s) (pop_loop n b) /\ StronglySorted Z.lt (pop_loop n b).
Proof.
  induction n as [|n IH]; intros b lo Hb Hlow; cbn [pop_loop].
  - split; constructor.
  - destruct (Z.eqb_spec b 0) as [->|Hne]; [split; constructor|].
    change (Forall (fun s => lo <= s) (lsb b :: pop_loop n (snd (pop_lsb b)))
            /\ StronglySorted Z.lt (lsb b :: pop_loop n (snd (pop_lsb b)))).
    pose proof (lsb_valid b Hb Hne) as Hv. pose proof (lsb_set b Hb Hne) as Hs.
    assert (Hlo : lo <= lsb b).
    { destruct (Z.le_gt_cases lo (lsb b)) as [|Hgt]; [assumption|].
      rewrite Hlow in Hs by (unfold valid_sq in Hv; lia). discriminate. }
    destruct (IH (snd (pop_lsb b)) (lsb b + 1)) as [Hall Hsorted].
    + apply bb_range_pop, Hb.
    + intros i Hi. rewrite testbit_pop by first [assumption | lia].
      destruct (Z.eqb_spec i (lsb b)) as [->|Hd]; [apply andb_false_r|].
      rewrite andb_true_r. apply lsb_low; first [assumption | lia].
    + split.
      * constructor; [exact Hlo|]. eapply Forall_impl; [exact Hall|].
        cbv beta. intros s Hs'. lia.
      * constructor; [exact Hsorted|]. eapply Forall_impl; [exact Hall|].
        cbv beta. intros s Hs'. lia.
Qed.

Lemma pop_loop_length (n : nat) :
  forall b : Z,
  bb_range b -> (forall i, 0 <= i < 64 - Z.of_nat n -> Z.testbit b i = false) ->
  Z.of_nat (length (pop_loop n b)) = popcount b.
Proof.
  induction n as [|n IH]; intros b Hb Hlow.
  - assert (b = 0) as -> by (apply bits_zero; [assumption | intros; apply Hlow; lia]).
    reflexivity.
  - cbn [pop_loop]. destruct (Z.eqb_spec b 0) as [->|Hne]; [reflexivity|].
    change (Z.of_nat (length (lsb b :: pop_loop n (snd (pop_lsb b)))) = popcount b).
    pose proof (lsb_valid b Hb Hne) as Hv. pose proof (lsb_set b Hb Hne) as Hs.
    cbn [length]. rewrite Nat2Z.inj_succ, IH.
    + rewrite popcount_pop by assumption. lia.
    + apply bb_range_pop, Hb.
    + intros i Hi. rewrite testbit_pop by first [assumption | lia].
      destruct (Z.eqb_spec i (lsb b)) as [->|Hd]; [apply andb_false_r|].
      rewrite andb_true_r.
      destruct (Z.lt_ge_cases i (lsb b)); [apply lsb_low; first [assumption | lia]|].
      assert (64 - Z.of_nat (S n) <= lsb b).
      { destruct (Z.lt_ge_cases (lsb b) (64 - Z.of_nat (S n))) as [Hc|]; [|assumption].
        rewrite Hlow in Hs by (unfold valid_sq in Hv; lia). discriminate. }
      lia.
Qed.

(** X9.  The loop [while (bb) { sq = pop_lsb(bb); ... }] visits exactly the
    set squares of a 64-bit board, each once and in increasing order, and
    the number of rounds is [popcount] of the board.  A single [pop_lsb]
    returns the lowest set square and clears that bit alone. *)
Theorem pop_lsb_scans_the_board (b : Bitboard) :
  bb_range b ->
  (forall sq, In sq (pop_squares b) <-> valid_sq sq /\ test_bit b sq = true)
  /\ StronglySorted Z.lt (pop_squares b)
  /\ Z.of_nat (length (pop_squares b)) = popcount b
  /\ (b <> 0 ->
      test_bit b (fst (pop_lsb b)) = true
      /\ (forall i, 0 <= i < fst (pop_lsb b) -> test_bit b i = false)
      /\ (forall i, 0 <= i ->
            test_bit (snd (pop_lsb b)) i = test_bit b i && negb (i =? fst (pop_lsb b)))
      /\ popcount (snd (pop_lsb b)) = popcount b - 1).
Proof.
  intros Hb. split; [|split; [|split]].
  - intros sq. rewrite pop_squares_bits by exact Hb. split.
    + intros [Hv Hbit]. split; [exact Hv|]. rewrite test_bit_spec by apply Hv. exact Hbit.
    + intros [Hv Hbit]. split; [exact Hv|]. rewrite test_bit_spec in Hbit by apply Hv.
      exact Hbit.
  - apply (pop_loop_sorted 64 b 0 Hb). intros i Hi. lia.
  - apply pop_loop_length; [exact Hb|]. intros i Hi. cbn in Hi. lia.
  - intros Hne. cbn [pop_lsb fst]. pose proof (lsb_valid b Hb Hne) as Hv.
    split; [|split; [|split]].
    + rewrite test_bit_spec by apply Hv. apply lsb_set; assumption.
    + intros i Hi. rewrite test_bit_spec by lia. apply lsb_low; assumption.
    + intros i Hi. rewrite !test_bit_spec by lia. apply testbit_pop; assumption.
    + apply popcount_pop; assumption.
Qed.

Lemma pop_lsb_scans_the_board_witness :
  (forall sq, In sq (pop_squares kRank1) <-> valid_sq sq /\ test_bit kRank1 sq = true)
  /\ StronglySorted Z.lt (pop_squares kRank1)
  /\ Z.of_nat (length (pop_squares kRank1)) = popcount kRank1
  /\ (kRank1 <> 0 ->
      test_bit kRank1 (fst (pop_lsb kRank1)) = true
      /\ (forall i, 0 <= i < fst (pop_lsb kRank1) -> test_bit kRank1 i = false)
      /\ (forall i, 0 <= i ->
            test_bit (snd (pop_lsb kRank1)) i
            = test_bit kRank1 i && negb (i =? fst (pop_lsb kRank1)))
      /\ popcount (snd (pop_lsb kRank1)) = popcount kRank1 - 1).
Proof.
  apply (pop_lsb_scans_the_board kRank1). vm_compute. split; [discriminate | reflexivity].
Defined.

Lemma msb_log2 (b : Z) : bb_range b -> b <> 0 -> msb b = Z.log2 b.
Proof.
  intros Hb Hne. destruct b as [|p|p]; [congruence| |unfold bb_range in Hb; lia].
  assert (Hl : Z.log2 (Zpos p) < 64) by (apply Z.log2_lt_pow2; unfold bb_range in Hb; lia).
  pose proof (Z.log2_nonneg (Zpos p)) as Hl0.
  assert (Hsize : Zpos (Pos.size p) = Z.log2 (Zpos p) + 1).
  { destruct p; cbn [Pos.size Z.log2]; lia. }
  unfold msb, countl_zero. rewrite Hsize.
  replace (63 - (64 - (Z.log2 (Zpos p) + 1))) with (Z.log2 (Zpos p)) by lia.
  apply u8_id. lia.
Qed.

Lemma popcount_zero (b : Z) : 0 <= b -> (popcount b = 0 <-> b = 0).
Proof.
  intros Hb. destruct b as [|p|p]; [tauto| |lia].
  cbn [popcount]. pose proof (popcount_pos p). split; [lia | discriminate].
Qed.

(** X10.  On a non-empty 64-bit board [lsb] and [msb] are the lowest and
    the highest set square, and [more_than_one] holds exactly when they
    differ, that is when at least two bits are set.  On the empty board
    [lsb] is 64, the value of [kNoSquare], [msb] is 255 and [more_than_one]
    is false. *)
Theorem lowest_and_highest_bit (b : Bitboard) :
  bb_range b ->
  (b = 0 -> lsb b = kNoSquare /\ msb b = 255 /\ more_than_one b = false)
  /\ (b <> 0 ->
      valid_sq (lsb b) /\ valid_sq (msb b)
      /\ test_bit b (lsb b) = true /\ test_bit b (msb b) = true
      /\ (forall i, valid_sq i -> test_bit b i = true -> lsb b <= i <= msb b)
      /\ (more_than_one b = true <-> lsb b < msb b)
      /\ (more_than_one b = true <-> 2 <= popcount b)).
Proof.
  intros Hb. split; [intros ->; repeat split|].
  intros Hne.
  pose proof (lsb_valid b Hb Hne) as Hlv. pose proof (lsb_set b Hb Hne) as Hls.
  assert (Hpos : 0 < b) by (unfold bb_range in Hb; lia).
  assert (Hm : msb b = Z.log2 b) by (apply msb_log2; assumption).
  assert (Hmv : valid_sq (msb b)).
  { rewrite Hm. split; [apply Z.log2_nonneg|]. apply Z.log2_lt_pow2; [lia | apply Hb]. }
  assert (Hms : Z.testbit b (msb b) = true) by (rewrite Hm; apply Z.bit_log2; lia).
  assert (Hbetween : forall i, valid_sq i -> Z.testbit b i = true -> lsb b <= i <= msb b).
  { intros i Hi Hbit. split.
    - destruct (Z.le_gt_cases (lsb b) i) as [|Hgt]; [assumption|].
      rewrite lsb_low in Hbit by (unfold valid_sq in Hi; first [assumption | lia]).
      discriminate.
    - destruct (Z.le_gt_cases i (msb b)) as [|Hgt]; [assumption|].
      rewrite Z.bits_above_log2 in Hbit by lia. discriminate. }
  assert (Hmore : more_than_one b = true <-> snd (pop_lsb b) <> 0).
  { unfold more_than_one, pop_lsb. cbn [snd]. rewrite negb_true_iff, Z.eqb_neq. tauto. }
  split; [exact Hlv|]. split; [exact Hmv|].
  split; [rewrite test_bit_spec by apply Hlv; exact Hls|].
  split; [rewrite test_bit_spec by apply Hmv; exact Hms|].
  split; [|split].
  - intros i Hi Hbit. rewrite test_bit_spec in Hbit by apply Hi. auto.
  - rewrite Hmore. split.
    + intros Hrest.
      assert (Hr : bb_range (snd (pop_lsb b))) by (apply bb_range_pop, Hb).
      assert (Hrpos : 0 < snd (pop_lsb b)) by (unfold bb_range in Hr; lia).
      pose proof (Z.bit_log2 _ Hrpos) as Hbit.
      pose proof (Z.log2_nonneg (snd (pop_lsb b))) as Hl0.
      assert (Hl : Z.log2 (snd (pop_lsb b)) < 64) by (apply Z.log2_lt_pow2; [lia | apply Hr]).
      rewrite testbit_pop in Hbit by assumption.
      apply andb_true_iff in Hbit as [Hbit Hd].
      rewrite negb_true_iff, Z.eqb_neq in Hd.
      pose proof (Hbetween _ (conj Hl0 Hl) Hbit). lia.
    + intros Hlt Hz.
      assert (Hbit : Z.testbit (snd (pop_lsb b)) (msb b) = true).
      { rewrite testbit_pop by (first [assumption | apply Hmv]).
        rewrite Hms. replace (msb b =? lsb b) with false; [reflexivity|].
        symmetry. apply Z.eqb_neq. lia. }
      rewrite Hz, Z.bits_0 in Hbit. discriminate.
  - rewrite Hmore.
    pose proof (popcount_pop b Hb Hne) as Hp.
    assert (Hr : bb_range (snd (pop_lsb b))) by (apply bb_range_pop, Hb).
    pose proof (popcount_zero (snd (pop_lsb b)) ltac:(apply Hr)) as Hz.
    pose proof (popcount_nonneg (snd (pop_lsb b))).
    split.
    + intros Hrest. assert (popcount (snd (pop_lsb b)) <> 0) by tauto. lia.
    + intros Hge Hzero. apply Hz in Hzero. lia.
Qed.

Lemma lowest_and_highest_bit_witness :
  (kRank8 = 0 -> lsb kRank8 = kNoSquare /\ msb kRank8 = 255 /\ more_than_one kRank8 = false)
  /\ (kRank8 <> 0 ->
      valid_sq (lsb kRank8) /\ valid_sq (msb kRank8)
      /\ test_bit kRank8 (lsb kRank8) = true /\ test_bit kRank8 (msb kRank8) = true
      /\ (forall i, valid_sq i -> test_bit kRank8 i = true -> lsb kRank8 <= i <= msb kRank8)
      /\ (more_than_one kRank8 = true <-> lsb kRank8 < msb kRank8)
      /\ (more_than_one kRank8 = true <-> 2 <= popcount kRank8)).
Proof.
  apply (lowest_and_highest_bit kRank8). vm_compute. split; [discriminate | reflexivity].
Defined.


(** * Texts of squares, pieces and moves *)

Lemma char_of_code_code (c : ascii) : char_of_code (char_code c) = c.
Proof. unfold char_of_code, char_code. rewrite Nat2Z.id. apply ascii_nat_embedding. Qed.

Lemma square_name_chars (f r : ascii) :
  square_chars f r -> square_name (square_of_chars f r) = String f (String r EmptyString).
Proof.
  unfold square_chars, square_of_chars, square_name.
  change (char_code "a") with 97. change (char_code "h") with 104.
  change (char_code "1") with 49. change (char_code "8") with 56.
  intros [Hf Hr]. rewrite make_square_eq by lia.
  rewrite file_of_mod, rank_of_div.
  set (v := (char_code r - 49) * 8 + (char_code f - 97)).
  pose proof (Z.div_mod v 8 ltac:(lia)) as Hdm.
  pose proof (Z.mod_pos_bound v 8 ltac:(lia)) as Hm.
  replace (97 + v mod 8) with (char_code f) by (unfold v in *; lia).
  replace (49 + v / 8) with (char_code r) by (unfold v in *; lia).
  rewrite !char_of_code_code. reflexivity.
Qed.

(** X11.  Square names go both ways: a square of the board is read back
    from its name, and a text that [parse_square] accepts is the name of the
    square it returns.  Every other text gives [kNoSquare], so the result is
    never an off-board square other than that. *)
Theorem square_name_round_trip (sq : Square) (s : string) :
  (valid_sq sq -> parse_square (square_name sq) = sq)
  /\ (parse_square s <> kNoSquare ->
      valid_sq (parse_square s) /\ square_name (parse_square s) = s)
  /\ (String.length s <> 2%nat -> parse_square s = kNoSquare).
Proof.
  split; [apply parse_square_name|]. split.
  - destruct s as [|f [|r [|x rest]]]; try (intros H; exfalso; apply H; reflexivity).
    destruct (square_chars_dec f r) as [Hc|Hc].
    + destruct (parse_square_chars f r Hc) as [-> Hv]. intros _.
      split; [exact Hv | apply square_name_chars, Hc].
    + rewrite parse_square_not_chars by exact Hc. congruence.
  - destruct s as [|f [|r [|x rest]]]; cbn [String.length]; try reflexivity. congruence.
Qed.

(** X12.  Piece letters go both ways: [from_fen_char] reads back every
    piece from the letter [fen_char] writes for it, and a character that
    [from_fen_char] accepts is the letter of the piece it returns.  A piece
    without a type is written as a blank, which reads back as [kNoPiece]
    whatever its colour was. *)
Theorem fen_char_round_trip (p : Piece) (ch : ascii) :
  (type p <> PtNone -> from_fen_char (fen_char p) = p)
  /\ (type p = PtNone -> from_fen_char (fen_char p) = kNoPiece)
  /\ (type (from_fen_char ch) <> PtNone -> fen_char (from_fen_char ch) = ch).
Proof.
  split; [|split].
  - destruct p as [[] []]; intros H; try reflexivity; exfalso; apply H; reflexivity.
  - destruct p as [[] []]; intros H; try reflexivity; discriminate.
  - unfold from_fen_char.
    repeat (destruct (decide _) as [->|?]; [reflexivity|]).
    intros H. exfalso. apply H. reflexivity.
Qed.

Lemma uci_plain (f1 r1 f2 r2 : ascii) :
  square_chars f1 r1 -> square_chars f2 r2 ->
  uci (mkMove (square_of_chars f1 r1) (square_of_chars f2 r2) Normal PtNone)
  = String f1 (String r1 (String f2 (String r2 EmptyString))).
Proof.
  intros H1 H2. unfold uci. cbn [from_sq to_sq promotion].
  rewrite !square_name_chars by assumption. reflexivity.
Qed.

Lemma from_uci_four (f1 r1 f2 r2 : ascii) :
  square_chars f1 r1 -> square_chars f2 r2 ->
  from_uci (String f1 (String r1 (String f2 (String r2 EmptyString))))
  = mkMove (square_of_chars f1 r1) (square_of_chars f2 r2) Normal PtNone.
Proof.
  intros H1 H2. unfold from_uci, substr.
  cbn [String.length Nat.ltb Nat.leb String.substring].
  destruct (parse_square_chars f1 r1 H1) as [-> Hv1].
  destruct (parse_square_chars f2 r2 H2) as [-> Hv2].
  rewrite !valid_not_no_square by assumption. reflexivity.
Qed.

Lemma names_two_squares_dec (s : string) : names_two_squares s \/ ~ names_two_squares s.
Proof.
  destruct s as [|a [|b [|c [|d rest]]]]; try (right; intros H; exact H).
  unfold names_two_squares.
  destruct (square_chars_dec a b), (square_chars_dec c d); tauto.
Qed.

(** X13.  A move text that goes through [from_uci] and back through [uci]
    keeps its first four characters when they name two squares, followed by
    its fifth character when that is one of the promotion letters n, b, r, q;
    everything else is dropped.  A text whose first four characters do not
    name two squares comes back as the text of the null move.  So the text
    is unchanged exactly when it is four characters naming two squares, or
    five with a promotion letter at the end. *)
Theorem uci_text_round_trip (s : string) :
  (names_two_squares s -> uci (from_uci s) = (substr s 0 4 ++ promo_suffix s)%string)
  /\ (~ names_two_squares s -> uci (from_uci s) = "a1a1"%string)
  /\ (uci (from_uci s) = s <->
      names_two_squares s
      /\ (String.length s = 4%nat
          \/ (String.length s = 5%nat /\ promo_suffix s <> EmptyString))).
Proof.
  assert (Hyes : names_two_squares s ->
                 uci (from_uci s) = (substr s 0 4 ++ promo_suffix s)%string).
  { destruct s as [|a [|b [|c [|d rest]]]]; try contradiction.
    intros [H1 H2]. destruct rest as [|e rest].
    - rewrite from_uci_four, uci_plain by assumption. reflexivity.
    - rewrite from_uci_long by assumption. unfold uci. cbn [from_sq to_sq promotion].
      rewrite !square_name_chars by assumption.
      unfold promo_suffix, substr. cbn [String.get String.substring existsb].
      destruct (decide (e = "n"%char)) as [->|Hn]; [reflexivity|].
      destruct (decide (e = "b"%char)) as [->|Hb]; [reflexivity|].
      destruct (decide (e = "r"%char)) as [->|Hr]; [reflexivity|].
      destruct (decide (e = "q"%char)) as [->|Hq]; [reflexivity|].
      rewrite bool_decide_eq_true_2 by reflexivity.
      apply Ascii.eqb_neq in Hn, Hb, Hr, Hq. rewrite Hn, Hb, Hr, Hq. reflexivity. }
  assert (Hno : ~ names_two_squares s -> uci (from_uci s) = "a1a1"%string).
  { intros H. rewrite from_uci_no_squares by exact H. reflexivity. }
  split; [exact Hyes|]. split; [exact Hno|].
  split.
  - intros Heq.
    assert (Hn : names_two_squares s).
    { destruct (names_two_squares_dec s) as [Hn|Hn]; [exact Hn|].
      rewrite (Hno Hn) in Heq. subst s.
      split; unfold square_chars; vm_compute; intuition discriminate. }
    split; [exact Hn|]. rewrite (Hyes Hn) in Heq.
    destruct s as [|a [|b [|c [|d rest]]]]; try contradiction.
    destruct rest as [|e rest]; [left; reflexivity|]. right.
    unfold promo_suffix, substr in *. cbn [String.get String.substring] in *.
    destruct (existsb (Ascii.eqb e) ["n"; "b"; "r"; "q"]%char).
    + cbv [String.append] in Heq. injection Heq as Heq. subst rest.
      split; [reflexivity | discriminate].
    + cbv [String.append] in Heq. discriminate.
  - intros [Hn Hlen]. rewrite (Hyes Hn).
    destruct s as [|a [|b [|c [|d rest]]]]; try contradiction.
    destruct Hlen as [Hlen|[Hlen Hsuf]].
    + destruct rest; [reflexivity | discriminate].
    + destruct rest as [|e [|x rest]]; try discriminate.
      unfold promo_suffix, substr in *. cbn [String.get String.substring] in *.
      destruct (existsb (Ascii.eqb e) ["n"; "b"; "r"; "q"]%char); [reflexivity|].
      exfalso. apply Hsuf. reflexivity.
Qed.

Lemma square_name_round_trip_witness :
  parse_square (square_name 28) = 28
  /\ square_name (parse_square "e4") = "e4"%string.
Proof.
  destruct (square_name_round_trip 28 "e4") as (H1 & H2 & _).
  split; [apply H1; unfold valid_sq; lia | apply H2; vm_compute; discriminate].
Defined.

Lemma fen_char_round_trip_witness :
  from_fen_char (fen_char (mkPiece Black Queen)) = mkPiece Black Queen
  /\ fen_char (from_fen_char "q") = "q"%char.
Proof.
  destruct (fen_char_round_trip (mkPiece Black Queen) "q") as (H1 & _ & H2).
  split; [apply H1; discriminate | apply H2; vm_compute; discriminate].
Defined.

Lemma uci_text_round_trip_witness :
  uci (from_uci "e7e8q") = "e7e8q"%string /\ uci (from_uci "e9e4") = "a1a1"%string.
Proof.
  destruct (uci_text_round_trip "e7e8q") as (_ & _ & H1).
  destruct (uci_text_round_trip "e9e4") as (_ & H2 & _).
  split.
  - apply H1. split.
    + split; unfold square_chars; vm_compute; intuition discriminate.
    + right. split; [reflexivity | vm_compute; discriminate].
  - apply H2. intros [[_ H] _]. vm_compute in H. destruct H as [_ H]. apply H. reflexivity.
Defined.


(** * The board *)

Lemma mailbox_lookup (b : Board) (sq : Square) :
  board_ok b -> valid_sq sq -> mailbox_ b !! Z.to_nat sq = Some (piece_at b sq).
Proof.
  intros Hok Hsq. unfold piece_at. apply list_lookup_lookup_total_lt.
  rewrite (ok_len_mailbox b Hok). unfold valid_sq in Hsq. lia.
Qed.

Lemma mailbox_ext (b1 b2 : Board) :
  board_ok b1 -> board_ok b2 ->
  (forall i, valid_sq i -> piece_at b1 i = piece_at b2 i) -> b1 = b2.
Proof.
  intros H1 H2 Hall. apply board_ext; [assumption..|].
  apply (list_eq_total _ _ 64); [apply H1 | apply H2 |].
  intros i Hi. specialize (Hall (Z.of_nat i) ltac:(unfold valid_sq; lia)).
  unfold piece_at in Hall. rewrite Nat2Z.id in Hall. exact Hall.
Qed.

(** X14.  On a coherent board, putting a piece on an empty square and
    removing the piece of an occupied square keep the board coherent, change
    the looked-up piece of that square alone, and undo each other: the
    board after [put_piece] then [remove_piece] on the same square, or after
    [remove_piece] then [put_piece] of the removed piece, is the board before
    in every bitboard and mailbox slot. *)
Theorem put_and_remove_undo_each_other (b : Board) (sq : Square) (p : Piece) :
  board_ok b -> valid_sq sq ->
  (piece_at b sq = kNoPiece -> type p <> PtNone ->
     board_ok (put_piece sq p b)
     /\ (forall i, valid_sq i ->
           piece_at (put_piece sq p b) i = if i =? sq then p else piece_at b i)
     /\ remove_piece sq (put_piece sq p b) = b)
  /\ (type (piece_at b sq) <> PtNone ->
     board_ok (remove_piece sq b)
     /\ (forall i, valid_sq i ->
           piece_at (remove_piece sq b) i = if i =? sq then kNoPiece else piece_at b i)
     /\ put_piece sq (piece_at b sq) (remove_piece sq b) = b).
Proof.
  intros Hok Hsq. split.
  - intros Hempty Hp.
    pose proof (put_piece_ok b sq p Hok Hsq Hempty Hp) as Hok1.
    assert (Hat : forall i, valid_sq i ->
              piece_at (put_piece sq p b) i = if i =? sq then p else piece_at b i).
    { intros i Hi. apply piece_at_put; [assumption..|apply Hi]. }
    split; [exact Hok1|]. split; [exact Hat|].
    assert (Hsame : piece_at (put_piece sq p b) sq = p) by (rewrite Hat, Z.eqb_refl; auto).
    apply mailbox_ext; [|exact Hok|].
    + apply remove_piece_ok; [assumption..|]. rewrite Hsame. exact Hp.
    + intros i Hi. rewrite piece_at_remove, Hat by first [assumption | apply Hi].
      destruct (Z.eqb_spec i sq) as [->|]; [symmetry; exact Hempty | reflexivity].
  - intros Hp.
    pose proof (remove_piece_ok b sq Hok Hsq Hp) as Hok1.
    assert (Hat : forall i, valid_sq i ->
              piece_at (remove_piece sq b) i = if i =? sq then kNoPiece else piece_at b i).
    { intros i Hi. apply piece_at_remove; [assumption..|apply Hi]. }
    split; [exact Hok1|]. split; [exact Hat|].
    assert (Hsame : piece_at (remove_piece sq b) sq = kNoPiece)
      by (rewrite Hat, Z.eqb_refl; auto).
    apply mailbox_ext; [|exact Hok|].
    + apply put_piece_ok; assumption.
    + intros i Hi. rewrite piece_at_put, Hat by first [assumption | apply Hi].
      destruct (Z.eqb_spec i sq) as [->|]; reflexivity.
Qed.

Lemma put_and_remove_undo_each_other_witness :
  remove_piece 28 (put_piece 28 (mkPiece White Knight) empty_board) = empty_board.
Proof.
  assert (Hok : board_ok empty_board) by (apply board_okb_sound; vm_compute; reflexivity).
  destruct (put_and_remove_undo_each_other empty_board 28 (mkPiece White Knight) Hok)
    as [H _]; [unfold valid_sq; lia|].
  apply H; [reflexivity | discriminate].
Defined.

(** ** [move_piece] *)

Lemma alter_alter {A} (f g : A -> A) (i : nat) (l : list A) :
  alter f i (alter g i l) = alter (fun x => f (g x)) i l.
Proof.
  revert i. induction l as [|x l IH]; intros [|i]; cbn; try reflexivity.
  f_equal. apply IH.
Qed.

Lemma toggle_two (x from to : Z) :
  bb_range x -> valid_sq from -> valid_sq to ->
  Z.testbit x from = true -> Z.testbit x to = false ->
  Z.lxor x (Z.lor (square_bb from) (square_bb to)) = set_bit (clear_bit x from) to.
Proof.
  intros Hx Hf Ht Hbf Hbt. apply Z.bits_inj'. intros i Hi.
  rewrite Z.lxor_spec, Z.lor_spec, !testbit_square_bb by assumption.
  rewrite testbit_set_bit, testbit_clear_bit by assumption.
  destruct (Z.eqb_spec i from) as [E1|E1], (Z.eqb_spec i to) as [E2|E2].
  - rewrite <- E1 in Hbf. rewrite <- E2 in Hbt. congruence.
  - rewrite E1, Hbf. reflexivity.
  - rewrite E2, Hbt. reflexivity.
  - destruct (Z.testbit x i); reflexivity.
Qed.

(** X15.  On a coherent board, [move_piece] from an occupied square to a
    different, empty square gives the same board as removing the piece and
    putting it on the target: the XOR of the two-square mask does what
    clearing one bit and setting the other does.  The board stays coherent,
    and moving the piece back restores the board. *)
Theorem move_piece_is_remove_then_put (b : Board) (from to : Square) :
  board_ok b -> valid_sq from -> valid_sq to -> from <> to ->
  type (piece_at b from) <> PtNone -> piece_at b to = kNoPiece ->
  move_piece from to b = put_piece to (piece_at b from) (remove_piece from b)
  /\ board_ok (move_piece from to b)
  /\ (forall i, valid_sq i ->
        piece_at (move_piece from to b) i
        = if i =? to then piece_at b from
          else if i =? from then kNoPiece else piece_at b i)
  /\ move_piece to from (move_piece from to b) = b.
Proof.
  assert (Hmain : forall (b : Board) (from to : Square),
    board_ok b -> valid_sq from -> valid_sq to -> from <> to ->
    type (piece_at b from) <> PtNone -> piece_at b to = kNoPiece ->
    move_piece from to b = put_piece to (piece_at b from) (remove_piece from b)).
  { clear. intros b from to Hok Hf Ht Hne Hp Hempty.
    set (p := piece_at b from).
    assert (Hpc : p = mkPiece (color p) (type p)) by (destruct p; reflexivity).
    unfold move_piece, put_piece, remove_piece. fold (piece_at b from). fold p.
    cbn [pieces_ occupied_ occupied_all_ mailbox_]. f_equal.
    - rewrite alter_alter. apply list_alter_ext; [|reflexivity].
      intros x Hx. fold p in Hp.
      assert (Hxe : x = pieces b (color p) (type p)).
      { unfold pieces. apply list_lookup_total_correct in Hx. symmetry. exact Hx. }
      subst x. apply toggle_two; try assumption.
      + apply bb_range_pieces; assumption.
      + rewrite (ok_pieces b Hok) by (first [assumption | apply Hf]).
        fold p. rewrite <- Hpc, bool_decide_eq_true_2 by reflexivity.
        rewrite andb_true_r. apply Z.ltb_lt, Hf.
      + rewrite (ok_pieces b Hok) by (first [assumption | apply Ht]).
        rewrite Hempty, bool_decide_eq_false_2; [apply andb_false_r|].
        intros E. apply Hp. injection E as _ <-. reflexivity.
    - rewrite alter_alter. apply list_alter_ext; [|reflexivity].
      intros x Hx.
      assert (Hxe : x = occupied b (color p)).
      { unfold occupied. apply list_lookup_total_correct in Hx. symmetry. exact Hx. }
      subst x. apply toggle_two; try assumption.
      + apply bb_range_occupied; assumption.
      + rewrite (ok_occupied b Hok) by apply Hf. unfold is_empty. fold p.
        rewrite (bool_decide_eq_false_2 (type p = PtNone)) by exact Hp.
        rewrite bool_decide_eq_true_2 by reflexivity.
        rewrite !andb_true_r. apply Z.ltb_lt, Hf.
      + rewrite (ok_occupied b Hok) by apply Ht. unfold is_empty. rewrite Hempty.
        cbn [type kNoPiece]. rewrite bool_decide_eq_true_2 by reflexivity.
        cbn [negb]. rewrite andb_false_r. reflexivity.
    - apply toggle_two; try assumption.
      + apply (bb_range_occupied_all b Hok).
      + fold (occupied_all b). rewrite (ok_occupied_all b Hok) by apply Hf.
        unfold is_empty. fold p.
        rewrite (bool_decide_eq_false_2 (type p = PtNone)) by exact Hp.
        rewrite andb_true_r. apply Z.ltb_lt, Hf.
      + fold (occupied_all b). rewrite (ok_occupied_all b Hok) by apply Ht.
        unfold is_empty. rewrite Hempty.
        cbn [type kNoPiece]. rewrite bool_decide_eq_true_2 by reflexivity.
        apply andb_false_r.
    - apply list_insert_insert_ne. unfold valid_sq in *. lia. }
  assert (Hkeeps : forall (b : Board) (from to : Square),
    board_ok b -> valid_sq from -> valid_sq to -> from <> to ->
    type (piece_at b from) <> PtNone -> piece_at b to = kNoPiece ->
    board_ok (move_piece from to b)
    /\ (forall i, valid_sq i ->
          piece_at (move_piece from to b) i
          = if i =? to then piece_at b from
            else if i =? from then kNoPiece else piece_at b i)).
  { intros b0 f0 t0 Hok Hf Ht Hne Hp Hempty.
    rewrite (Hmain b0 f0 t0) by assumption.
    pose proof (remove_piece_ok b0 f0 Hok Hf Hp) as Hok1.
    assert (Hempty1 : piece_at (remove_piece f0 b0) t0 = kNoPiece).
    { rewrite piece_at_remove by (first [assumption | apply Ht]).
      destruct (Z.eqb_spec t0 f0); [reflexivity | exact Hempty]. }
    split; [apply put_piece_ok; assumption|].
    intros i Hi. rewrite piece_at_put, piece_at_remove by first [assumption | apply Hi].
    reflexivity. }
  intros Hok Hf Ht Hne Hp Hempty.
  destruct (Hkeeps b from to Hok Hf Ht Hne Hp Hempty) as [Hok1 Hat].
  split; [apply Hmain; assumption|]. split; [exact Hok1|]. split; [exact Hat|].
  assert (Hto : piece_at (move_piece from to b) to = piece_at b from)
    by (rewrite Hat, Z.eqb_refl by assumption; reflexivity).
  assert (Hfrom : piece_at (move_piece from to b) from = kNoPiece).
  { rewrite Hat by assumption. destruct (Z.eqb_spec from to); [contradiction|].
    rewrite Z.eqb_refl. reflexivity. }
  destruct (Hkeeps (move_piece from to b) to from Hok1 Ht Hf ltac:(congruence)
              ltac:(rewrite Hto; exact Hp) Hfrom) as [Hok2 Hat2].
  apply mailbox_ext; [assumption..|].
  intros i Hi. rewrite Hat2, Hto, Hat by assumption.
  destruct (Z.eqb_spec i from) as [->|Hnf]; [reflexivity|].
  destruct (Z.eqb_spec i to) as [->|Hnt]; [symmetry; exact Hempty | reflexivity].
Qed.

Lemma move_piece_is_remove_then_put_witness :
  move_piece 28 4 (move_piece 4 28 (put_piece 4 (mkPiece White King) empty_board))
  = put_piece 4 (mkPiece White King) empty_board.
Proof.
  assert (Hok : board_ok (put_piece 4 (mkPiece White King) empty_board))
    by (apply board_okb_sound; vm_compute; reflexivity).
  refine (proj2 (proj2 (proj2 (move_piece_is_remove_then_put _ 4 28 Hok _ _ _ _ _)))).
  - unfold valid_sq. lia.
  - unfold valid_sq. lia.
  - lia.
  - vm_compute. discriminate.
  - vm_compute. reflexivity.
Defined.

(** ** Equality of boards *)

Lemma same_pieces_spec (slots : list nat) (a b : Board) :
  same_pieces slots a b = true
  <-> forall i, In i slots -> pieces_ a !!! i = pieces_ b !!! i.
Proof.
  induction slots as [|s slots IH]; cbn [same_pieces In].
  - split; [intros _ i [] | reflexivity].
  - destruct (Z.eqb_spec (pieces_ a !!! s) (pieces_ b !!! s)) as [E|E]; cbn [negb].
    + rewrite IH. split.
      * intros H i [<-|Hi]; [exact E | apply H, Hi].
      * intros H i Hi. apply H. right. exact Hi.
    + split; [discriminate|]. intros H. exfalso. apply E, H. left. reflexivity.
Qed.

(** X16.  [operator==] looks at the twelve piece bitboards only.  On
    coherent boards that is enough: it answers true exactly when the two
    boards agree in every bitboard, occupancy set and mailbox slot. *)
Theorem board_equality_decides (a b : Board) :
  board_ok a -> board_ok b ->
  (board_eq a b = true <-> a = b)
  /\ (board_eq a b = true <->
      forall c pt, pt <> PtNone -> pieces a c pt = pieces b c pt).
Proof.
  intros Ha Hb.
  assert (Hiff : board_eq a b = true <->
                 forall c pt, pt <> PtNone -> pieces a c pt = pieces b c pt).
  { unfold board_eq. rewrite same_pieces_spec. split.
    - intros H c pt Hpt. unfold pieces. apply H. apply in_seq.
      pose proof (pieces_slot_lt c pt Hpt). lia.
    - intros H i Hi. apply in_seq in Hi.
      destruct (slot_decode i ltac:(lia)) as (c & pt & Hpt & ->). apply (H c pt Hpt). }
  split; [|exact Hiff]. rewrite Hiff. split; [|intros ->; reflexivity].
  intros H. apply mailbox_ext; [assumption..|].
  assert (Hhalf : forall (x y : Board), board_ok x -> board_ok y ->
            (forall c pt, pt <> PtNone -> pieces x c pt = pieces y c pt) ->
            forall i, valid_sq i -> type (piece_at x i) <> PtNone ->
            piece_at y i = piece_at x i).
  { intros x y Hx Hy Hxy i Hi Ht.
    pose proof (ok_pieces x Hx (color (piece_at x i)) (type (piece_at x i)) i Ht
                  ltac:(apply Hi)) as Hbit.
    rewrite bool_decide_eq_true_2 in Hbit by (destruct (piece_at x i); reflexivity).
    rewrite Hxy, (ok_pieces y Hy) in Hbit by (first [assumption | apply Hi]).
    replace (i <? 64) with true in Hbit by (symmetry; apply Z.ltb_lt, Hi).
    cbn [andb] in Hbit. apply bool_decide_eq_true in Hbit.
    rewrite Hbit. destruct (piece_at x i); reflexivity. }
  intros i Hi.
  destruct (decide (type (piece_at a i) = PtNone)) as [Ea|Ea];
    destruct (decide (type (piece_at b i) = PtNone)) as [Eb|Eb].
  - rewrite (ok_empty a Ha i Hi Ea), (ok_empty b Hb i Hi Eb). reflexivity.
  - exfalso. apply Eb. 
    rewrite <- (Hhalf b a Hb Ha (fun c pt Hpt => eq_sym (H c pt Hpt)) i Hi Eb). exact Ea.
  - symmetry. apply (Hhalf a b Ha Hb H i Hi Ea).
  - symmetry. apply (Hhalf a b Ha Hb H i Hi Ea).
Qed.

Lemma board_equality_decides_witness :
  board_eq (board_ initial) (board_ initial) = true.
Proof.
  assert (Hok : board_ok (board_ initial)) by (apply board_okb_sound; vm_compute; reflexivity).
  destruct (board_equality_decides _ _ Hok Hok) as [H _]. apply H. reflexivity.
Defined.


(** * Sliding attacks *)

Section Ray.
Variables (df dr : Z).


End Ray.







(** ** What a slider attacks *)

Lemma in_bounds_square (f r : Z) :
  in_bounds f r = true ->
  valid_sq (make_square f r) /\ file_of (make_square f r) = f
  /\ rank_of (make_square f r) = r.
Proof.
  unfold in_bounds. rewrite !andb_true_iff, !Z.leb_le. intros [[[Hf0 Hf7] Hr0] Hr7].
  rewrite make_square_eq by lia. rewrite file_of_mod, rank_of_div.
  pose proof (Z.div_mod (r * 8 + f) 8 ltac:(lia)).
  pose proof (Z.mod_pos_bound (r * 8 + f) 8 ltac:(lia)).
  unfold valid_sq. lia.
Qed.

Section RayBits.
Variables (occ : Bitboard) (df dr : Z).


End RayBits.



Lemma slides_app (occ : Bitboard) (d1 d2 : list (Z * Z)) (s t : Square) :
  slides occ (d1 ++ d2) s t <-> slides occ d1 s t \/ slides occ d2 s t.
Proof.
  unfold slides. split.
  - intros (df & dr & k & Hin & H). apply in_app_or in Hin as [Hin|Hin];
      [left | right]; exists df, dr, k; auto.
  - intros [(df & dr & k & Hin & H)|(df & dr & k & Hin & H)];
      exists df, dr, k; (split; [apply in_or_app; auto | exact H]).
Qed.





(** * Positions *)

Lemma has_right_subset (cr m1 m2 r : Z) :
  has_right (Z.land (Z.land cr m1) m2) r = true -> has_right cr r = true.
Proof.
  unfold has_right. rewrite !negb_true_iff, !Z.eqb_neq. intros H E. apply H.
  replace (Z.land (Z.land (Z.land cr m1) m2) r) with (Z.land (Z.land cr r) (Z.land m1 m2)).
  - rewrite E. apply Z.land_0_l.
  - apply Z.bits_inj'. intros i Hi. rewrite !Z.land_spec.
    destruct (Z.testbit cr i), (Z.testbit m1 i), (Z.testbit m2 i), (Z.testbit r i);
      reflexivity.
Qed.

(** X19.  A pseudo-legal move made on a position that satisfies the
    invariants gives a position that satisfies them again, with the other
    side to move.  Castling rights are only ever lost; the en-passant
    square is set exactly after a double pawn push, to the square the pawn
    passed over; and one undo record and one key are pushed, the key being
    the key of the new position. *)
Theorem make_move_keeps_invariants (p : Position) (m : Move) :
  position_ok p -> In m (movegen.pseudo_legal p) ->
  position_ok (make_move m p)
  /\ side_to_move_ (make_move m p) = opposite (side_to_move_ p)
  /\ (forall r, has_right (castling_ (make_move m p)) r = true ->
                has_right (castling_ p) r = true)
  /\ (flag m = DoublePawn ->
      en_passant_ (make_move m p) = forward (side_to_move_ p) (from_sq m) 1)
  /\ (flag m <> DoublePawn -> en_passant_ (make_move m p) = kNoSquare)
  /\ length (history_ (make_move m p)) = S (length (history_ p))
  /\ key_history_ (make_move m p) = key_history_ p ++ [key_ (make_move m p)].
Proof.
  intros Hpos Hin.
  assert (Hmv : move_ok p m).
  { pose proof (pseudo_legal_ok p Hpos) as Hall. rewrite List.Forall_forall in Hall.
    apply Hall, Hin. }
  destruct (make_move_fields m p) as (_ & Hside & Hcr & Hep & _ & _ & Hhist & Hkeys).
  split; [apply make_move_ok; assumption|]. split; [exact Hside|].
  split; [|split; [|split; [|split]]].
  - intros r. rewrite Hcr. apply has_right_subset.
  - intros Hflag. rewrite Hep, bool_decide_eq_true_2 by exact Hflag.
    destruct Hmv as [Hf Ht _ _ Hfl]. unfold flag_ok in Hfl. rewrite Hflag in Hfl.
    destruct Hfl as (_ & _ & Hto & _). rewrite Hto.
    apply double_push_square; [exact Hf | rewrite <- Hto; exact Ht].
  - intros Hflag. rewrite Hep, bool_decide_eq_false_2 by exact Hflag. reflexivity.
  - rewrite Hhist, length_app. cbn. lia.
  - exact Hkeys.
Qed.

Lemma make_move_keeps_invariants_witness :
  position_ok (make_move (mkMove 12 28 DoublePawn PtNone) initial)
  /\ en_passant_ (make_move (mkMove 12 28 DoublePawn PtNone) initial) = 20.
Proof.
  destruct (make_move_keeps_invariants initial (mkMove 12 28 DoublePawn PtNone) initial_ok)
    as (H1 & _ & _ & H2 & _).
  - vm_compute. tauto.
  - split; [exact H1|]. rewrite H2 by reflexivity. reflexivity.
Defined.

(** ** Parsed positions *)

Lemma file_of_square (f r : Z) : 0 <= f <= 7 -> 0 <= r <= 7 ->
  valid_sq (make_square f r) /\ file_of (make_square f r) = f
  /\ rank_of (make_square f r) = r.
Proof.
  intros Hf Hr. apply in_bounds_square. unfold in_bounds.
  rewrite !andb_true_iff, !Z.leb_le. lia.
Qed.

Lemma placement_loop_ok (fen : string) (s : string) :
  forall (b : Board) (rank file : Z) (b' : Board) (rank' file' : Z),
  board_ok b -> 0 <= rank <= 7 -> 0 <= file <= 8 ->
  (forall sq, valid_sq sq -> unvisited rank file sq -> piece_at b sq = kNoPiece) ->
  placement_loop fen s b rank file = Ok (b', rank', file') ->
  board_ok b'.
Proof.
  induction s as [|ch rest IH]; intros b rank file b' rank' file' Hok Hrank Hfile Hfree H.
  - cbn in H. injection H as <- _ _. exact Hok.
  - cbn [placement_loop] in H. destruct (decide (ch = "/"%char)) as [_|_].
    + destruct (negb (file =? 8)); [discriminate|]. cbv zeta in H.
      destruct (Z.ltb_spec (rank - 1) 0) as [|Hr]; [discriminate|].
      apply (IH b (rank - 1) 0 b' rank' file'); try assumption; try lia.
      intros sq Hsq [Hu|[Hu _]]; apply Hfree; try assumption; left; lia.
    + destruct ((char_code "1" <=? char_code ch) && (char_code ch <=? char_code "8")) eqn:Hd.
      * cbv zeta in H.
        apply andb_true_iff in Hd as [Hd1 Hd2]. apply Z.leb_le in Hd1, Hd2.
        change (char_code "1") with 49 in Hd1. change (char_code "0") with 48 in H.
        destruct (Z.ltb_spec 8 (file + (char_code ch - 48))) as [|Hle]; [discriminate|].
        apply (IH b rank (file + (char_code ch - 48)) b' rank' file'); try assumption; try lia.
        intros sq Hsq [Hu|[Hu Hu']]; apply Hfree; try assumption;
          [left; lia | right; lia].
      * destruct (Z.leb_spec 8 file) as [|Hlt]; [discriminate|]. cbv zeta in H.
        destruct (bool_decide (type (from_fen_char ch) = PtNone)) eqn:Hty; [discriminate|].
        apply bool_decide_eq_false in Hty.
        destruct (file_of_square file rank ltac:(lia) ltac:(lia)) as (Hv & Hff & Hrr).
        assert (Hempty : piece_at b (make_square file rank) = kNoPiece).
        { apply Hfree; [exact Hv|]. right. lia. }
        apply (IH (put_piece (make_square file rank) (from_fen_char ch) b) rank (file + 1)
                 b' rank' file'); try assumption; try lia.
        -- apply put_piece_ok; assumption.
        -- intros sq Hsq Hu. rewrite piece_at_put by (first [assumption | apply Hsq]).
           destruct (Z.eqb_spec sq (make_square file rank)) as [->|Hne].
           ++ exfalso. destruct Hu as [Hu|[_ Hu]]; lia.
           ++ apply Hfree; [assumption|]. destruct Hu as [Hu|[Hu Hu']];
                [left; lia | right; lia].
Qed.

Lemma empty_board_ok : board_ok empty_board.
Proof. apply board_okb_sound. vm_compute. reflexivity. Qed.

Lemma castling_loop_range (s : string) :
  forall cr cr', 0 <= cr <= 15 -> castling_loop s cr = Ok cr' -> 0 <= cr' <= 15.
Proof.
  assert (Hor : forall cr k, 0 <= cr <= 15 -> In k [1; 2; 4; 8] -> 0 <= Z.lor cr k <= 15).
  { intros cr k Hcr Hk.
    assert (Hall : forallb (fun c => forallb (fun k => (0 <=? Z.lor c k) && (Z.lor c k <=? 15))
                     [1; 2; 4; 8]) (map Z.of_nat (seq 0 16)) = true) by (vm_compute; reflexivity).
    rewrite forallb_forall in Hall.
    assert (Hc : In cr (map Z.of_nat (seq 0 16))).
    { apply in_map_iff. exists (Z.to_nat cr). split; [lia|]. apply in_seq. lia. }
    specialize (Hall cr Hc). rewrite forallb_forall in Hall. specialize (Hall k Hk).
    apply andb_true_iff in Hall as [H1 H2]. apply Z.leb_le in H1, H2. lia. }
  induction s as [|ch rest IH]; intros cr cr' Hcr H.
  - cbn in H. injection H as <-. exact Hcr.
  - cbn [castling_loop] in H.
    repeat (destruct (decide _) as [_|_];
            [apply IH in H; [exact H | apply Hor; [exact Hcr | cbn; tauto]]|]).
    discriminate.
Qed.

Lemma new_position_fields (b : Board) (side : Color) (cr : CastlingRights) (ep : Square)
    (hm fm : Z) :
  board_ (new_position b side cr ep hm fm) = b
  /\ castling_ (new_position b side cr ep hm fm) = cr
  /\ en_passant_ (new_position b side cr ep hm fm) = ep
  /\ halfmove_clock_ (new_position b side cr ep hm fm) = hm
  /\ fullmove_number_ (new_position b side cr ep hm fm) = fm
  /\ history_ (new_position b side cr ep hm fm) = [].
Proof.
  unfold new_position, compute_key. cbv zeta.
  cbn [board_ castling_ en_passant_ halfmove_clock_ fullmove_number_ history_
       set_key_history set_key].
  repeat split.
Qed.

Lemma side_of_new_position (b : Board) (side : Color) (cr : CastlingRights) (ep : Square)
    (hm fm : Z) :
  side_to_move_ (new_position b side cr ep hm fm) = side.
Proof. reflexivity. Qed.

Lemma from_fen_fields (fen : string) (p : Position) :
  from_fen fen = Ok p ->
  exists b side cr ep hm fm,
    new_position b side cr ep hm fm = p
    /\ board_ok b /\ 0 <= cr <= 15 /\ (ep = kNoSquare \/ valid_sq ep)
    /\ 0 <= hm <= kIntMax /\ 1 <= fm <= kIntMax.
Proof.
  intros H.
  unfold from_fen in H.
  destruct ((length (split_spaces fen) <? 4)%nat || (6 <? length (split_spaces fen))%nat);
    [discriminate H|].
  destruct (placement_loop fen (part (split_spaces fen) 0) empty_board 7 0)
    as [[[b rank] file]|] eqn:Hpl; [|discriminate H].
  cbn [bind] in H.
  destruct (negb (rank =? 0) || negb (file =? 8)); [discriminate H|].
  assert (Hb : board_ok b).
  { apply (placement_loop_ok fen (part (split_spaces fen) 0) empty_board 7 0 b rank file);
      [apply empty_board_ok | lia | lia | | exact Hpl].
    intros sq Hsq _. unfold piece_at, empty_board. cbn [mailbox_].
    apply lookup_total_replicate_2. unfold valid_sq in Hsq. lia. }
  destruct (if String.eqb (part (split_spaces fen) 1) "w" then Ok White
            else if String.eqb (part (split_spaces fen) 1) "b" then Ok Black
            else Err _) as [side|] eqn:Hside; [|discriminate H].
  cbn [bind] in H.
  destruct (if negb (String.eqb (part (split_spaces fen) 2) "-")
            then castling_loop (part (split_spaces fen) 2) kCastlingNone
            else Ok kCastlingNone) as [cr|] eqn:Hcr; [|discriminate H].
  cbn [bind] in H.
  assert (Hcr15 : 0 <= cr <= 15).
  { destruct (negb (String.eqb (part (split_spaces fen) 2) "-")).
    - apply (castling_loop_range (part (split_spaces fen) 2) kCastlingNone cr);
        [unfold kCastlingNone; lia | exact Hcr].
    - injection Hcr as <-. unfold kCastlingNone. lia. }
  destruct (if negb (String.eqb (part (split_spaces fen) 3) "-")
            then _ else Ok kNoSquare) as [ep|] eqn:Hep; [|discriminate H].
  cbn [bind] in H.
  assert (Hepv : ep = kNoSquare \/ valid_sq ep).
  { destruct (negb (String.eqb (part (split_spaces fen) 3) "-")).
    - cbv zeta in Hep.
      destruct (Z.eqb_spec (parse_square (part (split_spaces fen) 3)) kNoSquare) as [|Hne];
        [discriminate Hep|].
      injection Hep as <-. right.
      assert (Hc : (parse_square (part (split_spaces fen) 3) =? kNoSquare) = false)
        by (apply Z.eqb_neq; exact Hne).
      apply parse_square_valid in Hc as (f & r & -> & Hc).
      destruct (parse_square_chars f r Hc) as [-> Hv]. exact Hv.
    - injection Hep as <-. left. reflexivity. }
  pose proof (parse_int_spec (part (split_spaces fen) 4) 0) as Hhm.
  pose proof (parse_int_spec (part (split_spaces fen) 5) 1) as Hfm.
  destruct (if (4 <? length (split_spaces fen))%nat then _ else Ok 0) as [hm|] eqn:Ehm;
    [|discriminate H].
  cbn [bind] in H.
  destruct (if (5 <? length (split_spaces fen))%nat then _ else Ok 1) as [fm|] eqn:Efm;
    [|discriminate H].
  cbn [bind] in H. injection H as Hp.
  assert (Hhm' : 0 <= hm <= kIntMax).
  { destruct (4 <? length (split_spaces fen))%nat.
    - rewrite Ehm in Hhm. destruct Hhm as (_ & Hi & Hmin). unfold in_int in Hi. lia.
    - injection Ehm as <-. unfold kIntMax. lia. }
  assert (Hfm' : 1 <= fm <= kIntMax).
  { destruct (5 <? length (split_spaces fen))%nat.
    - rewrite Efm in Hfm. destruct Hfm as (_ & Hi & Hmin). unfold in_int in Hi. lia.
    - injection Efm as <-. unfold kIntMax. lia. }
  exists b, side, cr, ep, hm, fm. auto 10.
Qed.

(** X20.  A position that [from_fen] returns is coherent: the bitboards,
    occupancy sets and mailbox of its board agree, its key is the key
    computed from scratch, the undo stack is empty and the key history
    holds the key alone, so the position counts as seen once.  The
    castling rights are a set of the four rights, the en-passant square is
    a square of the board or [kNoSquare], and the clocks fit [int] with
    the half-move clock at least 0 and the move number at least 1. *)
Theorem from_fen_gives_coherent_position (fen : string) (p : Position) :
  from_fen fen = Ok p ->
  board_ok (board_ p)
  /\ key_ p = full_key p
  /\ history_ p = []
  /\ key_history_ p = [key_ p]
  /\ repetition_count p = 1
  /\ 0 <= castling_ p <= 15
  /\ (en_passant_ p = kNoSquare \/ valid_sq (en_passant_ p))
  /\ 0 <= halfmove_clock_ p <= kIntMax
  /\ 1 <= fullmove_number_ p <= kIntMax.
Proof.
  intros H.
  pose proof (from_fen_key fen p H) as Hkey.
  pose proof (from_fen_history fen p H) as Hhist. cbn [app] in Hhist.
  assert (Hrep : repetition_count p = 1).
  { unfold repetition_count. rewrite Hhist. cbn [count_keys].
    rewrite Z.eqb_refl. reflexivity. }
  destruct (from_fen_fields fen p H)
    as (b & side & cr & ep & hm & fm & Hp & Hb & Hcr15 & Hepv & Hhm' & Hfm').
  destruct (new_position_fields b side cr ep hm fm) as (F1 & F2 & F3 & F4 & F5 & F6).
  rewrite Hp in F1, F2, F3, F4, F5, F6.
  split; [rewrite F1; exact Hb|]. split; [exact Hkey|]. split; [exact F6|].
  split; [exact Hhist|]. split; [exact Hrep|]. split; [rewrite F2; exact Hcr15|].
  split; [rewrite F3; exact Hepv|]. split; [rewrite F4; exact Hhm'|].
  rewrite F5. exact Hfm'.
Qed.

Lemma from_fen_gives_coherent_position_witness :
  board_ok (board_ initial) /\ key_ initial = full_key initial
  /\ key_history_ initial = [key_ initial].
Proof.
  destruct (from_fen_gives_coherent_position kStartingFen initial initial_parses)
    as (H1 & H2 & _ & H3 & _).
  auto.
Defined.


(** * Move generation *)





(** ** perft *)


Lemma u64_add_r (a b : Z) : u64 (a + u64 b) = u64 (a + b).
Proof. unfold u64. apply Zplus_mod_idemp_r. Qed.





(** ** The lists the generators build *)






Section Pieces.
Variable p : Position.
Hypothesis Hok : board_ok (board_ p).

Let b := board_ p.
Let us := side_to_move_ p.





End Pieces.

(** ** Pawn moves *)


Section Pawns.
Variable p : Position.
Hypothesis Hok : board_ok (board_ p).

Let b := board_ p.
Let us := side_to_move_ p.












End Pawns.

(** ** The whole list *)





(** ** Captures *)


Section Captures.
Variable p : Position.
Hypothesis Hok : board_ok (board_ p).

Let b := board_ p.
Let us := side_to_move_ p.







End Captures.




(** * Attacked squares *)












(** * Writing a descriptor and reading it back *)

(** ** Texts *)

Lemma sapp_nil_r (s : string) : (s ++ EmptyString)%string = s.
Proof. induction s as [|c s IH]; cbv [String.append]; fold String.append; [|rewrite IH]; reflexivity. Qed.

Lemma sapp_assoc (s t u : string) : ((s ++ t) ++ u)%string = (s ++ (t ++ u))%string.
Proof.
  induction s as [|c s IH]; cbv [String.append]; fold String.append; [reflexivity|].
  rewrite IH. reflexivity.
Qed.

Lemma sapp_cons (c : ascii) (s t : string) :
  (String c s ++ t)%string = String c (s ++ t)%string.
Proof. reflexivity. Qed.

Lemma sapp_nil_l (s : string) : (EmptyString ++ s)%string = s.
Proof. reflexivity. Qed.

Lemma push_char_app (fen : string) (c : ascii) (rest : string) :
  (push_char fen c ++ rest)%string = (fen ++ String c rest)%string.
Proof. unfold push_char. rewrite sapp_assoc. reflexivity. Qed.

Lemma chars_app (s t : string) :
  list_ascii_of_string (s ++ t)%string = list_ascii_of_string s ++ list_ascii_of_string t.
Proof.
  induction s as [|c s IH]; [reflexivity|].
  rewrite sapp_cons. cbn [list_ascii_of_string]. rewrite IH. reflexivity.
Qed.

(** ** The text [to_fen] writes *)

Lemma fen_files_text (b : Board) (rank : Z) (n : nat) :
  forall (file empty : Z) (fen : string), 0 <= empty ->
  0 <= snd (fen_files b rank n file empty fen)
  /\ (fst (fen_files b rank n file empty fen)
      ++ run_text (snd (fen_files b rank n file empty fen)))%string
     = (fen ++ rank_text b rank n file empty)%string.
Proof.
  induction n as [|n IH]; intros file empty fen He; cbn [fen_files rank_text].
  - cbn [fst snd]. auto.
  - cbv zeta. destruct (bool_decide (piece_at b (make_square file rank) = kNoPiece)).
    + apply IH. lia.
    + unfold run_text at 2. destruct (Z.ltb_spec 0 empty) as [Hpos|Hz].
      * destruct (IH (file + 1) 0
                    (push_char (push_char fen (char_of_code (char_code "0" + empty)))
                       (fen_char (piece_at b (make_square file rank)))) ltac:(lia))
          as [H1 H2].
        split; [exact H1|]. rewrite H2, !push_char_app. reflexivity.
      * assert (empty = 0) as -> by lia.
        destruct (IH (file + 1) 0
                    (push_char fen (fen_char (piece_at b (make_square file rank))))
                    ltac:(lia)) as [H1 H2].
        split; [exact H1|]. rewrite H2, push_char_app. reflexivity.
Qed.

Lemma fen_ranks_text (b : Board) (n : nat) :
  forall (rank : Z) (fen : string),
  fen_ranks b n rank fen = (fen ++ placement_text b n rank)%string.
Proof.
  induction n as [|n IH]; intros rank fen; cbn [fen_ranks placement_text].
  - rewrite sapp_nil_r. reflexivity.
  - cbv zeta.
    set (fen1 := if rank <? 7 then push_char fen "/" else fen).
    destruct (fen_files_text b rank 8 0 0 fen1 ltac:(lia)) as [H1 H2].
    destruct (fen_files b rank 8 0 0 fen1) as [fen2 empty]. cbn [fst snd] in H1, H2.
    rewrite IH.
    replace (if 0 <? empty then push_char fen2 (char_of_code (char_code "0" + empty))
             else fen2) with (fen2 ++ run_text empty)%string.
    2:{ unfold run_text. destruct (0 <? empty); [reflexivity | apply sapp_nil_r]. }
    rewrite H2. unfold fen1. destruct (rank <? 7).
    + rewrite !sapp_assoc, push_char_app. reflexivity.
    + rewrite !sapp_assoc. reflexivity.
Qed.

Lemma to_fen_text (p : Position) : to_fen p = join_fields (fen_fields p).
Proof.
  unfold to_fen, fen_fields. cbv zeta. cbn [join_fields].
  rewrite fen_ranks_text, sapp_nil_l.
  set (placement := placement_text (board_ p) 8 7).
  assert (Hside : forall fen,
            push_char fen (if bool_decide (side_to_move_ p = White) then "w" else "b")%char
            = (fen ++ side_text (side_to_move_ p))%string).
  { intros fen. destruct (side_to_move_ p); reflexivity. }
  assert (Hcr : forall fen,
    (if castling_ p =? kCastlingNone then push_char fen "-"
     else
       let fen := if negb (Z.land (castling_ p) kWhiteKingside =? 0)
                  then push_char fen "K" else fen in
       let fen := if negb (Z.land (castling_ p) kWhiteQueenside =? 0)
                  then push_char fen "Q" else fen in
       let fen := if negb (Z.land (castling_ p) kBlackKingside =? 0)
                  then push_char fen "k" else fen in
       let fen := if negb (Z.land (castling_ p) kBlackQueenside =? 0)
                  then push_char fen "q" else fen in
       fen) = (fen ++ castling_text (castling_ p))%string).
  { intros fen. unfold castling_text. cbv zeta.
    destruct (castling_ p =? kCastlingNone); [reflexivity|].
    destruct (negb (Z.land (castling_ p) kWhiteKingside =? 0));
      destruct (negb (Z.land (castling_ p) kWhiteQueenside =? 0));
      destruct (negb (Z.land (castling_ p) kBlackKingside =? 0));
      destruct (negb (Z.land (castling_ p) kBlackQueenside =? 0));
      unfold push_char; rewrite ?sapp_assoc, ?sapp_nil_l, ?sapp_nil_r; reflexivity. }
  assert (Hep : forall fen,
    (if en_passant_ p =? kNoSquare then push_char fen "-"
     else (fen ++ square_name (en_passant_ p))%string)
    = (fen ++ ep_text (en_passant_ p))%string).
  { intros fen. unfold ep_text. destruct (en_passant_ p =? kNoSquare); reflexivity. }
  rewrite Hside, Hcr, Hep. unfold push_char.
  rewrite !sapp_assoc. reflexivity.
Qed.

(** ** Reading the placement text *)

Lemma char_code_of_code (z : Z) : 0 <= z < 256 -> char_code (char_of_code z) = z.
Proof.
  intros Hz. unfold char_code, char_of_code. rewrite nat_ascii_embedding; lia.
Qed.

Lemma piece_letter (p : Piece) :
  type p <> PtNone ->
  fen_char p <> "/"%char
  /\ (char_code "1" <=? char_code (fen_char p)) && (char_code (fen_char p) <=? char_code "8")
     = false
  /\ from_fen_char (fen_char p) = p.
Proof.
  destruct p as [[] []]; intros H; try (exfalso; apply H; reflexivity);
    (split; [discriminate|]); split; reflexivity.
Qed.

Lemma square_of_file_rank (sq : Square) :
  valid_sq sq ->
  sq = make_square (file_of sq) (rank_of sq)
  /\ 0 <= file_of sq <= 7 /\ 0 <= rank_of sq <= 7.
Proof.
  intros Hsq. unfold valid_sq in Hsq.
  destruct (file_rank_bounds sq) as [E Hf].
  assert (Hr : 0 <= rank_of sq <= 7) by lia.
  split; [|split; assumption].
  rewrite make_square_eq by lia. lia.
Qed.

Section Placement.

Variable msg : string.
Variable b : Board.
Hypothesis Hok : board_ok b.

Lemma agrees_skip (b0 : Board) (rank f0 f1 : Z) :
  agrees b b0 rank f0 -> f0 <= f1 ->
  (forall f, f0 <= f < f1 -> 0 <= f <= 7 -> piece_at b (make_square f rank) = kNoPiece) ->
  agrees b b0 rank f1.
Proof.
  intros [Hb0 Hag] Hle Hfree. split; [exact Hb0|].
  intros sq Hsq. destruct (Hag sq Hsq) as [H1 H2].
  destruct (square_of_file_rank sq Hsq) as (E & Hf & Hr).
  split.
  - intros Hu. apply H1. destruct Hu as [Hu|[Hu Hu']]; [left; lia | right; lia].
  - intros Hn.
    destruct (Z.lt_ge_cases (rank_of sq) rank) as [Hlt|Hge];
      [exfalso; apply Hn; left; exact Hlt|].
    destruct (Z.eq_dec (rank_of sq) rank) as [Heq|Hne].
    + destruct (Z.lt_ge_cases (file_of sq) f0) as [Hf0|Hf0].
      * apply H2. intros [Hu|[_ Hu]]; lia.
      * rewrite H1 by (right; lia).
        destruct (Z.lt_ge_cases (file_of sq) f1) as [Hf1|Hf1].
        -- rewrite E, Heq. symmetry. apply Hfree; lia.
        -- exfalso. apply Hn. right. lia.
    + apply H2. intros [Hu|[Hu _]]; lia.
Qed.

Lemma parse_run (rest : string) (b0 : Board) (rank c empty : Z) :
  0 <= empty -> 0 <= c -> c + empty <= 8 ->
  placement_loop msg (run_text empty ++ rest) b0 rank c
  = placement_loop msg rest b0 rank (c + empty).
Proof.
  intros He Hc Hle. unfold run_text. destruct (Z.ltb_spec 0 empty) as [Hpos|Hz].
  - rewrite sapp_cons, sapp_nil_l. cbn [placement_loop].
    change (char_code "0") with 48. change (char_code "1") with 49.
    change (char_code "8") with 56.
    rewrite char_code_of_code by lia.
    destruct (decide (char_of_code (48 + empty) = "/"%char)) as [E|_].
    { exfalso. apply (f_equal char_code) in E. rewrite char_code_of_code in E by lia.
      change (char_code "/") with 47 in E. lia. }
    destruct (Z.leb_spec 49 (48 + empty)); [|lia].
    destruct (Z.leb_spec (48 + empty) 56); [|lia].
    cbn [andb]. cbv zeta.
    replace (c + (48 + empty - 48)) with (c + empty) by lia.
    destruct (Z.ltb_spec 8 (c + empty)); [lia|]. reflexivity.
  - rewrite sapp_nil_l. replace (c + empty) with c by lia. reflexivity.
Qed.

Lemma parse_rank (rank : Z) (rest : string) (n : nat) :
  forall (file empty c : Z) (b0 : Board),
  0 <= rank <= 7 -> 0 <= empty -> 0 <= c -> c + empty = file ->
  file + Z.of_nat n = 8 ->
  agrees b b0 rank c ->
  (forall f, c <= f < file -> piece_at b (make_square f rank) = kNoPiece) ->
  exists b1,
    placement_loop msg (rank_text b rank n file empty ++ rest) b0 rank c
    = placement_loop msg rest b1 rank 8
    /\ agrees b b1 rank 8.
Proof.
  induction n as [|n IH]; intros file empty c b0 Hrank He Hc Hsum Hn Hag Hfree;
    cbn [rank_text].
  - exists b0. split.
    + rewrite parse_run by lia. f_equal. lia.
    + apply (agrees_skip b0 rank c 8 Hag); [lia|]. intros f Hf _. apply Hfree. lia.
  - cbv zeta.
    destruct (file_of_square file rank ltac:(lia) ltac:(lia)) as (Hv & Hff & Hrr).
    destruct (bool_decide (piece_at b (make_square file rank) = kNoPiece)) eqn:Hp.
    + apply bool_decide_eq_true in Hp.
      apply (IH (file + 1) (empty + 1) c b0); try assumption; try lia.
      intros f Hf. destruct (Z.eq_dec f file) as [->|Hne]; [exact Hp|].
      apply Hfree. lia.
    + apply bool_decide_eq_false in Hp.
      assert (Hty : type (piece_at b (make_square file rank)) <> PtNone).
      { intros Hty. apply Hp. apply (ok_empty b Hok); assumption. }
      destruct (piece_letter _ Hty) as (Hslash & Hdigit & Hback).
      assert (Hag' : agrees b b0 rank file).
      { apply (agrees_skip b0 rank c file Hag); [lia|]. intros f Hf _. apply Hfree. exact Hf. }
      destruct Hag' as [Hb0 Hsq0].
      assert (Hfree0 : piece_at b0 (make_square file rank) = kNoPiece).
      { apply (Hsq0 _ Hv). right. lia. }
      destruct (IH (file + 1) 0 (file + 1)
                  (put_piece (make_square file rank) (piece_at b (make_square file rank)) b0))
        as (b1 & E1 & Hag1); try assumption; try lia.
      * split; [apply put_piece_ok; assumption|].
        intros sq Hsq. rewrite piece_at_put by (first [assumption | apply Hsq]).
        destruct (Hsq0 sq Hsq) as [H1 H2].
        destruct (Z.eqb_spec sq (make_square file rank)) as [->|Hne].
        -- split; [|reflexivity]. intros [Hu|[_ Hu]]; lia.
        -- split.
           ++ intros Hu. apply H1. destruct Hu as [Hu|[Hu Hu']]; [left; lia | right; lia].
           ++ intros Hu. apply H2. intros [Hu'|[Hu1 Hu2]]; apply Hu; [left; lia|].
              right. split; [exact Hu1|].
              destruct (Z.eq_dec (file_of sq) file) as [Hef|Hnf]; [|lia].
              exfalso. apply Hne.
              destruct (square_of_file_rank sq Hsq) as (E & _ & _).
              rewrite E, Hef, Hu1. reflexivity.
      * exists b1. split; [|exact Hag1]. rewrite <- E1.
        rewrite sapp_assoc, parse_run by lia. rewrite Hsum, sapp_cons.
        cbn [placement_loop].
        destruct (decide (fen_char (piece_at b (make_square file rank)) = "/"%char))
          as [E|_]; [contradiction|].
        rewrite Hdigit. destruct (Z.leb_spec 8 file); [lia|]. cbv zeta.
        rewrite Hback. rewrite bool_decide_eq_false_2 by exact Hty. reflexivity.
Qed.

Lemma parse_ranks (rest : string) (n : nat) :
  forall (rank r0 f0 : Z) (b0 : Board),
  Z.of_nat n = rank + 1 -> rank <= 7 ->
  (rank = 7 /\ r0 = 7 /\ f0 = 0) \/ (rank < 7 /\ r0 = rank + 1 /\ f0 = 8) ->
  agrees b b0 r0 f0 ->
  exists b1,
    placement_loop msg (placement_text b n rank ++ rest) b0 r0 f0
    = placement_loop msg rest b1 0 8
    /\ agrees b b1 0 8.
Proof.
  induction n as [|n IH]; intros rank r0 f0 b0 Hn Hrank Hstart Hag; cbn [placement_text].
  - exists b0. destruct Hstart as [(? & _)|(_ & -> & ->)]; [lia|].
    replace (rank + 1) with 0 in * by lia. split; [reflexivity | exact Hag].
  - assert (Hstep : placement_loop msg
                      (((if rank <? 7 then "/" else EmptyString)
                        ++ rank_text b rank 8 0 0 ++ placement_text b n (rank - 1)) ++ rest)
                      b0 r0 f0
                    = placement_loop msg
                        (rank_text b rank 8 0 0 ++ placement_text b n (rank - 1) ++ rest)
                        b0 rank 0
                    /\ agrees b b0 rank 0).
    { destruct Hstart as [(-> & -> & ->)|(Hlt & -> & ->)].
      - change (7 <? 7) with false. cbv iota. rewrite sapp_nil_l, sapp_assoc.
        split; [reflexivity | exact Hag].
      - destruct (Z.ltb_spec rank 7) as [_|]; [|lia].
        rewrite !sapp_assoc, sapp_cons, sapp_nil_l. cbn [placement_loop].
        destruct (decide ("/"%char = "/"%char)) as [_|Hne]; [|contradiction].
        change (negb (8 =? 8)) with false. cbv iota zeta.
        replace (rank + 1 - 1) with rank by lia.
        destruct (Z.ltb_spec rank 0); [lia|]. split; [reflexivity|].
        destruct Hag as [Hb0 Hsq0]. split; [exact Hb0|].
        intros sq Hsq. destruct (Hsq0 sq Hsq) as [H1 H2].
        destruct (square_of_file_rank sq Hsq) as (_ & Hf & _).
        split.
        + intros Hu. apply H1. destruct Hu as [Hu|[Hu _]]; left; lia.
        + intros Hu. apply H2. intros [Hu'|[_ Hu']]; [|lia].
          apply Hu. destruct (Z.eq_dec (rank_of sq) rank); [right; lia | left; lia]. }
    destruct Hstep as [-> Hag0].
    destruct (parse_rank rank (placement_text b n (rank - 1) ++ rest) 8 0 0 0 b0)
      as (b1 & E1 & Hag1); try assumption; try lia.
    rewrite E1.
    apply (IH (rank - 1) rank 8 b1); [lia | lia | right; lia | exact Hag1].
Qed.

Lemma parse_placement :
  placement_loop msg (placement_text b 8 7) empty_board 7 0 = Ok (b, 0, 8).
Proof.
  destruct (parse_ranks EmptyString 8 7 7 0 empty_board) as (b1 & E & [Hb1 Hag]).
  - reflexivity.
  - lia.
  - left. auto.
  - split; [apply empty_board_ok|]. intros sq Hsq.
    destruct (square_of_file_rank sq Hsq) as (_ & Hf & Hr).
    split.
    + intros _. unfold piece_at, empty_board. cbn [mailbox_].
      apply lookup_total_replicate_2. unfold valid_sq in Hsq. lia.
    + intros Hu. exfalso. apply Hu.
      destruct (Z.eq_dec (rank_of sq) 7); [right; lia | left; lia].
  - rewrite sapp_nil_r in E. rewrite E. cbn [placement_loop].
    assert (b1 = b) as ->; [|reflexivity].
    apply mailbox_ext; [assumption..|].
    intros sq Hsq. apply (Hag sq Hsq).
    destruct (square_of_file_rank sq Hsq) as (_ & Hf & Hr).
    intros [Hu|[_ Hu]]; lia.
Qed.

End Placement.

(** ** Splitting the text into its fields *)

Lemma split_loop_token (rest : string) (tok : string) :
  forall (c : ascii) (cur : string) (in_part : bool),
  c <> " "%char ->
  Forall (fun c => c <> " "%char) (list_ascii_of_string tok) ->
  split_loop (String c tok ++ rest) cur in_part
  = split_loop rest (cur ++ String c tok) true.
Proof.
  induction tok as [|c' tok IH]; intros c cur in_part Hc Htok;
    rewrite sapp_cons; cbn [split_loop];
    (destruct (decide (c = " "%char)) as [E|_]; [contradiction|]).
  - reflexivity.
  - cbn [list_ascii_of_string] in Htok. apply Forall_cons in Htok as [Hc' Htok].
    rewrite (IH c' _ true Hc' Htok). unfold string_of_char.
    rewrite sapp_assoc. reflexivity.
Qed.

Lemma split_loop_field (rest tok : string) :
  is_field tok -> split_loop (tok ++ rest) EmptyString false = split_loop rest tok true.
Proof.
  intros [Hne Hall]. destruct tok as [|c tok]; [contradiction|].
  cbn [list_ascii_of_string] in Hall. apply Forall_cons in Hall as [Hc Hall].
  rewrite (split_loop_token rest tok c EmptyString false Hc Hall). reflexivity.
Qed.

Lemma split_join_fields (toks : list string) :
  Forall is_field toks -> split_spaces (join_fields toks) = toks.
Proof.
  unfold split_spaces. induction toks as [|t ts IH]; intros Hall; [reflexivity|].
  apply Forall_cons in Hall as [Ht Hts]. destruct ts as [|t2 ts].
  - cbn [join_fields]. rewrite <- (sapp_nil_r t) at 1.
    rewrite split_loop_field by exact Ht. reflexivity.
  - change (join_fields (t :: t2 :: ts))
      with (t ++ String " "%char (join_fields (t2 :: ts)))%string.
    rewrite split_loop_field by exact Ht. cbn [split_loop].
    destruct (decide (" "%char = " "%char)) as [_|Hne]; [|contradiction].
    rewrite (IH Hts). reflexivity.
Qed.

(** ** The fields one by one *)

Lemma parsed_text_is_field (msg s : string) :
  forall (b0 : Board) (rank file : Z) (res : Board * Z * Z),
  placement_loop msg s b0 rank file = Ok res ->
  Forall (fun c => c <> " "%char) (list_ascii_of_string s).
Proof.
  induction s as [|ch rest IH]; intros b0 rank file res H; cbn [list_ascii_of_string];
    [constructor|].
  cbn [placement_loop] in H. destruct (decide (ch = "/"%char)) as [->|_].
  - constructor; [discriminate|].
    destruct (negb (file =? 8)); [discriminate H|]. cbv zeta in H.
    destruct (rank - 1 <? 0); [discriminate H|]. exact (IH _ _ _ _ H).
  - destruct ((char_code "1" <=? char_code ch) && (char_code ch <=? char_code "8")) eqn:Hd.
    + cbv zeta in H. destruct (8 <? file + (char_code ch - char_code "0"));
        [discriminate H|].
      constructor; [|exact (IH _ _ _ _ H)].
      intros ->. vm_compute in Hd. discriminate Hd.
    + destruct (8 <=? file); [discriminate H|]. cbv zeta in H.
      destruct (bool_decide (type (from_fen_char ch) = PtNone)) eqn:Hty; [discriminate H|].
      constructor; [|exact (IH _ _ _ _ H)].
      intros ->. vm_compute in Hty. discriminate Hty.
Qed.

Lemma placement_is_field (b : Board) : board_ok b -> is_field (placement_text b 8 7).
Proof.
  intros Hok. pose proof (parse_placement EmptyString b Hok) as H. split.
  - intros E. rewrite E in H. cbn [placement_loop] in H. discriminate H.
  - exact (parsed_text_is_field _ _ _ _ _ _ H).
Qed.

Lemma side_field (c : Color) :
  is_field (side_text c)
  /\ (if String.eqb (side_text c) "w" then Ok White
      else if String.eqb (side_text c) "b" then Ok Black
      else Err ("Invalid FEN side-to-move: " ++ side_text c)%string) = Ok c.
Proof.
  destruct c; (split; [|reflexivity]); (split; [discriminate|]);
    repeat constructor; discriminate.
Qed.

Lemma castling_table :
  forallb (fun cr =>
     bool_decide (is_field (castling_text cr))
     && match (if negb (String.eqb (castling_text cr) "-")
               then castling_loop (castling_text cr) kCastlingNone
               else Ok kCastlingNone) with
        | Ok cr' => cr' =? cr
        | Err _ => false
        end)
    (map Z.of_nat (seq 0 16)) = true.
Proof. vm_compute. reflexivity. Qed.

Lemma castling_field (cr : CastlingRights) :
  0 <= cr <= 15 ->
  is_field (castling_text cr)
  /\ (if negb (String.eqb (castling_text cr) "-")
      then castling_loop (castling_text cr) kCastlingNone
      else Ok kCastlingNone) = Ok cr.
Proof.
  intros Hcr. pose proof castling_table as H. rewrite forallb_forall in H.
  specialize (H cr). rewrite andb_true_iff, bool_decide_eq_true in H.
  destruct H as [Hf Hp].
  { apply in_map_iff. exists (Z.to_nat cr). split; [lia|]. apply in_seq. lia. }
  split; [exact Hf|].
  destruct (if negb (String.eqb (castling_text cr) "-")
            then castling_loop (castling_text cr) kCastlingNone
            else Ok kCastlingNone) as [cr'|msg]; [|discriminate Hp].
  apply Z.eqb_eq in Hp. rewrite Hp. reflexivity.
Qed.

Lemma ep_table :
  forallb (fun ep =>
     bool_decide (is_field (square_name ep))
     && negb (String.eqb (square_name ep) "-")
     && (parse_square (square_name ep) =? ep)) all_squares = true.
Proof. vm_compute. reflexivity. Qed.

Lemma ep_field (ep : Square) :
  ep = kNoSquare \/ valid_sq ep ->
  is_field (ep_text ep)
  /\ (if negb (String.eqb (ep_text ep) "-") then
        if parse_square (ep_text ep) =? kNoSquare
        then Err ("Invalid FEN en-passant square: " ++ ep_text ep)%string
        else Ok (parse_square (ep_text ep))
      else Ok kNoSquare) = Ok ep.
Proof.
  intros [->|Hv].
  - split; [|reflexivity]. split; [discriminate|]. repeat constructor. discriminate.
  - pose proof (all_squares_forallb _ ep ep_table Hv) as H.
    rewrite !andb_true_iff, bool_decide_eq_true in H. destruct H as [[Hf Hn] Hp].
    apply Z.eqb_eq in Hp. unfold ep_text.
    destruct (Z.eqb_spec ep kNoSquare) as [E|Hne].
    { unfold valid_sq, kNoSquare in *. lia. }
    split; [exact Hf|]. rewrite Hn. cbv iota. rewrite Hp.
    destruct (Z.eqb_spec ep kNoSquare) as [E|_]; [contradiction | reflexivity].
Qed.

(** ** The clocks *)

Lemma decimal_app (s t : string) :
  forall a, decimal (s ++ t) a = decimal t (decimal s a).
Proof.
  induction s as [|c s IH]; intros a; [reflexivity|].
  rewrite sapp_cons. cbn [decimal]. apply IH.
Qed.

Lemma digit_char (d : Z) :
  0 <= d <= 9 ->
  is_digit (char_of_code (char_code "0" + d)) = true
  /\ char_code (char_of_code (char_code "0" + d)) - char_code "0" = d.
Proof.
  intros Hd. unfold is_digit. change (char_code "0") with 48. change (char_code "9") with 57.
  rewrite char_code_of_code by lia. split; [|lia].
  apply andb_true_iff. split; apply Z.leb_le; lia.
Qed.

Lemma digits_of_text (fuel : nat) :
  forall (n : Z) (acc : string),
  0 <= n < 10 ^ Z.of_nat (S fuel) ->
  exists (ds : string) (k : Z),
    digits_of (S fuel) n acc = (ds ++ acc)%string
    /\ ds <> EmptyString
    /\ Forall (fun c => is_digit c = true) (list_ascii_of_string ds)
    /\ 0 <= k
    /\ forall a, decimal ds a = a * 10 ^ k + n.
Proof.
  induction fuel as [|fuel IH]; intros n acc Hn.
  - change (10 ^ Z.of_nat 1) with 10 in Hn.
    destruct (digit_char n ltac:(lia)) as [Hd Hv].
    exists (String (char_of_code (char_code "0" + n)) EmptyString), 1.
    cbn [digits_of]. cbv zeta. rewrite Z.mod_small by lia.
    destruct (Z.ltb_spec n 10); [|lia].
    split; [reflexivity|]. split; [discriminate|]. split; [repeat constructor; exact Hd|].
    split; [lia|]. intros a. cbn [decimal]. rewrite Hv. lia.
  - pose proof (Z.mod_pos_bound n 10 ltac:(lia)) as Hm.
    pose proof (Z.div_mod n 10 ltac:(lia)) as Hdm.
    destruct (digit_char (n mod 10) ltac:(lia)) as [Hd Hv].
    remember (S fuel) as f eqn:Ef.
    cbn [digits_of]. cbv zeta. destruct (Z.ltb_spec n 10) as [Hlt|Hge].
    + exists (String (char_of_code (char_code "0" + n mod 10)) EmptyString), 1.
      split; [reflexivity|]. split; [discriminate|].
      split; [repeat constructor; exact Hd|]. split; [lia|].
      intros a. cbn [decimal]. rewrite Hv, Z.mod_small by lia. lia.
    + subst f.
      destruct (IH (n / 10) (String (char_of_code (char_code "0" + n mod 10)) acc))
        as (ds & k & E & Hne & Hall & Hk & Hdec).
      { split; [apply Z.div_pos; lia|].
        apply Z.div_lt_upper_bound; [lia|].
        replace (Z.of_nat (S (S fuel))) with (Z.succ (Z.of_nat (S fuel))) in Hn by lia.
        rewrite Z.pow_succ_r in Hn by lia. lia. }
      exists (ds ++ String (char_of_code (char_code "0" + n mod 10)) EmptyString)%string,
        (k + 1).
      split; [rewrite E, sapp_assoc; reflexivity|].
      split; [destruct ds; [contradiction | discriminate]|].
      split; [rewrite chars_app; apply Forall_app; split;
              [exact Hall | repeat constructor; exact Hd]|].
      split; [lia|].
      intros a. rewrite decimal_app, Hdec. cbn [decimal]. rewrite Hv.
      rewrite Z.pow_add_r by lia. lia.
Qed.

Lemma clock_field (v min_val : Z) :
  0 <= v <= kIntMax -> min_val <= v ->
  is_field (to_string v) /\ parse_int (to_string v) min_val = Ok v.
Proof.
  intros Hv Hmin. unfold to_string. destruct (Z.ltb_spec v 0) as [Hneg|_]; [lia|].
  destruct (digits_of_text 9 v EmptyString) as (ds & k & E & Hne & Hall & _ & Hdec).
  { unfold kIntMax in Hv. change (10 ^ Z.of_nat 10) with 10000000000. lia. }
  rewrite E, sapp_nil_r. clear E.
  assert (Hval : decimal ds 0 = v) by (rewrite Hdec; lia).
  split.
  - split; [exact Hne|]. eapply Forall_impl; [exact Hall|].
    intros c Hc ->. vm_compute in Hc. discriminate Hc.
  - pose proof (parse_int_spec ds min_val) as H.
    destruct (parse_int ds min_val) as [v'|msg].
    + destruct H as ([[_ ->]|(ds' & -> & _)] & _); [rewrite Hval; reflexivity|].
      exfalso. cbn [list_ascii_of_string] in Hall. apply Forall_cons in Hall as [Hc _].
      vm_compute in Hc. discriminate Hc.
    + exfalso. apply (proj1 H). exists v. split; [left; split; [split; assumption | auto]|].
      split; [unfold in_int, kIntMin, kIntMax in *; lia | exact Hmin].
Qed.

(** ** The round trip *)

Lemma fen_fields_are_fields (p : Position) :
  describable p -> Forall is_field (fen_fields p).
Proof.
  intros [Hb Hcr Hep Hhm Hfm]. unfold fen_fields.
  repeat (apply Forall_cons; split); [..|constructor].
  - apply placement_is_field, Hb.
  - apply side_field.
  - apply castling_field, Hcr.
  - apply ep_field, Hep.
  - apply (clock_field _ 0); lia.
  - apply (clock_field _ 1); lia.
Qed.

Lemma from_fen_of_text (p : Position) :
  describable p ->
  from_fen (to_fen p)
  = Ok (new_position (board_ p) (side_to_move_ p) (castling_ p) (en_passant_ p)
          (halfmove_clock_ p) (fullmove_number_ p)).
Proof.
  intros Hd. pose proof (fen_fields_are_fields p Hd) as Hfields.
  destruct Hd as [Hb Hcr Hep Hhm Hfm].
  unfold from_fen. cbv zeta. rewrite to_fen_text, (split_join_fields _ Hfields).
  set (fen := join_fields (fen_fields p)).
  unfold fen_fields. cbn [length part nth Nat.ltb Nat.leb orb].
  rewrite (parse_placement fen (board_ p) Hb). cbn [bind]. cbv beta iota.
  change (negb (0 =? 0) || negb (8 =? 8)) with false. cbv iota.
  rewrite (proj2 (side_field (side_to_move_ p))). cbn [bind].
  rewrite (proj2 (castling_field (castling_ p) Hcr)). cbn [bind].
  rewrite (proj2 (ep_field (en_passant_ p) Hep)). cbn [bind].
  rewrite (proj2 (clock_field (halfmove_clock_ p) 0 Hhm ltac:(lia))). cbn [bind].
  rewrite (proj2 (clock_field (fullmove_number_ p) 1 ltac:(lia) ltac:(lia))). cbn [bind].
  reflexivity.
Qed.

(** X26.  Writing a position as a descriptor and reading the descriptor
    back gives the position again.  For a position with a coherent board,
    castling rights among the four, an en-passant square of the board or
    none, a half-move clock from 0 and a move number from 1 that fit [int],
    [from_fen] accepts the text of [to_fen] and returns the position built
    from the same board, side to move, castling rights, en-passant square
    and clocks.  In particular a position that [from_fen] returned is read
    back unchanged from its own text. *)
Theorem to_fen_round_trip (p : Position) :
  (describable p ->
     from_fen (to_fen p)
     = Ok (new_position (board_ p) (side_to_move_ p) (castling_ p) (en_passant_ p)
             (halfmove_clock_ p) (fullmove_number_ p)))
  /\ (forall fen : string, from_fen fen = Ok p -> from_fen (to_fen p) = Ok p).
Proof.
  split; [apply from_fen_of_text|].
  intros fen H.
  destruct (from_fen_fields fen p H)
    as (b & side & cr & ep & hm & fm & Hp & Hb & Hcr & Hep & Hhm & Hfm).
  destruct (new_position_fields b side cr ep hm fm) as (F1 & F2 & F3 & F4 & F5 & _).
  pose proof (side_of_new_position b side cr ep hm fm) as F0.
  rewrite Hp in F0, F1, F2, F3, F4, F5.
  rewrite from_fen_of_text.
  - rewrite F0, F1, F2, F3, F4, F5, Hp. reflexivity.
  - constructor; [rewrite F1 | rewrite F2 | rewrite F3 | rewrite F4 | rewrite F5];
      first [assumption | lia].
Qed.

Lemma to_fen_round_trip_witness :
  from_fen (to_fen initial) = Ok initial.
Proof.
  exact (proj2 (to_fen_round_trip initial) kStartingFen initial_parses).
Defined.


(** * Move ordering *)

Import search_cpp.

Section Ordering.
Variable score_of : Move -> Z.

Lemma select_best_max (ml : MoveList) (n : nat) :
  forall (j best_idx : nat),
  let r := select_best score_of ml j n best_idx (score_of (ml !!! best_idx)) in
  (r = best_idx \/ (j <= r < j + n)%nat)
  /\ score_of (ml !!! best_idx) <= score_of (ml !!! r)
  /\ forall k, (j <= k < j + n)%nat -> score_of (ml !!! k) <= score_of (ml !!! r).
Proof.
  induction n as [|n IH]; intros j bi; cbn [select_best]; cbv zeta.
  - split; [left; reflexivity|]. split; [lia|]. intros k Hk. lia.
  - destruct (Z.ltb_spec (score_of (ml !!! bi)) (score_of (ml !!! j))) as [Hlt|Hge].
    + destruct (IH (S j) j) as (Hr & Hb & Hall). cbv zeta in Hr, Hb, Hall.
      split; [right; lia|]. split; [lia|].
      intros k Hk. destruct (decide (k = j)) as [->|Hne]; [exact Hb | apply Hall; lia].
    + destruct (IH (S j) bi) as (Hr & Hb & Hall). cbv zeta in Hr, Hb, Hall.
      split; [destruct Hr; [left; assumption | right; lia]|]. split; [exact Hb|].
      intros k Hk. destruct (decide (k = j)) as [->|Hne]; [lia | apply Hall; lia].
Qed.

Lemma order_loop_sorts (n : nat) :
  forall (i : nat) (ml : MoveList),
  (i + n = length ml)%nat -> placed score_of ml i ->
  order_loop score_of ml i n ≡ₚ ml
  /\ length (order_loop score_of ml i n) = length ml
  /\ placed score_of (order_loop score_of ml i n) (length ml).
Proof.
  induction n as [|n IH]; intros i ml Hlen Hpl; cbn [order_loop].
  - split; [reflexivity|]. split; [reflexivity|].
    replace (length ml) with i by lia. exact Hpl.
  - cbv zeta.
    destruct (select_best_max ml (length ml - S i) (S i) i) as (Hr & Hb & Hall).
    cbv zeta in Hr, Hb, Hall. unfold MoveList in *.
    set (r := select_best score_of ml (S i) (length ml - S i) i (score_of (ml !!! i))) in *.
    assert (Hri : (i <= r < length ml)%nat) by (destruct Hr; lia).
    assert (Hmax : forall k, (i <= k < length ml)%nat ->
              score_of (ml !!! k) <= score_of (ml !!! r)).
    { intros k Hk. destruct (decide (k = i)) as [->|Hne]; [exact Hb | apply Hall; lia]. }
    set (ml' := if bool_decide (r <> i)
                then <[i := ml !!! r]> (<[r := ml !!! i]> ml) else ml).
    assert (Hlen' : length ml' = length ml).
    { unfold ml'. destruct (bool_decide (r <> i)); [|reflexivity].
      unfold MoveList in *. rewrite !length_insert. reflexivity. }
    assert (Hperm : ml' ≡ₚ ml).
    { unfold ml'. destruct (bool_decide (r <> i)); [|reflexivity].
      apply Permutation_insert_swap; apply list_lookup_lookup_total_lt; lia. }
    assert (Hat : forall k, (k < length ml)%nat ->
              ml' !!! k = if decide (k = i) then ml !!! r
                          else if decide (k = r) then ml !!! i else ml !!! k).
    { intros k Hk. unfold ml'. case_bool_decide as Hne.
      - unfold MoveList in *. rewrite !list_lookup_total_insert, !length_insert.
        repeat destruct (decide _); try reflexivity; try lia; try tauto.
      - assert (r = i) as -> by (destruct (decide (r = i)); [assumption | tauto]).
        repeat destruct (decide _); subst; reflexivity. }
    assert (Hpl' : placed score_of ml' (S i)).
    { intros a b Hab Hb' Ha. rewrite Hlen' in Hb'.
      rewrite (Hat a), (Hat b) by lia.
      destruct (decide (a = i)) as [->|Hai].
      - destruct (decide (b = i)); [lia|].
        destruct (decide (b = r)); apply Hmax; lia.
      - destruct (decide (a = r)); [lia|].
        destruct (decide (b = i)); [apply Hpl; lia|].
        destruct (decide (b = r)); apply Hpl; lia. }
    destruct (IH (S i) ml' ltac:(lia) Hpl') as (P1 & P2 & P3).
    fold r. fold ml'.
    split; [rewrite P1; exact Hperm|]. split; [lia|].
    rewrite <- Hlen'. exact P3.
Qed.

End Ordering.

(** X27.  [order_moves] rearranges the list and loses nothing: the result
    is a permutation of the moves it was given, and it is sorted by
    [move_score] from the highest score down, so the first move has the
    highest score of all. *)
Theorem order_moves_sorts (s : Search) (pos : Position) (ml : MoveList) (tt_move : Move)
    (ply : Z) (a b : nat) :
  order_moves s pos ml tt_move ply ≡ₚ ml
  /\ length (order_moves s pos ml tt_move ply) = length ml
  /\ ((a < b < length ml)%nat ->
      move_score s pos (order_moves s pos ml tt_move ply !!! b) tt_move ply
      <= move_score s pos (order_moves s pos ml tt_move ply !!! a) tt_move ply).
Proof.
  unfold order_moves.
  destruct (order_loop_sorts (fun m => move_score s pos m tt_move ply) (length ml) 0 ml)
    as (P1 & P2 & P3); [lia | intros x y Hxy Hy Hx; lia |].
  split; [exact P1|]. split; [exact P2|].
  intros Hab. apply (P3 a b); lia.
Qed.

Lemma order_moves_sorts_witness :
  length (order_moves (new_Search 1) initial (fst (movegen.legal initial)) kNullMove 0)
  = length (fst (movegen.legal initial)).
Proof.
  destruct (order_moves_sorts (new_Search 1) initial (fst (movegen.legal initial))
              kNullMove 0 0 1) as (_ & H & _).
  exact H.
Defined.

